(** * cs40l26 vibrator HAL: waveform encoder and playback state machine

    A shallow embedding of [vibrator/cs40l26/Vibrator.cpp]: the
    [DspMemChunk] bit writer, the two composers ([compose],
    [composePwle]), the gain scaler ([amplitudeToScale]) and the
    playback entry points ([on], [off], [waitForComplete]), followed by
    the properties proved of them. *)

From Stdlib Require Import ZArith Bool List Lia SpecFloat.
From coqutil Require Import Z.bitblast.
From stdpp Require Import base list.

Local Open Scope Z_scope.

(** ** Single-precision floats

    The C++ [float] is IEEE binary32.  Its values and operations are
    those of [SpecFloat] at precision 24 and maximal exponent 128. *)

Module F32.

Definition prec : Z := 24.
Definition emax : Z := 128.

Abbreviation float := spec_float.

Definition mul : float -> float -> float := SFmul prec emax.
Definition div : float -> float -> float := SFdiv prec emax.
Definition eqb : float -> float -> bool := SFeqb.
Definition ltb : float -> float -> bool := SFltb.
(** [x != y] is the negation of [==]; it holds when either side is NaN. *)
Definition neb (x y : float) : bool := negb (SFeqb x y).
(** [x > y] is [y < x]. *)
Definition gtb (x y : float) : bool := SFltb y x.

(** Conversion of an integer to [float] (round to nearest even). *)
Definition of_Z (n : Z) : float := binary_normalize prec emax n 0 false.

(** The literal [p / q] for a decimal constant such as [0.95f]: both
    integers are exact floats, and the division rounds correctly. *)
Definition of_ratio (p q : Z) : float := div (of_Z p) (of_Z q).

Definition zero : float := S754_zero false.

(** [std::round], [roundf], [std::lround]: the nearest integer, halfway
    cases away from zero.  The result is integral, so it is kept as an
    integer; NaN and the infinities have none. *)
Definition round (x : float) : option Z :=
  match x with
  | S754_zero _ => Some 0
  | S754_finite s m e =>
      let n := if 0 <=? e then Z.pos m * 2 ^ e
               else (Z.pos m + 2 ^ (- e - 1)) / 2 ^ (- e) in
      Some (if s then - n else n)
  | _ => None
  end.

(** Conversion of a rounded value to an unsigned integer type of
    [bits] bits.  C++ leaves it undefined when the value is out of the
    range of the type (or when there is no value). *)
Definition to_unsigned (bits : Z) (n : option Z) : option Z :=
  match n with
  | Some n => if (0 <=? n) && (n <? 2 ^ bits) then Some n else None
  | None => None
  end.

(** Conversion to [long] (64 bits); unspecified out of range. *)
Definition to_long (n : option Z) : option Z :=
  match n with
  | Some n => if (- 2 ^ 63 <=? n) && (n <? 2 ^ 63) then Some n else None
  | None => None
  end.

Definition is_zero (x : float) : bool :=
  match x with S754_zero _ => true | _ => false end.

Definition is_nan (x : float) : bool :=
  match x with S754_nan => true | _ => false end.



End F32.

#[global] Instance float_inhabited : Inhabited F32.float :=
  populate (S754_zero false).

(** ** Constants of the source file *)

Definition FF_CUSTOM_DATA_LEN_MAX_COMP : Z := 2044.
Definition FF_CUSTOM_DATA_LEN_MAX_PWLE : Z := 2302.
Definition WAVEFORM_DOUBLE_CLICK_SILENCE_MS : Z := 100.
Definition WAVEFORM_LONG_VIBRATION_THRESHOLD_MS : Z := 50.
Definition VOLTAGE_SCALE_MAX : Z := 100.
Definition MAX_COLD_START_LATENCY_MS : Z := 6.
Definition MAX_PAUSE_TIMING_ERROR_MS : Z := 1.
Definition MAX_TIME_MS : Z := 65535.
Definition POLLING_TIMEOUT : Z := 20.
Definition COMPOSE_DELAY_MAX_MS : Z := 10000.
Definition COMPOSE_SIZE_MAX : Z := 254.
Definition COMPOSE_PWLE_SIZE_MAX_DEFAULT : Z := 127.
Definition COMPOSE_PWLE_PRIMITIVE_DURATION_MAX_MS : Z := 16383.
Definition WT_LEN_CALCD : Z := 0x00800000.
Definition PWLE_CHIRP_BIT : Z := 0x8.
Definition PWLE_BRAKE_BIT : Z := 0x4.
Definition PWLE_AMP_REG_BIT : Z := 0x2.
Definition PWLE_LEVEL_MIN : F32.float := F32.of_Z 0.
Definition PWLE_LEVEL_MAX : F32.float := F32.of_Z 1.
Definition CS40L26_PWLE_LEVEL_MIN : F32.float := F32.of_Z (-1).
Definition CS40L26_PWLE_LEVEL_MAX : F32.float := F32.of_ratio 9995118 10000000.
Definition PWLE_FREQUENCY_MIN_HZ : F32.float := F32.of_Z 1.
Definition PWLE_FREQUENCY_MAX_HZ : F32.float := F32.of_Z 1000.
Definition GPIO_TRIGGER_CONFIG : Z := 0x9100.

(** ** [amplitudeToScale] *)

Definition amplitudeToScale (amplitude maximum : F32.float) : option Z :=
  let ratio := F32.of_Z 100 in
  let ratio :=
    if F32.neb maximum F32.zero
    then F32.mul (F32.div amplitude maximum) (F32.of_Z 100)
    else ratio in
  let ratio :=
    if F32.eqb maximum F32.zero || F32.gtb ratio (F32.of_Z 100)
    then F32.of_Z 100
    else ratio in
  F32.to_unsigned 16 (F32.round ratio).


(** ** [errno] values and waveform indices *)

Definition ENOMEM : Z := 12.
Definition EINVAL : Z := 22.
Definition ENOSPC : Z := 28.
Definition EDOM : Z := 33.
Definition ERANGE : Z := 34.

Definition WAVEFORM_LONG_VIBRATION_EFFECT_INDEX : Z := 0.
Definition WAVEFORM_RESERVED_INDEX_1 : Z := 1.
Definition WAVEFORM_CLICK_INDEX : Z := 2.
Definition WAVEFORM_SHORT_VIBRATION_EFFECT_INDEX : Z := 3.
Definition WAVEFORM_THUD_INDEX : Z := 4.
Definition WAVEFORM_SPIN_INDEX : Z := 5.
Definition WAVEFORM_QUICK_RISE_INDEX : Z := 6.
Definition WAVEFORM_SLOW_RISE_INDEX : Z := 7.
Definition WAVEFORM_QUICK_FALL_INDEX : Z := 8.
Definition WAVEFORM_LIGHT_TICK_INDEX : Z := 9.
Definition WAVEFORM_LOW_TICK_INDEX : Z := 10.
Definition WAVEFORM_RESERVED_MFG_1 : Z := 11.
Definition WAVEFORM_RESERVED_MFG_2 : Z := 12.
Definition WAVEFORM_RESERVED_MFG_3 : Z := 13.
Definition WAVEFORM_MAX_PHYSICAL_INDEX : Z := 14.
Definition WAVEFORM_COMPOSE : Z := WAVEFORM_MAX_PHYSICAL_INDEX.
Definition WAVEFORM_PWLE : Z := 15.
Definition WAVEFORM_MAX_INDEX : Z := 16.

(** Wrap-around of the fixed-width unsigned types. *)
Definition u8 (x : Z) : Z := x mod 2 ^ 8.
Definition u16 (x : Z) : Z := x mod 2 ^ 16.
Definition u32 (x : Z) : Z := x mod 2 ^ 32.

(** The Braking enumeration of the vibrator interface.  It is backed by
    an [int]: a value of the type need not be one of the two that are
    named, and the source compares and tests the underlying value. *)
Inductive Braking := NONE | CLAB | Braking_other (value : Z).

Definition Braking_underlying (b : Braking) : Z :=
  match b with NONE => 0 | CLAB => 1 | Braking_other value => value end.

(** ** [DspMemChunk]: the bit writer

    [head] is the backing array of [_max] bytes; [_current] and [_max]
    are kept as offsets from [head].  A store outside the array is out
    of the allocation in C++; the list update leaves the list as it is
    there, and the cursor moves all the same. *)

Module DspMemChunk.

Record t := mk {
  head : list Z;
  bytes : Z;
  waveformType : Z;
  _current : nat;
  _max : nat;
  _cache : Z;
  _cachebits : Z
}.

Definition isEnd (c : t) : bool := Nat.eqb (_current c) (_max c).

Definition min (x y : Z) : Z := if x <? y then x else y.

(** [*_current++ = b] *)
Definition put (b : Z) (c : t) : t :=
  mk (<[_current c := b]> (head c)) (bytes c) (waveformType c)
     (S (_current c)) (_max c) (_cache c) (_cachebits c).

(** One turn of [for (i = 0; i < sizeof(_cache); i++, _cache <<= 8)]. *)
Definition put_cache_byte (c : t) : t :=
  let c := put (Z.shiftr (Z.land (_cache c) 0xFF000000) 24) c in
  mk (head c) (bytes c) (waveformType c) (_current c) (_max c)
     (u32 (Z.shiftl (_cache c) 8)) (_cachebits c).

(** [write]: the recursion consumes at least one bit a call once the
    accumulator has room, so [nbits] calls and two more are enough;
    [write_rec_fuel] below shows that the count does not matter. *)
Fixpoint write_rec (fuel : nat) (nbits : Z) (val : Z) (c : t) : Z * t :=
  match fuel with
  | O => (0, c)
  | S fuel =>
      let nwrite := min (24 - _cachebits c) nbits in
      let cache := u32 (Z.shiftl (_cache c) nwrite) in
      let cache := Z.lor cache (Z.shiftr val (nbits - nwrite)) in
      let cachebits := _cachebits c + nwrite in
      let nbits := nbits - nwrite in
      let c := mk (head c) (bytes c) (waveformType c) (_current c) (_max c)
                  cache cachebits in
      if cachebits =? 24 then
        if isEnd c then (- ENOSPC, c)
        else
          let c := mk (head c) (bytes c) (waveformType c) (_current c)
                      (_max c) (Z.land (_cache c) 0xFFFFFF) (_cachebits c) in
          let c := put_cache_byte (put_cache_byte
                     (put_cache_byte (put_cache_byte c))) in
          let c := mk (head c) (bytes c + 4) (waveformType c) (_current c)
                      (_max c) (_cache c) 0 in
          if negb (nbits =? 0) then write_rec fuel nbits val c else (0, c)
      else
        if negb (nbits =? 0) then write_rec fuel nbits val c else (0, c)
  end.

Definition write (nbits : Z) (val : Z) (c : t) : Z * t :=
  write_rec (S (S (Z.to_nat nbits))) nbits (u32 val) c.

(** A call whose result is dropped. *)
Definition write_ (nbits : Z) (val : Z) (c : t) : t := snd (write nbits val c).

(** [fToU16]: [None] where the conversion to [uint16_t] is undefined. *)
Definition fToU16 (input : F32.float) (scale min max : F32.float)
  : option (Z + Z) :=
  if F32.ltb input min || F32.gtb input max then Some (inl (- ERANGE))
  else match F32.to_unsigned 16 (F32.round (F32.mul input scale)) with
       | Some output => Some (inr output)
       | None => None
       end.

Definition constructPwleSegment (delay amplitude frequency flags : Z)
    (vbemfTarget : Z) (c : t) : t :=
  let delay := u16 delay in
  let amplitude := u16 amplitude in
  let frequency := u16 frequency in
  let flags := u8 flags in
  let c := write_ 16 delay c in
  let c := write_ 12 amplitude c in
  let c := write_ 12 frequency c in
  let c := write_ 8 (Z.shiftl (Z.lor flags 1) 4) c in
  if negb (Z.land flags PWLE_AMP_REG_BIT =? 0)
  then write_ 24 vbemfTarget c
  else c.

Definition front (c : t) : list Z := head c.
Definition type (c : t) : Z := waveformType c.
Definition size (c : t) : Z := bytes c.

(** The constructor: [new uint8_t[size]{0x00}] is all zeroes. *)
Definition new (type : Z) (size : nat) : t :=
  let c := mk (replicate size 0) 0 type 0%nat size 0 0 in
  if waveformType c =? WAVEFORM_COMPOSE then
    let c := write_ 8 0 c in
    let c := write_ 8 0 c in
    write_ 8 0 c
  else if waveformType c =? WAVEFORM_PWLE then
    let c := write_ 24 0 c in
    let c := write_ 8 0 c in
    let c := write_ 12 0 c in
    write_ 8 0 c
  else c.

Definition flush (c : t) : Z * t :=
  if _cachebits c =? 0 then (0, c)
  else write (24 - _cachebits c) 0 c.

Definition constructComposeSegment (effectVolLevel effectIndex : Z)
    (repeat flags : Z) (nextEffectDelay : Z) (c : t) : Z * t :=
  let effectVolLevel := u32 effectVolLevel in
  let effectIndex := u32 effectIndex in
  let repeat := u8 repeat in
  let flags := u8 flags in
  let nextEffectDelay := u16 nextEffectDelay in
  if negb (waveformType c =? WAVEFORM_COMPOSE) then (- EDOM, c)
  else if (effectVolLevel >? 100) || (effectIndex >? WAVEFORM_MAX_PHYSICAL_INDEX)
  then (- EINVAL, c)
  else
    let c := write_ 8 effectVolLevel c in
    let c := write_ 8 effectIndex c in
    let c := write_ 8 repeat c in
    let c := write_ 8 flags c in
    let c := write_ 16 nextEffectDelay c in
    (0, c).

(** The results are [None] where a conversion is undefined. *)
Definition constructActiveSegment (duration : Z)
    (amplitude frequency : F32.float) (chirp : bool) (c : t)
  : option (Z * t) :=
  if negb (waveformType c =? WAVEFORM_PWLE) then Some (- EDOM, c)
  else
    match fToU16 (F32.of_Z duration) (F32.of_Z 4) (F32.of_Z 0)
                 (F32.of_Z COMPOSE_PWLE_PRIMITIVE_DURATION_MAX_MS) with
    | None => None
    | Some (inl _) => Some (- ERANGE, c)
    | Some (inr delay) =>
    match fToU16 amplitude (F32.of_Z 2048) CS40L26_PWLE_LEVEL_MIN
                 CS40L26_PWLE_LEVEL_MAX with
    | None => None
    | Some (inl _) => Some (- ERANGE, c)
    | Some (inr amp) =>
    match fToU16 frequency (F32.of_Z 4) PWLE_FREQUENCY_MIN_HZ
                 PWLE_FREQUENCY_MAX_HZ with
    | None => None
    | Some (inl _) => Some (- ERANGE, c)
    | Some (inr freq) =>
        let flags := 0 in
        let flags := if chirp then Z.lor flags PWLE_CHIRP_BIT else flags in
        Some (0, constructPwleSegment delay amp freq flags 0 c)
    end end end.

Definition constructBrakingSegment (duration : Z) (brakingType : Braking)
    (c : t) : option (Z * t) :=
  if negb (waveformType c =? WAVEFORM_PWLE) then Some (- EDOM, c)
  else
    match fToU16 (F32.of_Z duration) (F32.of_Z 4) (F32.of_Z 0)
                 (F32.of_Z COMPOSE_PWLE_PRIMITIVE_DURATION_MAX_MS) with
    | None => None
    | Some (inl _) => Some (- ERANGE, c)
    | Some (inr delay) =>
    match fToU16 PWLE_FREQUENCY_MIN_HZ (F32.of_Z 4) PWLE_FREQUENCY_MIN_HZ
                 PWLE_FREQUENCY_MAX_HZ with
    | None => None
    | Some r =>
        let freq := match r with inr freq => freq | inl _ => 0 end in
        let flags := 0 in
        let flags := if negb (Braking_underlying brakingType =? 0)
                     then Z.lor flags PWLE_BRAKE_BIT else flags in
        Some (0, constructPwleSegment delay 0 freq flags 0 c)
    end end.

Definition set_head (h : list Z) (c : t) : t :=
  mk h (bytes c) (waveformType c) (_current c) (_max c) (_cache c)
     (_cachebits c).

(** [front()] is never null here: the array is allocated by [new]. *)
Definition updateWLength (totalDuration : Z) (c : t) : Z * t :=
  let totalDuration := u32 totalDuration in
  let f := front c in
  if negb (waveformType c =? WAVEFORM_PWLE) then (- EDOM, c)
  else if totalDuration >? 0x7FFFF then (- EINVAL, c)
  else
    let totalDuration := u32 (totalDuration * 8) in
    let totalDuration := Z.lor totalDuration WT_LEN_CALCD in
    let f := <[0%nat := Z.land (Z.shiftr totalDuration 24) 0xFF]> f in
    let f := <[1%nat := Z.land (Z.shiftr totalDuration 16) 0xFF]> f in
    let f := <[2%nat := Z.land (Z.shiftr totalDuration 8) 0xFF]> f in
    let f := <[3%nat := Z.land totalDuration 0xFF]> f in
    (0, set_head f c).

Definition updateNSection (segmentIdx : Z) (c : t) : Z * t :=
  let f := front c in
  if waveformType c =? WAVEFORM_COMPOSE then
    if segmentIdx >? COMPOSE_SIZE_MAX + 1 then (- EINVAL, c)
    else (0, set_head (<[2%nat := Z.land 0xFF segmentIdx]> f) c)
  else if waveformType c =? WAVEFORM_PWLE then
    if segmentIdx >? COMPOSE_PWLE_SIZE_MAX_DEFAULT then (- EINVAL, c)
    else
      let f := <[7%nat := u8 (Z.lor (f !!! 7%nat)
                            (Z.shiftr (Z.land 0xF0 segmentIdx) 4))]> f in
      let f := <[9%nat := u8 (Z.lor (f !!! 9%nat)
                            (Z.shiftl (Z.land 0x0F segmentIdx) 4))]> f in
      (0, set_head f c)
  else (- EDOM, c).

End DspMemChunk.


(** ** Interface types *)

Inductive CompositePrimitive :=
  | NOOP | CLICK | THUD | SPIN | QUICK_RISE | SLOW_RISE | QUICK_FALL
  | LIGHT_TICK | LOW_TICK.

Definition CompositePrimitive_underlying (p : CompositePrimitive) : Z :=
  match p with
  | NOOP => 0 | CLICK => 1 | THUD => 2 | SPIN => 3 | QUICK_RISE => 4
  | SLOW_RISE => 5 | QUICK_FALL => 6 | LIGHT_TICK => 7 | LOW_TICK => 8
  end.

Definition CompositePrimitive_eqb (p q : CompositePrimitive) : bool :=
  CompositePrimitive_underlying p =? CompositePrimitive_underlying q.

Record CompositeEffect := {
  delayMs : Z;
  primitive : CompositePrimitive;
  scale : F32.float
}.

Record ActivePwle := {
  startAmplitude : F32.float;
  startFrequency : F32.float;
  endAmplitude : F32.float;
  endFrequency : F32.float;
  active_duration : Z
}.

Record BrakingPwle := {
  braking_braking : Braking;
  braking_duration : Z
}.

Inductive PrimitivePwle :=
  | active (a : ActivePwle)
  | braking (b : BrakingPwle).

(** Binder exception codes and capability bits of the interface. *)
Definition EX_NONE : Z := 0.
Definition EX_ILLEGAL_ARGUMENT : Z := -3.
Definition EX_NULL_POINTER : Z := -4.
Definition EX_ILLEGAL_STATE : Z := -5.
Definition EX_UNSUPPORTED_OPERATION : Z := -7.

Definition CAP_ON_CALLBACK : Z := 1.
Definition CAP_PERFORM_CALLBACK : Z := 2.
Definition CAP_AMPLITUDE_CONTROL : Z := 4.
Definition CAP_EXTERNAL_CONTROL : Z := 8.
Definition CAP_COMPOSE_EFFECTS : Z := 32.
Definition CAP_GET_RESONANT_FREQUENCY : Z := 128.
Definition CAP_GET_Q_FACTOR : Z := 256.
Definition CAP_FREQUENCY_CONTROL : Z := 512.
Definition CAP_COMPOSE_PWLE_EFFECTS : Z := 1024.

(** [FF_MAX_EFFECTS] is [FF_GAIN] of [<linux/input.h>]. *)
Definition FF_MAX_EFFECTS : Z := 0x60.

Definition VIBE_STATE_STOPPED : Z := 0.
Definition VIBE_STATE_HAPTIC : Z := 1.

(** Tables the constructor fills once; nothing writes them afterwards. *)
Definition mEffectDurations : list Z :=
  [1000; 100; 12; 1000; 300; 130; 150; 500; 100; 5; 12; 1000; 1000; 1000].

Definition mPrimitiveMaxScale : list F32.float :=
  [F32.of_Z 1; F32.of_ratio 95 100; F32.of_ratio 75 100; F32.of_ratio 9 10;
   F32.of_Z 1; F32.of_Z 1; F32.of_Z 1; F32.of_ratio 75 100;
   F32.of_ratio 75 100].

Definition mPrimitiveMinScale : list F32.float :=
  [F32.of_Z 0; F32.of_ratio 1 100; F32.of_ratio 11 100; F32.of_ratio 23 100;
   F32.of_Z 0; F32.of_ratio 25 100; F32.of_ratio 2 100; F32.of_ratio 3 100;
   F32.of_ratio 16 100].

(** ** The hardware seen from the HAL

    [HwApi], [HwCal] and [HwGPIO] are interfaces; the file only calls
    them.  A call is recorded in the log of the vibrator, and what it
    answers is given by an oracle that sees the log so far.  The log
    also records the writes of [mActiveId], in program order. *)

Inductive Dev := Base | Flip.

Inductive Event :=
  | setFFGain (d : Dev) (value : Z)
  | setFFEffect (d : Dev) (index : Z) (timeoutMs : Z)
  | setFFPlay (d : Dev) (index : Z) (value : bool)
  | getOwtFreeSpace (d : Dev)
  | hasOwtFreeSpace (d : Dev)
  | uploadOwtEffect (d : Dev) (owtData : list Z) (numBytes : Z)
                    (effectIndex : Z)
  | eraseOwtEffect (d : Dev) (effectIndex : Z)
  | getEffectCount (d : Dev)
  | pollVibeState (d : Dev) (value : Z) (timeoutMs : option Z)
  | setF0Offset (d : Dev) (value : Z)
  | getHapticAlsaDevice
  | setGPIOOutput (value : bool)
  | wait_for
  | async_waitForComplete (callback : option nat)
  | onComplete (callback : nat)
  | write_mActiveId (value : Z).

(** The answer of a call: its boolean result, the value left in its
    output argument, and the error status it reports. *)
Record Reply := { ok : bool; out : Z; err : Z }.

Definition Oracle := list Event -> Event -> Reply.

Record ff_effect := {
  replay_length : Z;
  trigger_button : Z
}.

Record Vibrator := mkVibrator {
  mIsDual : bool;
  mGPIOStatus : bool;
  mF0Offset : Z;
  mF0OffsetDual : Z;
  mTickEffectVol : Z * Z;
  mClickEffectVol : Z * Z;
  mLongEffectVol : Z * Z;
  mSupportedPrimitivesBits : Z;
  mIsChirpEnabled : bool;
  mHasHapticAlsaDevice : bool;
  mConfigHapticAlsaDeviceDone : bool;
  mFfEffects : list ff_effect;
  mFfEffectsDual : list ff_effect;
  mLongEffectScale : F32.float;
  mActiveId : Z;
  log : list Event
}.

Definition set_log (l : list Event) (v : Vibrator) : Vibrator :=
  mkVibrator (mIsDual v) (mGPIOStatus v) (mF0Offset v) (mF0OffsetDual v)
    (mTickEffectVol v) (mClickEffectVol v) (mLongEffectVol v)
    (mSupportedPrimitivesBits v) (mIsChirpEnabled v) (mHasHapticAlsaDevice v)
    (mConfigHapticAlsaDeviceDone v) (mFfEffects v) (mFfEffectsDual v)
    (mLongEffectScale v) (mActiveId v) l.

Definition set_mActiveId_field (a : Z) (v : Vibrator) : Vibrator :=
  mkVibrator (mIsDual v) (mGPIOStatus v) (mF0Offset v) (mF0OffsetDual v)
    (mTickEffectVol v) (mClickEffectVol v) (mLongEffectVol v)
    (mSupportedPrimitivesBits v) (mIsChirpEnabled v) (mHasHapticAlsaDevice v)
    (mConfigHapticAlsaDeviceDone v) (mFfEffects v) (mFfEffectsDual v)
    (mLongEffectScale v) a (log v).

Definition set_mLongEffectScale (x : F32.float) (v : Vibrator) : Vibrator :=
  mkVibrator (mIsDual v) (mGPIOStatus v) (mF0Offset v) (mF0OffsetDual v)
    (mTickEffectVol v) (mClickEffectVol v) (mLongEffectVol v)
    (mSupportedPrimitivesBits v) (mIsChirpEnabled v) (mHasHapticAlsaDevice v)
    (mConfigHapticAlsaDeviceDone v) (mFfEffects v) (mFfEffectsDual v)
    x (mActiveId v) (log v).

Definition set_mFfEffects (l : list ff_effect) (v : Vibrator) : Vibrator :=
  mkVibrator (mIsDual v) (mGPIOStatus v) (mF0Offset v) (mF0OffsetDual v)
    (mTickEffectVol v) (mClickEffectVol v) (mLongEffectVol v)
    (mSupportedPrimitivesBits v) (mIsChirpEnabled v) (mHasHapticAlsaDevice v)
    (mConfigHapticAlsaDeviceDone v) l (mFfEffectsDual v)
    (mLongEffectScale v) (mActiveId v) (log v).

Definition set_mFfEffectsDual (l : list ff_effect) (v : Vibrator) : Vibrator :=
  mkVibrator (mIsDual v) (mGPIOStatus v) (mF0Offset v) (mF0OffsetDual v)
    (mTickEffectVol v) (mClickEffectVol v) (mLongEffectVol v)
    (mSupportedPrimitivesBits v) (mIsChirpEnabled v) (mHasHapticAlsaDevice v)
    (mConfigHapticAlsaDeviceDone v) (mFfEffects v) l
    (mLongEffectScale v) (mActiveId v) (log v).

Definition set_alsa (has done : bool) (v : Vibrator) : Vibrator :=
  mkVibrator (mIsDual v) (mGPIOStatus v) (mF0Offset v) (mF0OffsetDual v)
    (mTickEffectVol v) (mClickEffectVol v) (mLongEffectVol v)
    (mSupportedPrimitivesBits v) (mIsChirpEnabled v) has done
    (mFfEffects v) (mFfEffectsDual v)
    (mLongEffectScale v) (mActiveId v) (log v).

(** ** The monad of the member functions

    A member function runs on the vibrator and ends in one of three
    ways: it falls through with a value, it leaves by a [return] with a
    status, or it performs a conversion that C++ leaves undefined. *)

Inductive Res (A : Type) :=
  | Done (a : A) (v : Vibrator)
  | Return (status : Z) (v : Vibrator)
  | Undefined.
Arguments Done {A} a v.
Arguments Return {A} status v.
Arguments Undefined {A}.

Definition M (A : Type) : Type := Vibrator -> Res A.

Definition ret {A} (a : A) : M A := fun v => Done a v.

Definition bind {A B} (m : M A) (k : A -> M B) : M B :=
  fun v => match m v with
           | Done a v' => k a v'
           | Return r v' => Return r v'
           | Undefined => Undefined
           end.

#[global] Instance M_ret : MRet M := @ret.
#[global] Instance M_bind : MBind M := fun A B k m => bind m k.

Definition get : M Vibrator := fun v => Done v v.
Definition modify (f : Vibrator -> Vibrator) : M unit := fun v => Done tt (f v).
Definition return_ {A} (status : Z) : M A := fun v => Return status v.
Definition undefined {A} : M A := fun _ => Undefined.
Definition when (b : bool) (m : M unit) : M unit := if b then m else ret tt.

(** The boundary of a call: a [return] of the callee is its result. *)
Definition call (body : M Z) : M Z :=
  fun v => match body v with
           | Return r v' => Done r v'
           | x => x
           end.

Definition call_void (body : M unit) : M unit :=
  fun v => match body v with
           | Return _ v' => Done tt v'
           | x => x
           end.

#[global] Instance ff_effect_inhabited : Inhabited ff_effect :=
  populate (Build_ff_effect 0 0).

Definition set_replay_length (n : Z) (e : ff_effect) : ff_effect :=
  Build_ff_effect n (trigger_button e).
Definition set_trigger_button (n : Z) (e : ff_effect) : ff_effect :=
  Build_ff_effect (replay_length e) n.

(** ** Composing from primitives: validation and encoding

    The outcome of the part of [compose] (and of [composePwle]) that
    builds the blob: the finished chunk, a [return] with a status (with
    the local chunk as it stood, when it was already constructed), or an
    undefined conversion. *)

Inductive Encoded :=
  | Enc_ok (ch : DspMemChunk.t)
  | Enc_return (status : Z) (ch : option DspMemChunk.t)
  | Enc_undefined.

Definition getPrimitiveDetails (v : Vibrator) (primitive : CompositePrimitive)
  : Z + Z :=
  let primitiveBit := u32 (Z.shiftl 1 (CompositePrimitive_underlying primitive)) in
  if Z.land primitiveBit (mSupportedPrimitivesBits v) =? 0
  then inl EX_UNSUPPORTED_OPERATION
  else match primitive with
       | NOOP => inl EX_ILLEGAL_ARGUMENT
       | CLICK => inr WAVEFORM_CLICK_INDEX
       | THUD => inr WAVEFORM_THUD_INDEX
       | SPIN => inr WAVEFORM_SPIN_INDEX
       | QUICK_RISE => inr WAVEFORM_QUICK_RISE_INDEX
       | SLOW_RISE => inr WAVEFORM_SLOW_RISE_INDEX
       | QUICK_FALL => inr WAVEFORM_QUICK_FALL_INDEX
       | LIGHT_TICK => inr WAVEFORM_LIGHT_TICK_INDEX
       | LOW_TICK => inr WAVEFORM_LOW_TICK_INDEX
       end.

(** [std::lround(intst * (v[1] - v[0])) + v[0]], with a 64-bit [long];
    [None] where [lround] has no specified value. *)
Definition intensityToVolLevel_calc (intst : F32.float) (v : Z * Z) : option Z :=
  match F32.to_long (F32.round (F32.mul intst (F32.of_Z (u32 (snd v - fst v))))) with
  | Some n => Some (u32 (n + fst v))
  | None => None
  end.

Definition intensityToVolLevel (v : Vibrator) (intensity : F32.float)
    (effectIndex : Z) : option Z :=
  if effectIndex =? WAVEFORM_LIGHT_TICK_INDEX
  then intensityToVolLevel_calc intensity (mTickEffectVol v)
  else if (effectIndex =? WAVEFORM_QUICK_RISE_INDEX)
          || (effectIndex =? WAVEFORM_QUICK_FALL_INDEX)
  then intensityToVolLevel_calc intensity (mLongEffectVol v)
  else intensityToVolLevel_calc intensity (mClickEffectVol v).

(** The block [if (e_curr.primitive != CompositePrimitive::NOOP) { ... }]
    of the loop of [compose]: the effect index, the volume level and the
    duration so far, or the status it returns with. *)
Definition compose_primitive (v : Vibrator) (e_curr : CompositeEffect)
    (totalDuration : Z) : option (Z + Z * Z * Z) :=
  let effectScale := scale e_curr in
  if negb (CompositePrimitive_eqb (primitive e_curr) NOOP) then
    match getPrimitiveDetails v (primitive e_curr) with
    | inl status => Some (inl status)
    | inr effectIndex =>
        let i := Z.to_nat (CompositePrimitive_underlying (primitive e_curr)) in
        let effectScale :=
          if F32.gtb effectScale (mPrimitiveMaxScale !!! i)
          then mPrimitiveMaxScale !!! i else effectScale in
        let effectScale :=
          if F32.ltb effectScale (mPrimitiveMinScale !!! i)
          then mPrimitiveMinScale !!! i else effectScale in
        match intensityToVolLevel v effectScale effectIndex with
        | None => None
        | Some effectVolLevel =>
            Some (inr (effectIndex, effectVolLevel,
                       u16 (totalDuration
                            + mEffectDurations !!! Z.to_nat effectIndex)))
        end
    end
  else Some (inr (0, 0, totalDuration)).

(** The loop [for (i_curr = 0, i_next = 1; i_curr < composite.size(); ...)]:
    [composite] is what is left from [i_curr] on, so [e_next] is the
    second element when there is one. *)
Fixpoint compose_loop (v : Vibrator) (composite : list CompositeEffect)
    (ch : DspMemChunk.t) (totalDuration : Z) : Encoded :=
  match composite with
  | [] => Enc_ok ch
  | e_curr :: rest =>
      let effectScale := scale e_curr in
      if F32.ltb effectScale (F32.of_Z 0) || F32.gtb effectScale (F32.of_Z 1)
      then Enc_return EX_ILLEGAL_ARGUMENT (Some ch)
      else
        match compose_primitive v e_curr totalDuration with
        | None => Enc_undefined
        | Some (inl status) => Enc_return status (Some ch)
        | Some (inr (effectIndex, effectVolLevel, totalDuration)) =>
            let nextEffectDelay := 0 in
            let next :=
              match rest with
              | e_next :: _ =>
                  let delay := delayMs e_next in
                  if (delay >? COMPOSE_DELAY_MAX_MS) || (delay <? 0)
                  then None
                  else Some (u16 delay, u16 (totalDuration + delay))
              | [] => Some (nextEffectDelay, totalDuration)
              end in
            match next with
            | None => Enc_return EX_ILLEGAL_ARGUMENT (Some ch)
            | Some (nextEffectDelay, totalDuration) =>
                if (effectIndex =? 0) && (nextEffectDelay =? 0)
                then Enc_return EX_ILLEGAL_ARGUMENT (Some ch)
                else
                  let ch := snd (DspMemChunk.constructComposeSegment
                                   effectVolLevel effectIndex 0 0
                                   nextEffectDelay ch) in
                  compose_loop v rest ch totalDuration
            end
        end
  end.

(** [compose] up to the call of [performEffect]. *)
Definition compose_encode (v : Vibrator) (composite : list CompositeEffect)
  : Encoded :=
  let totalDuration := 0 in
  if (Z.of_nat (length composite) >? COMPOSE_SIZE_MAX)
     || Nat.eqb (length composite) 0
  then Enc_return EX_ILLEGAL_ARGUMENT None
  else
    match composite with
    | [] => Enc_return EX_ILLEGAL_ARGUMENT None
    | e_front :: _ =>
        (* uint16_t nextEffectDelay = composite.front().delayMs *)
        let nextEffectDelay := u16 (delayMs e_front) in
        let totalDuration := u16 (totalDuration + nextEffectDelay) in
        if (nextEffectDelay >? COMPOSE_DELAY_MAX_MS) || (nextEffectDelay <? 0)
        then Enc_return EX_ILLEGAL_ARGUMENT None
        else
          let size :=
            if nextEffectDelay >? 0
            then u16 (Z.of_nat (length composite) + 1)
            else u16 (Z.of_nat (length composite)) in
          let ch := DspMemChunk.new WAVEFORM_COMPOSE
                      (Z.to_nat FF_CUSTOM_DATA_LEN_MAX_COMP) in
          let header_count := u8 (DspMemChunk.size ch) in
          let ch :=
            if negb (nextEffectDelay =? 0)
            then snd (DspMemChunk.constructComposeSegment 0 0 0 0
                        nextEffectDelay ch)
            else ch in
          match compose_loop v composite ch totalDuration with
          | Enc_ok ch =>
              let ch := snd (DspMemChunk.flush ch) in
              let (r, ch) := DspMemChunk.updateNSection size ch in
              if r <? 0 then Enc_return EX_ILLEGAL_ARGUMENT (Some ch)
              else if header_count =? DspMemChunk.size ch
              then Enc_return EX_ILLEGAL_ARGUMENT (Some ch)
              else Enc_ok ch
          | r => r
          end
    end.

(** ** Composing a PWLE *)

Definition resetPreviousEndAmplitudeEndFrequency : F32.float * F32.float :=
  let reset := F32.of_Z (-1) in (reset, reset).

Definition incrementIndex (index : Z) : Z := index + 1.

(** The variables the loop of [composePwle] carries. *)
Record PwleLoop := {
  pl_ch : DspMemChunk.t;
  segmentIdx : Z;
  pl_totalDuration : Z;
  prevEndAmplitude : F32.float;
  prevEndFrequency : F32.float;
  chirp : bool
}.

(** One turn of the loop, up to the check of [segmentIdx] that ends it:
    [inl] is a [return], with the status and the chunk as it stood. *)
Definition composePwle_case (isClabSupported : bool) (e : PrimitivePwle)
    (st : PwleLoop) : option (Z * DspMemChunk.t + PwleLoop) :=
  let ch := pl_ch st in
  match e with
  | active a =>
      let duration := active_duration a in
      if (duration <? 0) || (duration >? COMPOSE_PWLE_PRIMITIVE_DURATION_MAX_MS)
      then Some (inl (EX_ILLEGAL_ARGUMENT, ch))
      else if F32.ltb (startAmplitude a) PWLE_LEVEL_MIN
              || F32.gtb (startAmplitude a) PWLE_LEVEL_MAX
              || F32.ltb (endAmplitude a) PWLE_LEVEL_MIN
              || F32.gtb (endAmplitude a) PWLE_LEVEL_MAX
      then Some (inl (EX_ILLEGAL_ARGUMENT, ch))
      else
        let startAmplitude :=
          if F32.gtb (startAmplitude a) CS40L26_PWLE_LEVEL_MAX
          then CS40L26_PWLE_LEVEL_MAX else startAmplitude a in
        let endAmplitude :=
          if F32.gtb (endAmplitude a) CS40L26_PWLE_LEVEL_MAX
          then CS40L26_PWLE_LEVEL_MAX else endAmplitude a in
        if F32.ltb (startFrequency a) PWLE_FREQUENCY_MIN_HZ
           || F32.gtb (startFrequency a) PWLE_FREQUENCY_MAX_HZ
           || F32.ltb (endFrequency a) PWLE_FREQUENCY_MIN_HZ
           || F32.gtb (endFrequency a) PWLE_FREQUENCY_MAX_HZ
        then Some (inl (EX_ILLEGAL_ARGUMENT, ch))
        else
          let setpoint :=
            if negb (F32.eqb startAmplitude (prevEndAmplitude st)
                     && F32.eqb (startFrequency a) (prevEndFrequency st))
            then
              match DspMemChunk.constructActiveSegment 0 startAmplitude
                      (startFrequency a) false ch with
              | None => None
              | Some (r, ch) =>
                  if r <? 0 then Some (inl (EX_ILLEGAL_ARGUMENT, ch))
                  else Some (inr (ch, incrementIndex (segmentIdx st)))
              end
            else Some (inr (ch, segmentIdx st)) in
          match setpoint with
          | None => None
          | Some (inl r) => Some (inl r)
          | Some (inr (ch, segmentIdx)) =>
              let chirp :=
                if F32.neb (startFrequency a) (endFrequency a)
                then true else chirp st in
              match DspMemChunk.constructActiveSegment duration endAmplitude
                      (endFrequency a) chirp ch with
              | None => None
              | Some (r, ch) =>
                  if r <? 0 then Some (inl (EX_ILLEGAL_ARGUMENT, ch))
                  else
                    Some (inr {| pl_ch := ch;
                                 segmentIdx := incrementIndex segmentIdx;
                                 pl_totalDuration :=
                                   u32 (pl_totalDuration st + duration);
                                 prevEndAmplitude := endAmplitude;
                                 prevEndFrequency := endFrequency a;
                                 chirp := false |})
              end
          end
  | braking b =>
      let kind := braking_braking b in
      if Braking_underlying kind >? Braking_underlying CLAB
      then Some (inl (EX_ILLEGAL_ARGUMENT, ch))
      else if negb isClabSupported && (Braking_underlying kind =? Braking_underlying CLAB)
      then Some (inl (EX_ILLEGAL_ARGUMENT, ch))
      else if braking_duration b >? COMPOSE_PWLE_PRIMITIVE_DURATION_MAX_MS
      then Some (inl (EX_ILLEGAL_ARGUMENT, ch))
      else
        match DspMemChunk.constructBrakingSegment 0 kind ch with
        | None => None
        | Some (r, ch) =>
            if r <? 0 then Some (inl (EX_ILLEGAL_ARGUMENT, ch))
            else
              let segmentIdx := incrementIndex (segmentIdx st) in
              match DspMemChunk.constructBrakingSegment (braking_duration b)
                      kind ch with
              | None => None
              | Some (r, ch) =>
                  if r <? 0 then Some (inl (EX_ILLEGAL_ARGUMENT, ch))
                  else
                    let (prevEndAmplitude, prevEndFrequency) :=
                      resetPreviousEndAmplitudeEndFrequency in
                    Some (inr {| pl_ch := ch;
                                 segmentIdx := incrementIndex segmentIdx;
                                 pl_totalDuration :=
                                   u32 (pl_totalDuration st + braking_duration b);
                                 prevEndAmplitude := prevEndAmplitude;
                                 prevEndFrequency := prevEndFrequency;
                                 chirp := chirp st |})
              end
        end
  end.

(** [for (auto &e : composite) { switch ...; if (segmentIdx > ...) return; }] *)
Fixpoint composePwle_loop (isClabSupported : bool)
    (composite : list PrimitivePwle) (st : PwleLoop)
  : option (Z * DspMemChunk.t + PwleLoop) :=
  match composite with
  | [] => Some (inr st)
  | e :: rest =>
      match composePwle_case isClabSupported e st with
      | None => None
      | Some (inl r) => Some (inl r)
      | Some (inr st) =>
          if segmentIdx st >? COMPOSE_PWLE_SIZE_MAX_DEFAULT
          then Some (inl (EX_ILLEGAL_ARGUMENT, pl_ch st))
          else composePwle_loop isClabSupported rest st
      end
  end.

(** [composePwle] from the check of the size to the call of
    [performEffect]. *)
Definition composePwle_encode (isClabSupported : bool)
    (composite : list PrimitivePwle) : Encoded :=
  if Nat.eqb (length composite) 0
     || (Z.of_nat (length composite) >? COMPOSE_PWLE_SIZE_MAX_DEFAULT)
  then Enc_return EX_ILLEGAL_ARGUMENT None
  else
    let (prevEndAmplitude, prevEndFrequency) :=
      resetPreviousEndAmplitudeEndFrequency in
    let ch := DspMemChunk.new WAVEFORM_PWLE
                (Z.to_nat FF_CUSTOM_DATA_LEN_MAX_PWLE) in
    let st := {| pl_ch := ch; segmentIdx := 0; pl_totalDuration := 0;
                 prevEndAmplitude := prevEndAmplitude;
                 prevEndFrequency := prevEndFrequency; chirp := false |} in
    match composePwle_loop isClabSupported composite st with
    | None => Enc_undefined
    | Some (inl (status, ch)) => Enc_return status (Some ch)
    | Some (inr st) =>
        let ch := snd (DspMemChunk.flush (pl_ch st)) in
        let totalDuration := u32 (pl_totalDuration st + MAX_COLD_START_LATENCY_MS) in
        if totalDuration >? 0x7FFFF
        then Enc_return EX_ILLEGAL_ARGUMENT (Some ch)
        else
          let (r, ch) := DspMemChunk.updateWLength totalDuration ch in
          if r <? 0 then Enc_return EX_ILLEGAL_ARGUMENT (Some ch)
          else
            let (r, ch) := DspMemChunk.updateNSection (segmentIdx st) ch in
            if r <? 0 then Enc_return EX_ILLEGAL_ARGUMENT (Some ch)
            else Enc_ok ch
    end.

(** ** The playback entry points *)

Section Playback.

Variable hw : Oracle.

(** A call of the hardware: log it, answer by the oracle. *)
Definition hwcall (e : Event) : M Reply :=
  fun v => Done (hw (log v) e) (set_log (log v ++ [e]) v).

Definition emit (e : Event) : M unit :=
  fun v => Done tt (set_log (log v ++ [e]) v).

(** [mActiveId = a] *)
Definition set_mActiveId (a : Z) : M unit :=
  modify (set_mActiveId_field a);; emit (write_mActiveId a).

Definition setEffectAmplitude (amplitude maximum : F32.float) : M Z :=
  call (
    match amplitudeToScale amplitude maximum with
    | None => undefined
    | Some scale =>
        r ← hwcall (setFFGain Base scale);
        when (negb (ok r)) (return_ EX_ILLEGAL_STATE);;
        v ← get;
        when (mIsDual v) (
          r ← hwcall (setFFGain Flip scale);
          when (negb (ok r)) (return_ EX_ILLEGAL_STATE));;
        ret EX_NONE
    end).

Definition setGlobalAmplitude (set : bool) : M Z :=
  call (
    v ← get;
    let amplitude :=
      if set
      then F32.to_unsigned 8
             (F32.round (F32.mul (mLongEffectScale v)
                                 (F32.of_Z (snd (mLongEffectVol v)))))
      else Some VOLTAGE_SCALE_MAX in
    match amplitude with
    | None => undefined
    | Some amplitude =>
        when (negb set) (modify (set_mLongEffectScale (F32.of_Z 1)));;
        setEffectAmplitude (F32.of_Z amplitude) (F32.of_Z VOLTAGE_SCALE_MAX)
    end).

Definition off : M Z :=
  call (
    let ret_ := true in
    v ← get;
    ret_ ←
      (if mActiveId v >=? 0 then
         r ← hwcall (setFFPlay Base (mActiveId v) false);
         let ret_ := if negb (ok r) then false else ret_ in
         ret_ ←
           (if mIsDual v then
              r ← hwcall (setFFPlay Flip (mActiveId v) false);
              ret (if negb (ok r) then false else ret_)
            else ret ret_);
         r ← hwcall (setGPIOOutput false);
         when (negb (ok r)) (return_ EX_ILLEGAL_STATE);;
         ret ret_
       else ret ret_);
    setGlobalAmplitude false;;
    when (negb (mF0Offset v =? 0)) (
      hwcall (setF0Offset Base 0);;
      when (mIsDual v && negb (mF0OffsetDual v =? 0)) (
        hwcall (setF0Offset Flip 0);; ret tt));;
    if ret_ : bool then
      set_mActiveId (-1);;
      ret EX_NONE
    else return_ EX_ILLEGAL_STATE).

(** [mFfEffects[i].trigger.button = GPIO_TRIGGER_CONFIG | i] on both. *)
Definition arm_trigger (effectIndex : Z) : M unit :=
  let button := u16 (Z.lor GPIO_TRIGGER_CONFIG effectIndex) in
  modify (fun v =>
    set_mFfEffects
      (alter (set_trigger_button button) (Z.to_nat effectIndex)
             (mFfEffects v)) v);;
  modify (fun v =>
    set_mFfEffectsDual
      (alter (set_trigger_button button) (Z.to_nat effectIndex)
             (mFfEffectsDual v)) v).

(** The four-argument [on]. *)
Definition on (timeoutMs : Z) (effectIndex : Z)
    (ch : option DspMemChunk.t) (callback : option nat) : M Z :=
  call (
    when (effectIndex >=? FF_MAX_EFFECTS) (return_ EX_ILLEGAL_ARGUMENT);;
    r ← hwcall wait_for;
    when (negb (ok r)) (return_ EX_ILLEGAL_STATE);;
    v ← get;
    effectIndex ←
      match ch with
      | Some ch =>
          (* Upload OWT effect. *)
          when (negb (DspMemChunk.type ch =? WAVEFORM_PWLE)
                && negb (DspMemChunk.type ch =? WAVEFORM_COMPOSE))
            (return_ EX_ILLEGAL_ARGUMENT);;
          let effectIndex := DspMemChunk.type ch in
          r ← hwcall (getOwtFreeSpace Base);
          when (DspMemChunk.size ch >? out r) (return_ EX_ILLEGAL_ARGUMENT);;
          when (mIsDual v) (
            r ← hwcall (getOwtFreeSpace Flip);
            when (DspMemChunk.size ch >? out r)
              (return_ EX_ILLEGAL_ARGUMENT));;
          when (mGPIOStatus v && mIsDual v) (arm_trigger effectIndex);;
          r ← hwcall (uploadOwtEffect Base (DspMemChunk.front ch)
                        (DspMemChunk.size ch) effectIndex);
          when (negb (ok r)) (return_ (err r));;
          let effectIndex := out r in
          if mIsDual v then
            (* [&mFfEffectsDual[effectIndex]], with the index that the
               first upload left: outside the vector it has no
               meaning. *)
            if (0 <=? effectIndex)
               && (effectIndex <? Z.of_nat (length (mFfEffectsDual v)))
            then
              r ← hwcall (uploadOwtEffect Flip (DspMemChunk.front ch)
                            (DspMemChunk.size ch) effectIndex);
              when (negb (ok r)) (return_ (err r));;
              ret (out r)
            else undefined
          else ret effectIndex
      | None =>
          if (effectIndex =? WAVEFORM_SHORT_VIBRATION_EFFECT_INDEX)
             || (effectIndex =? WAVEFORM_LONG_VIBRATION_EFFECT_INDEX)
          then
            (* Update duration for long/short vibration. *)
            modify (fun v =>
              set_mFfEffects
                (alter (set_replay_length (u16 timeoutMs))
                       (Z.to_nat effectIndex) (mFfEffects v)) v);;
            when (mGPIOStatus v && mIsDual v) (arm_trigger effectIndex);;
            r ← hwcall (setFFEffect Base effectIndex (u16 timeoutMs));
            when (negb (ok r)) (return_ EX_ILLEGAL_STATE);;
            when (mIsDual v) (
              modify (fun v =>
                set_mFfEffectsDual
                  (alter (set_replay_length (u16 timeoutMs))
                         (Z.to_nat effectIndex) (mFfEffectsDual v)) v);;
              r ← hwcall (setFFEffect Flip effectIndex (u16 timeoutMs));
              when (negb (ok r)) (return_ EX_ILLEGAL_STATE));;
            ret effectIndex
          else ret effectIndex
      end;
    (* Play the event now. *)
    set_mActiveId effectIndex;;
    (if negb (mGPIOStatus v) then
       r ← hwcall (setFFPlay Base effectIndex true);
       when (negb (ok r)) (set_mActiveId (-1);; return_ EX_ILLEGAL_STATE);;
       when (mIsDual v) (
         r ← hwcall (setFFPlay Flip effectIndex true);
         when (negb (ok r)) (set_mActiveId (-1);; return_ EX_ILLEGAL_STATE))
     else
       (* Using GPIO to play effect *)
       when ((effectIndex =? WAVEFORM_CLICK_INDEX)
             || (effectIndex =? WAVEFORM_LIGHT_TICK_INDEX)) (
         let button := u16 (Z.lor GPIO_TRIGGER_CONFIG effectIndex) in
         modify (fun v =>
           set_mFfEffects
             (alter (set_trigger_button button) (Z.to_nat effectIndex)
                    (mFfEffects v)) v);;
         v' ← get;
         r ← hwcall (setFFEffect Base effectIndex
                       (replay_length (mFfEffects v' !!! Z.to_nat effectIndex)));
         when (negb (ok r)) (return_ EX_ILLEGAL_STATE);;
         when (mIsDual v) (
           modify (fun v =>
             set_mFfEffectsDual
               (alter (set_trigger_button button) (Z.to_nat effectIndex)
                      (mFfEffectsDual v)) v);;
           v' ← get;
           r ← hwcall (setFFEffect Flip effectIndex
                         (replay_length
                            (mFfEffectsDual v' !!! Z.to_nat effectIndex)));
           when (negb (ok r)) (return_ EX_ILLEGAL_STATE)));;
       r ← hwcall (setGPIOOutput true);
       when (negb (ok r)) (return_ EX_ILLEGAL_STATE));;
    emit (async_waitForComplete callback);;
    ret EX_NONE).

(** The [performEffect] that takes an effect index. *)
Definition performEffect (effectIndex volLevel : Z)
    (ch : option DspMemChunk.t) (callback : option nat) : M Z :=
  call (
    setEffectAmplitude (F32.of_Z volLevel) (F32.of_Z VOLTAGE_SCALE_MAX);;
    on MAX_TIME_MS effectIndex ch callback).

Definition compose (composite : list CompositeEffect)
    (callback : option nat) : M Z :=
  call (
    v ← get;
    match compose_encode v composite with
    | Enc_undefined => undefined
    | Enc_return status _ => return_ status
    | Enc_ok ch =>
        (* Composition duration should be 0 to allow firmware to play the
           whole effect *)
        modify (fun v =>
          set_mFfEffects
            (alter (set_replay_length 0) (Z.to_nat WAVEFORM_COMPOSE)
                   (mFfEffects v)) v);;
        when (mIsDual v) (
          modify (fun v =>
            set_mFfEffectsDual
              (alter (set_replay_length 0) (Z.to_nat WAVEFORM_COMPOSE)
                     (mFfEffectsDual v)) v));;
        performEffect WAVEFORM_MAX_INDEX VOLTAGE_SCALE_MAX (Some ch) callback
    end).

Definition hasHapticAlsaDevice : M bool :=
  v ← get;
  when (negb (mConfigHapticAlsaDeviceDone v)) (
    r ← hwcall getHapticAlsaDevice;
    when (ok r) (modify (set_alsa true true)));;
  v ← get;
  ret (mHasHapticAlsaDevice v).

Definition getCapabilities : M Z :=
  let ret_ := Z.lor CAP_ON_CALLBACK (Z.lor CAP_PERFORM_CALLBACK
               (Z.lor CAP_AMPLITUDE_CONTROL
                 (Z.lor CAP_GET_RESONANT_FREQUENCY CAP_GET_Q_FACTOR))) in
  has ← hasHapticAlsaDevice;
  let ret_ := if has : bool then Z.lor ret_ CAP_EXTERNAL_CONTROL else ret_ in
  r ← hwcall (hasOwtFreeSpace Base);
  v ← get;
  ret (if ok r then
         let ret_ := Z.lor ret_ CAP_COMPOSE_EFFECTS in
         if mIsChirpEnabled v
         then Z.lor ret_ (Z.lor CAP_FREQUENCY_CONTROL CAP_COMPOSE_PWLE_EFFECTS)
         else ret_
       else ret_).

(** [getSupportedBraking]: the list it leaves in [supported]. *)
Definition getSupportedBraking : M (list Braking) :=
  capabilities ← getCapabilities;
  if negb (Z.land capabilities CAP_COMPOSE_PWLE_EFFECTS =? 0)
  then ret [NONE]
  else ret [].

Definition Braking_eqb (a b : Braking) : bool :=
  Braking_underlying a =? Braking_underlying b.

Definition composePwle (composite : list PrimitivePwle)
    (callback : option nat) : M Z :=
  call (
    capabilities ← getCapabilities;
    when (Z.land capabilities CAP_COMPOSE_PWLE_EFFECTS =? 0)
      (return_ EX_UNSUPPORTED_OPERATION);;
    when (Nat.eqb (length composite) 0
          || (Z.of_nat (length composite) >? COMPOSE_PWLE_SIZE_MAX_DEFAULT))
      (return_ EX_ILLEGAL_ARGUMENT);;
    supported ← getSupportedBraking;
    let isClabSupported := existsb (Braking_eqb CLAB) supported in
    match composePwle_encode isClabSupported composite with
    | Enc_undefined => undefined
    | Enc_return status _ => return_ status
    | Enc_ok ch =>
        performEffect WAVEFORM_MAX_INDEX VOLTAGE_SCALE_MAX (Some ch) callback
    end).

Definition waitForComplete (callback : option nat) : M unit :=
  call_void (
    (* Bypass checking flip part's haptic state *)
    hwcall (pollVibeState Base VIBE_STATE_HAPTIC (Some POLLING_TIMEOUT));;
    hwcall (pollVibeState Base VIBE_STATE_STOPPED None);;
    v ← get;
    (* Check flip's state after base was done *)
    when (mIsDual v) (
      hwcall (pollVibeState Flip VIBE_STATE_STOPPED None);; ret tt);;
    when (mActiveId v >=? WAVEFORM_MAX_PHYSICAL_INDEX) (
      hwcall (eraseOwtEffect Base (mActiveId v));;
      when (mIsDual v) (
        hwcall (eraseOwtEffect Flip (mActiveId v));; ret tt));;
    set_mActiveId (-1);;
    when (mGPIOStatus v) (hwcall (setGPIOOutput false);; ret tt);;
    (* Do waveform number checking *)
    r ← hwcall (getEffectCount Base);
    let effectCount := out r in
    when (effectCount >? WAVEFORM_MAX_PHYSICAL_INDEX) (
      (* Forcibly clean all OWT waveforms *)
      hwcall (eraseOwtEffect Base WAVEFORM_MAX_INDEX);; ret tt);;
    when (mIsDual v) (
      (* Forcibly clean all OWT waveforms *)
      r ← hwcall (getEffectCount Flip);
      let effectCount := out r in
      when (effectCount >? WAVEFORM_MAX_PHYSICAL_INDEX) (
        hwcall (eraseOwtEffect Flip WAVEFORM_MAX_INDEX);; ret tt));;
    match callback with
    | Some cb => hwcall (onComplete cb);; ret tt
    | None => ret tt
    end).

End Playback.
(** * Notions the properties are stated with

    Nothing below is part of the source file: these are the predicates
    and the reference functions of the statements that follow. *)

Module ChunkSpec.

Import DspMemChunk.

(** What [write] does when the accumulator is full and there is room:
    the mask, the four stores and the update of [bytes]. *)
Definition flush_group (c : t) : t :=
  let c := mk (DspMemChunk.head c) (bytes c) (waveformType c) (_current c)
              (_max c) (Z.land (_cache c) 0xFFFFFF) (_cachebits c) in
  let c := put_cache_byte (put_cache_byte
             (put_cache_byte (put_cache_byte c))) in
  mk (DspMemChunk.head c) (bytes c + 4) (waveformType c) (_current c)
     (_max c) (_cache c) 0.

(** The accumulator after the next bits of [val] went in. *)
Definition fill (nbits val : Z) (c : t) : t :=
  let nwrite := DspMemChunk.min (24 - _cachebits c) nbits in
  mk (DspMemChunk.head c) (bytes c) (waveformType c) (_current c) (_max c)
     (Z.lor (u32 (Z.shiftl (_cache c) nwrite))
            (Z.shiftr val (nbits - nwrite)))
     (_cachebits c + nwrite).

Definition rest (nbits : Z) (c : t) : Z :=
  nbits - DspMemChunk.min (24 - _cachebits c) nbits.

Definition byte_of (x : Z) (k : Z) : Z := Z.land (Z.shiftr x (8 * k)) 0xFF.

Record wf (c : t) : Prop := {
  wf_cursor : exists k : nat, _current c = (4 * k)%nat;
  wf_bytes : bytes c = Z.of_nat (_current c);
  wf_bits : 0 <= _cachebits c <= 24;
  wf_len : length (DspMemChunk.head c) = _max c;
  wf_zero : forall (i : nat) (b : Z),
      DspMemChunk.head c !! (4 * i)%nat = Some b -> b = 0
}.

Definition fits (c : t) : Prop :=
  exists k : nat, _max c = (_current c + 4 * k)%nat.

Record keeps (c c' : t) : Prop := {
  keeps_wf : wf c -> wf c';
  keeps_fits : fits c -> fits c';
  keeps_type : waveformType c' = waveformType c;
  keeps_max : _max c' = _max c;
  keeps_mono : (_current c <= _current c')%nat
}.

End ChunkSpec.

(** The sequences of operations on the chunk of a composed effect: the
    construction in an array of 2044 bytes, segments, the flush and the
    patch of the section count, in any order and number. *)
Inductive compose_ops : DspMemChunk.t -> Prop :=
  | co_new :
      compose_ops (DspMemChunk.new WAVEFORM_COMPOSE
                     (Z.to_nat FF_CUSTOM_DATA_LEN_MAX_COMP))
  | co_segment c v i r f d :
      compose_ops c ->
      compose_ops (snd (DspMemChunk.constructComposeSegment v i r f d c))
  | co_flush c :
      compose_ops c -> compose_ops (snd (DspMemChunk.flush c))
  | co_nsection c n :
      compose_ops c -> compose_ops (snd (DspMemChunk.updateNSection n c)).

(** The sequences of operations on the chunk of a PWLE: the
    construction in an array of 2302 bytes, [n] segments, then the flush
    (the flag tells whether it was done) and the two patches. *)
Inductive pwle_ops : nat -> bool -> DspMemChunk.t -> Prop :=
  | po_new :
      pwle_ops 0 false (DspMemChunk.new WAVEFORM_PWLE
                          (Z.to_nat FF_CUSTOM_DATA_LEN_MAX_PWLE))
  | po_active n c d a f ch r c' :
      pwle_ops n false c ->
      DspMemChunk.constructActiveSegment d a f ch c = Some (r, c') ->
      pwle_ops (S n) false c'
  | po_braking n c d k r c' :
      pwle_ops n false c ->
      DspMemChunk.constructBrakingSegment d k c = Some (r, c') ->
      pwle_ops (S n) false c'
  | po_flush n c :
      pwle_ops n false c -> pwle_ops n true (snd (DspMemChunk.flush c))
  | po_wlength n c d :
      pwle_ops n true c ->
      pwle_ops n true (snd (DspMemChunk.updateWLength d c))
  | po_nsection n c k :
      pwle_ops n true c ->
      pwle_ops n true (snd (DspMemChunk.updateNSection k c)).

(** The chunk an encoder ends with, when it has one. *)
Definition exit_chunk (e : Encoded) : option DspMemChunk.t :=
  match e with
  | Enc_ok ch => Some ch
  | Enc_return _ ch => ch
  | Enc_undefined => None
  end.

(** The section count [compose] is to patch in, by the words of the
    specification: the number of entries, and one more when the first
    entry has a delay. *)
Definition section_count (composite : list CompositeEffect) : Z :=
  match composite with
  | [] => 0
  | e :: _ =>
      if delayMs e =? 0 then Z.of_nat (length composite)
      else Z.of_nat (length composite) + 1
  end.

(** What is known of a PWLE chunk after [n] segments: before the flush
    four bits wait in the accumulator and every segment took eight
    bytes; the flush takes four more. *)
Definition pwle_inv (n : nat) (flushed : bool) (c : DspMemChunk.t) : Prop :=
  ChunkSpec.wf c
  /\ DspMemChunk.waveformType c = WAVEFORM_PWLE
  /\ DspMemChunk._max c = 2302%nat
  /\ if flushed then (DspMemChunk._current c <= 12 + 8 * n)%nat
     else DspMemChunk._cachebits c = 4
          /\ (DspMemChunk._current c <= 8 + 8 * n)%nat.

(** *** The sections of a PWLE, by the words of the specification

    An active segment is lowered to a ramp to its end point, preceded by
    one set point (a ramp of no duration to its start point) when its
    start point differs from the end point kept from the segment
    before; amplitudes are those clamped to the ceiling of the device.
    A braking segment is a set point and a hold, and resets the end
    point kept. *)

Inductive PwleSection :=
  | SetPoint (amplitude frequency : F32.float)
  | Ramp (duration : Z) (amplitude frequency : F32.float) (chirp : bool)
  | BrakeSetPoint (kind : Braking)
  | BrakeHold (duration : Z) (kind : Braking).

Definition device_level (amplitude : F32.float) : F32.float :=
  if F32.gtb amplitude CS40L26_PWLE_LEVEL_MAX
  then CS40L26_PWLE_LEVEL_MAX else amplitude.

Definition same_point (p q : F32.float * F32.float) : bool :=
  F32.eqb (fst p) (fst q) && F32.eqb (snd p) (snd q).

Definition reset_point : F32.float * F32.float :=
  (F32.of_Z (-1), F32.of_Z (-1)).

Fixpoint pwle_sections (prev : F32.float * F32.float)
    (composite : list PrimitivePwle) : list PwleSection :=
  match composite with
  | [] => []
  | active a :: rest =>
      let start := (device_level (startAmplitude a), startFrequency a) in
      let stop := (device_level (endAmplitude a), endFrequency a) in
      (if same_point start prev then []
       else [SetPoint (fst start) (snd start)])
      ++ Ramp (active_duration a) (fst stop) (snd stop)
              (F32.neb (startFrequency a) (endFrequency a))
         :: pwle_sections stop rest
  | braking b :: rest =>
      BrakeSetPoint (braking_braking b)
      :: BrakeHold (braking_duration b) (braking_braking b)
      :: pwle_sections reset_point rest
  end.

(** Writing a section is one call of the chunk. *)
Definition write_section (s : PwleSection) (c : DspMemChunk.t)
  : option (Z * DspMemChunk.t) :=
  match s with
  | SetPoint a f => DspMemChunk.constructActiveSegment 0 a f false c
  | Ramp d a f chirp => DspMemChunk.constructActiveSegment d a f chirp c
  | BrakeSetPoint k => DspMemChunk.constructBrakingSegment 0 k c
  | BrakeHold d k => DspMemChunk.constructBrakingSegment d k c
  end.

(** Writing sections in order, each one accepted by the chunk. *)
Fixpoint write_sections (l : list PwleSection) (c : DspMemChunk.t)
  : option DspMemChunk.t :=
  match l with
  | [] => Some c
  | s :: l =>
      match write_section s c with
      | Some (r, c) => if r <? 0 then None else write_sections l c
      | None => None
      end
  end.

(** The sum of the durations, as [composePwle] adds them up. *)
Fixpoint pwle_duration (composite : list PrimitivePwle) (total : Z) : Z :=
  match composite with
  | [] => total
  | active a :: rest => pwle_duration rest (u32 (total + active_duration a))
  | braking b :: rest => pwle_duration rest (u32 (total + braking_duration b))
  end.

(** The end point kept after an element, and its duration. *)
Definition next_point (e : PrimitivePwle) : F32.float * F32.float :=
  match e with
  | active a => (device_level (endAmplitude a), endFrequency a)
  | braking _ => reset_point
  end.

Definition duration_of (e : PrimitivePwle) : Z :=
  match e with
  | active a => active_duration a
  | braking b => braking_duration b
  end.

(** A blob as the firmware reads it: a whole number of groups of four
    bytes, each beginning with a zero byte. *)
Definition blob_aligned (c : DspMemChunk.t) : Prop :=
  DspMemChunk.size c mod 4 = 0
  /\ forall (i : nat) (b : Z),
       DspMemChunk.head c !! (4 * i)%nat = Some b -> b = 0.

(** *** The log of the playback functions *)

Section Logs.

Variable hw : Oracle.

(** What [off] does when nothing plays: the gain goes back to the
    maximum on each actuator in use, and the frequency offset is
    cleared. *)
Definition idle_off_gain (v : Vibrator) : list Event :=
  setFFGain Base VOLTAGE_SCALE_MAX
  :: (if ok (hw (log v) (setFFGain Base VOLTAGE_SCALE_MAX)) && mIsDual v
      then [setFFGain Flip VOLTAGE_SCALE_MAX] else []).

Definition idle_off_offset (v : Vibrator) : list Event :=
  if negb (mF0Offset v =? 0)
  then setF0Offset Base 0
       :: (if mIsDual v && negb (mF0OffsetDual v =? 0)
           then [setF0Offset Flip 0] else [])
  else [].

Definition idle_off_state (v : Vibrator) : Vibrator :=
  set_mActiveId_field (-1) (set_mLongEffectScale (F32.of_Z 1) v).

(** The steps of [waitForComplete], in the order of the code. *)
Definition completion_polls (v : Vibrator) : list Event :=
  [pollVibeState Base VIBE_STATE_HAPTIC (Some POLLING_TIMEOUT);
   pollVibeState Base VIBE_STATE_STOPPED None]
  ++ (if mIsDual v then [pollVibeState Flip VIBE_STATE_STOPPED None] else []).

Definition completion_erase (v : Vibrator) : list Event :=
  if mActiveId v >=? WAVEFORM_MAX_PHYSICAL_INDEX
  then eraseOwtEffect Base (mActiveId v)
       :: (if mIsDual v then [eraseOwtEffect Flip (mActiveId v)] else [])
  else [].

Definition completion_gpio (v : Vibrator) : list Event :=
  if mGPIOStatus v then [setGPIOOutput false] else [].

(** The recovery sweep of one actuator, after the log [l]. *)
Definition sweep (d : Dev) (l : list Event) : list Event :=
  getEffectCount d
  :: (if out (hw l (getEffectCount d)) >? WAVEFORM_MAX_PHYSICAL_INDEX
      then [eraseOwtEffect d WAVEFORM_MAX_INDEX] else []).

Definition completion_sweeps (v : Vibrator) (l : list Event) : list Event :=
  sweep Base l ++ (if mIsDual v then sweep Flip (l ++ sweep Base l) else []).

(** The steps of [on] up to the two uploads of a blob, on two
    actuators. *)
Definition upload_base (ch : DspMemChunk.t) : Event :=
  uploadOwtEffect Base (DspMemChunk.front ch) (DspMemChunk.size ch)
    (DspMemChunk.type ch).

Definition before_upload (v : Vibrator) : list Event :=
  log v ++ [wait_for; getOwtFreeSpace Base; getOwtFreeSpace Flip].

Definition upload_flip (v : Vibrator) (ch : DspMemChunk.t) : Event :=
  uploadOwtEffect Flip (DspMemChunk.front ch) (DspMemChunk.size ch)
    (out (hw (before_upload v) (upload_base ch))).

Definition flip_reply (v : Vibrator) (ch : DspMemChunk.t) : Reply :=
  hw (before_upload v ++ [upload_base ch]) (upload_flip v ch).

Definition completion_callback (callback : option nat) : list Event :=
  match callback with
  | Some cb => [onComplete cb]
  | None => []
  end.

End Logs.

(** The events that stop or trigger a playback. *)
Definition is_trigger (e : Event) : bool :=
  match e with
  | setFFPlay _ _ _ | setGPIOOutput _ | write_mActiveId _
  | async_waitForComplete _ => true
  | _ => false
  end.

(** The cleanup steps of the completion task, apart from the write of
    [mActiveId]. *)
Definition is_cleanup (e : Event) : bool :=
  match e with
  | eraseOwtEffect _ _ | setGPIOOutput _ | getEffectCount _ => true
  | _ => false
  end.

(** No cleanup step follows the first write of [mActiveId]. *)
Fixpoint cleared_last (l : list Event) : bool :=
  match l with
  | [] => true
  | write_mActiveId _ :: rest => forallb (fun e => negb (is_cleanup e)) rest
  | _ :: rest => cleared_last rest
  end.

(** * Sample configurations and requests *)

Definition sample_effects : list ff_effect :=
  replicate 16 (Build_ff_effect 0 0).

(** A vibrator at rest, with every primitive supported and the volume
    ranges [1, 100]. *)
Definition sample_vibrator (dual gpio : bool) : Vibrator :=
  mkVibrator dual gpio 0 0 (1, 100) (1, 100) (1, 100) 0x1FF true false false
    sample_effects sample_effects (F32.of_Z 1) (-1) [].

Definition click_after (delay : Z) : CompositeEffect :=
  {| delayMs := delay; primitive := CLICK; scale := F32.of_Z 1 |}.

(** One click whose delay is [2 ^ 16]: zero once stored in a
    [uint16_t]. *)
Definition wrapped_delay : list CompositeEffect := [click_after 65536].

Definition ramp_up : PrimitivePwle :=
  active {| startAmplitude := F32.of_Z 0; startFrequency := F32.of_Z 50;
            endAmplitude := F32.of_ratio 1 2; endFrequency := F32.of_Z 50;
            active_duration := 100 |}.

Definition hold : PrimitivePwle :=
  active {| startAmplitude := F32.of_ratio 1 2; startFrequency := F32.of_Z 50;
            endAmplitude := F32.of_ratio 1 2; endFrequency := F32.of_Z 50;
            active_duration := 30 |}.

Definition brake : PrimitivePwle :=
  braking {| braking_braking := NONE; braking_duration := 20 |}.

(** A ramp to the full amplitude, which is over the ceiling of the
    device, and one down from 0.9996, which is over it too. *)
Definition full_ramp : PrimitivePwle :=
  active {| startAmplitude := F32.of_Z 0; startFrequency := F32.of_Z 50;
            endAmplitude := F32.of_Z 1; endFrequency := F32.of_Z 50;
            active_duration := 100 |}.

Definition ramp_down : PrimitivePwle :=
  active {| startAmplitude := F32.of_ratio 9996 10000;
            startFrequency := F32.of_Z 50;
            endAmplitude := F32.of_ratio 1 2; endFrequency := F32.of_Z 50;
            active_duration := 100 |}.

(** Hardware that accepts every call, has 5000 free bytes and no stale
    effect. *)
Definition hw_ok : Oracle :=
  fun _ e =>
    match e with
    | getOwtFreeSpace _ => Build_Reply true 5000 0
    | uploadOwtEffect _ _ _ i => Build_Reply true i 0
    | getEffectCount _ => Build_Reply true WAVEFORM_MAX_PHYSICAL_INDEX 0
    | _ => Build_Reply true 0 0
    end.

(** The same, but the upload to the second actuator fails with
    [status]. *)
Definition hw_flip_upload_fails (status : Z) : Oracle :=
  fun l e =>
    match e with
    | uploadOwtEffect Flip _ _ _ => Build_Reply false 0 status
    | _ => hw_ok l e
    end.

Definition sample_blob : DspMemChunk.t :=
  snd (DspMemChunk.flush
         (snd (DspMemChunk.constructComposeSegment 100 2 0 0 0
                 (DspMemChunk.new WAVEFORM_COMPOSE 12)))).

(** An idle vibrator whose amplitude was set to one half. *)
Definition idle_at_half : Vibrator :=
  set_mLongEffectScale (F32.of_ratio 1 2) (sample_vibrator false false).

(** A vibrator that plays a composed effect. *)
Definition playing_composed (dual gpio : bool) : Vibrator :=
  set_mActiveId_field WAVEFORM_COMPOSE (sample_vibrator dual gpio).


(** * Tactics for the playback functions *)

(** The monad, unfolded. *)
Ltac run :=
  repeat (progress
    (unfold call, call_void, mbind, M_bind, bind, mret, M_ret, ret, get,
       modify, return_, when, hwcall, emit, set_mActiveId, undefined;
     cbn beta iota;
     cbn [log set_log set_mActiveId_field set_mLongEffectScale set_mFfEffects
          set_mFfEffectsDual set_alsa
          mIsDual mGPIOStatus mF0Offset mF0OffsetDual mTickEffectVol
          mClickEffectVol mLongEffectVol mSupportedPrimitivesBits
          mIsChirpEnabled mHasHapticAlsaDevice mConfigHapticAlsaDeviceDone
          mFfEffects mFfEffectsDual mLongEffectScale mActiveId
          ok out err negb andb orb])).

(** One case analysis on an answer of the hardware or on a flag of the
    configuration, whichever the goal is stuck on. *)
Ltac branch hw :=
  run;
  match goal with
  | |- context [ok (hw ?l ?e)] => destruct (ok (hw l e)) eqn:?
  | |- context [if mIsDual ?v then _ else _] => destruct (mIsDual v) eqn:?
  | |- context [if mGPIOStatus ?v then _ else _] =>
      destruct (mGPIOStatus v) eqn:?
  | |- context [mIsDual ?v && _] => destruct (mIsDual v) eqn:?
  | |- context [?x =? ?y] => destruct (x =? y) eqn:?
  | |- context [?x >? ?y] => destruct (x >? y) eqn:?
  | |- context [?x >=? ?y] => destruct (x >=? y) eqn:?
  end;
  run.


(** The events a run added to the log of [v], given the lemma [drop]
    that takes the old log off the new one. *)
Ltac fresh_events drop v :=
  cbn [log set_log];
  rewrite <- ?(app_assoc (log v));
  cbn [app];
  rewrite (drop (log v)).

(** The first test a condition is made of. *)
Ltac split_test b :=
  lazymatch b with
  | negb ?x => split_test x
  | ?x && _ => split_test x
  | ?x || _ => split_test x
  | true => fail
  | false => fail
  | _ => destruct b eqn:?
  end.

(** One case analysis on a condition that the run is stuck on. *)
Ltac step :=
  run;
  match goal with
  | |- context [if ?b then _ else _] => split_test b
  end;
  run.

(** The events a run added, whether it added any or none; [drop] and
    [same] are the lemmas on [new_events] for the two cases. *)
Ltac added_events drop same v :=
  cbn [log set_log];
  rewrite <- ?(app_assoc (log v));
  cbn [app];
  rewrite ?(drop (log v)), ?same.

(** * More of the source file

    The remaining entry points of [Vibrator.cpp] that decide from the
    state and the hardware alone, over the same state, monad and
    oracle. *)

Definition PWLE_FREQUENCY_RESOLUTION_HZ : F32.float := F32.of_Z 1.

(** [x <= y] on [float]. *)
Definition F32_leb (x y : F32.float) : bool := SFleb x y.

(** The enumerations [Effect] and [EffectStrength] of the interface:
    the values the file names, and any other value of the underlying
    type. *)
Module Effect.

Inductive t :=
  | CLICK | DOUBLE_CLICK | TICK | HEAVY_CLICK | TEXTURE_TICK
  | other (value : Z).

End Effect.

Module EffectStrength.

Inductive t := LIGHT | MEDIUM | STRONG | other (value : Z).

End EffectStrength.

Definition getSupportedEffects : list Effect.t :=
  [Effect.TEXTURE_TICK; Effect.TICK; Effect.CLICK; Effect.HEAVY_CLICK;
   Effect.DOUBLE_CLICK].

Definition getCompositionDelayMax : Z := COMPOSE_DELAY_MAX_MS.
Definition getCompositionSizeMax : Z := COMPOSE_SIZE_MAX.

(** [getPrimitiveDuration]: the status it returns with, or the value it
    leaves in [durationMs]. *)
Definition getPrimitiveDuration (v : Vibrator) (primitive : CompositePrimitive)
  : Z + Z :=
  if negb (CompositePrimitive_eqb primitive NOOP) then
    match getPrimitiveDetails v primitive with
    | inl status => inl status
    | inr effectIndex => inr (mEffectDurations !!! Z.to_nat effectIndex)
    end
  else inr 0.

(** [getSimpleDetails]: the status it returns with, or the effect index,
    the time and the volume level it leaves in its output arguments;
    [None] where [lround] has no specified value. *)
Definition getSimpleDetails (v : Vibrator) (effect : Effect.t)
    (strength : EffectStrength.t) : option (Z + Z * Z * Z) :=
  let intensity :=
    match strength with
    | EffectStrength.LIGHT => Some (F32.of_ratio 5 10)
    | EffectStrength.MEDIUM => Some (F32.of_ratio 7 10)
    | EffectStrength.STRONG => Some (F32.of_Z 1)
    | EffectStrength.other _ => None
    end in
  match intensity with
  | None => Some (inl EX_UNSUPPORTED_OPERATION)
  | Some intensity =>
      let selected :=
        match effect with
        | Effect.TEXTURE_TICK =>
            Some (WAVEFORM_LIGHT_TICK_INDEX,
                  F32.mul intensity (F32.of_ratio 5 10))
        | Effect.TICK =>
            Some (WAVEFORM_CLICK_INDEX, F32.mul intensity (F32.of_ratio 5 10))
        | Effect.CLICK =>
            Some (WAVEFORM_CLICK_INDEX, F32.mul intensity (F32.of_ratio 7 10))
        | Effect.HEAVY_CLICK =>
            let intensity := F32.mul intensity (F32.of_Z 1) in
            (* WAVEFORM_CLICK_INDEX is 2, but the primitive CLICK index
               is 1. *)
            let limit :=
              mPrimitiveMaxScale !!! Z.to_nat (WAVEFORM_CLICK_INDEX - 1) in
            Some (WAVEFORM_CLICK_INDEX,
                  if F32.gtb intensity limit then limit else intensity)
        | _ => None
        end in
      match selected with
      | None => Some (inl EX_UNSUPPORTED_OPERATION)
      | Some (effectIndex, intensity) =>
          match intensityToVolLevel v intensity effectIndex with
          | None => None
          | Some volLevel =>
              let timeMs :=
                u32 (mEffectDurations !!! Z.to_nat effectIndex
                     + MAX_COLD_START_LATENCY_MS) in
              Some (inr (effectIndex, timeMs, volLevel))
          end
      end
  end.

(** [getCompoundDetails]: the status, what is left in [outTimeMs] and in
    [outCh], and the vibrator; the results of [constructComposeSegment]
    and of [flush] are dropped, as in the source. *)
Definition getCompoundDetails (v : Vibrator) (effect : Effect.t)
    (strength : EffectStrength.t) (outTimeMs : Z) (outCh : DspMemChunk.t)
  : option (Z * Z * DspMemChunk.t * Vibrator) :=
  let timeMs := 0 in
  match effect with
  | Effect.DOUBLE_CLICK =>
      match getSimpleDetails v Effect.CLICK strength with
      | None => None
      | Some (inl status) => Some (status, outTimeMs, outCh, v)
      | Some (inr (thisEffectIndex, thisTimeMs, thisVolLevel)) =>
          let timeMs := u32 (timeMs + thisTimeMs) in
          let outCh :=
            snd (DspMemChunk.constructComposeSegment thisVolLevel
                   thisEffectIndex 0 0 WAVEFORM_DOUBLE_CLICK_SILENCE_MS
                   outCh) in
          let timeMs :=
            u32 (timeMs + (WAVEFORM_DOUBLE_CLICK_SILENCE_MS
                           + MAX_PAUSE_TIMING_ERROR_MS)) in
          match getSimpleDetails v Effect.HEAVY_CLICK strength with
          | None => None
          | Some (inl status) => Some (status, outTimeMs, outCh, v)
          | Some (inr (thisEffectIndex, thisTimeMs, thisVolLevel)) =>
              let timeMs := u32 (timeMs + thisTimeMs) in
              let outCh :=
                snd (DspMemChunk.constructComposeSegment thisVolLevel
                       thisEffectIndex 0 0 0 outCh) in
              let outCh := snd (DspMemChunk.flush outCh) in
              let (r, outCh) := DspMemChunk.updateNSection 2 outCh in
              if r <? 0 then Some (EX_ILLEGAL_ARGUMENT, outTimeMs, outCh, v)
              else
                (* Compositions should have 0 duration *)
                let v :=
                  set_mFfEffects
                    (alter (set_replay_length 0) (Z.to_nat WAVEFORM_COMPOSE)
                           (mFfEffects v)) v in
                let v :=
                  if mIsDual v
                  then set_mFfEffectsDual
                         (alter (set_replay_length 0)
                                (Z.to_nat WAVEFORM_COMPOSE)
                                (mFfEffectsDual v)) v
                  else v in
                Some (EX_NONE, timeMs, outCh, v)
          end
      end
  | _ => Some (EX_UNSUPPORTED_OPERATION, outTimeMs, outCh, v)
  end.

(** [defaultSupportedPrimitives]: the range of the enumeration. *)
Definition defaultSupportedPrimitives : list CompositePrimitive :=
  [NOOP; CLICK; THUD; SPIN; QUICK_RISE; SLOW_RISE; QUICK_FALL; LIGHT_TICK;
   LOW_TICK].

(** The part of the constructor that sets [mSupportedPrimitivesBits]
    and [mSupportedPrimitives] from the bits of the calibration:
    the two members, in this order. *)
Definition init_supported_primitives (calibrated : Z)
  : Z * list CompositePrimitive :=
  let mSupportedPrimitivesBits := u32 calibrated in
  if mSupportedPrimitivesBits >? 0 then
    (mSupportedPrimitivesBits,
     List.filter (fun e =>
               negb (Z.land mSupportedPrimitivesBits
                       (Z.shiftl 1 (u32 (CompositePrimitive_underlying e)))
                     =? 0))
            defaultSupportedPrimitives)
  else
    (fold_left (fun bits e =>
                  Z.lor bits
                    (Z.shiftl 1 (u32 (CompositePrimitive_underlying e))))
               defaultSupportedPrimitives mSupportedPrimitivesBits,
     defaultSupportedPrimitives).

Section PlaybackMore.

Variable hw : Oracle.

(** The two-argument [on].  [timeoutMs] is an [int32_t] and
    [MAX_TIME_MS] a [uint32_t]: the comparisons and the difference are
    taken on [uint32_t]. *)
Definition on_timeout (timeoutMs : Z) (callback : option nat) : M Z :=
  call (
    when (u32 timeoutMs >? MAX_TIME_MS) (return_ EX_ILLEGAL_ARGUMENT);;
    let index :=
      if u32 timeoutMs <? WAVEFORM_LONG_VIBRATION_THRESHOLD_MS
      then WAVEFORM_SHORT_VIBRATION_EFFECT_INDEX
      else WAVEFORM_LONG_VIBRATION_EFFECT_INDEX in
    let timeoutMs :=
      if MAX_COLD_START_LATENCY_MS <=? u32 (MAX_TIME_MS - timeoutMs)
      then timeoutMs + MAX_COLD_START_LATENCY_MS
      else timeoutMs in
    setGlobalAmplitude hw true;;
    v ← get;
    when (negb (mF0Offset v =? 0)) (
      hwcall hw (setF0Offset Base (mF0Offset v));;
      when (mIsDual v && negb (mF0OffsetDual v =? 0)) (
        hwcall hw (setF0Offset Flip (mF0OffsetDual v));; ret tt));;
    on hw (u32 timeoutMs) index None callback).

(** [setAmplitude].  It only reads [mIsUnderExternalControl], which is
    passed as [underExternalControl]. *)
Definition setAmplitude (underExternalControl : bool)
    (amplitude : F32.float) : M Z :=
  call (
    when (F32_leb amplitude (F32.of_Z 0) || F32.gtb amplitude (F32.of_Z 1))
      (return_ EX_ILLEGAL_ARGUMENT);;
    modify (set_mLongEffectScale amplitude);;
    if negb underExternalControl
    then setGlobalAmplitude hw true
    else return_ EX_UNSUPPORTED_OPERATION).

(** The [performEffect] that takes an [Effect]: the status, and what
    it leaves in [outTimeMs].  The local [effectIndex] is not
    initialised; for [DOUBLE_CLICK] it is passed on as it is, and
    [indeterminate] stands for the value it then holds. *)
Definition performEffect_effect (indeterminate : Z) (effect : Effect.t)
    (strength : EffectStrength.t) (callback : option nat) : M (Z * Z) :=
  fun v =>
    let timeMs := 0 in
    let details :=
      match effect with
      | Effect.TEXTURE_TICK | Effect.TICK | Effect.CLICK
      | Effect.HEAVY_CLICK =>
          match getSimpleDetails v effect strength with
          | None => None
          | Some (inl status) =>
              Some (status, indeterminate, timeMs, 0, None, v)
          | Some (inr (effectIndex, timeMs, volLevel)) =>
              Some (EX_NONE, effectIndex, timeMs, volLevel, None, v)
          end
      | Effect.DOUBLE_CLICK =>
          let maybeCh :=
            DspMemChunk.new WAVEFORM_COMPOSE
              (Z.to_nat FF_CUSTOM_DATA_LEN_MAX_COMP) in
          match getCompoundDetails v effect strength timeMs maybeCh with
          | None => None
          | Some (status, timeMs, maybeCh, v) =>
              Some (status, indeterminate, timeMs, VOLTAGE_SCALE_MAX,
                    Some maybeCh, v)
          end
      | Effect.other _ =>
          Some (EX_UNSUPPORTED_OPERATION, indeterminate, timeMs, 0, None, v)
      end in
    match details with
    | None => Undefined
    | Some (status, effectIndex, timeMs, volLevel, ch, v) =>
        if status =? EX_NONE then
          match performEffect hw effectIndex volLevel ch callback v with
          | Done status v => Done (status, timeMs) v
          | Return status v => Done (status, timeMs) v
          | Undefined => Undefined
          end
        else Done (status, timeMs) v
    end.

Definition perform (indeterminate : Z) (effect : Effect.t)
    (strength : EffectStrength.t) (callback : option nat) : M (Z * Z) :=
  performEffect_effect indeterminate effect strength callback.

(** The getters that answer by the capabilities: the status they return
    with, or the value they leave in their output argument. *)
Definition getFrequencyResolution : M (Z + F32.float) :=
  capabilities ← getCapabilities hw;
  if negb (Z.land capabilities CAP_FREQUENCY_CONTROL =? 0)
  then ret (inr PWLE_FREQUENCY_RESOLUTION_HZ)
  else ret (inl EX_UNSUPPORTED_OPERATION).

Definition getFrequencyMinimum : M (Z + F32.float) :=
  capabilities ← getCapabilities hw;
  if negb (Z.land capabilities CAP_FREQUENCY_CONTROL =? 0)
  then ret (inr PWLE_FREQUENCY_MIN_HZ)
  else ret (inl EX_UNSUPPORTED_OPERATION).

Definition getPwlePrimitiveDurationMax : M (Z + Z) :=
  capabilities ← getCapabilities hw;
  if negb (Z.land capabilities CAP_COMPOSE_PWLE_EFFECTS =? 0)
  then ret (inr COMPOSE_PWLE_PRIMITIVE_DURATION_MAX_MS)
  else ret (inl EX_UNSUPPORTED_OPERATION).

Definition getPwleCompositionSizeMax : M (Z + Z) :=
  capabilities ← getCapabilities hw;
  if negb (Z.land capabilities CAP_COMPOSE_PWLE_EFFECTS =? 0)
  then ret (inr COMPOSE_PWLE_SIZE_MAX_DEFAULT)
  else ret (inl EX_UNSUPPORTED_OPERATION).

End PlaybackMore.

(** * More notions for the statements *)

(** The events that only ask the hardware what it can do. *)
Definition is_probe (e : Event) : bool :=
  match e with
  | getHapticAlsaDevice | hasOwtFreeSpace _ => true
  | _ => false
  end.

Definition is_upload (e : Event) : bool :=
  match e with
  | uploadOwtEffect _ _ _ _ => true
  | _ => false
  end.

Definition is_async (e : Event) : bool :=
  match e with
  | async_waitForComplete _ => true
  | _ => false
  end.

(** The events of [l'] that come after those of [l]. *)
Definition new_events (l l' : list Event) : list Event :=
  drop (length l) l'.

Section MoreLogs.

Variable hw : Oracle.

(** [hasHapticAlsaDevice]: the vibrator it leaves. *)
Definition alsa_state (v : Vibrator) : Vibrator :=
  if mConfigHapticAlsaDeviceDone v then v
  else
    let asked := set_log (log v ++ [getHapticAlsaDevice]) v in
    if ok (hw (log v) getHapticAlsaDevice) then set_alsa true true asked
    else asked.

(** [getCapabilities]: the vibrator it leaves, whether the hardware
    said that it has room for waveforms, and the capabilities. *)
Definition capabilities_state (v : Vibrator) : Vibrator :=
  set_log (log (alsa_state v) ++ [hasOwtFreeSpace Base]) (alsa_state v).

Definition has_owt (v : Vibrator) : bool :=
  ok (hw (log (alsa_state v)) (hasOwtFreeSpace Base)).

Definition base_capabilities : Z :=
  Z.lor CAP_ON_CALLBACK
    (Z.lor CAP_PERFORM_CALLBACK
       (Z.lor CAP_AMPLITUDE_CONTROL
          (Z.lor CAP_GET_RESONANT_FREQUENCY CAP_GET_Q_FACTOR))).

Definition has_capability (capabilities capability : Z) : bool :=
  negb (Z.land capabilities capability =? 0).

End MoreLogs.

(** ** What the composers accept *)

(** Neither below [lo] nor above [hi], as the source tests it. *)
Definition within (x lo hi : F32.float) : bool :=
  negb (F32.ltb x lo) && negb (F32.gtb x hi).

(** An element that [composePwle] lets through.  The kind of a
    braking segment is tested by its value: any value that is not above
    that of [CLAB] passes, a negative one too, and the value of [CLAB]
    only when [CLAB] is supported. *)
Definition valid_pwle (isClabSupported : bool) (e : PrimitivePwle) : Prop :=
  match e with
  | active a =>
      0 <= active_duration a <= COMPOSE_PWLE_PRIMITIVE_DURATION_MAX_MS
      /\ within (startAmplitude a) PWLE_LEVEL_MIN PWLE_LEVEL_MAX = true
      /\ within (endAmplitude a) PWLE_LEVEL_MIN PWLE_LEVEL_MAX = true
      /\ within (startFrequency a) PWLE_FREQUENCY_MIN_HZ PWLE_FREQUENCY_MAX_HZ
         = true
      /\ within (endFrequency a) PWLE_FREQUENCY_MIN_HZ PWLE_FREQUENCY_MAX_HZ
         = true
  | braking b =>
      Braking_underlying (braking_braking b) <= Braking_underlying CLAB
      /\ (Braking_underlying (braking_braking b) = Braking_underlying CLAB ->
          isClabSupported = true)
      /\ 0 <= braking_duration b <= COMPOSE_PWLE_PRIMITIVE_DURATION_MAX_MS
  end.

(** The durations of a composition, added up. *)
Definition sum_durations (composite : list PrimitivePwle) : Z :=
  foldr (fun e total => duration_of e + total) 0 composite.

(** An entry that [compose] lets through: its scale is neither below 0
    nor above 1, and its primitive is [NOOP] or one that is supported. *)
Definition valid_entry (v : Vibrator) (e : CompositeEffect) : Prop :=
  within (scale e) (F32.of_Z 0) (F32.of_Z 1) = true
  /\ (primitive e = NOOP
      \/ exists effectIndex,
           getPrimitiveDetails v (primitive e) = inr effectIndex).

(** The entries of a composition from some place on: each is valid, the
    delay of the one that follows is within 0 and
    [COMPOSE_DELAY_MAX_MS], and a [NOOP] is followed by an entry with a
    delay. *)
Fixpoint valid_entries (v : Vibrator) (composite : list CompositeEffect)
  : Prop :=
  match composite with
  | [] => True
  | e :: rest =>
      valid_entry v e
      /\ match rest with
         | [] => primitive e <> NOOP
         | e_next :: _ =>
             0 <= delayMs e_next <= COMPOSE_DELAY_MAX_MS
             /\ (primitive e = NOOP -> delayMs e_next <> 0)
         end
      /\ valid_entries v rest
  end.

(** ** The bits in a chunk *)

(** The bits that wait in the accumulator, as a number. *)
Definition pending (c : DspMemChunk.t) : Z :=
  DspMemChunk._cache c mod 2 ^ DspMemChunk._cachebits c.

(** A group of 24 bits as the four bytes that [write] stores for it. *)
Definition group_bytes (g : Z) : list Z :=
  [0; g / 2 ^ 16 mod 256; g / 2 ^ 8 mod 256; g mod 256].

(** The bytes [bs] stored in [h] from the index [i] on. *)
Fixpoint store (i : nat) (bs : list Z) (h : list Z) : list Z :=
  match bs with
  | [] => h
  | b :: bs => store (S i) bs (<[i := b]> h)
  end.

(** ** The sections of a composed effect

    A section is a volume level, an effect index and the delay to the
    next one.  The chunk takes a section of eight bytes, and drops one
    whose level is over 100. *)
Definition section_bytes (s : Z * Z * Z) : list Z :=
  let '(level, index, delay) := s in
  if level >? 100 then []
  else [0; level; index; 0; 0; 0; delay / 256; delay mod 256].

(** The sections of the entries: the index and the level that
    [compose_primitive] computes for each, with the delay of the entry
    that follows. *)
Fixpoint entry_sections (v : Vibrator) (composite : list CompositeEffect)
  : list (Z * Z * Z) :=
  match composite with
  | [] => []
  | e :: rest =>
      let delay :=
        match rest with
        | e_next :: _ => delayMs e_next
        | [] => 0
        end in
      match compose_primitive v e 0 with
      | Some (inr (index, level, _)) =>
          (level, index, delay) :: entry_sections v rest
      | _ => entry_sections v rest
      end
  end.

(** The sections of a composition: one for the wait before the first
    entry when it has a delay, then those of the entries. *)
Definition compose_sections (v : Vibrator) (composite : list CompositeEffect)
  : list (Z * Z * Z) :=
  match composite with
  | [] => []
  | e_front :: _ =>
      (if u16 (delayMs e_front) =? 0 then []
       else [(0, 0, u16 (delayMs e_front))])
      ++ entry_sections v composite
  end.

(** A chunk of a composed effect between two sections: nothing waits
    in the accumulator. *)
Definition between_sections (c : DspMemChunk.t) : Prop :=
  DspMemChunk.waveformType c = WAVEFORM_COMPOSE
  /\ DspMemChunk._cachebits c = 0
  /\ length (DspMemChunk.head c) = DspMemChunk._max c
  /\ DspMemChunk.bytes c = Z.of_nat (DspMemChunk._current c).

(** The bytes of a chunk up to its cursor. *)
Definition written (c : DspMemChunk.t) : list Z :=
  take (DspMemChunk._current c) (DspMemChunk.head c).

(** ** The chunk as a stream of bits

    The bytes before the cursor come in groups of four, of which the
    first is padding and the other three carry 24 bits, high byte
    first. *)
Fixpoint groups_value (acc : Z) (l : list Z) : Z :=
  match l with
  | _ :: b1 :: b2 :: b3 :: rest =>
      groups_value (acc * 2 ^ 24 + (b1 * 2 ^ 16 + b2 * 2 ^ 8 + b3)) rest
  | _ => acc
  end.

(** All the bits written so far, those of the groups before those that
    wait in the accumulator, as one number, and how many they are. *)
Definition bit_stream (c : DspMemChunk.t) : Z :=
  groups_value 0 (written c) * 2 ^ DspMemChunk._cachebits c + pending c.

Definition stream_length (c : DspMemChunk.t) : Z :=
  6 * Z.of_nat (DspMemChunk._current c) + DspMemChunk._cachebits c.

(** ** The sections of a PWLE in the blob *)

(** A [float] of the source is a binary32 value: a finite one has a
    mantissa and an exponent of the format. *)
Definition binary32 (x : F32.float) : Prop :=
  valid_binary F32.prec F32.emax x = true.

Definition binary32_pwle (e : PrimitivePwle) : Prop :=
  match e with
  | active a =>
      binary32 (startAmplitude a) /\ binary32 (endAmplitude a)
      /\ binary32 (startFrequency a) /\ binary32 (endFrequency a)
  | braking _ => True
  end.

(** What [fToU16] leaves in [output] when it accepts its input. *)
Definition converted (input scale min max : F32.float) : option Z :=
  match DspMemChunk.fToU16 input scale min max with
  | Some (inr output) => Some output
  | _ => None
  end.

(** The delay, the amplitude, the frequency and the flags that
    [constructActiveSegment] and [constructBrakingSegment] hand to
    [constructPwleSegment]. *)
Definition active_fields (duration : Z) (amplitude frequency : F32.float)
    (chirp : bool) : option (Z * Z * Z * Z) :=
  match converted (F32.of_Z duration) (F32.of_Z 4) (F32.of_Z 0)
          (F32.of_Z COMPOSE_PWLE_PRIMITIVE_DURATION_MAX_MS),
        converted amplitude (F32.of_Z 2048) CS40L26_PWLE_LEVEL_MIN
          CS40L26_PWLE_LEVEL_MAX,
        converted frequency (F32.of_Z 4) PWLE_FREQUENCY_MIN_HZ
          PWLE_FREQUENCY_MAX_HZ with
  | Some delay, Some amp, Some freq =>
      Some (delay, amp, freq, if chirp then PWLE_CHIRP_BIT else 0)
  | _, _, _ => None
  end.

Definition braking_fields (duration : Z) (kind : Braking)
  : option (Z * Z * Z * Z) :=
  match converted (F32.of_Z duration) (F32.of_Z 4) (F32.of_Z 0)
          (F32.of_Z COMPOSE_PWLE_PRIMITIVE_DURATION_MAX_MS),
        converted PWLE_FREQUENCY_MIN_HZ (F32.of_Z 4) PWLE_FREQUENCY_MIN_HZ
          PWLE_FREQUENCY_MAX_HZ with
  | Some delay, Some freq =>
      Some (delay, 0, freq,
            if negb (Braking_underlying kind =? 0) then PWLE_BRAKE_BIT else 0)
  | _, _ => None
  end.

(** A set point is a segment of no duration. *)
Definition section_fields (s : PwleSection) : option (Z * Z * Z * Z) :=
  match s with
  | SetPoint a f => active_fields 0 a f false
  | Ramp d a f chirp => active_fields d a f chirp
  | BrakeSetPoint k => braking_fields 0 k
  | BrakeHold d k => braking_fields d k
  end.

(** The 48 bits that [constructPwleSegment] writes for a section: 16 of
    delay, 12 of amplitude, 12 of frequency and 8 of flags, from the
    high bit down. *)
Definition section_word (fields : Z * Z * Z * Z) : Z :=
  let '(delay, amplitude, frequency, flags) := fields in
  ((delay * 2 ^ 12 + amplitude) * 2 ^ 12 + frequency) * 2 ^ 8
  + Z.shiftl (Z.lor flags 1) 4.

Definition section_bits (s : PwleSection) : option Z :=
  match section_fields s with
  | Some fields => Some (section_word fields)
  | None => None
  end.

(** The delay that a word carries: its 16 high bits. *)
Definition word_delay (w : Z) : Z := w / 2 ^ 32.

(** Words of 48 bits one after the other, the first one highest. *)
Definition words_value (ws : list Z) : Z :=
  fold_left (fun acc w => acc * 2 ^ 48 + w) ws 0.

(** The end point kept once the elements [before] are through, from
    the one kept at first: that of the last element. *)
Definition point_kept (prev : F32.float * F32.float)
    (before : list PrimitivePwle) : F32.float * F32.float :=
  fold_left (fun _ e => next_point e) before prev.

Definition binary32_section (s : PwleSection) : Prop :=
  match s with
  | SetPoint a f | Ramp _ a f _ => binary32 a /\ binary32 f
  | BrakeSetPoint _ | BrakeHold _ _ => True
  end.

(** A chunk in the course of writing: its stream of [len] bits is
    [value], the accumulator is not full, the cursor is at a group of
    four bytes in an array of [_max] bytes, and [bytes] counts the
    bytes before the cursor. *)
Definition streaming (c : DspMemChunk.t) (len value : Z) : Prop :=
  bit_stream c = value
  /\ stream_length c = len
  /\ 0 <= DspMemChunk._cachebits c < 24
  /\ (exists k : nat, DspMemChunk._current c = (4 * k)%nat)
  /\ length (DspMemChunk.head c) = DspMemChunk._max c
  /\ DspMemChunk.bytes c = Z.of_nat (DspMemChunk._current c).
(** * Properties

    ** Rounding of [SpecFloat] *)

Section FloatBounds.

Variables prec emax : Z.
Hypothesis prec_pos : 0 < prec.

Lemma digits2_pos_bound (m : positive) : Z.pos m < 2 ^ Z.pos (digits2_pos m).
Proof.
  induction m as [p IH | p IH |]; cbn [digits2_pos].
  - rewrite Pos2Z.inj_succ, Z.pow_succ_r by lia. lia.
  - rewrite Pos2Z.inj_succ, Z.pow_succ_r by lia. lia.
  - reflexivity.
Qed.

Lemma Zdigits2_bound (m : Z) : Z.abs m < 2 ^ Zdigits2 m.
Proof.
  destruct m as [| p | p]; cbn [Zdigits2 Z.abs].
  - reflexivity.
  - apply digits2_pos_bound.
  - apply digits2_pos_bound.
Qed.

Lemma Zdigits2_nonneg (m : Z) : 0 <= Zdigits2 m.
Proof. destruct m; cbn; lia. Qed.

Lemma shr_1_abs (mrs : shr_record) :
  Z.abs (shr_m (shr_1 mrs)) = Z.div2 (Z.abs (shr_m mrs)).
Proof.
  destruct mrs as [m r s]; destruct m as [| p | p]; try destruct p;
    reflexivity.
Qed.

Lemma shr_1_nonneg (mrs : shr_record) :
  0 <= shr_m mrs -> 0 <= shr_m (shr_1 mrs).
Proof.
  destruct mrs as [m r s]; destruct m as [| p | p]; try destruct p;
    cbn; lia.
Qed.

Lemma iter_pos_shr_1_abs (p : positive) (mrs : shr_record) :
  Z.abs (shr_m (SpecFloat.iter_pos shr_1 p mrs))
  = Z.abs (shr_m mrs) / 2 ^ Z.pos p.
Proof.
  revert mrs; induction p as [p IH | p IH |]; intros mrs;
    cbn [SpecFloat.iter_pos].
  - rewrite !IH, shr_1_abs, Z.div2_div.
    assert (0 < 2 ^ Z.pos p) by (apply Z.pow_pos_nonneg; lia).
    rewrite !Z.div_div by lia.
    f_equal. replace (Z.pos p~1) with (1 + Z.pos p + Z.pos p) by lia.
    rewrite !Z.pow_add_r by lia. change (2 ^ 1) with 2. ring.
  - rewrite !IH.
    assert (0 < 2 ^ Z.pos p) by (apply Z.pow_pos_nonneg; lia).
    rewrite !Z.div_div by lia.
    f_equal. replace (Z.pos p~0) with (Z.pos p + Z.pos p) by lia.
    rewrite !Z.pow_add_r by lia. ring.
  - rewrite shr_1_abs, Z.div2_div. reflexivity.
Qed.

Lemma iter_pos_shr_1_nonneg (p : positive) (mrs : shr_record) :
  0 <= shr_m mrs -> 0 <= shr_m (SpecFloat.iter_pos shr_1 p mrs).
Proof.
  revert mrs; induction p as [p IH | p IH |]; intros mrs Hm;
    cbn [SpecFloat.iter_pos]; auto using shr_1_nonneg.
Qed.

Lemma shr_m_of_loc (m : Z) (l : location) :
  shr_m (shr_record_of_loc m l) = m.
Proof. destruct l as [| []]; reflexivity. Qed.

(** Whatever comes in, [shr_fexp] leaves fewer than [prec] digits. *)
Lemma shr_fexp_bound (m e : Z) (l : location) :
  Z.abs (shr_m (fst (shr_fexp prec emax m e l))) < 2 ^ prec.
Proof.
  unfold shr_fexp, shr.
  pose proof (Zdigits2_bound m) as Hd.
  pose proof (Zdigits2_nonneg m) as Hn.
  assert (Hf : Zdigits2 m + e - prec <= fexp prec emax (Zdigits2 m + e))
    by (unfold fexp; lia).
  destruct (fexp prec emax (Zdigits2 m + e) - e) as [| p | p] eqn:Hs;
    cbn [fst].
  - rewrite shr_m_of_loc.
    eapply Z.lt_le_trans; [exact Hd |].
    apply Z.pow_le_mono_r; lia.
  - rewrite iter_pos_shr_1_abs, shr_m_of_loc.
    apply Z.div_lt_upper_bound; [apply Z.pow_pos_nonneg; lia |].
    rewrite <- Z.pow_add_r by lia.
    eapply Z.lt_le_trans; [exact Hd |].
    apply Z.pow_le_mono_r; lia.
  - rewrite shr_m_of_loc.
    eapply Z.lt_le_trans; [exact Hd |].
    apply Z.pow_le_mono_r; lia.
Qed.

Lemma shr_fexp_nonneg (m e : Z) (l : location) :
  0 <= m -> 0 <= shr_m (fst (shr_fexp prec emax m e l)).
Proof.
  intros Hm. unfold shr_fexp, shr.
  destruct (fexp prec emax (Zdigits2 m + e) - e) as [| p | p];
    cbn [fst]; [| apply iter_pos_shr_1_nonneg |];
    rewrite shr_m_of_loc; exact Hm.
Qed.

Lemma round_nearest_even_nonneg (m : Z) (l : location) :
  0 <= m -> 0 <= round_nearest_even m l.
Proof.
  intros Hm. destruct l as [| []]; cbn; try lia.
  destruct (Z.even m); lia.
Qed.

(** A finite result of the rounding has a mantissa below [2 ^ prec]. *)
Lemma binary_round_aux_bound sx mx ex lx s m e :
  binary_round_aux prec emax sx mx ex lx = S754_finite s m e ->
  Z.pos m < 2 ^ prec.
Proof.
  unfold binary_round_aux.
  destruct (shr_fexp prec emax mx ex lx) as [mrs' e'].
  pose proof (shr_fexp_bound
                (round_nearest_even (shr_m mrs') (loc_of_shr_record mrs'))
                e' loc_Exact) as Hb.
  destruct (shr_fexp prec emax _ e' loc_Exact) as [mrs'' e''].
  cbn [fst] in Hb.
  destruct (shr_m mrs'') as [| p | p]; try discriminate.
  destruct (e'' <=? emax - prec); try discriminate.
  intros [= _ <- _]. exact Hb.
Qed.

(** The rounding of a non-negative mantissa is zero, finite or infinite,
    with the sign it was given. *)
Lemma binary_round_aux_sign sx mx ex lx :
  0 <= mx ->
  match binary_round_aux prec emax sx mx ex lx with
  | S754_zero s | S754_infinity s | S754_finite s _ _ => s = sx
  | S754_nan => False
  end.
Proof.
  intros Hm. unfold binary_round_aux.
  pose proof (shr_fexp_nonneg mx ex lx Hm) as H1.
  destruct (shr_fexp prec emax mx ex lx) as [mrs' e'].
  cbn [fst] in H1.
  pose proof (shr_fexp_nonneg _ e' loc_Exact
                (round_nearest_even_nonneg _ (loc_of_shr_record mrs') H1))
    as H2.
  destruct (shr_fexp prec emax _ e' loc_Exact) as [mrs'' e''].
  cbn [fst] in H2.
  destruct (shr_m mrs'') as [| p | p]; [reflexivity | | lia].
  destruct (e'' <=? emax - prec); reflexivity.
Qed.

End FloatBounds.

Lemma eqb_zero (x : F32.float) : F32.eqb x F32.zero = F32.is_zero x.
Proof. destruct x as [[] | [] | | [] m e]; reflexivity. Qed.

Lemma of_Z_100 : F32.of_Z 100 = S754_finite false 13107200 (-17).
Proof. reflexivity. Qed.

Lemma mul_finite_bound (x y : F32.float) s m e :
  F32.mul x y = S754_finite s m e -> Z.pos m < 2 ^ 24.
Proof.
  unfold F32.mul, SFmul.
  destruct x as [sx | sx | | sx mx ex], y as [sy | sy | | sy my ey];
    try discriminate.
  apply binary_round_aux_bound. reflexivity.
Qed.




(** A positive float with at most 24 digits that is not above [100.0f]
    rounds to at most 100. *)
Lemma round_le_100 (m : positive) (e : Z) (n : Z) :
  Z.pos m < 2 ^ 24 ->
  F32.gtb (S754_finite false m e) (F32.of_Z 100) = false ->
  F32.round (S754_finite false m e) = Some n ->
  0 <= n <= 100.
Proof.
  intros Hm Hgt Hr. rewrite of_Z_100 in Hgt.
  unfold F32.gtb, SFltb, SFcompare in Hgt.
  cbn [F32.round] in Hr.
  destruct (Z.compare_spec (-17) e) as [He | He | He]; try discriminate.
  - subst e. cbn in Hr. injection Hr as <-.
    assert (Z.pos m <= 13107200).
    { destruct (Pos.compare_cont Eq 13107200 m) eqn:Hc; try discriminate.
      - apply Pos.compare_eq in Hc. subst m. discriminate.
      - change (Pos.compare_cont Eq 13107200 m) with (13107200 ?= m)%positive
          in Hc. apply Pos.compare_gt_iff in Hc.
        apply Z.lt_le_incl. exact Hc. }
    split.
    + apply Z.div_pos; lia.
    + apply Z.lt_succ_r, Z.div_lt_upper_bound; lia.
  - destruct (0 <=? e) eqn:H0; [lia |]. injection Hr as <-.
    assert (Hk : 2 ^ 18 <= 2 ^ (- e)) by (apply Z.pow_le_mono_r; lia).
    assert (Hh : 2 * 2 ^ (- e - 1) = 2 ^ (- e)).
    { rewrite <- Z.pow_succ_r by lia. f_equal. lia. }
    change (2 ^ 24) with 16777216 in Hm. change (2 ^ 18) with 262144 in Hk.
    split.
    + apply Z.div_pos; lia.
    + apply Z.lt_succ_r, Z.div_lt_upper_bound; lia.
Qed.

Lemma round_100 : F32.to_unsigned 16 (F32.round (F32.of_Z 100)) = Some 100.
Proof. reflexivity. Qed.

Lemma amplitudeToScale_unfold (amplitude maximum : F32.float) :
  amplitudeToScale amplitude maximum =
  if F32.is_zero maximum then Some 100
  else
    let ratio := F32.mul (F32.div amplitude maximum) (F32.of_Z 100) in
    if F32.gtb ratio (F32.of_Z 100) then Some 100
    else F32.to_unsigned 16 (F32.round ratio).
Proof.
  unfold amplitudeToScale, F32.neb. fold (F32.eqb maximum F32.zero).
  rewrite eqb_zero.
  destruct (F32.is_zero maximum); cbn [negb orb]; [apply round_100 |].
  cbv zeta. destruct (F32.gtb _ _); [apply round_100 | reflexivity].
Qed.

Lemma to_unsigned_Some bits n v :
  F32.to_unsigned bits n = Some v -> n = Some v /\ 0 <= v < 2 ^ bits.
Proof.
  destruct n as [n |]; cbn; [| discriminate].
  destruct (0 <=? n) eqn:H0; destruct (n <? 2 ^ bits) eqn:H1;
    cbn; try discriminate.
  intros [= <-]. split; [reflexivity | lia].
Qed.

Lemma ratio_round_bound (x y : F32.float) v :
  F32.gtb (F32.mul x y) (F32.of_Z 100) = false ->
  F32.to_unsigned 16 (F32.round (F32.mul x y)) = Some v ->
  0 <= v <= 100.
Proof.
  intros Hgt Hv. apply to_unsigned_Some in Hv as [Hr Hv].
  destruct (F32.mul x y) as [s | s | | s m e] eqn:Hmul; try discriminate.
  - injection Hr as <-. lia.
  - pose proof (mul_finite_bound _ _ _ _ _ Hmul) as Hm.
    destruct s.
    + cbn [F32.round] in Hr. injection Hr as Hr. split; [lia |].
      assert (0 <= - v); [| lia]. rewrite <- Hr, Z.opp_involutive.
      destruct (0 <=? e) eqn:He;
        [apply Z.mul_nonneg_nonneg; [lia | apply Z.pow_nonneg; lia] |].
      apply Z.div_pos; [| apply Z.pow_pos_nonneg; lia].
      assert (0 <= 2 ^ (- e - 1)) by (apply Z.pow_nonneg; lia). lia.
    + eapply round_le_100; eauto.
Qed.



(** ** The bit writer *)

Module ChunkFacts.

Import DspMemChunk ChunkSpec.




Lemma write_rec_S fuel nbits val c :
  write_rec (S fuel) nbits val c =
  let c' := fill nbits val c in
  let nbits' := rest nbits c in
  if _cachebits c' =? 24 then
    if isEnd c' then (- ENOSPC, c')
    else if negb (nbits' =? 0)
         then write_rec fuel nbits' val (flush_group c')
         else (0, flush_group c')
  else if negb (nbits' =? 0) then write_rec fuel nbits' val c'
       else (0, c').
Proof. reflexivity. Qed.

Lemma min_spec x y : DspMemChunk.min x y = Z.min x y.
Proof. unfold DspMemChunk.min. destruct (Z.ltb_spec x y); lia. Qed.

(** *** The group of four bytes *)


Lemma put_cache_byte_head c :
  DspMemChunk.head (put_cache_byte c)
  = <[_current c := Z.shiftr (Z.land (_cache c) 0xFF000000) 24]>
      (DspMemChunk.head c).
Proof. reflexivity. Qed.

Lemma put_cache_byte_current c : _current (put_cache_byte c) = S (_current c).
Proof. reflexivity. Qed.

Lemma put_cache_byte_cache c :
  _cache (put_cache_byte c) = u32 (Z.shiftl (_cache c) 8).
Proof. reflexivity. Qed.

Lemma flush_group_unfold c :
  flush_group c =
  let c0 := mk (DspMemChunk.head c) (bytes c) (waveformType c) (_current c)
               (_max c) (Z.land (_cache c) 0xFFFFFF) (_cachebits c) in
  let c4 := put_cache_byte (put_cache_byte
              (put_cache_byte (put_cache_byte c0))) in
  mk (DspMemChunk.head c4) (bytes c + 4) (waveformType c)
     (S (S (S (S (_current c))))) (_max c) (_cache c4) 0.
Proof. reflexivity. Qed.

Lemma flush_group_head c :
  DspMemChunk.head (flush_group c) =
  <[S (S (S (_current c))) := byte_of (_cache c) 0]>
    (<[S (S (_current c)) := byte_of (_cache c) 1]>
       (<[S (_current c) := byte_of (_cache c) 2]>
          (<[_current c := 0]> (DspMemChunk.head c)))).
Proof.
  rewrite flush_group_unfold. cbv zeta. cbn [DspMemChunk.head].
  rewrite !put_cache_byte_head, !put_cache_byte_current, !put_cache_byte_cache.
  cbn [DspMemChunk.head _current _cache].
  unfold byte_of, u32.
  change 0xFFFFFF with (Z.ones 24). change 0xFF with (Z.ones 8).
  change 0xFF000000 with (Z.shiftl (Z.ones 8) 24).
  f_equal; [| f_equal; [| f_equal; [| f_equal]]]; Z.bitblast.
Qed.

Lemma flush_group_current c :
  _current (flush_group c) = S (S (S (S (_current c)))).
Proof. reflexivity. Qed.

Lemma flush_group_bytes c : bytes (flush_group c) = bytes c + 4.
Proof. reflexivity. Qed.

Lemma flush_group_max c : _max (flush_group c) = _max c.
Proof. reflexivity. Qed.

Lemma flush_group_type c : waveformType (flush_group c) = waveformType c.
Proof. reflexivity. Qed.

Lemma flush_group_bits c : _cachebits (flush_group c) = 0.
Proof. reflexivity. Qed.

(** *** Well-formed chunks *)


Lemma flush_group_wf c : wf c -> wf (flush_group c).
Proof.
  intros [[k Hk] Hb Hbits Hlen Hz]. split.
  - exists (S k). rewrite flush_group_current. lia.
  - rewrite flush_group_bytes, flush_group_current. lia.
  - cbn. lia.
  - rewrite flush_group_head, !length_insert. exact Hlen.
  - intros i b. rewrite flush_group_head.
    rewrite !list_lookup_insert_ne by lia.
    intros [(_ & <- & _) | (_ & Hi)]%list_lookup_insert_Some;
      [reflexivity | eauto].
Qed.

Lemma fill_wf nbits val c : wf c -> 0 <= nbits -> wf (fill nbits val c).
Proof.
  intros [Hk Hb Hbits Hlen Hz] Hn. split; cbn; auto.
  rewrite min_spec. lia.
Qed.

Lemma rest_range nbits c :
  0 <= nbits -> 0 <= _cachebits c <= 24 -> 0 <= rest nbits c <= nbits.
Proof. intros. unfold rest. rewrite min_spec. lia. Qed.

Lemma write_rec_wf fuel : forall nbits val c,
  wf c -> 0 <= nbits -> wf (snd (write_rec fuel nbits val c)).
Proof.
  induction fuel as [| fuel IH]; intros nbits val c Hwf Hn; [exact Hwf |].
  rewrite write_rec_S. cbv zeta.
  pose proof (fill_wf nbits val c Hwf Hn) as Hf.
  pose proof (rest_range nbits c Hn (wf_bits c Hwf)) as Hr.
  repeat match goal with
         | |- context [if ?b then _ else _] => destruct b
         end; cbn [snd]; auto using flush_group_wf.
  - apply IH; [apply flush_group_wf; exact Hf | lia].
  - apply IH; [exact Hf | lia].
Qed.

(** [write] touches neither the type nor the end of the array. *)
Lemma write_rec_frame fuel : forall nbits val c,
  waveformType (snd (write_rec fuel nbits val c)) = waveformType c
  /\ _max (snd (write_rec fuel nbits val c)) = _max c.
Proof.
  induction fuel as [| fuel IH]; intros nbits val c; [split; reflexivity |].
  rewrite write_rec_S. cbv zeta.
  repeat match goal with
         | |- context [if ?b then _ else _] => destruct b
         end; cbn [snd]; try (split; reflexivity).
  - destruct (IH (rest nbits c) val (flush_group (fill nbits val c)))
      as [-> ->]. split; reflexivity.
  - destruct (IH (rest nbits c) val (fill nbits val c)) as [-> ->].
    split; reflexivity.
Qed.

(** *** The cursor and the end of the array

    [fits]: the cursor is not past the end, a whole number of groups
    before it.  Every write keeps it so, and the cursor never moves
    back. *)


Lemma write_rec_fits fuel : forall nbits val c,
  fits c -> fits (snd (write_rec fuel nbits val c)).
Proof.
  induction fuel as [| fuel IH]; intros nbits val c Hc; [exact Hc |].
  rewrite write_rec_S. cbv zeta.
  assert (Hg : isEnd (fill nbits val c) = false ->
               fits (flush_group (fill nbits val c))).
  { unfold isEnd. cbn [fill _current _max]. intros He.
    apply Nat.eqb_neq in He. destruct Hc as [k Hk].
    destruct k as [| k]; [lia |].
    exists k. rewrite flush_group_current, flush_group_max.
    cbn [fill _current _max]. lia. }
  destruct (_cachebits _ =? 24); [destruct (isEnd _) eqn:He |];
    try destruct (negb _); cbn [snd]; auto.
Qed.

Lemma write_rec_mono fuel : forall nbits val c,
  (_current c <= _current (snd (write_rec fuel nbits val c)))%nat.
Proof.
  induction fuel as [| fuel IH]; intros nbits val c; [reflexivity |].
  rewrite write_rec_S. cbv zeta.
  destruct (_cachebits _ =? 24); [destruct (isEnd _) |];
    try destruct (negb _); cbn [snd]; try reflexivity.
  - etransitivity; [| apply IH]. rewrite flush_group_current.
    cbn [fill _current]. lia.
  - rewrite flush_group_current. cbn [fill _current]. lia.
  - etransitivity; [| apply IH]. reflexivity.
Qed.

(** With room for all the groups it completes, a write stores them and
    succeeds. *)
Lemma write_rec_exact fuel : forall nbits val c,
  0 <= _cachebits c < 24 -> 0 <= nbits -> (Z.to_nat nbits < fuel)%nat ->
  Z.of_nat (_current c) + 4 * ((_cachebits c + nbits) / 24)
    <= Z.of_nat (_max c) ->
  let r := write_rec fuel nbits val c in
  fst r = 0
  /\ Z.of_nat (_current (snd r))
     = Z.of_nat (_current c) + 4 * ((_cachebits c + nbits) / 24)
  /\ _cachebits (snd r) = (_cachebits c + nbits) mod 24.
Proof.
  induction fuel as [| fuel IH]; intros nbits val c Hb Hn Hf Hroom; [lia |].
  cbv zeta. rewrite write_rec_S. cbv zeta.
  unfold rest. cbn [fill _cachebits]. rewrite min_spec.
  unfold isEnd. cbn [fill _current _max].
  destruct (Z.eqb_spec (_cachebits c + Z.min (24 - _cachebits c) nbits) 24)
    as [Hfull | Hfull].
  - assert (Hq : (_cachebits c + nbits) / 24
                 = 1 + (nbits - Z.min (24 - _cachebits c) nbits) / 24).
    { replace (_cachebits c + nbits)
        with ((nbits - Z.min (24 - _cachebits c) nbits) + 1 * 24) by lia.
      rewrite Z.div_add by lia. lia. }
    assert (Hm : (_cachebits c + nbits) mod 24
                 = (nbits - Z.min (24 - _cachebits c) nbits) mod 24).
    { replace (_cachebits c + nbits)
        with ((nbits - Z.min (24 - _cachebits c) nbits) + 1 * 24) by lia.
      apply Z.mod_add. lia. }
    assert (0 <= (nbits - Z.min (24 - _cachebits c) nbits) / 24)
      by (apply Z.div_pos; lia).
    destruct (Nat.eqb_spec (_current c) (_max c)) as [He | He]; [lia |].
    destruct (Z.eqb_spec (nbits - Z.min (24 - _cachebits c) nbits) 0)
      as [Hz | Hz]; cbn [negb].
    + cbn [fst snd]. rewrite flush_group_current. cbn [fill _current].
      rewrite Hq, Hm, Hz, flush_group_bits.
      change (0 / 24) with 0. change (0 mod 24) with 0.
      split; [reflexivity | split; [lia | reflexivity]].
    + specialize (IH (nbits - Z.min (24 - _cachebits c) nbits) val
                     (flush_group (fill nbits val c))).
      cbv zeta in IH.
      rewrite flush_group_current, flush_group_max, flush_group_bits in IH.
      cbn [fill _current _max] in IH.
      rewrite Hq, Hm. rewrite Z.add_0_l in IH.
      destruct IH as (H1 & H2 & H3); lia.
  - assert (Hmin : Z.min (24 - _cachebits c) nbits = nbits) by lia.
    rewrite Hmin, Z.sub_diag. cbn [Z.eqb negb fst snd fill _current _cachebits].
    rewrite min_spec, Hmin.
    rewrite Z.div_small, Z.mod_small by lia. lia.
Qed.

(** The count of calls given to [write_rec] does not matter once it is
    above the number of bits. *)
Lemma write_rec_fuel f1 : forall f2 nbits val c,
  0 <= _cachebits c <= 24 ->
  (Z.to_nat nbits + (if (_cachebits c =? 24)%Z then 1 else 0) < f1)%nat ->
  (Z.to_nat nbits + (if (_cachebits c =? 24)%Z then 1 else 0) < f2)%nat ->
  write_rec f1 nbits val c = write_rec f2 nbits val c.
Proof.
  induction f1 as [| f1 IH]; intros f2 nbits val c Hb H1 H2; [lia |].
  destruct f2 as [| f2]; [lia |].
  rewrite !write_rec_S. cbv zeta.
  assert (Hrest : rest nbits c <> 0 ->
                  rest nbits c = nbits /\ _cachebits c = 24
                  \/ (Z.to_nat (rest nbits c) < Z.to_nat nbits)%nat
                     /\ _cachebits (fill nbits val c) = 24).
  { unfold rest. cbn [fill _cachebits]. rewrite min_spec. lia. }
  destruct (_cachebits (fill nbits val c) =? 24) eqn:Hfull;
    [destruct (isEnd _) |]; try reflexivity.
  - destruct (Z.eqb_spec (rest nbits c) 0) as [Hz | Hz]; cbn [negb];
      [reflexivity |].
    apply IH; rewrite flush_group_bits; [lia | |];
      destruct (Z.eqb_spec (_cachebits c) 24); cbn [Z.eqb]; lia.
  - destruct (Z.eqb_spec (rest nbits c) 0) as [Hz | Hz]; cbn [negb];
      [reflexivity |].
    apply Z.eqb_neq in Hfull. destruct (Hrest Hz) as [[_ Hc] | [_ Hc]];
      [| contradiction].
    exfalso. apply Hfull. cbn [fill _cachebits].
    unfold rest in Hz. rewrite min_spec in *. lia.
Qed.


Lemma write_rec_code fuel : forall nbits val c,
  fst (write_rec fuel nbits val c) = 0
  \/ fst (write_rec fuel nbits val c) = - ENOSPC.
Proof.
  induction fuel as [| fuel IH]; intros nbits val c; [left; reflexivity |].
  rewrite write_rec_S. cbv zeta.
  destruct (_cachebits _ =? 24); [destruct (isEnd _) |];
    try destruct (negb _); cbn [fst]; auto.
Qed.

(** *** What every operation keeps *)


Lemma keeps_refl c : keeps c c.
Proof. split; auto. Qed.

Lemma keeps_trans c1 c2 c3 : keeps c1 c2 -> keeps c2 c3 -> keeps c1 c3.
Proof.
  intros [] []. split; auto; try congruence. etransitivity; eauto.
Qed.

Lemma write_keeps nbits val c : 0 <= nbits -> keeps c (write_ nbits val c).
Proof.
  intros Hn. unfold write_, write. split.
  - intros Hc. apply write_rec_wf; assumption.
  - apply write_rec_fits.
  - apply write_rec_frame.
  - apply write_rec_frame.
  - apply write_rec_mono.
Qed.

Lemma write_exact nbits val c :
  0 <= _cachebits c < 24 -> 0 <= nbits ->
  Z.of_nat (_current c) + 4 * ((_cachebits c + nbits) / 24)
    <= Z.of_nat (_max c) ->
  fst (write nbits val c) = 0
  /\ Z.of_nat (_current (write_ nbits val c))
     = Z.of_nat (_current c) + 4 * ((_cachebits c + nbits) / 24)
  /\ _cachebits (write_ nbits val c) = (_cachebits c + nbits) mod 24.
Proof.
  intros. unfold write_, write. apply write_rec_exact; auto; lia.
Qed.

(** A write that fills the accumulator when the cursor is at the end
    stores nothing and reports [ENOSPC]. *)
Lemma write_at_end nbits val c :
  isEnd c = true -> 0 <= _cachebits c <= 24 ->
  24 <= _cachebits c + nbits ->
  fst (write nbits val c) = - ENOSPC
  /\ DspMemChunk.head (write_ nbits val c) = DspMemChunk.head c
  /\ _current (write_ nbits val c) = _current c
  /\ bytes (write_ nbits val c) = bytes c.
Proof.
  intros He Hb Hn. unfold write_, write. rewrite write_rec_S. cbv zeta.
  replace (_cachebits (fill nbits (u32 val) c) =? 24) with true.
  - replace (isEnd (fill nbits (u32 val) c)) with true by (symmetry; exact He).
    cbn [fst snd fill DspMemChunk.head _current bytes]. auto.
  - symmetry. apply Z.eqb_eq. cbn [fill _cachebits]. rewrite min_spec. lia.
Qed.

Lemma constructComposeSegment_keeps v i r f d c :
  keeps c (snd (constructComposeSegment v i r f d c)).
Proof.
  unfold constructComposeSegment. cbv zeta.
  destruct (negb _); [apply keeps_refl |].
  destruct (_ || _); [apply keeps_refl |]. cbn [snd].
  repeat (eapply keeps_trans; [| apply write_keeps; lia]).
  apply keeps_refl.
Qed.

Lemma constructPwleSegment_keeps d a f fl vb c :
  keeps c (constructPwleSegment d a f fl vb c).
Proof.
  unfold constructPwleSegment. cbv zeta.
  destruct (negb _);
    repeat (eapply keeps_trans; [| apply write_keeps; lia]);
    apply keeps_refl.
Qed.

Lemma constructActiveSegment_keeps d a f ch c r c' :
  constructActiveSegment d a f ch c = Some (r, c') -> keeps c c'.
Proof.
  unfold constructActiveSegment.
  destruct (negb _); [intros [= _ <-]; apply keeps_refl |].
  repeat (destruct (fToU16 _ _ _ _) as [[|] |];
          try discriminate; try (intros [= _ <-]; apply keeps_refl)).
  intros [= _ <-]. apply constructPwleSegment_keeps.
Qed.

Lemma constructBrakingSegment_keeps d k c r c' :
  constructBrakingSegment d k c = Some (r, c') -> keeps c c'.
Proof.
  unfold constructBrakingSegment.
  destruct (negb _); [intros [= _ <-]; apply keeps_refl |].
  repeat (destruct (fToU16 _ _ _ _) as [[|] |];
          try discriminate; try (intros [= _ <-]; apply keeps_refl));
    intros [= _ <-]; apply constructPwleSegment_keeps.
Qed.

Lemma flush_keeps c : wf c -> keeps c (snd (flush c)).
Proof.
  intros Hc. unfold flush. destruct (_ =? 0); [apply keeps_refl |].
  apply write_keeps. pose proof (wf_bits c Hc). lia.
Qed.

Lemma set_head_keeps h c :
  length h = length (DspMemChunk.head c) ->
  (forall (i : nat) (b : Z), h !! (4 * i)%nat = Some b -> b = 0) ->
  keeps c (set_head h c).
Proof.
  intros Hl Hz. split; auto.
  intros [Hk Hb Hbits Hlen _]. split; auto. cbn. congruence.
Qed.

Lemma updateNSection_keeps n c : wf c -> keeps c (snd (updateNSection n c)).
Proof.
  intros Hc. unfold updateNSection. cbv zeta.
  destruct (_ =? WAVEFORM_COMPOSE).
  - destruct (_ >? _); [apply keeps_refl |]. cbn [snd].
    apply set_head_keeps; [apply length_insert |].
    intros i b. rewrite list_lookup_insert_ne by lia. apply (wf_zero c Hc).
  - destruct (_ =? WAVEFORM_PWLE); [| apply keeps_refl].
    destruct (_ >? _); [apply keeps_refl |]. cbn [snd].
    apply set_head_keeps; [rewrite !length_insert; reflexivity |].
    intros i b. rewrite !list_lookup_insert_ne by lia. apply (wf_zero c Hc).
Qed.

Lemma scaled_top_byte (d : Z) :
  0 <= d <= 0x7FFFF ->
  Z.land (Z.shiftr (Z.lor (u32 (d * 8)) WT_LEN_CALCD) 24) 0xFF = 0.
Proof.
  intros Hd. unfold u32. rewrite Z.mod_small by lia.
  replace (d * 8) with ((d * 8) mod 2 ^ 22) by (apply Z.mod_small; lia).
  change WT_LEN_CALCD with (Z.shiftl 1 23). change 255 with (Z.ones 8).
  Z.bitblast.
  all: subst; rewrite (Z.bits_above_log2 1) by (cbn; lia); reflexivity.
Qed.

Lemma updateWLength_keeps d c : wf c -> keeps c (snd (updateWLength d c)).
Proof.
  intros Hc. unfold updateWLength. cbv zeta.
  destruct (negb _); [apply keeps_refl |].
  destruct (Z.gtb_spec (u32 d) 0x7FFFF); [apply keeps_refl |]. cbn [snd].
  apply set_head_keeps; [rewrite !length_insert; reflexivity |].
  intros i b. rewrite !list_lookup_insert_ne by lia.
  intros [(_ & <- & _) | (_ & Hi)]%list_lookup_insert_Some.
  - apply scaled_top_byte. unfold u32 in *.
    pose proof (Z.mod_pos_bound d (2 ^ 32)). lia.
  - apply (wf_zero c Hc i). exact Hi.
Qed.

(** *** The constructor *)

Lemma blank_wf (type : Z) (size : nat) :
  wf (mk (replicate size 0) 0 type 0%nat size 0 0).
Proof.
  split; cbn.
  - exists 0%nat. reflexivity.
  - reflexivity.
  - lia.
  - apply length_replicate.
  - intros i b [? _]%lookup_replicate. assumption.
Qed.

Lemma new_keeps (type : Z) (size : nat) :
  keeps (mk (replicate size 0) 0 type 0%nat size 0 0) (new type size).
Proof.
  unfold new. cbv zeta. cbn [waveformType].
  destruct (type =? WAVEFORM_COMPOSE);
    [| destruct (type =? WAVEFORM_PWLE)];
    repeat (eapply keeps_trans; [| apply write_keeps; lia]);
    apply keeps_refl.
Qed.

Lemma new_wf (type : Z) (size : nat) : wf (new type size).
Proof. apply (keeps_wf _ _ (new_keeps type size)), blank_wf. Qed.

Lemma new_type (type : Z) (size : nat) : waveformType (new type size) = type.
Proof. apply (keeps_type _ _ (new_keeps type size)). Qed.

Lemma new_max (type : Z) (size : nat) : _max (new type size) = size.
Proof. apply (keeps_max _ _ (new_keeps type size)). Qed.

Lemma new_fits (type : Z) (k : nat) : fits (new type (4 * k)).
Proof.
  apply (keeps_fits _ _ (new_keeps type (4 * k))). exists k. reflexivity.
Qed.

End ChunkFacts.
(** ** The chunks of the composers *)

Lemma compose_ops_keeps (c : DspMemChunk.t) :
  compose_ops c ->
  ChunkSpec.wf c /\ ChunkSpec.fits c
  /\ DspMemChunk.waveformType c = WAVEFORM_COMPOSE
  /\ DspMemChunk._max c = 2044%nat.
Proof.
  induction 1 as [| c v i r f d _ IH | c _ IH | c n _ IH].
  - split; [apply ChunkFacts.new_wf |].
    split; [apply (ChunkFacts.new_fits WAVEFORM_COMPOSE 511) |].
    split; [apply ChunkFacts.new_type | apply ChunkFacts.new_max].
  - destruct IH as (Hw & Hf & Ht & Hm).
    destruct (ChunkFacts.constructComposeSegment_keeps v i r f d c).
    split; [auto | split; [auto | split; congruence]].
  - destruct IH as (Hw & Hf & Ht & Hm).
    destruct (ChunkFacts.flush_keeps c Hw).
    split; [auto | split; [auto | split; congruence]].
  - destruct IH as (Hw & Hf & Ht & Hm).
    destruct (ChunkFacts.updateNSection_keeps n c Hw).
    split; [auto | split; [auto | split; congruence]].
Qed.

Lemma compose_loop_ops (v : Vibrator) (composite : list CompositeEffect) :
  forall ch totalDuration,
    compose_ops ch ->
    match compose_loop v composite ch totalDuration with
    | Enc_ok ch' | Enc_return _ (Some ch') => compose_ops ch'
    | Enc_return _ None => False
    | Enc_undefined => True
    end.
Proof.
  induction composite as [| e_curr rest IH]; intros ch td Hch; cbn [compose_loop];
    [exact Hch |].
  cbv zeta. destruct (_ || _); [exact Hch |].
  destruct (compose_primitive v e_curr td) as [[status | [[i l] td']] |];
    [exact Hch | | exact I].
  match goal with
  | |- context [match ?n with Some _ => _ | None => _ end] =>
      destruct n as [[d td''] |]
  end; [| exact Hch].
  destruct (_ && _); [exact Hch |].
  apply IH. constructor. exact Hch.
Qed.

Lemma compose_encode_ops (v : Vibrator) (composite : list CompositeEffect) :
  match exit_chunk (compose_encode v composite) with
  | Some ch => compose_ops ch
  | None => True
  end.
Proof.
  unfold compose_encode. cbv zeta.
  destruct ((Z.of_nat (length composite) >? COMPOSE_SIZE_MAX)
            || Nat.eqb (length composite) 0); [exact I |].
  destruct composite as [| e_front rest]; [exact I |].
  destruct ((u16 (delayMs e_front) >? COMPOSE_DELAY_MAX_MS)
            || (u16 (delayMs e_front) <? 0)); [exact I |].
  set (ch0 := if negb (u16 (delayMs e_front) =? 0) then _ else _).
  assert (H0 : compose_ops ch0).
  { subst ch0. destruct (negb _); repeat constructor. }
  pose proof (compose_loop_ops v (e_front :: rest) ch0
                (u16 (0 + u16 (delayMs e_front))) H0) as Hl.
  destruct (compose_loop _ _ _ _) as [ch1 | st [ch1 |] |]; cbn [exit_chunk];
    try exact Hl; try exact I.
  set (size := if u16 (delayMs e_front) >? 0 then _ else _).
  assert (H2 : compose_ops
                 (snd (DspMemChunk.updateNSection size
                         (snd (DspMemChunk.flush ch1)))))
    by (repeat constructor; exact Hl).
  destruct (DspMemChunk.updateNSection _ _) as [r ch2]. cbn [snd] in H2.
  destruct (r <? 0); [exact H2 |].
  destruct (u8 _ =? DspMemChunk.size ch2); exact H2.
Qed.

(** The header of an accepted composition carries the count that the
    code computes from the truncated first delay. *)
Lemma compose_encode_count (v : Vibrator) (composite : list CompositeEffect)
    (ch : DspMemChunk.t) :
  compose_encode v composite = Enc_ok ch ->
  exists e_front rest,
    composite = e_front :: rest
    /\ (length composite <= 254)%nat
    /\ DspMemChunk.head ch !! 2%nat
       = Some (if u16 (delayMs e_front) =? 0
               then Z.of_nat (length composite)
               else Z.of_nat (length composite) + 1).
Proof.
  unfold compose_encode. cbv zeta.
  destruct (Z.gtb_spec (Z.of_nat (length composite)) COMPOSE_SIZE_MAX);
    cbn [orb]; [discriminate |].
  destruct (Nat.eqb (length composite) 0); [discriminate |].
  destruct composite as [| e_front rest]; [discriminate |].
  destruct ((u16 (delayMs e_front) >? COMPOSE_DELAY_MAX_MS)
            || (u16 (delayMs e_front) <? 0)); [discriminate |].
  set (ch0 := if negb (u16 (delayMs e_front) =? 0) then _ else _).
  assert (H0 : compose_ops ch0).
  { subst ch0. destruct (negb _); repeat constructor. }
  pose proof (compose_loop_ops v (e_front :: rest) ch0
                (u16 (0 + u16 (delayMs e_front))) H0) as Hl.
  destruct (compose_loop _ _ _ _) as [ch1 | st [ch1 |] |]; try discriminate.
  assert (Hf : compose_ops (snd (DspMemChunk.flush ch1)))
    by (constructor; exact Hl).
  apply compose_ops_keeps in Hf as (Hw & _ & Ht & Hm).
  set (size := if u16 (delayMs e_front) >? 0 then _ else _).
  assert (Hsize : size = if u16 (delayMs e_front) =? 0
                         then Z.of_nat (length (e_front :: rest))
                         else Z.of_nat (length (e_front :: rest)) + 1).
  { subst size. unfold COMPOSE_SIZE_MAX in *.
    pose proof (Z.mod_pos_bound (delayMs e_front) (2 ^ 16) ltac:(lia)).
    fold (u16 (delayMs e_front)) in *.
    destruct (Z.gtb_spec (u16 (delayMs e_front)) 0),
             (Z.eqb_spec (u16 (delayMs e_front)) 0); try lia;
      unfold u16 at 1; apply Z.mod_small; lia. }
  unfold DspMemChunk.updateNSection. cbv zeta. rewrite Ht.
  change (WAVEFORM_COMPOSE =? WAVEFORM_COMPOSE) with true. cbv iota.
  unfold COMPOSE_SIZE_MAX in *.
  destruct (Z.gtb_spec size (254 + 1)); cbn [Z.ltb Z.compare Z.opp EINVAL];
    [discriminate |].
  change (0 <? 0) with false. cbv iota.
  destruct (u8 _ =? DspMemChunk.size _); [discriminate |].
  intros [= <-]. exists e_front, rest.
  split; [reflexivity |]. split; [lia |].
  unfold DspMemChunk.set_head, DspMemChunk.front. cbn [DspMemChunk.head].
  rewrite list_lookup_insert_eq
    by (rewrite (ChunkSpec.wf_len _ Hw), Hm; lia).
  f_equal. rewrite <- Hsize.
  rewrite Z.land_comm. change 255 with (Z.ones 8).
  rewrite Z.land_ones by lia. apply Z.mod_small.
  rewrite Hsize. destruct (_ =? 0); lia.
Qed.
(** ** The chunk of a PWLE *)

Lemma write_step (nbits val : Z) (c : DspMemChunk.t) (cb : Z) :
  DspMemChunk._cachebits c = cb -> 0 <= cb < 24 -> 0 <= nbits ->
  Z.of_nat (DspMemChunk._current c) + 4 * ((cb + nbits) / 24)
    <= Z.of_nat (DspMemChunk._max c) ->
  DspMemChunk._cachebits (DspMemChunk.write_ nbits val c) = (cb + nbits) mod 24
  /\ Z.of_nat (DspMemChunk._current (DspMemChunk.write_ nbits val c))
     = Z.of_nat (DspMemChunk._current c) + 4 * ((cb + nbits) / 24)
  /\ DspMemChunk._max (DspMemChunk.write_ nbits val c) = DspMemChunk._max c.
Proof.
  intros <- Hb Hn Hroom.
  destruct (ChunkFacts.write_exact nbits val c Hb Hn Hroom) as (_ & Hc & Hbits).
  split; [exact Hbits |]. split; [exact Hc |].
  apply (ChunkSpec.keeps_max _ _ (ChunkFacts.write_keeps nbits val c Hn)).
Qed.

(** A segment without the back-EMF target is 48 bits: eight bytes, and
    the four waiting bits stay. *)
Lemma constructPwleSegment_exact d a f fl vb (c : DspMemChunk.t) :
  Z.land (u8 fl) PWLE_AMP_REG_BIT = 0 ->
  DspMemChunk._cachebits c = 4 ->
  Z.of_nat (DspMemChunk._current c) + 8 <= Z.of_nat (DspMemChunk._max c) ->
  DspMemChunk._cachebits (DspMemChunk.constructPwleSegment d a f fl vb c) = 4
  /\ DspMemChunk._current (DspMemChunk.constructPwleSegment d a f fl vb c)
     = (8 + DspMemChunk._current c)%nat.
Proof.
  intros Hfl Hcb Hroom. unfold DspMemChunk.constructPwleSegment. cbv zeta.
  rewrite Hfl. change (negb (0 =? 0)) with false. cbv iota.
  destruct (write_step 16 (u16 d) c 4 Hcb) as (Hb1 & Hc1 & Hm1);
    [lia | lia | change ((4 + 16) / 24) with 0; lia |].
  change ((4 + 16) mod 24) with 20 in Hb1.
  change ((4 + 16) / 24) with 0 in Hc1.
  destruct (write_step 12 (u16 a) _ 20 Hb1) as (Hb2 & Hc2 & Hm2);
    [lia | lia | change ((20 + 12) / 24) with 1; lia |].
  change ((20 + 12) mod 24) with 8 in Hb2.
  change ((20 + 12) / 24) with 1 in Hc2.
  destruct (write_step 12 (u16 f) _ 8 Hb2) as (Hb3 & Hc3 & Hm3);
    [lia | lia | change ((8 + 12) / 24) with 0; lia |].
  change ((8 + 12) mod 24) with 20 in Hb3.
  change ((8 + 12) / 24) with 0 in Hc3.
  destruct (write_step 8 (Z.shiftl (Z.lor (u8 fl) 1) 4) _ 20 Hb3)
    as (Hb4 & Hc4 & Hm4);
    [lia | lia | change ((20 + 8) / 24) with 1; lia |].
  change ((20 + 8) mod 24) with 4 in Hb4.
  change ((20 + 8) / 24) with 1 in Hc4.
  split; [exact Hb4 | lia].
Qed.

Lemma constructActiveSegment_exact d a f chirp c r c' :
  DspMemChunk.constructActiveSegment d a f chirp c = Some (r, c') ->
  DspMemChunk._cachebits c = 4 ->
  Z.of_nat (DspMemChunk._current c) + 8 <= Z.of_nat (DspMemChunk._max c) ->
  DspMemChunk._cachebits c' = 4
  /\ (DspMemChunk._current c' <= 8 + DspMemChunk._current c)%nat.
Proof.
  unfold DspMemChunk.constructActiveSegment. intros H Hcb Hroom.
  destruct (negb _); [injection H as _ <-; split; [exact Hcb | lia] |].
  repeat (destruct (DspMemChunk.fToU16 _ _ _ _) as [[|] |];
          try discriminate;
          try (injection H as _ <-; split; [exact Hcb | lia])).
  injection H as _ <-.
  edestruct constructPwleSegment_exact as [-> ->]; [| exact Hcb | exact Hroom |].
  - destruct chirp; reflexivity.
  - split; [reflexivity | lia].
Qed.

Lemma constructBrakingSegment_exact d k c r c' :
  DspMemChunk.constructBrakingSegment d k c = Some (r, c') ->
  DspMemChunk._cachebits c = 4 ->
  Z.of_nat (DspMemChunk._current c) + 8 <= Z.of_nat (DspMemChunk._max c) ->
  DspMemChunk._cachebits c' = 4
  /\ (DspMemChunk._current c' <= 8 + DspMemChunk._current c)%nat.
Proof.
  unfold DspMemChunk.constructBrakingSegment. intros H Hcb Hroom.
  destruct (negb _); [injection H as _ <-; split; [exact Hcb | lia] |].
  repeat (destruct (DspMemChunk.fToU16 _ _ _ _) as [[|] |];
          try discriminate;
          try (injection H as _ <-; split; [exact Hcb | lia])).
  all: injection H as _ <-.
  all: edestruct constructPwleSegment_exact as [-> ->];
    [| exact Hcb | exact Hroom |];
    [destruct (negb (Braking_underlying k =? 0)); reflexivity
    | split; [reflexivity | lia]].
Qed.

Lemma updateWLength_current d c :
  DspMemChunk._current (snd (DspMemChunk.updateWLength d c))
  = DspMemChunk._current c.
Proof.
  unfold DspMemChunk.updateWLength. cbv zeta.
  destruct (negb _); [reflexivity |]. destruct (_ >? _); reflexivity.
Qed.

Lemma updateNSection_current n c :
  DspMemChunk._current (snd (DspMemChunk.updateNSection n c))
  = DspMemChunk._current c.
Proof.
  unfold DspMemChunk.updateNSection. cbv zeta.
  repeat (destruct (_ =? _); [destruct (_ >? _); reflexivity |]).
  reflexivity.
Qed.

Lemma new_pwle_start :
  DspMemChunk._cachebits
    (DspMemChunk.new WAVEFORM_PWLE (Z.to_nat FF_CUSTOM_DATA_LEN_MAX_PWLE)) = 4
  /\ DspMemChunk._current
       (DspMemChunk.new WAVEFORM_PWLE (Z.to_nat FF_CUSTOM_DATA_LEN_MAX_PWLE))
     = 8%nat.
Proof. split; vm_compute; reflexivity. Qed.

Lemma pwle_ops_inv n flushed c :
  pwle_ops n flushed c -> (n <= 254)%nat -> pwle_inv n flushed c.
Proof.
  induction 1 as [| n c d a f ch r c' _ IH Hs | n c d k r c' _ IH Hs
                  | n c _ IH | n c d _ IH | n c k _ IH]; intros Hn.
  - destruct new_pwle_start as [Hb Hc].
    split; [apply ChunkFacts.new_wf |].
    split; [apply ChunkFacts.new_type |].
    split; [apply ChunkFacts.new_max |].
    split; [exact Hb | rewrite Hc; lia].
  - destruct IH as (Hw & Ht & Hm & Hb & Hc); [lia |].
    destruct (ChunkFacts.constructActiveSegment_keeps _ _ _ _ _ _ _ Hs).
    destruct (constructActiveSegment_exact _ _ _ _ _ _ _ Hs Hb) as [Hb' Hc'];
      [lia |].
    split; [auto |]. split; [congruence |]. split; [congruence |].
    split; [exact Hb' | lia].
  - destruct IH as (Hw & Ht & Hm & Hb & Hc); [lia |].
    destruct (ChunkFacts.constructBrakingSegment_keeps _ _ _ _ _ Hs).
    destruct (constructBrakingSegment_exact _ _ _ _ _ Hs Hb) as [Hb' Hc'];
      [lia |].
    split; [auto |]. split; [congruence |]. split; [congruence |].
    split; [exact Hb' | lia].
  - destruct IH as (Hw & Ht & Hm & Hb & Hc); [lia |].
    destruct (ChunkFacts.flush_keeps c Hw).
    split; [auto |]. split; [congruence |]. split; [congruence |].
    unfold DspMemChunk.flush. rewrite Hb. change (4 =? 0) with false.
    cbv iota. change (24 - 4) with 20.
    destruct (write_step 20 0 c 4 Hb) as (_ & Hc' & _);
      [lia | lia | change ((4 + 20) / 24) with 1; lia |].
    change ((4 + 20) / 24) with 1 in Hc'. unfold DspMemChunk.write_ in Hc'.
    lia.
  - destruct IH as (Hw & Ht & Hm & Hc); [lia |].
    destruct (ChunkFacts.updateWLength_keeps d c Hw).
    split; [auto |]. split; [congruence |]. split; [congruence |].
    rewrite updateWLength_current. exact Hc.
  - destruct IH as (Hw & Ht & Hm & Hc); [lia |].
    destruct (ChunkFacts.updateNSection_keeps k c Hw).
    split; [auto |]. split; [congruence |]. split; [congruence |].
    rewrite updateNSection_current. exact Hc.
Qed.
(** ** The loop of [composePwle] *)

Lemma pwle_sections_cons prev e rest :
  pwle_sections prev (e :: rest)
  = pwle_sections prev [e] ++ pwle_sections (next_point e) rest.
Proof.
  destruct e as [a | b]; cbn [pwle_sections next_point].
  - rewrite <- app_assoc. reflexivity.
  - reflexivity.
Qed.

Lemma write_sections_app l1 l2 c :
  write_sections (l1 ++ l2) c
  = match write_sections l1 c with
    | Some c' => write_sections l2 c'
    | None => None
    end.
Proof.
  revert c; induction l1 as [| s l1 IH]; intros c; cbn [write_sections app];
    [reflexivity |].
  destruct (write_section s c) as [[r c'] |]; [| reflexivity].
  destruct (r <? 0); [reflexivity | apply IH].
Qed.

Lemma write_sections_ops l : forall n c c',
  pwle_ops n false c -> write_sections l c = Some c' ->
  pwle_ops (n + length l) false c'.
Proof.
  induction l as [| s l IH]; intros n c c' Hc; cbn [write_sections length].
  - intros [= <-]. rewrite Nat.add_0_r. exact Hc.
  - destruct (write_section s c) as [[r c1] |] eqn:Hs; [| discriminate].
    destruct (r <? 0); [discriminate |]. intros Hl.
    rewrite <- Nat.add_succ_comm. eapply IH; [| exact Hl].
    destruct s; cbn [write_section] in Hs;
      [eapply po_active | eapply po_active
       | eapply po_braking | eapply po_braking]; eauto.
Qed.

(** One turn of the loop writes the sections of its element. *)
Lemma composePwle_case_sections clab e st st' :
  chirp st = false ->
  composePwle_case clab e st = Some (inr st') ->
  write_sections
    (pwle_sections (prevEndAmplitude st, prevEndFrequency st) [e]) (pl_ch st)
  = Some (pl_ch st')
  /\ segmentIdx st'
     = segmentIdx st
       + Z.of_nat (length (pwle_sections
                             (prevEndAmplitude st, prevEndFrequency st) [e]))
  /\ (prevEndAmplitude st', prevEndFrequency st') = next_point e
  /\ pl_totalDuration st' = u32 (pl_totalDuration st + duration_of e)
  /\ chirp st' = false.
Proof.
  intros Hchirp. unfold composePwle_case.
  destruct e as [a | b]; cbv zeta.
  - destruct (_ || _); [discriminate |].
    destruct (_ || _ || _ || _); [discriminate |].
    destruct (_ || _ || _ || _); [discriminate |].
    cbn [pwle_sections next_point duration_of]. unfold same_point.
    cbn [fst snd]. fold (device_level (startAmplitude a)).
    fold (device_level (endAmplitude a)).
    rewrite Hchirp.
    replace (if F32.neb (startFrequency a) (endFrequency a) then true else false)
      with (F32.neb (startFrequency a) (endFrequency a))
      by (destruct (F32.neb _ _); reflexivity).
    unfold incrementIndex.
    destruct (F32.eqb (device_level (startAmplitude a)) (prevEndAmplitude st)
              && F32.eqb (startFrequency a) (prevEndFrequency st));
      cbn [negb app write_sections write_section length].
    + destruct (DspMemChunk.constructActiveSegment (active_duration a) _ _ _ _)
        as [[r c] |]; [| discriminate].
      destruct (r <? 0); [discriminate |].
      intros [= <-]. cbn. repeat split. all: first [lia | assumption].
    + destruct (DspMemChunk.constructActiveSegment 0 _ _ _ _)
        as [[r0 c0] |]; [| discriminate].
      destruct (r0 <? 0); [discriminate |].
      destruct (DspMemChunk.constructActiveSegment (active_duration a) _ _ _ _)
        as [[r c] |]; [| discriminate].
      destruct (r <? 0); [discriminate |].
      intros [= <-]. cbn. repeat split. all: first [lia | assumption].
  - destruct (_ >? _); [discriminate |].
    destruct (_ && _); [discriminate |].
    destruct (_ >? _); [discriminate |].
    cbn [pwle_sections next_point duration_of write_sections write_section
         length].
    unfold incrementIndex.
    destruct (DspMemChunk.constructBrakingSegment 0 _ _)
      as [[r0 c0] |]; [| discriminate].
    destruct (r0 <? 0); [discriminate |].
    destruct (DspMemChunk.constructBrakingSegment (braking_duration b) _ _)
      as [[r c] |]; [| discriminate].
    destruct (r <? 0); [discriminate |].
    intros [= <-]. cbn. repeat split. all: first [lia | assumption].
Qed.

Lemma composePwle_loop_sections clab composite : forall st st',
  chirp st = false ->
  composePwle_loop clab composite st = Some (inr st') ->
  write_sections
    (pwle_sections (prevEndAmplitude st, prevEndFrequency st) composite)
    (pl_ch st)
  = Some (pl_ch st')
  /\ segmentIdx st'
     = segmentIdx st
       + Z.of_nat (length (pwle_sections
                             (prevEndAmplitude st, prevEndFrequency st)
                             composite))
  /\ pl_totalDuration st' = pwle_duration composite (pl_totalDuration st).
Proof.
  induction composite as [| e rest IH]; intros st st' Hchirp;
    cbn [composePwle_loop].
  - intros [= <-]. cbn. repeat split. all: first [lia | assumption].
  - destruct (composePwle_case clab e st) as [[[s c] | st1] |] eqn:Hcase;
      try discriminate.
    destruct (composePwle_case_sections _ _ _ _ Hchirp Hcase)
      as (Hw & Hi & Hp & Hd & Hc).
    destruct (_ >? _); [discriminate |]. intros Hl.
    destruct (IH st1 st' Hc Hl) as (Hw' & Hi' & Hd').
    rewrite pwle_sections_cons, write_sections_app, Hw, length_app.
    rewrite <- Hp. split; [exact Hw' |]. split; [lia |].
    rewrite Hd'. destruct e; cbn [pwle_duration duration_of] in *;
      rewrite Hd; reflexivity.
Qed.

Lemma composePwle_loop_sections_from clab composite ch idx total pa pf st' :
  composePwle_loop clab composite
    {| pl_ch := ch; segmentIdx := idx; pl_totalDuration := total;
       prevEndAmplitude := pa; prevEndFrequency := pf; chirp := false |}
  = Some (inr st') ->
  write_sections (pwle_sections (pa, pf) composite) ch = Some (pl_ch st')
  /\ segmentIdx st'
     = idx + Z.of_nat (length (pwle_sections (pa, pf) composite))
  /\ pl_totalDuration st' = pwle_duration composite total.
Proof.
  intros H.
  exact (composePwle_loop_sections clab composite
           {| pl_ch := ch; segmentIdx := idx; pl_totalDuration := total;
              prevEndAmplitude := pa; prevEndFrequency := pf;
              chirp := false |} st' eq_refl H).
Qed.

(** A turn of the loop calls the chunk for at most two segments, also
    when it ends in a [return]. *)
Lemma composePwle_case_ops clab e st n :
  pwle_ops n false (pl_ch st) ->
  match composePwle_case clab e st with
  | Some (inl (_, ch)) =>
      exists k, (k <= 2)%nat /\ pwle_ops (n + k) false ch
  | Some (inr st') =>
      exists k, (k <= 2)%nat /\ pwle_ops (n + k) false (pl_ch st')
  | None => True
  end.
Proof.
  intros Hc.
  assert (H0 : exists k, (k <= 2)%nat /\ pwle_ops (n + k) false (pl_ch st))
    by (exists 0%nat; rewrite Nat.add_0_r; auto).
  unfold composePwle_case. destruct e as [a | b]; cbv zeta.
  - destruct (_ || _); [exact H0 |].
    destruct (_ || _ || _ || _); [exact H0 |].
    destruct (_ || _ || _ || _); [exact H0 |].
    destruct (negb _).
    + destruct (DspMemChunk.constructActiveSegment 0 _ _ _ _)
        as [[r0 c0] |] eqn:H1; [| exact I].
      assert (Hc0 : pwle_ops (S n) false c0) by (eapply po_active; eauto).
      destruct (r0 <? 0);
        [exists 1%nat; rewrite Nat.add_1_r; auto |].
      destruct (DspMemChunk.constructActiveSegment (active_duration a) _ _ _ _)
        as [[r c] |] eqn:H2; [| exact I].
      assert (Hc1 : pwle_ops (S (S n)) false c) by (eapply po_active; eauto).
      destruct (r <? 0); exists 2%nat;
        (split; [lia |]); replace (n + 2)%nat with (S (S n)) by lia;
        exact Hc1.
    + destruct (DspMemChunk.constructActiveSegment (active_duration a) _ _ _ _)
        as [[r c] |] eqn:H2; [| exact I].
      assert (Hc1 : pwle_ops (S n) false c) by (eapply po_active; eauto).
      destruct (r <? 0); exists 1%nat;
        (split; [lia |]); rewrite Nat.add_1_r; exact Hc1.
  - destruct (_ >? _); [exact H0 |].
    destruct (_ && _); [exact H0 |].
    destruct (_ >? _); [exact H0 |].
    destruct (DspMemChunk.constructBrakingSegment 0 _ _)
      as [[r0 c0] |] eqn:H1; [| exact I].
    assert (Hc0 : pwle_ops (S n) false c0) by (eapply po_braking; eauto).
    destruct (r0 <? 0);
      [exists 1%nat; rewrite Nat.add_1_r; auto |].
    destruct (DspMemChunk.constructBrakingSegment (braking_duration b) _ _)
      as [[r c] |] eqn:H2; [| exact I].
    assert (Hc1 : pwle_ops (S (S n)) false c) by (eapply po_braking; eauto).
    destruct (r <? 0); exists 2%nat;
      (split; [lia |]); replace (n + 2)%nat with (S (S n)) by lia;
      exact Hc1.
Qed.

Lemma composePwle_loop_ops clab composite : forall st n,
  pwle_ops n false (pl_ch st) ->
  match composePwle_loop clab composite st with
  | Some (inl (_, ch)) =>
      exists k, (k <= 2 * length composite)%nat /\ pwle_ops (n + k) false ch
  | Some (inr st') =>
      exists k, (k <= 2 * length composite)%nat
                /\ pwle_ops (n + k) false (pl_ch st')
  | None => True
  end.
Proof.
  induction composite as [| e rest IH]; intros st n Hc; cbn [composePwle_loop].
  - exists 0%nat. rewrite Nat.add_0_r. auto.
  - pose proof (composePwle_case_ops clab e st n Hc) as H1.
    destruct (composePwle_case clab e st) as [[[s c] | st1] |]; [| | exact I].
    + destruct H1 as (k & Hk & H1). exists k. cbn [length]. split; [lia | auto].
    + destruct H1 as (k & Hk & H1).
      destruct (_ >? _).
      * exists k. cbn [length]. split; [lia | auto].
      * specialize (IH st1 (n + k)%nat H1).
        destruct (composePwle_loop clab rest st1) as [[[s c] | st2] |];
          [| | exact I];
          destruct IH as (k' & Hk' & IH); exists (k + k')%nat; cbn [length];
          (split; [lia |]); rewrite Nat.add_assoc; exact IH.
Qed.

Lemma composePwle_encode_ops clab composite :
  match exit_chunk (composePwle_encode clab composite) with
  | Some ch => exists n flushed, (n <= 254)%nat /\ pwle_ops n flushed ch
  | None => True
  end.
Proof.
  unfold composePwle_encode.
  destruct (Nat.eqb (length composite) 0); cbn [orb]; [exact I |].
  destruct (Z.gtb_spec (Z.of_nat (length composite))
                       COMPOSE_PWLE_SIZE_MAX_DEFAULT); [exact I |].
  unfold COMPOSE_PWLE_SIZE_MAX_DEFAULT in *.
  cbv zeta. cbn [resetPreviousEndAmplitudeEndFrequency].
  match goal with
  | |- context [composePwle_loop clab composite ?st] =>
      pose proof (composePwle_loop_ops clab composite st 0%nat po_new) as Hl;
      destruct (composePwle_loop clab composite st) as [[[s c] | st1] |]
  end; cbn [exit_chunk]; [| | exact I].
  - destruct Hl as (k & Hk & Hl). exists k, false. split; [lia | exact Hl].
  - destruct Hl as (k & Hk & Hl). cbn [Nat.add] in Hl.
    assert (Hf : pwle_ops k true (snd (DspMemChunk.flush (pl_ch st1))))
      by (constructor; exact Hl).
    destruct (_ >? _); cbn [exit_chunk];
      [exists k, true; split; [lia | exact Hf] |].
    match goal with
    | |- context [DspMemChunk.updateWLength ?d ?c] =>
        assert (Hw : pwle_ops k true (snd (DspMemChunk.updateWLength d c)))
          by (constructor; exact Hf);
        destruct (DspMemChunk.updateWLength d c) as [r1 c1]
    end. cbn [snd] in Hw.
    destruct (r1 <? 0); cbn [exit_chunk];
      [exists k, true; split; [lia | exact Hw] |].
    match goal with
    | |- context [DspMemChunk.updateNSection ?d ?c] =>
        assert (Hs : pwle_ops k true (snd (DspMemChunk.updateNSection d c)))
          by (constructor; exact Hw);
        destruct (DspMemChunk.updateNSection d c) as [r2 c2]
    end. cbn [snd] in Hs.
    destruct (r2 <? 0); cbn [exit_chunk];
      exists k, true; (split; [lia | exact Hs]).
Qed.
(** ** The claims on the encoders *)

(** In range, the truncation of the first delay is harmless: the header
    of an accepted composition carries the section count of the
    specification. *)
Lemma compose_section_count (v : Vibrator) (composite : list CompositeEffect)
    (ch : DspMemChunk.t) (e_front : CompositeEffect) :
  compose_encode v composite = Enc_ok ch ->
  head composite = Some e_front ->
  0 <= delayMs e_front < 2 ^ 16 ->
  DspMemChunk.head ch !! 2%nat = Some (section_count composite).
Proof.
  intros Henc Hfront Hd.
  destruct (compose_encode_count v composite ch Henc)
    as (e & rest & -> & _ & Hc).
  injection Hfront as ->. rewrite Hc. unfold section_count, u16.
  rewrite Z.mod_small by exact Hd. reflexivity.
Qed.

(** C1, at the input that defeats it.  [compose] stores the first delay
    in a [uint16_t] before it checks its range; a delay of 65536 is
    stored as zero, so the sequence is accepted, no leading segment is
    written and the header carries the count 1, where the claim has 2
    for an entry with a nonzero delay. *)
Theorem compose_first_delay_wraps :
  exists ch,
    compose_encode (sample_vibrator false false) wrapped_delay = Enc_ok ch
    /\ DspMemChunk.head ch !! 2%nat = Some 1
    /\ section_count wrapped_delay = 2
    /\ DspMemChunk.size ch = 12.
Proof.
  eexists. split; [vm_compute; reflexivity |].
  repeat split; vm_compute; reflexivity.
Qed.

(** C3.  Whatever operations [compose] and [composePwle] perform on
    their chunk, in whatever number the loops allow, the cursor stays
    within the array: 2044 bytes of a composed effect, 2302 of a PWLE.
    The chunk either encoder ends with, also on a [return], is reached
    by such operations.  A write that fills the accumulator when the
    cursor is at the end stores nothing and answers [-ENOSPC]; any
    further write on a chunk of [compose] leaves the cursor within the
    array. *)
Theorem chunk_cursor_within_capacity :
  (forall c, compose_ops c ->
     (DspMemChunk._current c <= DspMemChunk._max c)%nat
     /\ DspMemChunk._max c = Z.to_nat FF_CUSTOM_DATA_LEN_MAX_COMP)
  /\ (forall n flushed c, pwle_ops n flushed c -> (n <= 254)%nat ->
        (DspMemChunk._current c <= DspMemChunk._max c)%nat
        /\ DspMemChunk._max c = Z.to_nat FF_CUSTOM_DATA_LEN_MAX_PWLE)
  /\ (forall v composite,
        match exit_chunk (compose_encode v composite) with
        | Some ch => compose_ops ch
        | None => True
        end)
  /\ (forall isClabSupported composite,
        match exit_chunk (composePwle_encode isClabSupported composite) with
        | Some ch => exists n flushed, (n <= 254)%nat /\ pwle_ops n flushed ch
        | None => True
        end)
  /\ (forall c nbits val,
        DspMemChunk.isEnd c = true ->
        0 <= DspMemChunk._cachebits c <= 24 ->
        24 <= DspMemChunk._cachebits c + nbits ->
        fst (DspMemChunk.write nbits val c) = - ENOSPC
        /\ DspMemChunk.head (DspMemChunk.write_ nbits val c)
           = DspMemChunk.head c
        /\ DspMemChunk._current (DspMemChunk.write_ nbits val c)
           = DspMemChunk._current c)
  /\ (forall c nbits val,
        compose_ops c ->
        (DspMemChunk._current (DspMemChunk.write_ nbits val c)
         <= DspMemChunk._max (DspMemChunk.write_ nbits val c))%nat
        /\ (fst (DspMemChunk.write nbits val c) = 0
            \/ fst (DspMemChunk.write nbits val c) = - ENOSPC)).
Proof.
  split; [| split; [| split; [| split; [| split]]]].
  - intros c Hc. destruct (compose_ops_keeps c Hc) as (_ & [k Hk] & _ & Hm).
    split; [lia | exact Hm].
  - intros n flushed c Hc Hn.
    destruct (pwle_ops_inv n flushed c Hc Hn) as (_ & _ & Hm & Hcur).
    split; [| exact Hm]. rewrite Hm. destruct flushed; lia.
  - apply compose_encode_ops.
  - apply composePwle_encode_ops.
  - intros c nbits val He Hb Hn.
    destruct (ChunkFacts.write_at_end nbits val c He Hb Hn) as (? & ? & ? & _).
    auto.
  - intros c nbits val Hc.
    destruct (compose_ops_keeps c Hc) as (_ & Hf & _ & _).
    split; [| apply ChunkFacts.write_rec_code].
    destruct (ChunkFacts.write_rec_fits (S (S (Z.to_nat nbits))) nbits
                (u32 val) c Hf) as [k Hk].
    unfold DspMemChunk.write_, DspMemChunk.write. lia.
Qed.

Lemma chunk_cursor_within_capacity_witness :
  (DspMemChunk._current
     (snd (DspMemChunk.constructComposeSegment 100 2 0 0 50
             (DspMemChunk.new WAVEFORM_COMPOSE
                (Z.to_nat FF_CUSTOM_DATA_LEN_MAX_COMP))))
   <= DspMemChunk._max
        (snd (DspMemChunk.constructComposeSegment 100 2 0 0 50
                (DspMemChunk.new WAVEFORM_COMPOSE
                   (Z.to_nat FF_CUSTOM_DATA_LEN_MAX_COMP)))))%nat.
Proof.
  apply (proj1 chunk_cursor_within_capacity).
  apply co_segment, co_new.
Defined.

Lemma pwle_ops_wf n flushed c : pwle_ops n flushed c -> ChunkSpec.wf c.
Proof.
  induction 1 as [| n c d a f ch r c' _ IH Hs | n c d k r c' _ IH Hs
                  | n c _ IH | n c d _ IH | n c k _ IH].
  - apply ChunkFacts.new_wf.
  - exact (ChunkSpec.keeps_wf _ _
             (ChunkFacts.constructActiveSegment_keeps _ _ _ _ _ _ _ Hs) IH).
  - exact (ChunkSpec.keeps_wf _ _
             (ChunkFacts.constructBrakingSegment_keeps _ _ _ _ _ Hs) IH).
  - exact (ChunkSpec.keeps_wf _ _ (ChunkFacts.flush_keeps c IH) IH).
  - exact (ChunkSpec.keeps_wf _ _ (ChunkFacts.updateWLength_keeps d c IH) IH).
  - exact (ChunkSpec.keeps_wf _ _ (ChunkFacts.updateNSection_keeps k c IH) IH).
Qed.

Lemma wf_blob_aligned c : ChunkSpec.wf c -> blob_aligned c.
Proof.
  intros [[k Hk] Hb _ _ Hz]. split; [| exact Hz].
  unfold DspMemChunk.size. rewrite Hb, Hk, Nat2Z.inj_mul, Z.mul_comm.
  apply Z.mod_mul. discriminate.
Qed.

(** C10.  When a write fills the accumulator and the cursor is not at
    the end, the chunk goes on from [flush_group]: four bytes stored at
    the cursor, a zero and the three bytes of the accumulator from the
    high one down, and four more in [bytes].  Hence every chunk the
    composers can reach, and every blob they produce, has a size that is
    a multiple of four and a zero at the head of every group. *)
Theorem accumulator_writes_groups_of_four :
  (forall fuel nbits val c,
      DspMemChunk._cachebits (ChunkSpec.fill nbits val c) = 24 ->
      DspMemChunk.isEnd c = false ->
      let acc := DspMemChunk._cache (ChunkSpec.fill nbits val c) in
      let cur := DspMemChunk._current c in
      let c' := ChunkSpec.flush_group (ChunkSpec.fill nbits val c) in
      DspMemChunk.write_rec (S fuel) nbits val c
      = (if negb (ChunkSpec.rest nbits c =? 0)
         then DspMemChunk.write_rec fuel (ChunkSpec.rest nbits c) val c'
         else (0, c'))
      /\ DspMemChunk.head c'
         = <[S (S (S cur)) := ChunkSpec.byte_of acc 0]>
             (<[S (S cur) := ChunkSpec.byte_of acc 1]>
                (<[S cur := ChunkSpec.byte_of acc 2]>
                   (<[cur := 0]> (DspMemChunk.head c))))
      /\ DspMemChunk.bytes c' = DspMemChunk.bytes c + 4
      /\ DspMemChunk._current c' = (4 + cur)%nat)
  /\ (forall c, compose_ops c -> blob_aligned c)
  /\ (forall n flushed c, pwle_ops n flushed c -> blob_aligned c)
  /\ (forall v composite ch,
        compose_encode v composite = Enc_ok ch -> blob_aligned ch)
  /\ (forall isClabSupported composite ch,
        composePwle_encode isClabSupported composite = Enc_ok ch ->
        blob_aligned ch).
Proof.
  split; [| split; [| split; [| split]]].
  - intros fuel nbits val c Hfull He. cbv zeta.
    split; [| split; [| split]].
    + rewrite ChunkFacts.write_rec_S. cbv zeta. rewrite Hfull.
      change (24 =? 24) with true. cbv iota.
      replace (DspMemChunk.isEnd (ChunkSpec.fill nbits val c)) with false
        by (symmetry; exact He).
      reflexivity.
    + exact (ChunkFacts.flush_group_head (ChunkSpec.fill nbits val c)).
    + reflexivity.
    + reflexivity.
  - intros c Hc. apply wf_blob_aligned, (compose_ops_keeps c Hc).
  - intros n flushed c Hc. eapply wf_blob_aligned, pwle_ops_wf, Hc.
  - intros v composite ch Henc.
    pose proof (compose_encode_ops v composite) as H. rewrite Henc in H.
    apply wf_blob_aligned, (compose_ops_keeps ch H).
  - intros clab composite ch Henc.
    pose proof (composePwle_encode_ops clab composite) as H.
    rewrite Henc in H. destruct H as (n & flushed & _ & H).
    eapply wf_blob_aligned, pwle_ops_wf, H.
Qed.

Lemma accumulator_writes_groups_of_four_witness :
  blob_aligned (DspMemChunk.new WAVEFORM_COMPOSE
                  (Z.to_nat FF_CUSTOM_DATA_LEN_MAX_COMP)).
Proof.
  apply (proj1 (proj2 accumulator_writes_groups_of_four)).
  apply co_new.
Defined.

(** ** [updateWLength] *)

Lemma scaled_marker (d : Z) :
  0 <= d <= 0x7FFFF ->
  Z.lor (d * 8) WT_LEN_CALCD = d * 8 + 2 ^ 23.
Proof.
  intros Hd. apply Z.or_to_plus.
  replace (d * 8) with ((d * 8) mod 2 ^ 22) by (apply Z.mod_small; lia).
  change WT_LEN_CALCD with (Z.shiftl 1 23).
  Z.bitblast.
  all: replace (23 =? i) with false by (symmetry; apply Z.eqb_neq; lia).
  all: apply andb_false_r.
Qed.

Lemma byte_at (t k : Z) :
  0 <= k -> Z.land (Z.shiftr t k) 0xFF = (t / 2 ^ k) mod 256.
Proof.
  intros Hk. rewrite Z.shiftr_div_pow2 by exact Hk.
  change 0xFF with (Z.ones 8). rewrite Z.land_ones by lia. reflexivity.
Qed.

(** C4, counterexample.  A duration of 65536 ms is accepted, although
    its encoding in eighths of a millisecond, [2 ^ 19], does not fit 19
    bits. *)
Lemma updateWLength_accepts_a_20_bit_encoding :
  2 ^ 19 <= 65536 * 8
  /\ fst (DspMemChunk.updateWLength 65536
            (DspMemChunk.new WAVEFORM_PWLE
               (Z.to_nat FF_CUSTOM_DATA_LEN_MAX_PWLE))) = 0.
Proof. split; vm_compute; [discriminate | reflexivity]. Qed.

(** C4, as amended.  [updateWLength] succeeds exactly on a PWLE chunk
    and a duration of at most [0x7FFFF] ms, that is 19 bits before the
    scaling; the encoding, eight times the duration, then fits 22 bits.
    On success the first four bytes of the header are the big-endian
    bytes of the encoding with the bit [WT_LEN_CALCD] set, and nothing
    else changes. *)
Theorem updateWLength_patches_scaled_duration (d : Z) (c : DspMemChunk.t) :
  0 <= d < 2 ^ 32 ->
  (4 <= length (DspMemChunk.head c))%nat ->
  let r := DspMemChunk.updateWLength d c in
  (fst r = 0 <->
   DspMemChunk.waveformType c = WAVEFORM_PWLE /\ d <= 0x7FFFF)
  /\ (fst r = 0 ->
      let t := Z.lor (d * 8) WT_LEN_CALCD in
      t = d * 8 + 2 ^ 23 /\ d * 8 < 2 ^ 22
      /\ DspMemChunk.head (snd r) !! 0%nat = Some 0
      /\ DspMemChunk.head (snd r) !! 1%nat = Some ((t / 2 ^ 16) mod 256)
      /\ DspMemChunk.head (snd r) !! 2%nat = Some ((t / 2 ^ 8) mod 256)
      /\ DspMemChunk.head (snd r) !! 3%nat = Some (t mod 256)
      /\ (t / 2 ^ 16) mod 256 * 2 ^ 16 + (t / 2 ^ 8) mod 256 * 2 ^ 8
         + t mod 256 = t
      /\ (forall i : nat, (4 <= i)%nat ->
            DspMemChunk.head (snd r) !! i = DspMemChunk.head c !! i)
      /\ DspMemChunk.size (snd r) = DspMemChunk.size c).
Proof.
  intros Hd Hlen. cbv zeta. unfold DspMemChunk.updateWLength. cbv zeta.
  assert (Hu : u32 d = d) by (unfold u32; apply Z.mod_small; exact Hd).
  rewrite !Hu.
  destruct (Z.eqb_spec (DspMemChunk.waveformType c) WAVEFORM_PWLE) as [Ht | Ht];
    cbn [negb].
  2: { cbn [fst]. assert (He : - EDOM <> 0) by (unfold EDOM; lia).
       split; [| intros H; elim (He H)].
       split; [intros H; elim (He H) | tauto]. }
  destruct (Z.gtb_spec d 0x7FFFF) as [Hgt | Hle]; cbn [fst snd].
  { assert (He : - EINVAL <> 0) by (unfold EINVAL; lia).
    split; [| intros H; elim (He H)].
    split; [intros H; elim (He H) | lia]. }
  split; [tauto |]. intros _.
  unfold u32. rewrite (Z.mod_small (d * 8)) by lia.
  pose proof (scaled_marker d ltac:(lia)) as Hm.
  set (t := Z.lor (d * 8) WT_LEN_CALCD) in *.
  assert (Ht24 : 0 <= t < 2 ^ 24) by lia.
  unfold DspMemChunk.set_head, DspMemChunk.front, DspMemChunk.size.
  cbn [DspMemChunk.head DspMemChunk.bytes].
  change (Z.land t 0xFF) with (Z.land (Z.shiftr t 0) 0xFF).
  rewrite !byte_at by lia.
  change (2 ^ 0) with 1. rewrite Z.div_1_r.
  assert (Hb0 : (t / 2 ^ 24) mod 256 = 0).
  { rewrite Z.div_small by exact Ht24. reflexivity. }
  rewrite Hb0.
  split; [exact Hm |]. split; [lia |].
  split; [| split; [| split; [| split; [| split; [| split]]]]].
  - rewrite !list_lookup_insert_ne by lia.
    apply list_lookup_insert_eq. lia.
  - rewrite !list_lookup_insert_ne by lia.
    apply list_lookup_insert_eq. rewrite !length_insert. lia.
  - rewrite !list_lookup_insert_ne by lia.
    apply list_lookup_insert_eq. rewrite !length_insert. lia.
  - apply list_lookup_insert_eq. rewrite !length_insert. lia.
  - clear - Ht24. change (2 ^ 24) with 16777216 in Ht24.
    change (2 ^ 16) with 65536. change (2 ^ 8) with 256.
    Z.div_mod_to_equations. lia.
  - intros i Hi. rewrite !list_lookup_insert_ne by lia. reflexivity.
  - reflexivity.
Qed.

Lemma updateWLength_patches_scaled_duration_witness :
  DspMemChunk.head
    (snd (DspMemChunk.updateWLength 126
            (DspMemChunk.new WAVEFORM_PWLE
               (Z.to_nat FF_CUSTOM_DATA_LEN_MAX_PWLE)))) !! 3%nat
  = Some (Z.lor (126 * 8) WT_LEN_CALCD mod 256).
Proof.
  refine (proj1 (proj2 (proj2 (proj2 (proj2 (proj2
    (proj2 (updateWLength_patches_scaled_duration 126
              (DspMemChunk.new WAVEFORM_PWLE
                 (Z.to_nat FF_CUSTOM_DATA_LEN_MAX_PWLE)) _ _) _))))))).
  - lia.
  - rewrite (ChunkSpec.wf_len _ (ChunkFacts.new_wf _ _)), ChunkFacts.new_max.
    vm_compute. lia.
  - vm_compute. reflexivity.
Defined.

(** ** The set points of [composePwle] *)

(** An amplitude that passed the check against [PWLE_LEVEL_MIN] is never
    the reset value, so a set point always follows a reset. *)
Lemma valid_level_differs_from_reset (a f : F32.float) :
  F32.ltb a PWLE_LEVEL_MIN = false ->
  same_point (device_level a, f) reset_point = false.
Proof.
  intros Ha. unfold same_point, reset_point. cbn [fst snd].
  replace (F32.eqb (device_level a) (F32.of_Z (-1))) with false;
    [reflexivity |].
  unfold device_level. destruct (F32.gtb a CS40L26_PWLE_LEVEL_MAX);
    [reflexivity |].
  destruct a as [[] | [] | | [] m e]; try reflexivity; discriminate Ha.
Qed.

Lemma sample_pwle_sections :
  pwle_sections reset_point [ramp_up; hold; brake]
  = [SetPoint (F32.of_Z 0) (F32.of_Z 50);
     Ramp 100 (F32.of_ratio 1 2) (F32.of_Z 50) false;
     Ramp 30 (F32.of_ratio 1 2) (F32.of_Z 50) false;
     BrakeSetPoint NONE; BrakeHold 20 NONE].
Proof. vm_compute. reflexivity. Qed.

(** ** The claims on the playback functions *)

(** C6.  [compose] answers an empty sequence, and one of more than 254
    entries, with [EX_ILLEGAL_ARGUMENT]; the vibrator and its log are as
    before, so nothing was asked of the hardware. *)
Theorem compose_rejects_bad_size (hw : Oracle)
    (composite : list CompositeEffect) (callback : option nat)
    (v : Vibrator) :
  composite = [] \/ (254 < length composite)%nat ->
  compose hw composite callback v = Done EX_ILLEGAL_ARGUMENT v.
Proof.
  intros H.
  assert (Henc : compose_encode v composite
                 = Enc_return EX_ILLEGAL_ARGUMENT None).
  { unfold compose_encode. destruct H as [-> | H]; [reflexivity |].
    destruct (Z.gtb_spec (Z.of_nat (length composite)) COMPOSE_SIZE_MAX);
      [reflexivity | unfold COMPOSE_SIZE_MAX in *; lia]. }
  unfold compose. run. rewrite Henc. reflexivity.
Qed.

Lemma compose_rejects_bad_size_witness :
  compose hw_ok (repeat (click_after 0) 255) None (sample_vibrator true true)
  = Done EX_ILLEGAL_ARGUMENT (sample_vibrator true true).
Proof.
  apply compose_rejects_bad_size. right. rewrite repeat_length. lia.
Defined.

(** ** [off] *)

Lemma full_scale :
  amplitudeToScale (F32.of_Z VOLTAGE_SCALE_MAX) (F32.of_Z VOLTAGE_SCALE_MAX)
  = Some VOLTAGE_SCALE_MAX.
Proof. vm_compute. reflexivity. Qed.

Lemma setGlobalAmplitude_false (hw : Oracle) (v : Vibrator) :
  exists r,
    setGlobalAmplitude hw false v
    = Done r (set_log (log v ++ idle_off_gain hw v)
                (set_mLongEffectScale (F32.of_Z 1) v)).
Proof.
  unfold setGlobalAmplitude, setEffectAmplitude, idle_off_gain.
  rewrite full_scale.
  repeat branch hw; rewrite <- ?app_assoc; eexists; reflexivity.
Qed.

(** C9, counterexample.  On an idle vibrator whose amplitude was set to
    one half, [off] writes the gain to the hardware and puts the scale
    back to one: it is not without effect. *)
Lemma off_when_idle_is_not_a_no_op :
  exists v',
    mActiveId idle_at_half = -1
    /\ off hw_ok idle_at_half = Done EX_NONE v'
    /\ mLongEffectScale v' <> mLongEffectScale idle_at_half
    /\ log idle_at_half = []
    /\ log v' = [setFFGain Base VOLTAGE_SCALE_MAX; write_mActiveId (-1)].
Proof.
  eexists. split; [reflexivity |]. split; [vm_compute; reflexivity |].
  split; [intros H; vm_compute in H; discriminate H |].
  split; reflexivity.
Qed.

(** C9, as amended.  When nothing plays, [off] succeeds and leaves the
    active id at none; it sends no stop and does not touch the GPIO.  It
    still writes the full gain to each actuator in use, clears the
    frequency offset and puts the scale of long effects back to one.
    Done twice, it leaves the vibrator as done once. *)
Theorem off_when_idle (hw : Oracle) (v : Vibrator) :
  mActiveId v = -1 ->
  let events :=
    idle_off_gain hw v ++ idle_off_offset v ++ [write_mActiveId (-1)] in
  off hw v = Done EX_NONE (set_log (log v ++ events) (idle_off_state v))
  /\ mActiveId (idle_off_state v) = mActiveId v
  /\ (forall d i p, ~ In (setFFPlay d i p) events)
  /\ (forall b, ~ In (setGPIOOutput b) events)
  /\ idle_off_state (idle_off_state v) = idle_off_state v.
Proof.
  intros Hidle. cbv zeta. split; [| split; [| split; [| split]]].
  - unfold off. run. rewrite Hidle. change (-1 >=? 0) with false. run.
    destruct (setGlobalAmplitude_false hw v) as [r ->].
    unfold idle_off_offset, idle_off_state.
    repeat branch hw; rewrite <- ?app_assoc; reflexivity.
  - rewrite Hidle. reflexivity.
  - intros d i p. unfold idle_off_gain, idle_off_offset.
    repeat match goal with
           | |- context [if ?b then _ else _] => destruct b
           end; cbn; intuition discriminate.
  - intros b. unfold idle_off_gain, idle_off_offset.
    repeat match goal with
           | |- context [if ?b then _ else _] => destruct b
           end; cbn; intuition discriminate.
  - reflexivity.
Qed.

Lemma off_when_idle_witness :
  off hw_ok (sample_vibrator true true)
  = Done EX_NONE
      (set_log [setFFGain Base VOLTAGE_SCALE_MAX;
                setFFGain Flip VOLTAGE_SCALE_MAX; write_mActiveId (-1)]
         (idle_off_state (sample_vibrator true true))).
Proof.
  exact (proj1 (off_when_idle hw_ok (sample_vibrator true true) eq_refl)).
Defined.

(** C7, counterexample.  With two actuators, the second upload fails
    and reports an illegal argument: that is what [on] returns, not an
    illegal state. *)
Lemma on_returns_the_status_of_the_failed_upload :
  exists v',
    on (hw_flip_upload_fails EX_ILLEGAL_ARGUMENT) 0 WAVEFORM_MAX_INDEX
       (Some sample_blob) None (sample_vibrator true false)
    = Done EX_ILLEGAL_ARGUMENT v'
    /\ ok (hw_flip_upload_fails EX_ILLEGAL_ARGUMENT
             (before_upload (sample_vibrator true false))
             (upload_base sample_blob)) = true
    /\ ok (flip_reply (hw_flip_upload_fails EX_ILLEGAL_ARGUMENT)
             (sample_vibrator true false) sample_blob) = false
    /\ EX_ILLEGAL_ARGUMENT <> EX_ILLEGAL_STATE.
Proof.
  eexists. split; [vm_compute; reflexivity |].
  split; [reflexivity |]. split; [reflexivity | discriminate].
Qed.

(** C7, as amended.  With two actuators, when the upload to the first
    succeeds, leaving a slot that is an index of [mFfEffectsDual], and
    the upload to the second fails, [on] returns the status that the
    failed upload reports.  The active id is not written, and nothing is
    triggered: the log ends with the two uploads. *)
Theorem on_secondary_upload_fails (hw : Oracle) (timeoutMs effectIndex : Z)
    (ch : DspMemChunk.t) (callback : option nat) (v : Vibrator) :
  mIsDual v = true ->
  effectIndex < FF_MAX_EFFECTS ->
  ok (hw (log v) wait_for) = true ->
  DspMemChunk.type ch = WAVEFORM_PWLE
  \/ DspMemChunk.type ch = WAVEFORM_COMPOSE ->
  DspMemChunk.size ch
  <= out (hw (log v ++ [wait_for]) (getOwtFreeSpace Base)) ->
  DspMemChunk.size ch
  <= out (hw (log v ++ [wait_for; getOwtFreeSpace Base])
            (getOwtFreeSpace Flip)) ->
  ok (hw (before_upload v) (upload_base ch)) = true ->
  0 <= out (hw (before_upload v) (upload_base ch))
    < Z.of_nat (length (mFfEffectsDual v)) ->
  ok (flip_reply hw v ch) = false ->
  exists v',
    on hw timeoutMs effectIndex (Some ch) callback v
    = Done (err (flip_reply hw v ch)) v'
    /\ mActiveId v' = mActiveId v
    /\ log v' = before_upload v ++ [upload_base ch; upload_flip hw v ch]
    /\ forallb (fun e => negb (is_trigger e))
         [wait_for; getOwtFreeSpace Base; getOwtFreeSpace Flip;
          upload_base ch; upload_flip hw v ch] = true.
Proof.
  intros Hdual Hidx Hwait Htype Hbase Hflip Hup1 Hslot Hup2.
  unfold flip_reply, upload_flip, before_upload, upload_base in *.
  rewrite <- app_assoc in Hup2. cbn [app] in Hup2.
  assert (Hs : ((0 <=? out (hw (log v ++ [wait_for; getOwtFreeSpace Base;
                                          getOwtFreeSpace Flip])
                              (uploadOwtEffect Base (DspMemChunk.front ch)
                                 (DspMemChunk.size ch) (DspMemChunk.type ch))))
                && (out (hw (log v ++ [wait_for; getOwtFreeSpace Base;
                                       getOwtFreeSpace Flip])
                           (uploadOwtEffect Base (DspMemChunk.front ch)
                              (DspMemChunk.size ch) (DspMemChunk.type ch)))
                    <? Z.of_nat (length (mFfEffectsDual v)))) = true).
  { apply andb_true_intro. split; [apply Z.leb_le | apply Z.ltb_lt]; lia. }
  assert (Hi : (effectIndex >=? FF_MAX_EFFECTS) = false).
  { rewrite Z.geb_leb. apply Z.leb_gt. exact Hidx. }
  assert (Ht : (negb (DspMemChunk.type ch =? WAVEFORM_PWLE)
                && negb (DspMemChunk.type ch =? WAVEFORM_COMPOSE)) = false).
  { destruct Htype as [-> | ->]; reflexivity. }
  assert (Hb : (DspMemChunk.size ch
                >? out (hw (log v ++ [wait_for]) (getOwtFreeSpace Base)))
               = false).
  { rewrite Z.gtb_ltb. apply Z.ltb_ge. exact Hbase. }
  assert (Hf : (DspMemChunk.size ch
                >? out (hw (log v ++ [wait_for; getOwtFreeSpace Base])
                          (getOwtFreeSpace Flip))) = false).
  { rewrite Z.gtb_ltb. apply Z.ltb_ge. exact Hflip. }
  unfold on. run. rewrite Hi. run. rewrite Hwait. run. rewrite Ht. run.
  rewrite Hb. run. rewrite Hdual. run.
  rewrite <- !app_assoc. cbn [app]. rewrite Hf. run.
  destruct (mGPIOStatus v); unfold arm_trigger; run;
    rewrite <- ?app_assoc; cbn [app]; rewrite Hup1; run;
    rewrite ?length_alter, Hs; run;
    rewrite <- ?app_assoc; cbn [app]; rewrite Hup2; run;
    (eexists; split; [reflexivity |]);
    (split; [reflexivity |]); (split; [| reflexivity]);
    cbn [log set_log]; rewrite <- ?app_assoc; reflexivity.
Qed.

Lemma on_secondary_upload_fails_witness :
  exists v',
    on (hw_flip_upload_fails EX_ILLEGAL_STATE) 0 WAVEFORM_MAX_INDEX
       (Some sample_blob) None (sample_vibrator true true)
    = Done EX_ILLEGAL_STATE v'
    /\ mActiveId v' = -1.
Proof.
  destruct (on_secondary_upload_fails (hw_flip_upload_fails EX_ILLEGAL_STATE)
              0 WAVEFORM_MAX_INDEX sample_blob None
              (sample_vibrator true true))
    as [v' [Hon [Hid _]]].
  - reflexivity.
  - reflexivity.
  - reflexivity.
  - right. reflexivity.
  - vm_compute. discriminate.
  - vm_compute. discriminate.
  - reflexivity.
  - vm_compute. split; [discriminate | reflexivity].
  - reflexivity.
  - exists v'. split; [exact Hon | exact Hid].
Defined.

(** C8, counterexample.  After a composed effect on two actuators with
    the GPIO trigger, the completion task writes the active id and then
    still resets the GPIO and counts the effects of both actuators. *)
Lemma waitForComplete_clears_before_the_sweep :
  exists v',
    waitForComplete hw_ok None (playing_composed true true) = Done tt v'
    /\ log v'
       = [pollVibeState Base VIBE_STATE_HAPTIC (Some POLLING_TIMEOUT);
          pollVibeState Base VIBE_STATE_STOPPED None;
          pollVibeState Flip VIBE_STATE_STOPPED None;
          eraseOwtEffect Base WAVEFORM_COMPOSE;
          eraseOwtEffect Flip WAVEFORM_COMPOSE;
          write_mActiveId (-1);
          setGPIOOutput false;
          getEffectCount Base;
          getEffectCount Flip]
    /\ cleared_last (log v') = false.
Proof.
  eexists. split; [vm_compute; reflexivity |].
  split; reflexivity.
Qed.

(** C8, as amended.  The completion task polls for the end of the
    playback, erases the completed slot when it is a dynamic one, then
    clears the active id, and only then resets the GPIO output and sweeps
    the stale slots of every actuator in use; the callback comes last. *)
Theorem waitForComplete_order (hw : Oracle) (callback : option nat)
    (v : Vibrator) :
  let before :=
    log v ++ completion_polls v ++ completion_erase v
    ++ [write_mActiveId (-1)] ++ completion_gpio v in
  waitForComplete hw callback v
  = Done tt
      (set_log (before ++ completion_sweeps hw v before
                ++ completion_callback callback)
         (set_mActiveId_field (-1) v)).
Proof.
  cbv zeta.
  unfold waitForComplete, completion_polls, completion_erase,
    completion_gpio, completion_sweeps, completion_callback, sweep.
  run.
  destruct (mIsDual v), (mGPIOStatus v),
    (mActiveId v >=? WAVEFORM_MAX_PHYSICAL_INDEX), callback;
    repeat (run; rewrite <- ?app_assoc; cbn [app];
            match goal with
            | |- context [if ?x >? ?y then _ else _] => destruct (x >? y)
            end);
    run; rewrite <- ?app_assoc; cbn [app]; reflexivity.
Qed.

(** * Further properties of the playback functions *)

Lemma new_events_app (l evs : list Event) : new_events l (l ++ evs) = evs.
Proof. unfold new_events. apply drop_app_length. Qed.

Lemma new_events_same (l : list Event) : new_events l l = [].
Proof. unfold new_events. apply drop_all. Qed.

(** ** [hasHapticAlsaDevice] and [getCapabilities] *)

Lemma hasHapticAlsaDevice_run (hw : Oracle) (v : Vibrator) :
  hasHapticAlsaDevice hw v
  = Done (mHasHapticAlsaDevice (alsa_state hw v)) (alsa_state hw v).
Proof.
  unfold hasHapticAlsaDevice, alsa_state. run.
  destruct (mConfigHapticAlsaDeviceDone v); run; [reflexivity |].
  destruct (ok (hw (log v) getHapticAlsaDevice)); run; reflexivity.
Qed.

Lemma getCapabilities_run (hw : Oracle) (v : Vibrator) :
  getCapabilities hw v
  = Done (Z.lor
            (if mHasHapticAlsaDevice (alsa_state hw v)
             then Z.lor base_capabilities CAP_EXTERNAL_CONTROL
             else base_capabilities)
            (if has_owt hw v
             then if mIsChirpEnabled v
                  then Z.lor CAP_COMPOSE_EFFECTS
                         (Z.lor CAP_FREQUENCY_CONTROL CAP_COMPOSE_PWLE_EFFECTS)
                  else CAP_COMPOSE_EFFECTS
             else 0))
         (capabilities_state hw v).
Proof.
  unfold getCapabilities. run. rewrite hasHapticAlsaDevice_run. run.
  unfold capabilities_state, has_owt.
  assert (Hc : mIsChirpEnabled (alsa_state hw v) = mIsChirpEnabled v).
  { unfold alsa_state. destruct (mConfigHapticAlsaDeviceDone v);
      [reflexivity |].
    destruct (ok (hw (log v) getHapticAlsaDevice)); reflexivity. }
  rewrite Hc.
  destruct (mHasHapticAlsaDevice (alsa_state hw v)),
    (ok (hw (log (alsa_state hw v)) (hasOwtFreeSpace Base))),
    (mIsChirpEnabled v); reflexivity.
Qed.

Lemma alsa_state_frame (hw : Oracle) (v : Vibrator) :
  mIsChirpEnabled (alsa_state hw v) = mIsChirpEnabled v
  /\ mActiveId (alsa_state hw v) = mActiveId v
  /\ exists evs, log (alsa_state hw v) = log v ++ evs
                 /\ forallb is_probe evs = true.
Proof.
  unfold alsa_state. destruct (mConfigHapticAlsaDeviceDone v).
  - repeat split. exists []. rewrite app_nil_r. split; reflexivity.
  - destruct (ok (hw (log v) getHapticAlsaDevice)); repeat split;
      exists [getHapticAlsaDevice]; split; reflexivity.
Qed.

Lemma capabilities_state_frame (hw : Oracle) (v : Vibrator) :
  mIsChirpEnabled (capabilities_state hw v) = mIsChirpEnabled v
  /\ mActiveId (capabilities_state hw v) = mActiveId v
  /\ exists evs, log (capabilities_state hw v) = log v ++ evs
                 /\ forallb is_probe evs = true.
Proof.
  destruct (alsa_state_frame hw v) as (Hc & Ha & evs & Hl & Hp).
  unfold capabilities_state. cbn [mIsChirpEnabled mActiveId log set_log].
  repeat split; [exact Hc | exact Ha |].
  exists (evs ++ [hasOwtFreeSpace Base]). rewrite Hl, <- app_assoc.
  split; [reflexivity |]. rewrite forallb_app, Hp. reflexivity.
Qed.

(** X1.  [hasHapticAlsaDevice] asks the hardware until a device was
    found, and never again afterwards: once the configuration is done it
    answers from the state and leaves the vibrator and its log as they
    are.  A search that fails changes nothing but the log, so the next
    call asks again. *)
Theorem hasHapticAlsaDevice_asks_until_found (hw : Oracle) (v : Vibrator) :
  (mConfigHapticAlsaDeviceDone v = true ->
   hasHapticAlsaDevice hw v = Done (mHasHapticAlsaDevice v) v)
  /\ (mConfigHapticAlsaDeviceDone v = false ->
      exists v',
        hasHapticAlsaDevice hw v = Done (mHasHapticAlsaDevice v') v'
        /\ log v' = log v ++ [getHapticAlsaDevice]
        /\ (if ok (hw (log v) getHapticAlsaDevice)
            then mHasHapticAlsaDevice v' = true
                 /\ mConfigHapticAlsaDeviceDone v' = true
                 /\ forall hw', hasHapticAlsaDevice hw' v' = Done true v'
            else mHasHapticAlsaDevice v' = mHasHapticAlsaDevice v
                 /\ mConfigHapticAlsaDeviceDone v' = false)).
Proof.
  split; intros Hdone.
  - rewrite hasHapticAlsaDevice_run. unfold alsa_state. rewrite Hdone.
    reflexivity.
  - exists (alsa_state hw v). split; [apply hasHapticAlsaDevice_run |].
    unfold alsa_state. rewrite Hdone.
    destruct (ok (hw (log v) getHapticAlsaDevice)).
    + split; [reflexivity |]. split; [reflexivity |].
      split; [reflexivity |]. intros hw'. rewrite hasHapticAlsaDevice_run.
      reflexivity.
    + split; [reflexivity |]. split; [reflexivity | exact Hdone].
Qed.

Lemma hasHapticAlsaDevice_asks_until_found_witness :
  exists v',
    hasHapticAlsaDevice hw_ok (sample_vibrator false false) = Done true v'
    /\ log v' = [getHapticAlsaDevice]
    /\ hasHapticAlsaDevice hw_ok v' = Done true v'.
Proof.
  destruct (proj2 (hasHapticAlsaDevice_asks_until_found hw_ok
                     (sample_vibrator false false)) eq_refl)
    as (v' & Hrun & Hlog & Hfound & _ & Hagain).
  exists v'. rewrite Hfound in Hrun.
  split; [exact Hrun |]. split; [exact Hlog | apply Hagain].
Defined.

(** X2.  [getCapabilities] always succeeds and only asks the hardware
    what it can do.  The five basic capabilities are always there;
    composing is there exactly when the hardware has room for waveforms,
    PWLE and frequency control exactly when it also has chirp enabled,
    so they come together and never without composing. *)
Theorem getCapabilities_bits (hw : Oracle) (v : Vibrator) :
  exists caps v',
    getCapabilities hw v = Done caps v'
    /\ forallb is_probe (new_events (log v) (log v')) = true
    /\ Z.land caps base_capabilities = base_capabilities
    /\ has_capability caps CAP_COMPOSE_EFFECTS = has_owt hw v
    /\ has_capability caps CAP_COMPOSE_PWLE_EFFECTS
       = has_owt hw v && mIsChirpEnabled v
    /\ has_capability caps CAP_FREQUENCY_CONTROL
       = has_capability caps CAP_COMPOSE_PWLE_EFFECTS
    /\ has_capability caps CAP_EXTERNAL_CONTROL
       = mHasHapticAlsaDevice (alsa_state hw v).
Proof.
  eexists _, _. split; [apply getCapabilities_run |].
  destruct (capabilities_state_frame hw v) as (_ & _ & evs & -> & Hp).
  rewrite new_events_app. split; [exact Hp |].
  destruct (mHasHapticAlsaDevice (alsa_state hw v)), (has_owt hw v),
    (mIsChirpEnabled v); repeat split; reflexivity.
Qed.

(** ** The guards of [composePwle] *)

Lemma pwle_capability (hw : Oracle) (v : Vibrator) caps v' :
  getCapabilities hw v = Done caps v' ->
  v' = capabilities_state hw v
  /\ (Z.land caps CAP_COMPOSE_PWLE_EFFECTS =? 0)
     = negb (has_owt hw v && mIsChirpEnabled v).
Proof.
  rewrite getCapabilities_run. intros [= <- <-]. split; [reflexivity |].
  destruct (mHasHapticAlsaDevice (alsa_state hw v)), (has_owt hw v),
    (mIsChirpEnabled v); reflexivity.
Qed.

Lemma getSupportedBraking_run (hw : Oracle) (v : Vibrator) :
  getSupportedBraking hw v
  = Done (if has_owt hw v && mIsChirpEnabled v then [NONE] else [])
         (capabilities_state hw v).
Proof.
  unfold getSupportedBraking. run.
  destruct (getCapabilities hw v) as [caps v' | |] eqn:Hc;
    try (rewrite getCapabilities_run in Hc; discriminate Hc).
  apply pwle_capability in Hc as [-> ->].
  destruct (has_owt hw v && mIsChirpEnabled v); reflexivity.
Qed.

Lemma performEffect_call (hw : Oracle) i l ch cb (v : Vibrator) :
  call (performEffect hw i l ch cb) v = performEffect hw i l ch cb v.
Proof.
  unfold performEffect.
  match goal with |- call (call ?b) v = _ => generalize b end.
  intros body. unfold call. destruct (body v); reflexivity.
Qed.

(** What [composePwle] comes to once the capability is there: the
    capabilities are asked twice, and [CLAB] is never supported. *)
Lemma composePwle_run (hw : Oracle) composite cb (v : Vibrator) :
  has_owt hw v && mIsChirpEnabled v = true ->
  composePwle hw composite cb v
  = if Nat.eqb (length composite) 0
       || (Z.of_nat (length composite) >? COMPOSE_PWLE_SIZE_MAX_DEFAULT)
    then Done EX_ILLEGAL_ARGUMENT (capabilities_state hw v)
    else
      let v2 := capabilities_state hw (capabilities_state hw v) in
      match composePwle_encode false composite with
      | Enc_ok ch =>
          performEffect hw WAVEFORM_MAX_INDEX VOLTAGE_SCALE_MAX (Some ch) cb v2
      | Enc_return status _ => Done status v2
      | Enc_undefined => Undefined
      end.
Proof.
  intros Hcap. unfold composePwle.
  unfold call at 1. unfold mbind, M_bind, bind at 1.
  destruct (getCapabilities hw v) as [caps v' | |] eqn:Hc;
    try (rewrite getCapabilities_run in Hc; discriminate Hc).
  apply pwle_capability in Hc as [-> Hbit]. rewrite Hbit, Hcap.
  run.
  destruct (Nat.eqb (length composite) 0
            || (Z.of_nat (length composite) >? COMPOSE_PWLE_SIZE_MAX_DEFAULT));
    run; [reflexivity |].
  rewrite getSupportedBraking_run. run.
  assert (Hclab : existsb (Braking_eqb CLAB)
                    (if has_owt hw (capabilities_state hw v)
                        && mIsChirpEnabled (capabilities_state hw v)
                     then [NONE] else []) = false).
  { destruct (has_owt hw (capabilities_state hw v)
              && mIsChirpEnabled (capabilities_state hw v)); reflexivity. }
  rewrite Hclab.
  destruct (composePwle_encode false composite) as [ch | s c |]; run;
    try reflexivity.
  fold (call (performEffect hw WAVEFORM_MAX_INDEX VOLTAGE_SCALE_MAX
                (Some ch) cb) (capabilities_state hw (capabilities_state hw v))).
  apply performEffect_call.
Qed.

Lemma composePwle_unsupported_run (hw : Oracle) composite cb (v : Vibrator) :
  has_owt hw v && mIsChirpEnabled v = false ->
  composePwle hw composite cb v
  = Done EX_UNSUPPORTED_OPERATION (capabilities_state hw v).
Proof.
  intros Hcap. unfold composePwle.
  unfold call at 1. unfold mbind, M_bind, bind at 1.
  destruct (getCapabilities hw v) as [caps v' | |] eqn:Hc;
    try (rewrite getCapabilities_run in Hc; discriminate Hc).
  apply pwle_capability in Hc as [-> Hbit]. rewrite Hbit, Hcap.
  reflexivity.
Qed.

Lemma twice_asked_frame (hw : Oracle) (v : Vibrator) :
  mActiveId (capabilities_state hw (capabilities_state hw v)) = mActiveId v
  /\ forallb is_probe
       (new_events (log v)
          (log (capabilities_state hw (capabilities_state hw v)))) = true.
Proof.
  destruct (capabilities_state_frame hw v) as (_ & Ha & evs & Hl & Hp).
  destruct (capabilities_state_frame hw (capabilities_state hw v))
    as (_ & Ha' & evs' & Hl' & Hp').
  split; [congruence |].
  rewrite Hl', Hl, <- app_assoc, new_events_app, forallb_app, Hp, Hp'.
  reflexivity.
Qed.

Lemma once_asked_frame (hw : Oracle) (v : Vibrator) :
  mActiveId (capabilities_state hw v) = mActiveId v
  /\ forallb is_probe
       (new_events (log v) (log (capabilities_state hw v))) = true.
Proof.
  destruct (capabilities_state_frame hw v) as (_ & Ha & evs & Hl & Hp).
  split; [exact Ha |]. rewrite Hl, new_events_app. exact Hp.
Qed.

(** X3.  Without the PWLE capability (no room for waveforms, or chirp
    not enabled) [composePwle] answers with
    [EX_UNSUPPORTED_OPERATION], whatever the composition; it has only
    asked the hardware what it can do, and the active id is as before. *)
Theorem composePwle_unsupported (hw : Oracle)
    (composite : list PrimitivePwle) (callback : option nat)
    (v : Vibrator) :
  has_owt hw v = false \/ mIsChirpEnabled v = false ->
  exists v',
    composePwle hw composite callback v = Done EX_UNSUPPORTED_OPERATION v'
    /\ mActiveId v' = mActiveId v
    /\ forallb is_probe (new_events (log v) (log v')) = true.
Proof.
  intros H. exists (capabilities_state hw v).
  split; [| apply once_asked_frame].
  apply composePwle_unsupported_run.
  destruct H as [-> | ->]; [reflexivity | apply andb_false_r].
Qed.

Lemma composePwle_unsupported_witness :
  exists v',
    composePwle hw_ok [ramp_up] None
      (mkVibrator false false 0 0 (1, 100) (1, 100) (1, 100) 0x1FF false
         false false sample_effects sample_effects (F32.of_Z 1) (-1) [])
    = Done EX_UNSUPPORTED_OPERATION v'
    /\ mActiveId v' = -1.
Proof.
  destruct (composePwle_unsupported hw_ok [ramp_up] None
              (mkVibrator false false 0 0 (1, 100) (1, 100) (1, 100) 0x1FF
                 false false false sample_effects sample_effects
                 (F32.of_Z 1) (-1) []))
    as (v' & Hrun & Hid & _).
  - right. reflexivity.
  - exists v'. split; [exact Hrun | exact Hid].
Defined.

Lemma getPwleCompositionSizeMax_run (hw : Oracle) (v : Vibrator) :
  getPwleCompositionSizeMax hw v
  = Done (if has_owt hw v && mIsChirpEnabled v
          then inr COMPOSE_PWLE_SIZE_MAX_DEFAULT
          else inl EX_UNSUPPORTED_OPERATION)
         (capabilities_state hw v).
Proof.
  unfold getPwleCompositionSizeMax. run.
  destruct (getCapabilities hw v) as [caps v' | |] eqn:Hc;
    try (rewrite getCapabilities_run in Hc; discriminate Hc).
  apply pwle_capability in Hc as [-> ->].
  destruct (has_owt hw v && mIsChirpEnabled v); reflexivity.
Qed.

(** X4.  The size that [getPwleCompositionSizeMax] reports is the size
    that [composePwle] enforces: when it reports [n], a composition of
    more than [n] elements, and an empty one, is answered with
    [EX_ILLEGAL_ARGUMENT] before anything is uploaded or played. *)
Theorem composePwle_enforces_reported_size (hw : Oracle)
    (composite : list PrimitivePwle) (callback : option nat)
    (v v1 : Vibrator) (n : Z) :
  getPwleCompositionSizeMax hw v = Done (inr n) v1 ->
  composite = [] \/ n < Z.of_nat (length composite) ->
  exists v',
    n = 127
    /\ composePwle hw composite callback v = Done EX_ILLEGAL_ARGUMENT v'
    /\ mActiveId v' = mActiveId v
    /\ forallb is_probe (new_events (log v) (log v')) = true.
Proof.
  rewrite getPwleCompositionSizeMax_run.
  destruct (has_owt hw v && mIsChirpEnabled v) eqn:Hcap; [| discriminate].
  intros [= <- _] Hsize. exists (capabilities_state hw v).
  split; [reflexivity |]. split; [| apply once_asked_frame].
  rewrite composePwle_run by exact Hcap.
  destruct Hsize as [-> | Hn]; [reflexivity |].
  destruct (Z.gtb_spec (Z.of_nat (length composite))
              COMPOSE_PWLE_SIZE_MAX_DEFAULT) as [_ | Hle];
    [rewrite orb_true_r; reflexivity | lia].
Qed.

Lemma composePwle_enforces_reported_size_witness :
  exists v',
    composePwle hw_ok [] None (sample_vibrator false false)
    = Done EX_ILLEGAL_ARGUMENT v'
    /\ mActiveId v' = -1.
Proof.
  destruct (composePwle_enforces_reported_size hw_ok [] None
              (sample_vibrator false false)
              (capabilities_state hw_ok (sample_vibrator false false))
              127 eq_refl (or_introl eq_refl))
    as (v' & _ & Hrun & Hid & _).
  exists v'. split; [exact Hrun | exact Hid].
Defined.

(** ** The guards of [on] *)

(** X6.  [on] answers an effect index of [FF_MAX_EFFECTS] or more with
    [EX_ILLEGAL_ARGUMENT] and touches nothing.  While the completion
    task of the effect before is not done, it answers with
    [EX_ILLEGAL_STATE], and has done nothing but wait for it. *)
Theorem on_guards (hw : Oracle) (timeoutMs effectIndex : Z)
    (ch : option DspMemChunk.t) (callback : option nat) (v : Vibrator) :
  (FF_MAX_EFFECTS <= effectIndex ->
   on hw timeoutMs effectIndex ch callback v = Done EX_ILLEGAL_ARGUMENT v)
  /\ (effectIndex < FF_MAX_EFFECTS ->
      ok (hw (log v) wait_for) = false ->
      on hw timeoutMs effectIndex ch callback v
      = Done EX_ILLEGAL_STATE (set_log (log v ++ [wait_for]) v)).
Proof.
  split.
  - intros Hi. unfold on. run.
    destruct (Z.geb_spec effectIndex FF_MAX_EFFECTS); [reflexivity | lia].
  - intros Hi Hwait. unfold on. run.
    destruct (Z.geb_spec effectIndex FF_MAX_EFFECTS); [lia |].
    run. rewrite Hwait. reflexivity.
Qed.

Lemma on_guards_witness :
  on hw_ok 0 FF_MAX_EFFECTS None None (sample_vibrator false false)
  = Done EX_ILLEGAL_ARGUMENT (sample_vibrator false false)
  /\ on (fun _ _ => Build_Reply false 0 0) 0 WAVEFORM_CLICK_INDEX None None
       (sample_vibrator false false)
     = Done EX_ILLEGAL_STATE
         (set_log [wait_for] (sample_vibrator false false)).
Proof.
  split.
  - apply (proj1 (on_guards hw_ok 0 FF_MAX_EFFECTS None None
                    (sample_vibrator false false))). lia.
  - apply (proj2 (on_guards (fun _ _ => Build_Reply false 0 0) 0
                    WAVEFORM_CLICK_INDEX None None
                    (sample_vibrator false false)));
      [vm_compute | ]; reflexivity.
Defined.

(** X7.  [on] uploads a blob only when it fits the free space that each
    actuator in use reports: a blob that is larger than the free space
    of one of them is answered with [EX_ILLEGAL_ARGUMENT], with nothing
    uploaded and the active id not written. *)
Theorem on_rejects_blob_without_room (hw : Oracle)
    (timeoutMs effectIndex : Z) (ch : DspMemChunk.t)
    (callback : option nat) (v : Vibrator) :
  effectIndex < FF_MAX_EFFECTS ->
  ok (hw (log v) wait_for) = true ->
  DspMemChunk.type ch = WAVEFORM_PWLE
  \/ DspMemChunk.type ch = WAVEFORM_COMPOSE ->
  out (hw (log v ++ [wait_for]) (getOwtFreeSpace Base)) < DspMemChunk.size ch
  \/ (mIsDual v = true
      /\ out (hw (log v ++ [wait_for; getOwtFreeSpace Base])
                (getOwtFreeSpace Flip)) < DspMemChunk.size ch) ->
  exists v',
    on hw timeoutMs effectIndex (Some ch) callback v
    = Done EX_ILLEGAL_ARGUMENT v'
    /\ mActiveId v' = mActiveId v
    /\ forallb (fun e => negb (is_upload e) && negb (is_trigger e))
         (new_events (log v) (log v')) = true.
Proof.
  intros Hidx Hwait Htype Hroom. unfold on. run.
  destruct (Z.geb_spec effectIndex FF_MAX_EFFECTS); [lia |].
  run. rewrite Hwait. run.
  assert (Ht : (negb (DspMemChunk.type ch =? WAVEFORM_PWLE)
                && negb (DspMemChunk.type ch =? WAVEFORM_COMPOSE)) = false).
  { destruct Htype as [-> | ->]; reflexivity. }
  rewrite Ht. run.
  destruct (Z.gtb_spec (DspMemChunk.size ch)
              (out (hw (log v ++ [wait_for]) (getOwtFreeSpace Base))))
    as [Hbig | Hfit]; run.
  - eexists. split; [reflexivity |]. split; [reflexivity |].
    fresh_events new_events_app v. reflexivity.
  - destruct Hroom as [Hroom | [Hdual Hroom]]; [lia |].
    rewrite Hdual. run. rewrite <- app_assoc. cbn [app].
    destruct (Z.gtb_spec (DspMemChunk.size ch)
                (out (hw (log v ++ [wait_for; getOwtFreeSpace Base])
                        (getOwtFreeSpace Flip)))); [| lia].
    run. eexists. split; [reflexivity |]. split; [reflexivity |].
    fresh_events new_events_app v. reflexivity.
Qed.

Lemma on_rejects_blob_without_room_witness :
  exists v',
    on (fun _ _ => Build_Reply true 0 0) 0 WAVEFORM_MAX_INDEX
       (Some sample_blob) None (sample_vibrator false false)
    = Done EX_ILLEGAL_ARGUMENT v'
    /\ mActiveId v' = -1.
Proof.
  destruct (on_rejects_blob_without_room (fun _ _ => Build_Reply true 0 0)
              0 WAVEFORM_MAX_INDEX sample_blob None
              (sample_vibrator false false))
    as (v' & Hrun & Hid & _).
  - reflexivity.
  - reflexivity.
  - right. reflexivity.
  - left. vm_compute. reflexivity.
  - exists v'. split; [exact Hrun | exact Hid].
Defined.

(** * Further properties of the encoders *)

(** ** Negative integers as [float] *)

Lemma digits2_pos_lower (m : positive) :
  2 ^ (Z.pos (digits2_pos m) - 1) <= Z.pos m.
Proof.
  induction m as [m IH | m IH |]; cbn [digits2_pos].
  - rewrite Pos2Z.inj_succ.
    replace (Z.succ (Z.pos (digits2_pos m)) - 1)
      with (1 + (Z.pos (digits2_pos m) - 1)) by lia.
    rewrite Z.pow_add_r by lia. change (2 ^ 1) with 2. lia.
  - rewrite Pos2Z.inj_succ.
    replace (Z.succ (Z.pos (digits2_pos m)) - 1)
      with (1 + (Z.pos (digits2_pos m) - 1)) by lia.
    rewrite Z.pow_add_r by lia. change (2 ^ 1) with 2. lia.
  - reflexivity.
Qed.

Section FloatPositive.

Variables prec emax : Z.
Hypothesis prec_pos : 0 < prec.

Lemma Zdigits2_lower (m : Z) : 0 < m -> 2 ^ (Zdigits2 m - 1) <= m.
Proof.
  destruct m as [| p | p]; try lia. intros _. apply digits2_pos_lower.
Qed.

Lemma round_nearest_even_ge (m : Z) (l : location) :
  m <= round_nearest_even m l.
Proof.
  destruct l as [| []]; cbn [round_nearest_even]; try lia.
  destruct (Z.even m); lia.
Qed.

(** Shifting a positive mantissa to its format exponent leaves it
    positive, unless the number is below the least subnormal. *)
Lemma shr_fexp_pos (m e : Z) (l : location) :
  0 < m -> emin prec emax < Zdigits2 m + e ->
  0 < shr_m (fst (shr_fexp prec emax m e l))
  /\ 1 <= Zdigits2 m
  /\ (snd (shr_fexp prec emax m e l) = e
      \/ emin prec emax <= snd (shr_fexp prec emax m e l)).
Proof.
  intros Hm He.
  assert (Hd : 1 <= Zdigits2 m) by (destruct m; cbn; lia).
  split; [| split; [exact Hd |]]; unfold shr_fexp, shr, fexp in *.
  - destruct (Z.max (Zdigits2 m + e - prec) (emin prec emax) - e)
      as [| p | p] eqn:Hn; cbn [fst]; rewrite ?shr_m_of_loc; try exact Hm.
    pose proof (iter_pos_shr_1_abs p (shr_record_of_loc m l)) as Habs.
    pose proof (iter_pos_shr_1_nonneg p (shr_record_of_loc m l)) as Hnn.
    rewrite shr_m_of_loc in Habs, Hnn.
    rewrite Z.abs_eq in Habs by (apply Hnn; lia).
    rewrite Habs, Z.abs_eq by lia.
    assert (Hp : 2 ^ Z.pos p <= m).
    { apply Z.le_trans with (2 ^ (Zdigits2 m - 1));
        [apply Z.pow_le_mono_r; lia | apply Zdigits2_lower; exact Hm]. }
    assert (0 < 2 ^ Z.pos p) by (apply Z.pow_pos_nonneg; lia).
    apply Z.div_str_pos. lia.
  - destruct (Z.max (Zdigits2 m + e - prec) (emin prec emax) - e)
      as [| p | p] eqn:Hn; cbn [snd]; [left | right | left]; lia.
Qed.

Lemma binary_round_aux_nonzero (sx : bool) (mx ex : Z) (lx : location) s :
  0 < mx -> emin prec emax < Zdigits2 mx + ex ->
  binary_round_aux prec emax sx mx ex lx <> S754_zero s.
Proof.
  intros Hm He. unfold binary_round_aux.
  destruct (shr_fexp_pos mx ex lx Hm He) as (H1 & Hd & He1).
  destruct (shr_fexp prec emax mx ex lx) as [mrs1 e1] eqn:Hs1.
  cbn [fst snd] in H1, He1.
  set (m2 := round_nearest_even (shr_m mrs1) (loc_of_shr_record mrs1)).
  assert (H2 : 0 < m2)
    by (pose proof (round_nearest_even_ge (shr_m mrs1)
                      (loc_of_shr_record mrs1)); unfold m2; lia).
  assert (He2 : emin prec emax < Zdigits2 m2 + e1).
  { assert (1 <= Zdigits2 m2) by (destruct m2; cbn; lia).
    destruct He1 as [-> | He1]; [| lia].
    (* no shift: the mantissa is the one given *)
    unfold shr_fexp, shr in Hs1.
    destruct (fexp prec emax (Zdigits2 mx + ex) - ex) as [| p | p] eqn:Hn.
    - injection Hs1 as <-. unfold m2. rewrite shr_m_of_loc.
      assert (Hge : mx <= round_nearest_even mx
                           (loc_of_shr_record (shr_record_of_loc mx lx)))
        by apply round_nearest_even_ge.
      set (m' := round_nearest_even mx _) in *.
      assert (Zdigits2 mx <= Zdigits2 m'); [| lia].
      pose proof (Zdigits2_lower mx Hm) as Hlo.
      pose proof (Zdigits2_bound m') as Hhi.
      rewrite Z.abs_eq in Hhi by lia.
      assert (2 ^ (Zdigits2 mx - 1) < 2 ^ Zdigits2 m') by lia.
      apply Z.pow_lt_mono_r_iff in H0; [lia | lia |].
      destruct m'; cbn; lia.
    - injection Hs1 as _ He'. lia.
    - injection Hs1 as <-. unfold m2. rewrite shr_m_of_loc.
      assert (Hge : mx <= round_nearest_even mx
                           (loc_of_shr_record (shr_record_of_loc mx lx)))
        by apply round_nearest_even_ge.
      set (m' := round_nearest_even mx _) in *.
      assert (Zdigits2 mx <= Zdigits2 m'); [| lia].
      pose proof (Zdigits2_lower mx Hm) as Hlo.
      pose proof (Zdigits2_bound m') as Hhi.
      rewrite Z.abs_eq in Hhi by lia.
      assert (2 ^ (Zdigits2 mx - 1) < 2 ^ Zdigits2 m') by lia.
      apply Z.pow_lt_mono_r_iff in H0; [lia | lia |].
      destruct m'; cbn; lia. }
  destruct (shr_fexp_pos m2 e1 loc_Exact H2 He2) as (H3 & _ & _).
  destruct (shr_fexp prec emax m2 e1 loc_Exact) as [mrs2 e2].
  cbn [fst] in H3.
  destruct (shr_m mrs2) as [| p | p]; try lia.
  destruct (e2 <=? emax - prec); discriminate.
Qed.

Lemma binary_round_negative (mx : positive) (ex : Z) :
  emin prec emax < Z.pos (digits2_pos mx) + ex ->
  match binary_round prec emax true mx ex with
  | S754_finite true _ _ | S754_infinity true => True
  | _ => False
  end.
Proof.
  intros He. unfold binary_round, shl_align.
  assert (Hsign : forall mz ez,
             emin prec emax < Zdigits2 (Z.pos mz) + ez ->
             match binary_round_aux prec emax true (Z.pos mz) ez loc_Exact with
             | S754_finite true _ _ | S754_infinity true => True
             | _ => False
             end).
  { intros mz ez Hz.
    pose proof (binary_round_aux_sign prec emax true (Z.pos mz) ez loc_Exact
                  ltac:(lia)) as Hs.
    pose proof (binary_round_aux_nonzero true (Z.pos mz) ez loc_Exact)
      as Hnz.
    destruct (binary_round_aux prec emax true (Z.pos mz) ez loc_Exact)
      as [s | s | | s m e]; try subst s; try exact I; try contradiction.
    exact (Hnz true ltac:(lia) Hz eq_refl). }
  destruct (fexp prec emax (Z.pos (digits2_pos mx) + ex) - ex)
    as [| d | d] eqn:Hn; apply Hsign; cbn [Zdigits2]; try exact He.
  unfold fexp in *. lia.
Qed.

End FloatPositive.

(** A negative integer is a negative [float]. *)
Lemma of_Z_negative (d : Z) :
  d < 0 -> F32.ltb (F32.of_Z d) (F32.of_Z 0) = true.
Proof.
  intros Hd. destruct d as [| p | p]; try lia.
  unfold F32.of_Z, binary_normalize.
  pose proof (binary_round_negative F32.prec F32.emax eq_refl p 0) as H.
  destruct (binary_round F32.prec F32.emax true p 0) as [s | s | | s m e];
    try (exfalso; apply H; unfold emin, F32.prec, F32.emax; lia).
  - destruct s; [reflexivity |].
    exfalso; apply H; unfold emin, F32.prec, F32.emax; lia.
  - destruct s; [reflexivity |].
    exfalso; apply H; unfold emin, F32.prec, F32.emax; lia.
Qed.

(** ** What [composePwle] accepts *)

Lemma constructBrakingSegment_accepts d k c r c' :
  DspMemChunk.constructBrakingSegment d k c = Some (r, c') ->
  (r <? 0) = false -> 0 <= d.
Proof.
  unfold DspMemChunk.constructBrakingSegment, DspMemChunk.fToU16.
  intros H Hr. destruct (Z.ltb_spec d 0) as [Hd | Hd]; [| exact Hd].
  exfalso. rewrite (of_Z_negative d Hd) in H. cbn [orb] in H.
  destruct (negb (DspMemChunk.waveformType c =? WAVEFORM_PWLE));
    injection H as <- _; discriminate Hr.
Qed.

Lemma within_intro x lo hi :
  F32.ltb x lo = false -> F32.gtb x hi = false -> within x lo hi = true.
Proof. unfold within. intros -> ->. reflexivity. Qed.

Lemma composePwle_case_valid clab e st st' :
  composePwle_case clab e st = Some (inr st') -> valid_pwle clab e.
Proof.
  destruct e as [a | b]; unfold composePwle_case; cbv zeta; intros H.
  - destruct (Z.ltb_spec (active_duration a) 0) as [| Hd0];
      [discriminate H |].
    destruct (Z.gtb_spec (active_duration a)
                COMPOSE_PWLE_PRIMITIVE_DURATION_MAX_MS) as [| Hd1];
      [discriminate H |].
    cbn [orb] in H.
    destruct (F32.ltb (startAmplitude a) PWLE_LEVEL_MIN) eqn:A1;
      [discriminate H |].
    destruct (F32.gtb (startAmplitude a) PWLE_LEVEL_MAX) eqn:A2;
      [discriminate H |].
    destruct (F32.ltb (endAmplitude a) PWLE_LEVEL_MIN) eqn:A3;
      [discriminate H |].
    destruct (F32.gtb (endAmplitude a) PWLE_LEVEL_MAX) eqn:A4;
      [discriminate H |].
    cbn [orb] in H.
    destruct (F32.ltb (startFrequency a) PWLE_FREQUENCY_MIN_HZ) eqn:F1;
      [discriminate H |].
    destruct (F32.gtb (startFrequency a) PWLE_FREQUENCY_MAX_HZ) eqn:F2;
      [discriminate H |].
    destruct (F32.ltb (endFrequency a) PWLE_FREQUENCY_MIN_HZ) eqn:F3;
      [discriminate H |].
    destruct (F32.gtb (endFrequency a) PWLE_FREQUENCY_MAX_HZ) eqn:F4;
      [discriminate H |].
    clear H. cbn [valid_pwle].
    split; [lia |]. auto using within_intro.
  - destruct (Z.gtb_spec (Braking_underlying (braking_braking b))
                (Braking_underlying CLAB)) as [| Hkind]; [discriminate H |].
    destruct (negb clab
              && (Braking_underlying (braking_braking b)
                  =? Braking_underlying CLAB)) eqn:Hk; [discriminate H |].
    destruct (Z.gtb_spec (braking_duration b)
                COMPOSE_PWLE_PRIMITIVE_DURATION_MAX_MS) as [| Hd1];
      [discriminate H |].
    destruct (DspMemChunk.constructBrakingSegment 0 _ _) as [[r0 c0] |];
      [| discriminate H].
    destruct (r0 <? 0); [discriminate H |].
    destruct (DspMemChunk.constructBrakingSegment (braking_duration b) _ _)
      as [[r1 c1] |] eqn:Hseg; [| discriminate H].
    destruct (r1 <? 0) eqn:Hr1; [discriminate H |].
    clear H. cbn [valid_pwle]. split; [exact Hkind |]. split.
    + intros Hclab. rewrite Hclab, Z.eqb_refl in Hk. destruct clab;
        [reflexivity | discriminate Hk].
    + split; [exact (constructBrakingSegment_accepts _ _ _ _ _ Hseg Hr1) |
              lia].
Qed.

Lemma composePwle_loop_valid clab composite : forall st st',
  composePwle_loop clab composite st = Some (inr st') ->
  Forall (valid_pwle clab) composite
  /\ (composite <> [] -> segmentIdx st' <= COMPOSE_PWLE_SIZE_MAX_DEFAULT).
Proof.
  induction composite as [| e rest IH]; intros st st' H.
  - split; [constructor | congruence].
  - cbn [composePwle_loop] in H.
    destruct (composePwle_case clab e st) as [[r | st1] |] eqn:Hcase;
      try discriminate H.
    destruct (Z.gtb_spec (segmentIdx st1) COMPOSE_PWLE_SIZE_MAX_DEFAULT)
      as [| Hidx]; [discriminate H |].
    destruct (IH st1 st' H) as [Hall Hlast].
    split; [constructor; [exact (composePwle_case_valid _ _ _ _ Hcase) |
                          exact Hall] |].
    intros _. destruct rest as [| e' rest'].
    + cbn in H. injection H as <-. exact Hidx.
    + apply Hlast. discriminate.
Qed.

Lemma pwle_duration_sum clab composite : forall total,
  Forall (valid_pwle clab) composite ->
  0 <= total ->
  total + 16383 * Z.of_nat (length composite) < 2 ^ 32 ->
  pwle_duration composite total = total + sum_durations composite
  /\ 0 <= sum_durations composite <= 16383 * Z.of_nat (length composite).
Proof.
  induction composite as [| e rest IH]; intros total Hall Ht Hb.
  - cbn. lia.
  - inversion Hall as [| ? ? He Hrest]; subst.
    assert (Hd : 0 <= duration_of e <= 16383).
    { destruct e as [a | b]; cbn [valid_pwle duration_of] in *;
        unfold COMPOSE_PWLE_PRIMITIVE_DURATION_MAX_MS in He; lia. }
    cbn [length] in Hb. rewrite Nat2Z.inj_succ in Hb.
    assert (Hu : u32 (total + duration_of e) = total + duration_of e)
      by (unfold u32; apply Z.mod_small; lia).
    destruct (IH (total + duration_of e) Hrest ltac:(lia) ltac:(lia))
      as [Hsum Hrange].
    cbn [length sum_durations foldr]. fold (sum_durations rest).
    rewrite Nat2Z.inj_succ.
    split; [| lia].
    destruct e as [a | b]; cbn [pwle_duration duration_of] in *;
      rewrite Hu, Hsum; lia.
Qed.

Lemma composePwle_encode_loop clab composite ch :
  composePwle_encode clab composite = Enc_ok ch ->
  (1 <= length composite <= 127)%nat
  /\ exists st',
       composePwle_loop clab composite
         {| pl_ch := DspMemChunk.new WAVEFORM_PWLE
                       (Z.to_nat FF_CUSTOM_DATA_LEN_MAX_PWLE);
            segmentIdx := 0; pl_totalDuration := 0;
            prevEndAmplitude := F32.of_Z (-1);
            prevEndFrequency := F32.of_Z (-1); chirp := false |}
       = Some (inr st')
       /\ (u32 (pl_totalDuration st' + MAX_COLD_START_LATENCY_MS)
           >? 0x7FFFF) = false
       /\ ch = snd (DspMemChunk.updateNSection (segmentIdx st')
                 (snd (DspMemChunk.updateWLength
                         (u32 (pl_totalDuration st'
                               + MAX_COLD_START_LATENCY_MS))
                         (snd (DspMemChunk.flush (pl_ch st'))))))
       /\ fst (DspMemChunk.updateNSection (segmentIdx st')
                 (snd (DspMemChunk.updateWLength
                         (u32 (pl_totalDuration st'
                               + MAX_COLD_START_LATENCY_MS))
                         (snd (DspMemChunk.flush (pl_ch st')))))) >= 0.
Proof.
  unfold composePwle_encode.
  destruct (Nat.eqb_spec (length composite) 0) as [| Hne];
    [discriminate |].
  destruct (Z.gtb_spec (Z.of_nat (length composite))
              COMPOSE_PWLE_SIZE_MAX_DEFAULT) as [| Hle]; [discriminate |].
  cbn [orb]. unfold resetPreviousEndAmplitudeEndFrequency.
  cbv zeta. cbv iota. cbv beta.
  destruct (composePwle_loop clab composite _) as [[[s c] | st1] |] eqn:Hloop;
    try discriminate.
  destruct (_ >? 0x7FFFF) eqn:Hlong; [discriminate |].
  destruct (DspMemChunk.updateWLength _ _) as [r1 c1] eqn:H1.
  destruct (r1 <? 0); [discriminate |].
  destruct (DspMemChunk.updateNSection _ c1) as [r2 c2] eqn:H2.
  destruct (Z.ltb_spec r2 0); [discriminate |].
  intros [= <-]. split; [unfold COMPOSE_PWLE_SIZE_MAX_DEFAULT in Hle; lia |].
  exists st1. split; [reflexivity |]. split; [exact Hlong |].
  rewrite H1. cbn [snd]. rewrite H2. cbn [fst snd].
  split; [reflexivity | lia].
Qed.

(** X5.  A composition that [composePwle] encodes is within the limits:
    1 to 127 elements and at most 127 sections; every active segment
    lasts 0 to 16383 ms, with amplitudes that are neither below 0 nor
    above 1 and frequencies neither below 1 Hz nor above 1000 Hz; every
    braking segment lasts 0 to 16383 ms and has a kind whose value is
    not above that of [CLAB], and equal to it only when [CLAB] is
    supported (a kind of negative value is let through); and the
    durations with the cold-start latency add up to at most [0x7FFFF]
    ms. *)
Theorem composePwle_accepts_only_valid (isClabSupported : bool)
    (composite : list PrimitivePwle) (ch : DspMemChunk.t) :
  composePwle_encode isClabSupported composite = Enc_ok ch ->
  (1 <= length composite <= 127)%nat
  /\ Forall (valid_pwle isClabSupported) composite
  /\ Z.of_nat (length (pwle_sections reset_point composite))
     <= COMPOSE_PWLE_SIZE_MAX_DEFAULT
  /\ sum_durations composite + MAX_COLD_START_LATENCY_MS <= 0x7FFFF.
Proof.
  intros Henc.
  destruct (composePwle_encode_loop _ _ _ Henc)
    as (Hlen & st' & Hloop & Hlong & _).
  destruct (composePwle_loop_valid _ _ _ _ Hloop) as [Hall Hidx].
  apply composePwle_loop_sections_from in Hloop as Hsec.
  destruct Hsec as (_ & Hi & Hd).
  split; [exact Hlen |]. split; [exact Hall |].
  destruct (pwle_duration_sum isClabSupported composite 0 Hall)
    as [Hsum Hrange]; [lia | change (2 ^ 32) with 4294967296; lia |].
  split.
  - fold reset_point in Hi. rewrite Z.add_0_l in Hi. rewrite <- Hi.
    apply Hidx. destruct composite; [cbn in Hlen; lia | discriminate].
  - rewrite Hd, Hsum, Z.add_0_l in Hlong.
    unfold MAX_COLD_START_LATENCY_MS, u32 in *.
    rewrite Z.mod_small in Hlong
      by (change (2 ^ 32) with 4294967296; lia).
    destruct (Z.gtb_spec (sum_durations composite + 6) 0x7FFFF);
      [discriminate Hlong | lia].
Qed.

(** ** What [compose] accepts *)

Lemma getPrimitiveDetails_index (v : Vibrator) p i :
  getPrimitiveDetails v p = inr i -> 2 <= i <= 10.
Proof.
  unfold getPrimitiveDetails. destruct (_ =? 0); [discriminate |].
  destruct p; intros [= <-]; try discriminate; vm_compute; split; discriminate.
Qed.

Lemma compose_primitive_valid (v : Vibrator) (e : CompositeEffect) t i l t' :
  compose_primitive v e t = Some (inr (i, l, t')) ->
  (primitive e = NOOP /\ i = 0)
  \/ (getPrimitiveDetails v (primitive e) = inr i /\ 2 <= i <= 10).
Proof.
  unfold compose_primitive.
  destruct (primitive e) eqn:Hp; cbn [CompositePrimitive_eqb
    CompositePrimitive_underlying negb Z.eqb];
    try (intros [= <- _ _]; left; split; reflexivity).
  all: change (negb (_ =? _)) with true; cbv iota.
  all: destruct (getPrimitiveDetails v _) as [s | i'] eqn:Hd;
    [discriminate |].
  all: cbv zeta; destruct (intensityToVolLevel _ _ _); [| discriminate].
  all: intros [= <- _ _]; right; split;
    [reflexivity | exact (getPrimitiveDetails_index _ _ _ Hd)].
Qed.

Lemma compose_loop_valid (v : Vibrator) (composite : list CompositeEffect) :
  forall ch t ch',
    compose_loop v composite ch t = Enc_ok ch' -> valid_entries v composite.
Proof.
  induction composite as [| e rest IH]; intros ch t ch' H; [exact I |].
  cbn [compose_loop] in H. cbv zeta in H.
  destruct (F32.ltb (scale e) (F32.of_Z 0)) eqn:S0; [discriminate H |].
  destruct (F32.gtb (scale e) (F32.of_Z 1)) eqn:S1; [discriminate H |].
  cbn [orb] in H.
  destruct (compose_primitive v e t) as [[s | [[i l] t']] |] eqn:Hp;
    try discriminate H.
  apply compose_primitive_valid in Hp.
  cbn [valid_entries]. split; [| split].
  - split; [apply within_intro; assumption |].
    destruct Hp as [[Hn _] | [Hd _]]; [left; exact Hn | right; eauto].
  - destruct rest as [| e_next rest'].
    + intros Hn. destruct Hp as [[_ ->] | [Hd _]].
      * discriminate H.
      * rewrite Hn in Hd. unfold getPrimitiveDetails in Hd.
        destruct (_ =? 0); discriminate Hd.
    + destruct (Z.gtb_spec (delayMs e_next) COMPOSE_DELAY_MAX_MS);
        [discriminate H |].
      destruct (Z.ltb_spec (delayMs e_next) 0); [discriminate H |].
      cbn [orb] in H. split; [lia |].
      intros Hn Hz. destruct Hp as [[_ ->] | [Hd _]].
      * rewrite Hz in H. discriminate H.
      * rewrite Hn in Hd. unfold getPrimitiveDetails in Hd.
        destruct (_ =? 0); discriminate Hd.
  - destruct rest as [| e_next rest']; [exact I |].
    destruct (Z.gtb_spec (delayMs e_next) COMPOSE_DELAY_MAX_MS);
      [discriminate H |].
    destruct (Z.ltb_spec (delayMs e_next) 0); [discriminate H |].
    cbn [orb] in H.
    destruct ((i =? 0) && (u16 (delayMs e_next) =? 0)); [discriminate H |].
    exact (IH _ _ _ H).
Qed.

Lemma compose_encode_valid (v : Vibrator) (composite : list CompositeEffect)
    (ch : DspMemChunk.t) :
  compose_encode v composite = Enc_ok ch ->
  (1 <= length composite <= 254)%nat
  /\ (forall e_front, head composite = Some e_front ->
        u16 (delayMs e_front) <= COMPOSE_DELAY_MAX_MS)
  /\ valid_entries v composite.
Proof.
  unfold compose_encode. cbv zeta.
  destruct (Z.gtb_spec (Z.of_nat (length composite)) COMPOSE_SIZE_MAX)
    as [| Hle]; [discriminate |].
  destruct (Nat.eqb_spec (length composite) 0) as [| Hne]; [discriminate |].
  cbn [orb]. destruct composite as [| e_front rest]; [discriminate |].
  destruct (Z.gtb_spec (u16 (delayMs e_front)) COMPOSE_DELAY_MAX_MS)
    as [| Hd]; [discriminate |].
  destruct (u16 (delayMs e_front) <? 0); [discriminate |].
  cbn [orb].
  destruct (compose_loop v (e_front :: rest) _ _) as [ch' | s c |] eqn:Hloop;
    try discriminate.
  intros _. split; [unfold COMPOSE_SIZE_MAX in Hle; lia |].
  split; [intros e [= <-]; exact Hd |].
  exact (compose_loop_valid _ _ _ _ _ Hloop).
Qed.

(** X11.  A composition that [compose] encodes is within the limits: 1
    to 254 entries; every scale neither below 0 nor above 1; every
    primitive [NOOP] or a supported one; every delay after the first
    within 0 and 10000 ms, and the first within them once stored in 16
    bits; and every [NOOP] followed by an entry with a delay, so that
    the last entry is no [NOOP]. *)
Theorem compose_accepts_only_valid (v : Vibrator)
    (composite : list CompositeEffect) (ch : DspMemChunk.t) :
  compose_encode v composite = Enc_ok ch ->
  (1 <= length composite <= 254)%nat
  /\ (forall e_front, head composite = Some e_front ->
        delayMs e_front mod 2 ^ 16 <= COMPOSE_DELAY_MAX_MS)
  /\ valid_entries v composite
  /\ (forall e_last, last composite = Some e_last ->
        primitive e_last <> NOOP).
Proof.
  intros Henc.
  destruct (compose_encode_valid v composite ch Henc) as (Hlen & Hd & Hall).
  split; [exact Hlen |]. split; [exact Hd |]. split; [exact Hall |].
  clear Henc Hlen Hd.
  induction composite as [| e rest IH]; [discriminate |].
  intros e_last Hlast. destruct Hall as (_ & Hnext & Hrest).
  destruct rest as [| e' rest'].
  - injection Hlast as <-. exact Hnext.
  - apply IH; [exact Hrest | exact Hlast].
Qed.

Lemma compose_accepts_only_valid_witness :
  valid_entries (sample_vibrator false false) [click_after 0; click_after 50].
Proof.
  destruct (compose_encode (sample_vibrator false false)
              [click_after 0; click_after 50]) as [ch | |] eqn:H;
    [| vm_compute in H; discriminate H | vm_compute in H; discriminate H].
  exact (proj1 (proj2 (proj2 (compose_accepts_only_valid _ _ ch H)))).
Defined.

Lemma composePwle_accepts_only_valid_witness :
  Forall (valid_pwle false) [ramp_up; hold; brake].
Proof.
  destruct (composePwle_encode false [ramp_up; hold; brake])
    as [ch | |] eqn:H;
    [| vm_compute in H; discriminate H | vm_compute in H; discriminate H].
  exact (proj1 (proj2 (composePwle_accepts_only_valid _ _ ch H))).
Defined.

(** ** What [on] leaves behind *)

(** X8.  [on] returns in every case but one: with two actuators and a
    blob, when the upload to the first leaves a slot that is no index of
    [mFfEffectsDual], taking the element of that index for the second
    upload has no meaning.  When it returns, it has started the
    completion task only if it succeeded, as the last thing it did, and
    after it had written the id of the effect it plays as the active id.
    Without the GPIO trigger, a start that does not get as far leaves
    the active id as it was, or cleared. *)
Theorem on_completion_task (hw : Oracle) (timeoutMs effectIndex : Z)
    (ch : option DspMemChunk.t) (callback : option nat) (v : Vibrator) :
  match on hw timeoutMs effectIndex ch callback v with
  | Done s v' =>
      let evs := new_events (log v) (log v') in
      (forall cb, In (async_waitForComplete cb) evs ->
         s = EX_NONE
         /\ last evs = Some (async_waitForComplete callback)
         /\ In (write_mActiveId (mActiveId v')) evs)
      /\ (mGPIOStatus v = false ->
          (forall cb, ~ In (async_waitForComplete cb) evs) ->
          mActiveId v' = mActiveId v \/ mActiveId v' = -1)
  | Return _ _ => False
  | Undefined =>
      mIsDual v = true
      /\ exists blob,
           ch = Some blob
           /\ ~ (0 <= out (hw (before_upload v) (upload_base blob))
                 < Z.of_nat (length (mFfEffectsDual v)))
  end.
Proof.
  unfold on, arm_trigger, before_upload, upload_base.
  destruct ch as [ch |]; repeat step.
  all: try rewrite !length_alter in *.
  all: try (split; [reflexivity |]; exists ch; split; [reflexivity |];
            rewrite <- ?(app_assoc (log v)) in *; cbn [app] in *;
            intros [Hlo Hhi]; apply Z.leb_le in Hlo; apply Z.ltb_lt in Hhi;
            congruence).
  all: cbv zeta.
  all: added_events new_events_app new_events_same v.
  all: cbn [mActiveId set_mActiveId_field set_log set_mFfEffects
            set_mFfEffectsDual].
  all: split;
    [ intros cb Hin; cbn [In] in Hin;
      repeat (destruct Hin as [Hin | Hin]; [try discriminate Hin |]);
      try contradiction;
      (split; [reflexivity |]); (split; [reflexivity |]);
      cbn [In]; repeat (first [left; reflexivity | right])
    | intros Hg Hno; try congruence;
      first [ left; reflexivity
            | right; reflexivity
            | exfalso; apply (Hno callback); cbn [In];
              repeat (first [left; reflexivity | right]) ] ].
Qed.

Lemma on_completion_task_witness :
  exists s v',
    on hw_ok 0 WAVEFORM_CLICK_INDEX None None (sample_vibrator false false)
    = Done s v'
    /\ (In (async_waitForComplete None)
          (new_events [] (log v')) -> s = EX_NONE).
Proof.
  pose proof (on_completion_task hw_ok 0 WAVEFORM_CLICK_INDEX None None
                (sample_vibrator false false)) as H.
  destruct (on hw_ok 0 WAVEFORM_CLICK_INDEX None None
              (sample_vibrator false false)) as [s v' | s v' |];
    [| contradiction | destruct H as (Hdual & _); discriminate Hdual].
  exists s, v'. split; [reflexivity |].
  intros Hin. exact (proj1 (proj1 H None Hin)).
Defined.

(** ** [off] while an effect plays *)

(** X9.  With an effect active, [off] first stops it on every actuator
    in use and resets the GPIO output.  When the reset fails it returns
    at once with [EX_ILLEGAL_STATE].  Otherwise it puts the gain and the
    scale back, and clears the active id exactly when every stop
    succeeded: a failed stop is answered with [EX_ILLEGAL_STATE] and
    leaves the effect recorded as active. *)
Theorem off_when_active (hw : Oracle) (v : Vibrator) :
  0 <= mActiveId v ->
  exists s v' rest,
    off hw v = Done s v'
    /\ new_events (log v) (log v')
       = setFFPlay Base (mActiveId v) false
         :: (if mIsDual v then [setFFPlay Flip (mActiveId v) false] else [])
         ++ setGPIOOutput false :: rest
    /\ (s = EX_NONE \/ s = EX_ILLEGAL_STATE)
    /\ (s = EX_NONE ->
        mActiveId v' = -1 /\ mLongEffectScale v' = F32.of_Z 1
        /\ last rest = Some (write_mActiveId (-1)))
    /\ (s = EX_ILLEGAL_STATE ->
        mActiveId v' = mActiveId v
        /\ forall a, ~ In (write_mActiveId a) rest)
    /\ (ok (hw (log v
                ++ setFFPlay Base (mActiveId v) false
                   :: (if mIsDual v
                       then [setFFPlay Flip (mActiveId v) false] else []))
              (setGPIOOutput false)) = false ->
        s = EX_ILLEGAL_STATE /\ rest = []
        /\ mLongEffectScale v' = mLongEffectScale v).
Proof.
  intros Hactive. unfold off. run.
  destruct (Z.geb_spec (mActiveId v) 0) as [_ | ?]; [| lia].
  unfold setGlobalAmplitude, setEffectAmplitude. rewrite full_scale.
  repeat step.
  all: eexists _, _, _; (split; [reflexivity |]).
  all: added_events new_events_app new_events_same v.
  all: cbn [mActiveId mLongEffectScale set_mActiveId_field set_log
            set_mLongEffectScale].
  all: split; [reflexivity |].
  all: split; [first [left; reflexivity | right; reflexivity] |].
  all: repeat split; intros; try discriminate; try reflexivity;
    rewrite <- ?(app_assoc (log v)) in *; cbn [app In] in *;
    try congruence.
  all: intuition discriminate.
Qed.

Lemma off_when_active_witness :
  exists s v',
    off hw_ok (playing_composed true true) = Done s v'
    /\ (s = EX_NONE -> mActiveId v' = -1).
Proof.
  destruct (off_when_active hw_ok (playing_composed true true))
    as (s & v' & rest & Hrun & _ & _ & Hdone & _).
  - vm_compute. discriminate.
  - exists s, v'. split; [exact Hrun |].
    intros Hs. exact (proj1 (Hdone Hs)).
Defined.

(** ** The gain *)

Lemma amplitudeToScale_range (amplitude maximum : F32.float) (g : Z) :
  amplitudeToScale amplitude maximum = Some g -> 0 <= g <= 100.
Proof.
  rewrite amplitudeToScale_unfold.
  destruct (F32.is_zero maximum); [intros [= <-]; lia |].
  cbv zeta. destruct (F32.gtb _ _) eqn:Hgt; [intros [= <-]; lia |].
  apply ratio_round_bound. exact Hgt.
Qed.

(** X10.  The gain that [setEffectAmplitude] writes is never over 100,
    and it is the same on both actuators.  The second actuator is
    written only when there is one and the first write succeeded; the
    call succeeds exactly when every write did, and changes nothing of
    the vibrator but the log. *)
Theorem setEffectAmplitude_gain (hw : Oracle) (amplitude maximum : F32.float)
    (v : Vibrator) :
  match setEffectAmplitude hw amplitude maximum v with
  | Done s v' =>
      exists g,
        amplitudeToScale amplitude maximum = Some g
        /\ 0 <= g <= 100
        /\ let first := ok (hw (log v) (setFFGain Base g)) in
           let second :=
             ok (hw (log v ++ [setFFGain Base g]) (setFFGain Flip g)) in
           new_events (log v) (log v')
           = setFFGain Base g
             :: (if first && mIsDual v then [setFFGain Flip g] else [])
           /\ s = (if first && (negb (mIsDual v) || second)
                   then EX_NONE else EX_ILLEGAL_STATE)
           /\ v' = set_log (log v') v
  | Return _ _ => False
  | Undefined => amplitudeToScale amplitude maximum = None
  end.
Proof.
  unfold setEffectAmplitude.
  destruct (amplitudeToScale amplitude maximum) as [g |] eqn:Hg;
    [| reflexivity].
  pose proof (amplitudeToScale_range _ _ _ Hg) as Hrange.
  repeat step.
  all: exists g; (split; [reflexivity |]); (split; [exact Hrange |]);
    cbv zeta.
  all: added_events new_events_app new_events_same v.
  all: repeat match goal with
              | H : _ = true |- _ => rewrite H
              | H : _ = false |- _ => rewrite H
              end.
  all: repeat split; reflexivity.
Qed.

(** ** The composers reject with the vibrator untouched *)

Lemma getPrimitiveDetails_status (v : Vibrator) p s :
  getPrimitiveDetails v p = inl s ->
  s = EX_ILLEGAL_ARGUMENT \/ s = EX_UNSUPPORTED_OPERATION.
Proof.
  unfold getPrimitiveDetails. destruct (_ =? 0); [intros [= <-]; auto |].
  destruct p; intros [= <-]; auto.
Qed.

Lemma compose_loop_status (v : Vibrator) (composite : list CompositeEffect) :
  forall ch t s c,
    compose_loop v composite ch t = Enc_return s c ->
    s = EX_ILLEGAL_ARGUMENT \/ s = EX_UNSUPPORTED_OPERATION.
Proof.
  induction composite as [| e rest IH]; intros ch t s c H; [discriminate H |].
  cbn [compose_loop] in H. cbv zeta in H.
  destruct (_ || _); [injection H; intros; subst; auto |].
  destruct (compose_primitive v e t) as [[s' | [[i l] t']] |] eqn:Hp;
    try discriminate H.
  - injection H; intros; subst. unfold compose_primitive in Hp.
    destruct (negb _); [| discriminate Hp].
    destruct (getPrimitiveDetails v (primitive e)) as [s0 | i] eqn:Hd.
    + injection Hp as <-. exact (getPrimitiveDetails_status _ _ _ Hd).
    + cbv zeta in Hp. destruct (intensityToVolLevel _ _ _); discriminate Hp.
  - destruct rest as [| e_next rest'].
    + destruct (_ && _); [injection H; intros; subst; auto | discriminate H].
    + destruct (_ || _); [injection H; intros; subst; auto |].
      destruct (_ && _); [injection H; intros; subst; auto |].
      exact (IH _ _ _ _ H).
Qed.

Lemma compose_encode_status (v : Vibrator) (composite : list CompositeEffect)
    s c :
  compose_encode v composite = Enc_return s c ->
  s = EX_ILLEGAL_ARGUMENT \/ s = EX_UNSUPPORTED_OPERATION.
Proof.
  unfold compose_encode. cbv zeta.
  destruct (_ || _); [intros [= <- _]; auto |].
  destruct composite as [| e_front rest]; [intros [= <- _]; auto |].
  destruct (_ || _); [intros [= <- _]; auto |].
  destruct (compose_loop v (e_front :: rest) _ _) as [ch' | s' c' |] eqn:Hloop.
  - destruct (DspMemChunk.updateNSection _ _) as [r ch2].
    destruct (r <? 0); [intros [= <- _]; auto |].
    match goal with
    | |- context [if ?b then _ else _] => destruct b
    end; [intros [= <- _]; auto | discriminate].
  - intros [= <- _]. exact (compose_loop_status _ _ _ _ _ _ Hloop).
  - discriminate.
Qed.

(** X12.  [compose] either rejects the composition, with
    [EX_ILLEGAL_ARGUMENT] or [EX_UNSUPPORTED_OPERATION] and the vibrator
    exactly as it was (nothing asked of the hardware), or the
    composition is within the limits of [compose]. *)
Theorem compose_rejects_untouched (hw : Oracle)
    (composite : list CompositeEffect) (callback : option nat)
    (v v' : Vibrator) (s : Z) :
  compose hw composite callback v = Done s v' ->
  (v' = v /\ (s = EX_ILLEGAL_ARGUMENT \/ s = EX_UNSUPPORTED_OPERATION))
  \/ ((1 <= length composite <= 254)%nat /\ valid_entries v composite).
Proof.
  unfold compose. run.
  destruct (compose_encode v composite) as [ch | s0 c |] eqn:Henc.
  - intros _. right.
    destruct (compose_encode_valid v composite ch Henc) as (Hlen & _ & Hall).
    split; assumption.
  - run. intros [= <- <-]. left. split; [reflexivity |].
    exact (compose_encode_status _ _ _ _ Henc).
  - discriminate.
Qed.

Lemma compose_rejects_untouched_witness :
  compose hw_ok [] None (sample_vibrator false false)
  = Done EX_ILLEGAL_ARGUMENT (sample_vibrator false false)
  /\ (sample_vibrator false false = sample_vibrator false false
      \/ (1 <= 0 <= 254)%nat).
Proof.
  split; [reflexivity |].
  destruct (compose_rejects_untouched hw_ok [] None
              (sample_vibrator false false) (sample_vibrator false false)
              EX_ILLEGAL_ARGUMENT eq_refl) as [[H _] | [H _]].
  - left. exact H.
  - right. exact H.
Defined.

Lemma composePwle_case_status clab e st r c :
  composePwle_case clab e st = Some (inl (r, c)) -> r = EX_ILLEGAL_ARGUMENT.
Proof.
  unfold composePwle_case. destruct e as [a | b]; cbv zeta.
  - repeat match goal with
           | |- context [if ?b then _ else _] => destruct b
           | |- context [match ?x with Some _ => _ | None => _ end] =>
               destruct x as [[? ?] |]
           end;
      intros H; try discriminate H; injection H; intros; subst; reflexivity.
  - unfold resetPreviousEndAmplitudeEndFrequency.
    repeat match goal with
           | |- context [if ?b then _ else _] => destruct b
           | |- context [match ?x with Some _ => _ | None => _ end] =>
               destruct x as [[? ?] |]
           end;
      intros H; try discriminate H; injection H; intros; subst; reflexivity.
Qed.

Lemma composePwle_loop_status clab composite : forall st r c,
  composePwle_loop clab composite st = Some (inl (r, c)) ->
  r = EX_ILLEGAL_ARGUMENT.
Proof.
  induction composite as [| e rest IH]; intros st r c H; [discriminate H |].
  cbn [composePwle_loop] in H.
  destruct (composePwle_case clab e st) as [[[r0 c0] | st1] |] eqn:Hcase;
    try discriminate H.
  - injection H as <- _. exact (composePwle_case_status _ _ _ _ _ Hcase).
  - destruct (_ >? _); [injection H as <- _; reflexivity |].
    exact (IH _ _ _ H).
Qed.

Lemma composePwle_encode_status clab composite s c :
  composePwle_encode clab composite = Enc_return s c ->
  s = EX_ILLEGAL_ARGUMENT.
Proof.
  unfold composePwle_encode.
  destruct (_ || _); [intros [= <- _]; reflexivity |].
  unfold resetPreviousEndAmplitudeEndFrequency. cbv zeta. cbv iota. cbv beta.
  destruct (composePwle_loop clab composite _) as [[[r0 c0] | st1] |] eqn:Hloop;
    try discriminate.
  - intros [= <- _]. exact (composePwle_loop_status _ _ _ _ _ Hloop).
  - destruct (_ >? 0x7FFFF); [intros [= <- _]; reflexivity |].
    destruct (DspMemChunk.updateWLength _ _) as [r1 c1].
    destruct (r1 <? 0); [intros [= <- _]; reflexivity |].
    destruct (DspMemChunk.updateNSection _ c1) as [r2 c2].
    destruct (r2 <? 0); [intros [= <- _]; reflexivity | discriminate].
Qed.

Lemma composePwle_encode_valid clab composite ch :
  composePwle_encode clab composite = Enc_ok ch ->
  (1 <= length composite <= 127)%nat /\ Forall (valid_pwle clab) composite.
Proof.
  intros Henc.
  destruct (composePwle_encode_loop _ _ _ Henc) as (Hlen & st' & Hloop & _).
  split; [exact Hlen |]. exact (proj1 (composePwle_loop_valid _ _ _ _ Hloop)).
Qed.

(** X13.  [composePwle] either rejects the composition, with
    [EX_UNSUPPORTED_OPERATION] or [EX_ILLEGAL_ARGUMENT], having only
    asked the hardware what it can do and with the active id as it was,
    or the composition is within the limits of [composePwle] with
    [CLAB] not supported: the kind of every braking segment has a value
    below that of [CLAB], which is [NONE] or a negative value. *)
Theorem composePwle_rejects_untouched (hw : Oracle)
    (composite : list PrimitivePwle) (callback : option nat)
    (v v' : Vibrator) (s : Z) :
  composePwle hw composite callback v = Done s v' ->
  ((s = EX_UNSUPPORTED_OPERATION \/ s = EX_ILLEGAL_ARGUMENT)
   /\ mActiveId v' = mActiveId v
   /\ forallb is_probe (new_events (log v) (log v')) = true)
  \/ ((1 <= length composite <= 127)%nat
      /\ Forall (valid_pwle false) composite
      /\ forall b, In (braking b) composite ->
           Braking_underlying (braking_braking b) < Braking_underlying CLAB).
Proof.
  destruct (has_owt hw v && mIsChirpEnabled v) eqn:Hcap.
  - rewrite composePwle_run by exact Hcap.
    destruct (_ || _).
    + intros [= <- <-]. left. split; [auto | apply once_asked_frame].
    + cbv zeta.
      destruct (composePwle_encode false composite) as [ch | s0 c |] eqn:Henc.
      * intros _. right.
        destruct (composePwle_encode_valid _ _ _ Henc) as [Hlen Hall].
        split; [exact Hlen |]. split; [exact Hall |].
        intros b Hin. rewrite List.Forall_forall in Hall.
        specialize (Hall _ Hin). cbn [valid_pwle] in Hall.
        destruct Hall as (Hle & Hclab & _).
        destruct (Z.eq_dec (Braking_underlying (braking_braking b))
                    (Braking_underlying CLAB)) as [He | Hne];
          [discriminate (Hclab He) | lia].
      * intros [= <- <-]. left.
        rewrite (composePwle_encode_status _ _ _ _ Henc).
        split; [auto | apply twice_asked_frame].
      * discriminate.
  - rewrite composePwle_unsupported_run by exact Hcap.
    intros [= <- <-]. left. split; [auto | apply once_asked_frame].
Qed.

Lemma composePwle_rejects_untouched_witness :
  ((EX_ILLEGAL_ARGUMENT = EX_UNSUPPORTED_OPERATION
    \/ EX_ILLEGAL_ARGUMENT = EX_ILLEGAL_ARGUMENT)
   /\ mActiveId (capabilities_state hw_ok (sample_vibrator false false))
      = mActiveId (sample_vibrator false false)
   /\ forallb is_probe
        (new_events (log (sample_vibrator false false))
           (log (capabilities_state hw_ok (sample_vibrator false false))))
      = true)
  \/ ((1 <= length (@nil PrimitivePwle) <= 127)%nat
      /\ Forall (valid_pwle false) []
      /\ forall b, In (braking b) [] ->
           Braking_underlying (braking_braking b) < Braking_underlying CLAB).
Proof.
  exact (composePwle_rejects_untouched hw_ok [] None
           (sample_vibrator false false)
           (capabilities_state hw_ok (sample_vibrator false false))
           EX_ILLEGAL_ARGUMENT eq_refl).
Defined.

(** ** The size of a PWLE blob and the count in its header *)

Lemma constructActiveSegment_written d a f chirp c r c' :
  DspMemChunk.constructActiveSegment d a f chirp c = Some (r, c') ->
  (r <? 0) = false ->
  exists delay amp freq flags,
    c' = DspMemChunk.constructPwleSegment delay amp freq flags 0 c
    /\ Z.land (u8 flags) PWLE_AMP_REG_BIT = 0
    /\ (d = 0 -> delay = 0).
Proof.
  unfold DspMemChunk.constructActiveSegment. intros H Hr.
  destruct (negb _); [injection H as <- _; discriminate Hr |].
  destruct (DspMemChunk.fToU16 (F32.of_Z d) _ _ _) as [[e1 | delay] |] eqn:Hd;
    try discriminate H; [injection H as <- _; discriminate Hr |].
  destruct (DspMemChunk.fToU16 a _ _ _) as [[e2 | amp] |];
    try discriminate H; [injection H as <- _; discriminate Hr |].
  destruct (DspMemChunk.fToU16 f _ _ _) as [[e3 | freq] |];
    try discriminate H; [injection H as <- _; discriminate Hr |].
  injection H as _ <-. eexists delay, amp, freq, _.
  split; [reflexivity |]. split; [destruct chirp; reflexivity |].
  intros ->. vm_compute in Hd. injection Hd as <-. reflexivity.
Qed.

Lemma constructBrakingSegment_written d k c r c' :
  DspMemChunk.constructBrakingSegment d k c = Some (r, c') ->
  (r <? 0) = false ->
  exists delay amp freq flags,
    c' = DspMemChunk.constructPwleSegment delay amp freq flags 0 c
    /\ Z.land (u8 flags) PWLE_AMP_REG_BIT = 0
    /\ (d = 0 -> delay = 0).
Proof.
  unfold DspMemChunk.constructBrakingSegment. intros H Hr.
  destruct (negb (_ =? WAVEFORM_PWLE));
    [injection H as <- _; discriminate Hr |].
  destruct (DspMemChunk.fToU16 (F32.of_Z d) _ _ _) as [[e1 | delay] |] eqn:Hd;
    try discriminate H; [injection H as <- _; discriminate Hr |].
  destruct (DspMemChunk.fToU16 PWLE_FREQUENCY_MIN_HZ _ _ _) as [r0 |];
    try discriminate H.
  injection H as _ <-. eexists delay, 0, _, _.
  split; [reflexivity |]. split; [destruct (negb (Braking_underlying k =? 0)); reflexivity |].
  intros ->. vm_compute in Hd. injection Hd as <-. reflexivity.
Qed.

Lemma write_section_written s c r c' :
  write_section s c = Some (r, c') ->
  (r <? 0) = false ->
  exists delay amp freq flags,
    c' = DspMemChunk.constructPwleSegment delay amp freq flags 0 c
    /\ Z.land (u8 flags) PWLE_AMP_REG_BIT = 0.
Proof.
  intros H Hr. destruct s; cbn [write_section] in H.
  - destruct (constructActiveSegment_written _ _ _ _ _ _ _ H Hr)
      as (d' & a' & f' & fl & -> & Hfl & _);
      exists d', a', f', fl; split; [reflexivity | exact Hfl].
  - destruct (constructActiveSegment_written _ _ _ _ _ _ _ H Hr)
      as (d' & a' & f' & fl & -> & Hfl & _);
      exists d', a', f', fl; split; [reflexivity | exact Hfl].
  - destruct (constructBrakingSegment_written _ _ _ _ _ H Hr)
      as (d' & a' & f' & fl & -> & Hfl & _);
      exists d', a', f', fl; split; [reflexivity | exact Hfl].
  - destruct (constructBrakingSegment_written _ _ _ _ _ H Hr)
      as (d' & a' & f' & fl & -> & Hfl & _);
      exists d', a', f', fl; split; [reflexivity | exact Hfl].
Qed.

Lemma write_sections_exact l : forall c c',
  write_sections l c = Some c' ->
  DspMemChunk._cachebits c = 4 ->
  Z.of_nat (DspMemChunk._current c) + 8 * Z.of_nat (length l)
    <= Z.of_nat (DspMemChunk._max c) ->
  DspMemChunk._cachebits c' = 4
  /\ DspMemChunk._current c' = (DspMemChunk._current c + 8 * length l)%nat
  /\ DspMemChunk._max c' = DspMemChunk._max c.
Proof.
  induction l as [| s l IH]; intros c c' H Hb Hroom.
  - injection H as <-.
    split; [exact Hb | split; [cbn [length]; lia | reflexivity]].
  - cbn [write_sections] in H. cbn [length] in Hroom.
    destruct (write_section s c) as [[r c1] |] eqn:Hs; [| discriminate H].
    destruct (r <? 0) eqn:Hr; [discriminate H |].
    destruct (write_section_written _ _ _ _ Hs Hr)
      as (d' & a' & f' & fl & -> & Hfl).
    destruct (constructPwleSegment_exact d' a' f' fl 0 c Hfl Hb) as [Hb1 Hc1];
      [lia |].
    pose proof (ChunkSpec.keeps_max _ _
                  (ChunkFacts.constructPwleSegment_keeps d' a' f' fl 0 c))
      as Hm1.
    destruct (IH _ _ H Hb1) as (Hb' & Hc' & Hm'); [lia |].
    split; [exact Hb' |]. cbn [length]. split; [lia | congruence].
Qed.

(** ** The bits that [write] packs *)

Module ChunkBits.

Import DspMemChunk ChunkSpec.

Lemma lor_low (hi x w : Z) :
  0 <= w -> 0 <= x < 2 ^ w ->
  Z.lor (Z.shiftl hi w) x = hi * 2 ^ w + x.
Proof.
  intros Hw Hx. rewrite <- Z.shiftl_mul_pow2 by exact Hw.
  apply Z.or_to_plus.
  replace x with (x mod 2 ^ w) by (apply Z.mod_small; exact Hx).
  Z.bitblast. subst l. rewrite Z.testbit_neg_r by lia. reflexivity.
Qed.

(** The low [k + w] bits of the accumulator once [w] bits [x] went in:
    the [k] bits that waited, then [x]. *)
Lemma fill_pending (cache x k w : Z) :
  0 <= k -> 0 <= w -> k + w <= 32 -> 0 <= x < 2 ^ w ->
  Z.lor (u32 (Z.shiftl cache w)) x mod 2 ^ (k + w)
  = (cache mod 2 ^ k) * 2 ^ w + x.
Proof.
  intros Hk Hw Hkw Hx. rewrite <- lor_low by assumption.
  unfold u32.
  replace x with (x mod 2 ^ w) by (apply Z.mod_small; exact Hx).
  Z.bitblast.
Qed.

Lemma byte_of_low (x : Z) :
  byte_of x 2 = (x mod 2 ^ 24) / 2 ^ 16 mod 256
  /\ byte_of x 1 = (x mod 2 ^ 24) / 2 ^ 8 mod 256
  /\ byte_of x 0 = (x mod 2 ^ 24) mod 256.
Proof.
  unfold byte_of.
  change (8 * 2) with 16. change (8 * 1) with 8. change (8 * 0) with 0.
  change 0xFF with (Z.ones 8). change 256 with (2 ^ 8).
  rewrite <- !Z.shiftr_div_pow2 by lia. rewrite <- !Z.land_ones by lia.
  rewrite Z.shiftr_0_r.
  repeat split; Z.bitblast.
Qed.

Lemma shifted_bound (val nbits r : Z) :
  0 <= r <= nbits -> 0 <= val < 2 ^ nbits ->
  0 <= Z.shiftr val r < 2 ^ (nbits - r) /\ Z.shiftr val r = val / 2 ^ r.
Proof.
  intros Hr Hv. rewrite Z.shiftr_div_pow2 by lia.
  assert (0 < 2 ^ r) by (apply Z.pow_pos_nonneg; lia).
  split; [| reflexivity]. split; [apply Z.div_pos; lia |].
  apply Z.div_lt_upper_bound; [lia |].
  rewrite <- Z.pow_add_r by lia. replace (r + (nbits - r)) with nbits by lia.
  lia.
Qed.

(** A write that does not fill the accumulator stores nothing: its bits
    go behind those that wait. *)
Lemma write_bits_partial nbits val c :
  0 <= _cachebits c -> 0 < nbits -> _cachebits c + nbits < 24 ->
  0 <= val < 2 ^ nbits ->
  fst (write nbits val c) = 0
  /\ DspMemChunk.head (write_ nbits val c) = DspMemChunk.head c
  /\ _current (write_ nbits val c) = _current c
  /\ bytes (write_ nbits val c) = bytes c
  /\ _cachebits (write_ nbits val c) = _cachebits c + nbits
  /\ pending (write_ nbits val c) = pending c * 2 ^ nbits + val.
Proof.
  intros Hk Hn Hlt Hv. unfold write_, write.
  assert (Hu : u32 val = val).
  { unfold u32. apply Z.mod_small. split; [lia |].
    apply Z.lt_le_trans with (2 ^ nbits); [lia |].
    apply Z.pow_le_mono_r; lia. }
  rewrite Hu, ChunkFacts.write_rec_S. cbv zeta.
  unfold rest, fill. cbn [_cachebits]. rewrite ChunkFacts.min_spec.
  rewrite (Z.min_r (24 - _cachebits c) nbits) by lia.
  destruct (Z.eqb_spec (_cachebits c + nbits) 24) as [| _]; [lia |].
  rewrite Z.sub_diag. change (negb (0 =? 0)) with false. cbv iota.
  cbn [fst snd DspMemChunk.head _current bytes _cachebits].
  repeat (split; [reflexivity |]).
  unfold pending. cbn [_cache _cachebits]. rewrite Z.shiftr_0_r.
  apply fill_pending; lia.
Qed.

(** A write that fills the accumulator stores the group: the bits that
    waited and the first bits of the value; the other bits of the value
    wait. *)
Lemma write_bits_group nbits val c :
  0 <= _cachebits c < 24 -> 0 < nbits <= 24 -> 24 <= _cachebits c + nbits ->
  0 <= val < 2 ^ nbits ->
  isEnd c = false ->
  let over := _cachebits c + nbits - 24 in
  let g := pending c * 2 ^ (24 - _cachebits c) + val / 2 ^ over in
  fst (write nbits val c) = 0
  /\ DspMemChunk.head (write_ nbits val c)
     = store (_current c) (group_bytes g) (DspMemChunk.head c)
  /\ _current (write_ nbits val c) = (4 + _current c)%nat
  /\ bytes (write_ nbits val c) = bytes c + 4
  /\ _cachebits (write_ nbits val c) = over
  /\ pending (write_ nbits val c) = val mod 2 ^ over.
Proof.
  intros Hk Hn Hge Hv Hend. cbv zeta. unfold write_, write.
  assert (Hu : u32 val = val).
  { unfold u32. apply Z.mod_small. split; [lia |].
    apply Z.lt_le_trans with (2 ^ nbits); [lia |].
    apply Z.pow_le_mono_r; lia. }
  rewrite Hu, ChunkFacts.write_rec_S. cbv zeta.
  unfold rest. rewrite ChunkFacts.min_spec.
  rewrite (Z.min_l (24 - _cachebits c) nbits) by lia.
  set (c' := fill nbits val c).
  assert (Hbits : _cachebits c' = 24).
  { unfold c', fill. cbn [_cachebits]. rewrite ChunkFacts.min_spec.
    rewrite Z.min_l by lia. lia. }
  assert (Hcache : _cache c' mod 2 ^ 24
                   = pending c * 2 ^ (24 - _cachebits c)
                     + val / 2 ^ (_cachebits c + nbits - 24)).
  { unfold c', fill, pending. cbn [_cache]. rewrite ChunkFacts.min_spec.
    rewrite Z.min_l by lia.
    destruct (shifted_bound val nbits (nbits - (24 - _cachebits c)))
      as [Hb He]; [lia | exact Hv |].
    replace (nbits - (nbits - (24 - _cachebits c)))
      with (24 - _cachebits c) in Hb by lia.
    replace (_cachebits c + nbits - 24)
      with (nbits - (24 - _cachebits c)) by lia.
    rewrite <- He.
    pose proof (fill_pending (_cache c)
                  (Z.shiftr val (nbits - (24 - _cachebits c)))
                  (_cachebits c) (24 - _cachebits c)
                  ltac:(lia) ltac:(lia) ltac:(lia) Hb) as Hf.
    replace (_cachebits c + (24 - _cachebits c)) with 24 in Hf by lia.
    exact Hf. }
  assert (Hhead : DspMemChunk.head (flush_group c')
                  = store (_current c)
                      (group_bytes (pending c * 2 ^ (24 - _cachebits c)
                                    + val / 2 ^ (_cachebits c + nbits - 24)))
                      (DspMemChunk.head c)).
  { rewrite ChunkFacts.flush_group_head.
    destruct (byte_of_low (_cache c')) as (-> & -> & ->).
    rewrite Hcache. reflexivity. }
  rewrite Hbits. change (24 =? 24) with true. cbv iota.
  replace (isEnd c') with false by (symmetry; exact Hend).
  destruct (Z.eqb_spec (nbits - (24 - _cachebits c)) 0) as [Hz | Hnz];
    cbn [negb].
  - cbn [fst snd]. split; [reflexivity |]. split; [exact Hhead |].
    split; [reflexivity |]. split; [reflexivity |].
    rewrite ChunkFacts.flush_group_bits. split; [lia |].
    unfold pending. rewrite ChunkFacts.flush_group_bits.
    replace (_cachebits c + nbits - 24) with 0 by lia.
    rewrite !Z.mod_1_r. reflexivity.
  - rewrite ChunkFacts.write_rec_S. cbv zeta.
    unfold rest, fill. rewrite ChunkFacts.flush_group_bits.
    rewrite ChunkFacts.min_spec, Z.sub_0_r.
    rewrite (Z.min_r 24 (nbits - (24 - _cachebits c))) by lia.
    cbn [_cachebits]. rewrite Z.add_0_l.
    destruct (Z.eqb_spec (nbits - (24 - _cachebits c)) 24) as [| _]; [lia |].
    rewrite Z.sub_diag. change (negb (0 =? 0)) with false. cbv iota.
    cbn [fst snd DspMemChunk.head _current bytes _cachebits].
    split; [reflexivity |]. split; [exact Hhead |].
    split; [reflexivity |]. split; [reflexivity |].
    split; [lia |].
    unfold pending. cbn [_cache _cachebits]. rewrite Z.shiftr_0_r.
    replace (_cachebits c + nbits - 24)
      with (nbits - (24 - _cachebits c)) by lia.
    set (r := nbits - (24 - _cachebits c)).
    change (Z.lor (u32 (Z.shiftl (_cache (flush_group c')) r)) val
              mod 2 ^ r = val mod 2 ^ r).
    unfold u32. rewrite <- !Z.land_ones by lia. Z.bitblast.
    subst l. rewrite Z.testbit_neg_r by lia. reflexivity.
Qed.

End ChunkBits.

(** ** The bytes of a composed effect *)

Lemma write_max nbits val c :
  DspMemChunk._max (DspMemChunk.write_ nbits val c) = DspMemChunk._max c
  /\ DspMemChunk.waveformType (DspMemChunk.write_ nbits val c)
     = DspMemChunk.waveformType c.
Proof.
  unfold DspMemChunk.write_, DspMemChunk.write.
  destruct (ChunkFacts.write_rec_frame (S (S (Z.to_nat nbits))) nbits
              (u32 val) c) as [Ht Hm].
  split; assumption.
Qed.

Lemma isEnd_room (c : DspMemChunk.t) :
  (DspMemChunk._current c < DspMemChunk._max c)%nat ->
  DspMemChunk.isEnd c = false.
Proof. intros H. unfold DspMemChunk.isEnd. apply Nat.eqb_neq. lia. Qed.

Lemma group_of_three (a b c : Z) :
  0 <= a < 256 -> 0 <= b < 256 -> 0 <= c < 256 ->
  group_bytes ((a * 2 ^ 8 + b) * 2 ^ 8 + c) = [0; a; b; c].
Proof.
  intros Ha Hb Hc. unfold group_bytes.
  change (2 ^ 16) with 65536. change (2 ^ 8) with 256.
  f_equal. f_equal; [| f_equal; [| f_equal]].
  - replace ((a * 256 + b) * 256 + c) with (a * 65536 + (b * 256 + c))
      by ring.
    rewrite Z.div_add_l, (Z.div_small (b * 256 + c)), Z.add_0_r by lia.
    apply Z.mod_small. lia.
  - rewrite Z.div_add_l, (Z.div_small c), Z.add_0_r by lia.
    rewrite Z.add_comm, Z.mod_add by lia. apply Z.mod_small. lia.
  - rewrite Z.add_comm, Z.mod_add by lia. apply Z.mod_small. lia.
Qed.

Lemma group_of_two (a d : Z) :
  0 <= a < 256 -> 0 <= d < 65536 ->
  group_bytes (a * 2 ^ 16 + d) = [0; a; d / 256; d mod 256].
Proof.
  intros Ha Hd. unfold group_bytes.
  change (2 ^ 16) with 65536. change (2 ^ 8) with 256.
  f_equal. f_equal; [| f_equal; [| f_equal]].
  - rewrite Z.div_add_l, (Z.div_small d), Z.add_0_r by lia.
    apply Z.mod_small. lia.
  - replace (a * 65536) with (a * 256 * 256) by ring.
    rewrite Z.div_add_l by lia.
    rewrite Z.add_comm, Z.mod_add by lia. apply Z.mod_small.
    Z.div_mod_to_equations. lia.
  - replace (a * 65536) with (a * 256 * 256) by ring.
    rewrite Z.add_comm, Z.mod_add by lia. reflexivity.
Qed.

(** A section of a composed effect is eight bytes at the cursor. *)
Lemma constructComposeSegment_bytes vol idx rep fl delay c :
  DspMemChunk.waveformType c = WAVEFORM_COMPOSE ->
  DspMemChunk._cachebits c = 0 ->
  0 <= vol <= 100 -> 0 <= idx <= 14 -> 0 <= rep < 256 -> 0 <= fl < 256 ->
  0 <= delay < 65536 ->
  (DspMemChunk._current c + 8 <= DspMemChunk._max c)%nat ->
  let r := DspMemChunk.constructComposeSegment vol idx rep fl delay c in
  fst r = 0
  /\ DspMemChunk.head (snd r)
     = store (DspMemChunk._current c)
         [0; vol; idx; rep; 0; fl; delay / 256; delay mod 256]
         (DspMemChunk.head c)
  /\ DspMemChunk._current (snd r) = (8 + DspMemChunk._current c)%nat
  /\ DspMemChunk.bytes (snd r) = DspMemChunk.bytes c + 8
  /\ DspMemChunk._cachebits (snd r) = 0
  /\ DspMemChunk._max (snd r) = DspMemChunk._max c
  /\ DspMemChunk.waveformType (snd r) = WAVEFORM_COMPOSE.
Proof.
  intros Ht Hb Hvol Hidx Hrep Hfl Hdelay Hroom. cbv zeta.
  unfold DspMemChunk.constructComposeSegment. cbv zeta.
  rewrite Ht. change (negb (WAVEFORM_COMPOSE =? WAVEFORM_COMPOSE)) with false.
  cbv iota.
  assert (Hu1 : u32 vol = vol) by (unfold u32; apply Z.mod_small; lia).
  assert (Hu2 : u32 idx = idx) by (unfold u32; apply Z.mod_small; lia).
  assert (Hu3 : u8 rep = rep) by (unfold u8; apply Z.mod_small; lia).
  assert (Hu4 : u8 fl = fl) by (unfold u8; apply Z.mod_small; lia).
  assert (Hu5 : u16 delay = delay) by (unfold u16; apply Z.mod_small; lia).
  rewrite Hu1, Hu2, Hu3, Hu4, Hu5.
  destruct (Z.gtb_spec vol 100); [lia |].
  destruct (Z.gtb_spec idx WAVEFORM_MAX_PHYSICAL_INDEX);
    [unfold WAVEFORM_MAX_PHYSICAL_INDEX in *; lia |].
  cbn [orb fst snd].
  assert (Hp0 : pending c = 0)
    by (unfold pending; rewrite Hb; apply Z.mod_1_r).
  destruct (ChunkBits.write_bits_partial 8 vol c)
    as (_ & Hh1 & Hc1 & Hy1 & Hb1 & Hp1);
    [lia | lia | lia | change (2 ^ 8) with 256; lia |].
  destruct (write_max 8 vol c) as [Hm1 Ht1].
  set (c1 := DspMemChunk.write_ 8 vol c) in *.
  rewrite Hb, Hp0 in *. cbn [Z.add Z.mul] in Hb1, Hp1.
  destruct (ChunkBits.write_bits_partial 8 idx c1)
    as (_ & Hh2 & Hc2 & Hy2 & Hb2 & Hp2);
    [lia | lia | lia | change (2 ^ 8) with 256; lia |].
  destruct (write_max 8 idx c1) as [Hm2 Ht2].
  set (c2 := DspMemChunk.write_ 8 idx c1) in *.
  rewrite Hb1, Hp1 in *. cbn [Z.add] in Hb2.
  destruct (ChunkBits.write_bits_group 8 rep c2)
    as (_ & Hh3 & Hc3 & Hy3 & Hb3 & Hp3);
    [lia | lia | lia | change (2 ^ 8) with 256; lia |
     apply isEnd_room; lia |].
  destruct (write_max 8 rep c2) as [Hm3 Ht3].
  set (c3 := DspMemChunk.write_ 8 rep c2) in *.
  rewrite Hb2, Hp2 in *.
  change (16 + 8 - 24) with 0 in *. change (24 - 16) with 8 in *.
  change (2 ^ 0) with 1 in *. rewrite Z.div_1_r, Z.mod_1_r in *.
  rewrite group_of_three in Hh3 by lia.
  destruct (ChunkBits.write_bits_partial 8 fl c3)
    as (_ & Hh4 & Hc4 & Hy4 & Hb4 & Hp4);
    [lia | lia | lia | change (2 ^ 8) with 256; lia |].
  destruct (write_max 8 fl c3) as [Hm4 Ht4].
  set (c4 := DspMemChunk.write_ 8 fl c3) in *.
  rewrite Hb3, Hp3 in *. cbn [Z.add Z.mul] in Hb4, Hp4.
  destruct (ChunkBits.write_bits_group 16 delay c4)
    as (_ & Hh5 & Hc5 & Hy5 & Hb5 & Hp5);
    [lia | lia | lia | change (2 ^ 16) with 65536; lia |
     apply isEnd_room; lia |].
  destruct (write_max 16 delay c4) as [Hm5 Ht5].
  set (c5 := DspMemChunk.write_ 16 delay c4) in *.
  rewrite Hb4, Hp4 in *.
  change (8 + 16 - 24) with 0 in *. change (24 - 8) with 16 in *.
  change (2 ^ 0) with 1 in *. rewrite Z.div_1_r in *.
  rewrite group_of_two in Hh5 by lia.
  split; [reflexivity |].
  split.
  - rewrite Hh5, Hh4, Hh3, Hh2, Hh1, Hc4, Hc3, Hc2, Hc1. reflexivity.
  - split; [lia |]. split; [lia |]. split; [exact Hb5 |].
    split; congruence.
Qed.

Lemma length_store bs : forall i h, length (store i bs h) = length h.
Proof.
  induction bs as [| b bs IH]; intros i h; [reflexivity |].
  cbn [store]. rewrite IH. apply length_insert.
Qed.

Lemma take_store bs : forall (i : nat) h,
  (i + length bs <= length h)%nat ->
  take (i + length bs) (store i bs h) = take i h ++ bs.
Proof.
  induction bs as [| b bs IH]; intros i h Hlen.
  - cbn [store length]. rewrite Nat.add_0_r, app_nil_r. reflexivity.
  - cbn [store length] in *.
    replace (i + S (length bs))%nat with (S i + length bs)%nat by lia.
    rewrite IH by (rewrite length_insert; lia).
    rewrite (take_S_r _ i b) by (apply list_lookup_insert_eq; lia).
    rewrite take_insert_ge by lia. rewrite <- app_assoc. reflexivity.
Qed.

Lemma compose_primitive_total (v : Vibrator) e t i l t' :
  compose_primitive v e t = Some (inr (i, l, t')) ->
  exists t0, compose_primitive v e 0 = Some (inr (i, l, t0))
             /\ 0 <= i <= 10 /\ 0 <= l < 2 ^ 32.
Proof.
  intros H. pose proof (compose_primitive_valid _ _ _ _ _ _ H) as Hi.
  revert H. unfold compose_primitive.
  destruct (negb _).
  - destruct (getPrimitiveDetails v (primitive e)) as [s | i'];
      [discriminate |].
    cbv zeta. unfold intensityToVolLevel, intensityToVolLevel_calc.
    repeat match goal with
           | |- context [if ?b then _ else _] => destruct b
           end;
      (destruct (F32.to_long _) as [n |]; [| discriminate]);
      intros [= <- <- _]; eexists; (split; [reflexivity |]);
      (split; [destruct Hi as [[_ Hi] | [_ Hi]]; lia |]);
      apply Z.mod_pos_bound; reflexivity.
  - intros [= <- <- _]. eexists. split; [reflexivity |].
    split; [lia | change (2 ^ 32) with 4294967296; lia].
Qed.

Lemma section_step level index delay c :
  between_sections c ->
  (DspMemChunk._current c + 8 <= DspMemChunk._max c)%nat ->
  0 <= level < 2 ^ 32 -> 0 <= index <= 10 -> 0 <= delay < 65536 ->
  let c' := snd (DspMemChunk.constructComposeSegment level index 0 0 delay
                   c) in
  between_sections c'
  /\ DspMemChunk._max c' = DspMemChunk._max c
  /\ DspMemChunk._current c'
     = (DspMemChunk._current c
        + length (section_bytes (level, index, delay)))%nat
  /\ written c' = written c ++ section_bytes (level, index, delay).
Proof.
  intros (Ht & Hb & Hlen & Hbytes) Hroom Hl Hi Hd. cbv zeta.
  unfold section_bytes. destruct (Z.gtb_spec level 100) as [Hbig | Hfit].
  - assert (Hsame : snd (DspMemChunk.constructComposeSegment level index 0 0
                           delay c) = c).
    { unfold DspMemChunk.constructComposeSegment. cbv zeta.
      rewrite Ht.
      change (negb (WAVEFORM_COMPOSE =? WAVEFORM_COMPOSE)) with false.
      cbv iota. unfold u32 at 1. rewrite (Z.mod_small level) by exact Hl.
      destruct (Z.gtb_spec level 100); [reflexivity | lia]. }
    rewrite Hsame. cbn [length]. rewrite Nat.add_0_r, app_nil_r.
    repeat split; assumption.
  - destruct (constructComposeSegment_bytes level index 0 0 delay c Ht Hb)
      as (_ & Hh & Hc & Hy & Hb' & Hm & Ht'); try lia.
    set (c' := snd (DspMemChunk.constructComposeSegment level index 0 0
                      delay c)) in *.
    split; [| split; [exact Hm | split]].
    + split; [exact Ht' |]. split; [exact Hb' |].
      split; [rewrite Hh, length_store; congruence | lia].
    + rewrite Hc. cbn [length]. lia.
    + unfold written. rewrite Hc, Hh.
      set (bs := [0; level; index; 0; 0; 0; delay / 256; delay mod 256]).
      replace (8 + DspMemChunk._current c)%nat
        with (DspMemChunk._current c + length bs)%nat
        by (subst bs; cbn [length]; lia).
      apply take_store. subst bs. cbn [length]. lia.
Qed.

Lemma section_bytes_length s : (length (section_bytes s) <= 8)%nat.
Proof.
  destruct s as [[l i] d]. unfold section_bytes.
  destruct (l >? 100); cbn [length]; lia.
Qed.

Lemma compose_loop_bytes (v : Vibrator) (composite : list CompositeEffect) :
  forall ch t ch',
    compose_loop v composite ch t = Enc_ok ch' ->
    between_sections ch ->
    (DspMemChunk._current ch + 8 * length composite
     <= DspMemChunk._max ch)%nat ->
    between_sections ch'
    /\ DspMemChunk._max ch' = DspMemChunk._max ch
    /\ (DspMemChunk._current ch' <= DspMemChunk._max ch)%nat
    /\ written ch'
       = written ch ++ flat_map section_bytes (entry_sections v composite).
Proof.
  induction composite as [| e rest IH]; intros ch t ch' H Hinv Hroom.
  - injection H as <-. cbn [entry_sections flat_map length] in *.
    rewrite app_nil_r. repeat split; try apply Hinv. lia.
  - pose proof (compose_loop_valid _ _ _ _ _ H) as Hvalid.
    cbn [compose_loop] in H. cbv zeta in H.
    destruct (_ || _); [discriminate H |].
    destruct (compose_primitive v e t) as [[s | [[i l] t']] |] eqn:Hp;
      try discriminate H.
    destruct (compose_primitive_total _ _ _ _ _ _ Hp)
      as (t0 & Hp0 & Hi & Hl).
    cbn [entry_sections]. cbv zeta. rewrite Hp0.
    cbn [valid_entries] in Hvalid. destruct Hvalid as (_ & Hnext & _).
    cbn [length] in Hroom.
    assert (Hstep : forall d, 0 <= d < 65536 ->
              forall c1,
                c1 = snd (DspMemChunk.constructComposeSegment l i 0 0 d ch) ->
                compose_loop v rest c1 (snd (d, 0)) = compose_loop v rest c1 0 ->
                True) by (intros; exact I).
    clear Hstep.
    destruct rest as [| e_next rest'].
    + destruct ((i =? 0) && (0 =? 0)); [discriminate H |].
      cbn [compose_loop] in H. injection H as <-.
      destruct (section_step l i 0 ch Hinv) as (Hinv' & Hm & Hc & Hw);
        try lia.
      pose proof (section_bytes_length (l, i, 0)) as Hsl.
      cbn [flat_map]. rewrite app_nil_r.
      split; [exact Hinv' |]. split; [exact Hm |].
      split; [cbn [length] in *; lia | exact Hw].
    + destruct Hnext as [Hd _]. unfold COMPOSE_DELAY_MAX_MS in Hd.
      destruct (_ || _); [discriminate H |].
      assert (Hu : u16 (delayMs e_next) = delayMs e_next)
        by (unfold u16; apply Z.mod_small;
            change (2 ^ 16) with 65536; lia).
      rewrite Hu in H.
      destruct (_ && _); [discriminate H |].
      destruct (section_step l i (delayMs e_next) ch Hinv)
        as (Hinv' & Hm & Hc & Hw); try lia.
      pose proof (section_bytes_length (l, i, delayMs e_next)) as Hsl.
      destruct (IH _ _ _ H Hinv') as (Hinv'' & Hm' & Hc' & Hw').
      { rewrite Hm, Hc. cbn [length] in *. lia. }
      split; [exact Hinv'' |]. split; [congruence |].
      split; [congruence |].
      rewrite Hw', Hw. cbn [flat_map]. rewrite <- app_assoc. reflexivity.
Qed.

Lemma new_compose_between :
  between_sections
    (DspMemChunk.new WAVEFORM_COMPOSE (Z.to_nat FF_CUSTOM_DATA_LEN_MAX_COMP)).
Proof. vm_compute. repeat split. Qed.

Lemma new_compose_written :
  written
    (DspMemChunk.new WAVEFORM_COMPOSE (Z.to_nat FF_CUSTOM_DATA_LEN_MAX_COMP))
  = [0; 0; 0; 0].
Proof. vm_compute. reflexivity. Qed.

Lemma new_compose_cursor :
  DspMemChunk._current
    (DspMemChunk.new WAVEFORM_COMPOSE (Z.to_nat FF_CUSTOM_DATA_LEN_MAX_COMP))
  = 4%nat
  /\ DspMemChunk._max
       (DspMemChunk.new WAVEFORM_COMPOSE
          (Z.to_nat FF_CUSTOM_DATA_LEN_MAX_COMP))
     = 2044%nat.
Proof. vm_compute. split; reflexivity. Qed.

Lemma written_length c :
  (DspMemChunk._current c <= length (DspMemChunk.head c))%nat ->
  length (written c) = DspMemChunk._current c.
Proof. intros H. unfold written. rewrite length_take. lia. Qed.

(** X14. The blob of an accepted composition, byte by byte: a header of
    four bytes whose third is the count (the entries, and one more when
    the first entry has a delay), then eight bytes for each section
    whose level is at most 100: a zero, the level, the index, three
    zeroes and the delay to the next entry, high byte first.  A section
    whose level is above 100 is counted but leaves no bytes. *)
Theorem compose_blob_bytes (v : Vibrator) (e_front : CompositeEffect)
    (rest : list CompositeEffect) (ch : DspMemChunk.t) :
  compose_encode v (e_front :: rest) = Enc_ok ch ->
  let count :=
    Z.of_nat (length (e_front :: rest))
    + (if u16 (delayMs e_front) =? 0 then 0 else 1) in
  take (Z.to_nat (DspMemChunk.size ch)) (DspMemChunk.head ch)
  = [0; 0; count; 0]
    ++ flat_map section_bytes (compose_sections v (e_front :: rest)).
Proof.
  intros H.
  destruct (compose_encode_count _ _ _ H) as (e' & rest' & He & Hn & Hcount).
  injection He as <- <-. cbv zeta.
  revert H Hcount. unfold compose_encode. cbv zeta.
  destruct (_ || _); [discriminate |].
  destruct (Z.gtb_spec (u16 (delayMs e_front)) COMPOSE_DELAY_MAX_MS)
    as [| Hd]; cbn [orb]; [discriminate |].
  destruct (Z.ltb_spec (u16 (delayMs e_front)) 0) as [| Hd0];
    [discriminate |].
  unfold COMPOSE_DELAY_MAX_MS in Hd.
  set (new := DspMemChunk.new WAVEFORM_COMPOSE
                (Z.to_nat FF_CUSTOM_DATA_LEN_MAX_COMP)).
  set (ch0 := if negb (u16 (delayMs e_front) =? 0) then _ else _).
  destruct new_compose_cursor as [Hcur Hmax]. fold new in Hcur, Hmax.
  assert (H0 : between_sections ch0
               /\ DspMemChunk._max ch0 = 2044%nat
               /\ (DspMemChunk._current ch0 <= 12)%nat
               /\ written ch0
                  = [0; 0; 0; 0]
                    ++ flat_map section_bytes
                         (if u16 (delayMs e_front) =? 0 then []
                          else [(0, 0, u16 (delayMs e_front))])).
  { subst ch0. destruct (u16 (delayMs e_front) =? 0); cbn [negb].
    - split; [apply new_compose_between |]. split; [exact Hmax |].
      split; [lia |]. apply new_compose_written.
    - destruct (section_step 0 0 (u16 (delayMs e_front)) new
                  new_compose_between)
        as (Hinv & Hm & Hc & Hw); try lia.
      split; [exact Hinv |]. split; [congruence |].
      split; [rewrite Hc, Hcur; cbn; lia |].
      rewrite Hw. unfold new. rewrite new_compose_written.
      cbn [flat_map]. rewrite app_nil_r. reflexivity. }
  destruct H0 as (Hinv0 & Hm0 & Hc0 & Hw0).
  destruct (compose_loop v (e_front :: rest) ch0 _) as [ch1 | |] eqn:Hloop;
    try discriminate.
  destruct (compose_loop_bytes _ _ _ _ _ Hloop Hinv0)
    as (Hinv1 & Hm1 & Hc1 & Hw1).
  { rewrite Hm0. cbn [length] in *. lia. }
  destruct Hinv1 as (Ht1 & Hb1 & Hlen1 & Hbytes1).
  unfold DspMemChunk.flush. rewrite Hb1.
  change (0 =? 0) with true. cbv iota. cbn [snd].
  unfold DspMemChunk.updateNSection. cbv zeta. rewrite Ht1.
  change (WAVEFORM_COMPOSE =? WAVEFORM_COMPOSE) with true. cbv iota.
  destruct (_ >? _); cbn [Z.ltb Z.compare Z.opp EINVAL]; [discriminate |].
  change (0 <? 0) with false. cbv iota.
  destruct (u8 _ =? _); [discriminate |].
  intros [= <-].
  unfold DspMemChunk.size, DspMemChunk.set_head, DspMemChunk.front.
  cbn [DspMemChunk.head DspMemChunk.bytes].
  rewrite Hbytes1, Nat2Z.id. intros Hcount.
  assert (Hge : (4 <= DspMemChunk._current ch1)%nat).
  { assert (Hl : length (written ch1) = DspMemChunk._current ch1).
    { apply written_length. lia. }
    rewrite <- Hl, Hw1, Hw0, !length_app. cbn [length]. lia. }
  rewrite take_insert_lt by lia.
  fold (written ch1). rewrite Hw1, Hw0.
  unfold compose_sections. rewrite flat_map_app, <- !app_assoc.
  cbn [app]. cbn [insert list_insert].
  f_equal. f_equal. f_equal.
  rewrite list_lookup_insert_eq in Hcount by lia.
  injection Hcount as ->. cbn [length].
  destruct (u16 (delayMs e_front) =? 0); lia.
Qed.

Lemma compose_blob_bytes_witness :
  exists ch,
    compose_encode (sample_vibrator false false)
      [click_after 0; click_after 50] = Enc_ok ch
    /\ take (Z.to_nat (DspMemChunk.size ch)) (DspMemChunk.head ch)
       = [0; 0; 2; 0]
         ++ flat_map section_bytes
              (compose_sections (sample_vibrator false false)
                 [click_after 0; click_after 50]).
Proof.
  destruct (compose_encode (sample_vibrator false false)
              [click_after 0; click_after 50]) as [ch | |] eqn:H;
    [| vm_compute in H; discriminate H | vm_compute in H; discriminate H].
  exists ch. split; [reflexivity |].
  exact (compose_blob_bytes _ _ _ ch H).
Defined.

(** ** The timed vibration *)

(** X15.  The two-argument [on] compares its signed timeout as an
    unsigned number: a negative timeout, like one over 65535 ms, is
    answered with [EX_ILLEGAL_ARGUMENT] and nothing is touched. *)
Theorem on_timeout_rejects (hw : Oracle) (timeoutMs : Z)
    (callback : option nat) (v : Vibrator) :
  - 2 ^ 31 <= timeoutMs < 2 ^ 31 ->
  timeoutMs < 0 \/ MAX_TIME_MS < timeoutMs ->
  on_timeout hw timeoutMs callback v = Done EX_ILLEGAL_ARGUMENT v.
Proof.
  intros Hrange Hbad. unfold on_timeout, MAX_TIME_MS in *. run.
  assert (Hu : 65535 < u32 timeoutMs).
  { unfold u32. destruct Hbad as [Hneg | Hbig].
    - replace timeoutMs with (timeoutMs + 2 ^ 32 + (-1) * 2 ^ 32) by lia.
      rewrite Z.mod_add by lia. rewrite Z.mod_small; lia.
    - rewrite Z.mod_small; lia. }
  destruct (Z.gtb_spec (u32 timeoutMs) 65535); [reflexivity | lia].
Qed.

Lemma on_timeout_rejects_witness :
  on_timeout hw_ok (-1) None (sample_vibrator false false)
  = Done EX_ILLEGAL_ARGUMENT (sample_vibrator false false).
Proof.
  apply (on_timeout_rejects hw_ok (-1) None (sample_vibrator false false)).
  - lia.
  - left. lia.
Defined.

Lemma on_timeout_args (timeoutMs : Z) :
  0 <= timeoutMs <= MAX_TIME_MS ->
  (u32 timeoutMs >? MAX_TIME_MS) = false
  /\ (u32 timeoutMs <? WAVEFORM_LONG_VIBRATION_THRESHOLD_MS)
     = (timeoutMs <? 50)
  /\ (MAX_COLD_START_LATENCY_MS <=? u32 (MAX_TIME_MS - timeoutMs))
     = (timeoutMs <=? 65529)
  /\ u16 (u32 (timeoutMs + MAX_COLD_START_LATENCY_MS))
     = (timeoutMs + 6) mod 65536
  /\ u16 (u32 timeoutMs) = timeoutMs.
Proof.
  unfold MAX_TIME_MS, WAVEFORM_LONG_VIBRATION_THRESHOLD_MS,
    MAX_COLD_START_LATENCY_MS, u32, u16.
  intros H. change (2 ^ 16) with 65536.
  rewrite (Z.mod_small timeoutMs), (Z.mod_small (65535 - timeoutMs)),
    (Z.mod_small (timeoutMs + 6)) by lia.
  rewrite (Z.mod_small timeoutMs 65536) by lia.
  repeat split; try reflexivity.
  - destruct (Z.gtb_spec timeoutMs 65535); [lia | reflexivity].
  - destruct (Z.leb_spec 6 (65535 - timeoutMs)),
             (Z.leb_spec timeoutMs 65529); try reflexivity; lia.
Qed.

(** X16.  For a timeout of 0 to 65535 ms the two-argument [on] plays
    the short vibration (index 3) below 50 ms and the long one (index 0)
    from there on.  The duration it programs is the timeout and 6 ms for
    the cold start, but only when that still fits 16 bits: from 65530 ms
    on it is the timeout itself, so it never wraps.  No other effect is
    programmed, and when the call succeeds this one was, and it is the
    active one. *)
Theorem on_timeout_duration (hw : Oracle) (timeoutMs : Z)
    (callback : option nat) (v : Vibrator) (s : Z) (v' : Vibrator) :
  0 <= timeoutMs <= MAX_TIME_MS ->
  on_timeout hw timeoutMs callback v = Done s v' ->
  let index := if timeoutMs <? 50 then 3 else 0 in
  let duration := if timeoutMs <=? 65529 then timeoutMs + 6 else timeoutMs in
  let evs := new_events (log v) (log v') in
  timeoutMs <= duration <= 65535
  /\ (forall d i t, In (setFFEffect d i t) evs -> i = index /\ t = duration)
  /\ (s = EX_NONE ->
      In (setFFEffect Base index duration) evs /\ mActiveId v' = index).
Proof.
  intros Ht. cbv zeta.
  destruct (on_timeout_args timeoutMs Ht) as (H1 & H2 & H3 & H4 & H5).
  unfold on_timeout. rewrite H1, H2, H3.
  assert (Hdur : (if timeoutMs <=? 65529 then (timeoutMs + 6) mod 65536
                  else timeoutMs)
                 = if timeoutMs <=? 65529 then timeoutMs + 6 else timeoutMs).
  { destruct (Z.leb_spec timeoutMs 65529); [| reflexivity].
    apply Z.mod_small. lia. }
  assert (Hu : u16 (u32 (if timeoutMs <=? 65529
                         then timeoutMs + MAX_COLD_START_LATENCY_MS
                         else timeoutMs))
               = if timeoutMs <=? 65529 then timeoutMs + 6 else timeoutMs).
  { rewrite <- Hdur. destruct (timeoutMs <=? 65529); assumption. }
  assert (Hle : timeoutMs
                <= (if timeoutMs <=? 65529 then timeoutMs + 6 else timeoutMs)
                <= 65535).
  { unfold MAX_TIME_MS in Ht. destruct (Z.leb_spec timeoutMs 65529); lia. }
  intros Hrun. split; [exact Hle |]. clear Hle. revert Hrun.
  set (duration := if timeoutMs <=? 65529 then timeoutMs + 6 else timeoutMs)
    in *.
  set (t' := if timeoutMs <=? 65529
             then timeoutMs + MAX_COLD_START_LATENCY_MS else timeoutMs) in *.
  clearbody duration t'. clear H1 H2 H3 H4 H5 Hdur.
  unfold setGlobalAmplitude, setEffectAmplitude, on, arm_trigger.
  unfold WAVEFORM_SHORT_VIBRATION_EFFECT_INDEX,
    WAVEFORM_LONG_VIBRATION_EFFECT_INDEX, WAVEFORM_CLICK_INDEX,
    WAVEFORM_LIGHT_TICK_INDEX, FF_MAX_EFFECTS.
  destruct (timeoutMs <? 50).
  all: change (3 >=? 96) with false; change (0 >=? 96) with false.
  all: change (3 =? 3) with true; change (0 =? 3) with false;
    change (0 =? 0) with true; change (3 =? 2) with false;
    change (3 =? 9) with false; change (0 =? 2) with false;
    change (0 =? 9) with false.
  all: run.
  all: destruct (F32.to_unsigned 8 _) as [a |]; [| discriminate].
  all: run.
  all: destruct (amplitudeToScale _ _) as [g |]; [| discriminate].
  all: rewrite ?Hu.
  all: repeat first
         [ progress (change (3 =? 2) with false; change (3 =? 9) with false;
                     change (0 =? 2) with false; change (0 =? 9) with false;
                     cbn [orb andb])
         | step ].
  all: rewrite ?Hu.
  all: intros [= <- <-].
  all: added_events new_events_app new_events_same v.
  all: cbn [mActiveId set_mActiveId_field set_log set_mFfEffects
            set_mFfEffectsDual set_mLongEffectScale].
  all: split;
    [ intros d i t Hin; cbn [In] in Hin;
      repeat (destruct Hin as [Hin | Hin];
              [try discriminate Hin;
               try (injection Hin as <- <- <-; split; reflexivity) |]);
      contradiction
    | intros Hs;
      first [ vm_compute in Hs; discriminate Hs
            | split; [cbn [In]; repeat (first [left; reflexivity | right])
                     | reflexivity] ] ].
Qed.

Lemma on_timeout_duration_witness :
  exists s v',
    on_timeout hw_ok 65534 None (sample_vibrator false false) = Done s v'
    /\ forall d i t,
         In (setFFEffect d i t) (new_events [] (log v')) ->
         i = 0 /\ t = 65534.
Proof.
  destruct (on_timeout hw_ok 65534 None (sample_vibrator false false))
    as [s v' | s v' |] eqn:Hrun;
    [| vm_compute in Hrun; discriminate Hrun
     | vm_compute in Hrun; discriminate Hrun].
  exists s, v'. split; [reflexivity |].
  exact (proj1 (proj2 (on_timeout_duration hw_ok 65534 None
                         (sample_vibrator false false) s v'
                         ltac:(unfold MAX_TIME_MS; lia) Hrun))).
Defined.

(** ** The amplitude *)

(** X17.  [setAmplitude] answers an amplitude that is not above 0, or
    that is above 1, with [EX_ILLEGAL_ARGUMENT] and changes nothing.
    Another amplitude is recorded as the scale of the long effects
    before anything else: under external control the call is then
    answered with [EX_UNSUPPORTED_OPERATION] without a word to the
    hardware, the scale staying recorded; otherwise all it does is to
    write a gain of at most 100, to the second actuator only after the
    first. *)
Theorem setAmplitude_outcome (hw : Oracle) (underExternalControl : bool)
    (amplitude : F32.float) (v : Vibrator) :
  let rejected :=
    F32_leb amplitude (F32.of_Z 0) || F32.gtb amplitude (F32.of_Z 1) in
  match setAmplitude hw underExternalControl amplitude v with
  | Done s v' =>
      if rejected then s = EX_ILLEGAL_ARGUMENT /\ v' = v
      else
        mLongEffectScale v' = amplitude
        /\ if underExternalControl
           then s = EX_UNSUPPORTED_OPERATION
                /\ v' = set_mLongEffectScale amplitude v
           else
             exists g,
               0 <= g <= 100
               /\ (new_events (log v) (log v') = [setFFGain Base g]
                   \/ mIsDual v = true
                      /\ new_events (log v) (log v')
                         = [setFFGain Base g; setFFGain Flip g])
               /\ (s = EX_NONE \/ s = EX_ILLEGAL_STATE)
  | Return _ _ => False
  | Undefined => rejected = false /\ underExternalControl = false
  end.
Proof.
  cbv zeta. unfold setAmplitude. run.
  destruct (F32_leb amplitude (F32.of_Z 0) || F32.gtb amplitude (F32.of_Z 1));
    [split; reflexivity |].
  run. destruct underExternalControl; run; [repeat split |].
  unfold setGlobalAmplitude. run.
  destruct (F32.to_unsigned 8 _) as [a |]; [| split; reflexivity].
  run. unfold setEffectAmplitude.
  destruct (amplitudeToScale _ _) as [g |] eqn:Hg; [| split; reflexivity].
  pose proof (amplitudeToScale_range _ _ _ Hg) as Hrange.
  repeat step.
  all: (split; [reflexivity |]); exists g; (split; [exact Hrange |]).
  all: added_events new_events_app new_events_same v.
  all: split;
    [ first [left; reflexivity | right; split; reflexivity]
    | first [left; reflexivity | right; reflexivity] ].
Qed.

(** ** The predefined effects *)

Lemma getSimpleDetails_index (v : Vibrator) (effect : Effect.t)
    (strength : EffectStrength.t) :
  match getSimpleDetails v effect strength with
  | Some (inl s) =>
      s = EX_UNSUPPORTED_OPERATION
      /\ ((exists n, strength = EffectStrength.other n)
          \/ effect = Effect.DOUBLE_CLICK
          \/ exists n, effect = Effect.other n)
  | Some (inr (index, time, level)) =>
      (forall n, strength <> EffectStrength.other n)
      /\ index = match effect with
                 | Effect.TEXTURE_TICK => WAVEFORM_LIGHT_TICK_INDEX
                 | _ => WAVEFORM_CLICK_INDEX
                 end
      /\ time = mEffectDurations !!! Z.to_nat index + MAX_COLD_START_LATENCY_MS
      /\ In effect [Effect.TEXTURE_TICK; Effect.TICK; Effect.CLICK;
                    Effect.HEAVY_CLICK]
  | None => True
  end.
Proof.
  unfold getSimpleDetails.
  destruct strength; cbv zeta;
    try (split; [reflexivity | left; eexists; reflexivity]).
  all: destruct effect;
    try (split; [reflexivity | right; first [left; reflexivity
                                             | right; eexists; reflexivity]]).
  all: destruct (intensityToVolLevel _ _ _); [| exact I].
  all: split; [discriminate |]; split; [reflexivity |].
  all: split; [reflexivity |]; cbn [In]; tauto.
Qed.

(** X18.  [perform] answers an effect that is none of the five of
    [getSupportedEffects], and any effect asked with a strength that is
    none of the three, with [EX_UNSUPPORTED_OPERATION] and a time of 0,
    and touches neither the vibrator nor the hardware. *)
Theorem perform_unsupported (hw : Oracle) (indeterminate : Z)
    (effect : Effect.t) (strength : EffectStrength.t)
    (callback : option nat) (v : Vibrator) :
  ~ In effect getSupportedEffects
  \/ ~ In strength
         [EffectStrength.LIGHT; EffectStrength.MEDIUM; EffectStrength.STRONG] ->
  perform hw indeterminate effect strength callback v
  = Done (EX_UNSUPPORTED_OPERATION, 0) v.
Proof.
  intros H. unfold perform, performEffect_effect. cbv zeta.
  assert (Hs : (exists n, effect = Effect.other n)
               \/ exists n, strength = EffectStrength.other n).
  { destruct H as [H | H].
    - left. destruct effect; try (exfalso; apply H; cbn; tauto).
      eexists; reflexivity.
    - right. destruct strength; try (exfalso; apply H; cbn; tauto).
      eexists; reflexivity. }
  destruct Hs as [[n ->] | [n ->]]; [reflexivity |].
  destruct effect; reflexivity.
Qed.

Lemma perform_unsupported_witness :
  perform hw_ok 0 Effect.CLICK (EffectStrength.other 7) None
    (sample_vibrator false false)
  = Done (EX_UNSUPPORTED_OPERATION, 0) (sample_vibrator false false).
Proof.
  apply (perform_unsupported hw_ok 0 Effect.CLICK (EffectStrength.other 7)
           None (sample_vibrator false false)).
  right. cbn [In]. intros [H | [H | [H | []]]]; discriminate H.
Defined.

Lemma performEffect_simple (hw : Oracle) (index level : Z)
    (callback : option nat) (v : Vibrator) :
  index = WAVEFORM_CLICK_INDEX \/ index = WAVEFORM_LIGHT_TICK_INDEX ->
  match performEffect hw index level None callback v with
  | Done s v' =>
      let evs := new_events (log v) (log v') in
      (s = EX_NONE \/ s = EX_ILLEGAL_STATE)
      /\ (s = EX_NONE ->
          mActiveId v' = index
          /\ last evs = Some (async_waitForComplete callback))
      /\ (forall d j b, In (setFFPlay d j b) evs -> j = index /\ b = true)
      /\ existsb is_upload evs = false
  | Return _ _ => False
  | Undefined => True
  end.
Proof.
  intros Hi. unfold performEffect, setEffectAmplitude, on, arm_trigger.
  unfold WAVEFORM_SHORT_VIBRATION_EFFECT_INDEX,
    WAVEFORM_LONG_VIBRATION_EFFECT_INDEX, WAVEFORM_CLICK_INDEX,
    WAVEFORM_LIGHT_TICK_INDEX, FF_MAX_EFFECTS in *.
  destruct (amplitudeToScale _ _) as [g |]; [| exact I].
  destruct Hi as [-> | ->].
  all: repeat first
         [ progress (change (2 >=? 96) with false;
                     change (9 >=? 96) with false;
                     change (2 =? 3) with false; change (2 =? 0) with false;
                     change (9 =? 3) with false; change (9 =? 0) with false;
                     change (2 =? 2) with true; change (9 =? 2) with false;
                     change (9 =? 9) with true; change (2 =? 9) with false;
                     cbn [orb andb])
         | step ].
  all: cbv zeta.
  all: added_events new_events_app new_events_same v.
  all: cbn [mActiveId set_mActiveId_field set_log set_mFfEffects
            set_mFfEffectsDual set_mLongEffectScale].
  all: split; [first [left; reflexivity | right; reflexivity] |].
  all: split;
    [ intros Hs; first [ vm_compute in Hs; discriminate Hs
                       | split; reflexivity ] |].
  all: split;
    [ intros d j b Hin; cbn [In] in Hin;
      repeat (destruct Hin as [Hin | Hin];
              [try discriminate Hin;
               try (injection Hin as <- <- <-; split; reflexivity) |]);
      contradiction
    | reflexivity ].
Qed.

(** X19.  Asked with one of the three strengths, [TICK], [CLICK] and
    [HEAVY_CLICK] all play the click waveform (index 2) and
    [TEXTURE_TICK] the light tick (index 9), from the waveforms that are
    already loaded: nothing is uploaded.  The time reported is the
    duration of the waveform and 6 ms, whether the effect started or
    not; the call ends with [EX_NONE], the waveform then being the
    active one and the completion task started last, or with
    [EX_ILLEGAL_STATE]. *)
Theorem perform_simple_effect (hw : Oracle) (indeterminate : Z)
    (effect : Effect.t) (strength : EffectStrength.t)
    (callback : option nat) (v : Vibrator) (s t : Z) (v' : Vibrator) :
  In effect [Effect.TEXTURE_TICK; Effect.TICK; Effect.CLICK;
             Effect.HEAVY_CLICK] ->
  In strength
    [EffectStrength.LIGHT; EffectStrength.MEDIUM; EffectStrength.STRONG] ->
  perform hw indeterminate effect strength callback v = Done (s, t) v' ->
  let index :=
    match effect with
    | Effect.TEXTURE_TICK => WAVEFORM_LIGHT_TICK_INDEX
    | _ => WAVEFORM_CLICK_INDEX
    end in
  let evs := new_events (log v) (log v') in
  t = mEffectDurations !!! Z.to_nat index + MAX_COLD_START_LATENCY_MS
  /\ (s = EX_NONE \/ s = EX_ILLEGAL_STATE)
  /\ (s = EX_NONE ->
      mActiveId v' = index
      /\ last evs = Some (async_waitForComplete callback))
  /\ (forall d j b, In (setFFPlay d j b) evs -> j = index /\ b = true)
  /\ existsb is_upload evs = false.
Proof.
  intros He Hs. cbv zeta. unfold perform, performEffect_effect. cbv zeta.
  pose proof (getSimpleDetails_index v effect strength) as Hd.
  assert (Hrun :
    match getSimpleDetails v effect strength with
    | Some (inr (index, time, level)) =>
        match performEffect hw index level None callback v with
        | Done s v' => Done (s, time) v'
        | Return s v' => Done (s, time) v'
        | Undefined => Undefined
        end
    | _ => Undefined
    end = Done (s, t) v' ->
    t = mEffectDurations
          !!! Z.to_nat match effect with
                       | Effect.TEXTURE_TICK => WAVEFORM_LIGHT_TICK_INDEX
                       | _ => WAVEFORM_CLICK_INDEX
                       end + MAX_COLD_START_LATENCY_MS
    /\ (s = EX_NONE \/ s = EX_ILLEGAL_STATE)
    /\ (s = EX_NONE ->
        mActiveId v' = match effect with
                       | Effect.TEXTURE_TICK => WAVEFORM_LIGHT_TICK_INDEX
                       | _ => WAVEFORM_CLICK_INDEX
                       end
        /\ last (new_events (log v) (log v'))
           = Some (async_waitForComplete callback))
    /\ (forall d j b,
          In (setFFPlay d j b) (new_events (log v) (log v')) ->
          j = match effect with
              | Effect.TEXTURE_TICK => WAVEFORM_LIGHT_TICK_INDEX
              | _ => WAVEFORM_CLICK_INDEX
              end /\ b = true)
    /\ existsb is_upload (new_events (log v) (log v')) = false).
  { destruct (getSimpleDetails v effect strength)
      as [[st | [[index time] level]] |]; try discriminate.
    destruct Hd as (_ & Hi & Ht & _).
    assert (Hix : index = WAVEFORM_CLICK_INDEX
                  \/ index = WAVEFORM_LIGHT_TICK_INDEX)
      by (rewrite Hi; destruct effect; auto).
    pose proof (performEffect_simple hw index level callback v Hix) as Hp.
    destruct (performEffect hw index level None callback v)
      as [s0 v0 | |]; [| contradiction | discriminate].
    intros [= <- <- <-]. cbv zeta in Hp. rewrite <- Hi.
    split; [exact Ht | exact Hp]. }
  assert (Hsimple : exists r, getSimpleDetails v effect strength = r
            /\ match r with Some (inl _) => False | _ => True end).
  { eexists; split; [reflexivity |].
    destruct (getSimpleDetails v effect strength) as [[st | r] |];
      try exact I.
    destruct Hd as (_ & [[n ->] | [-> | [n ->]]]); cbn [In] in He, Hs;
      intuition discriminate. }
  destruct Hsimple as (r & Hr & Hok). rewrite Hr in Hrun.
  cbn [In] in He.
  destruct He as [<- | [<- | [<- | [<- | []]]]]; rewrite Hr;
    (destruct r as [[st | [[index time] level]] |];
     [contradiction | | discriminate]);
    change (EX_NONE =? EX_NONE) with true; cbv iota; exact Hrun.
Qed.

Lemma perform_simple_effect_witness :
  exists s t v',
    perform hw_ok 0 Effect.TICK EffectStrength.MEDIUM None
      (sample_vibrator false false) = Done (s, t) v'
    /\ t = 18.
Proof.
  destruct (perform hw_ok 0 Effect.TICK EffectStrength.MEDIUM None
              (sample_vibrator false false)) as [[s t] v' | |] eqn:Hrun;
    [| vm_compute in Hrun; discriminate Hrun
     | vm_compute in Hrun; discriminate Hrun].
  exists s, t, v'. split; [reflexivity |].
  refine (proj1 (perform_simple_effect hw_ok 0 Effect.TICK
                   EffectStrength.MEDIUM None (sample_vibrator false false)
                   s t v' _ _ Hrun)); cbn [In]; tauto.
Defined.


(** ** The stream of bits *)

Lemma groups_value_app (k : nat) : forall acc l p b1 b2 b3,
  length l = (4 * k)%nat ->
  groups_value acc (l ++ [p; b1; b2; b3])
  = groups_value acc l * 2 ^ 24 + (b1 * 2 ^ 16 + b2 * 2 ^ 8 + b3).
Proof.
  induction k as [| k IH]; intros acc l p b1 b2 b3 Hl.
  - destruct l; [reflexivity | discriminate Hl].
  - destruct l as [| x0 [| x1 [| x2 [| x3 l]]]];
      try (cbn [length] in Hl; lia).
    cbn [app groups_value]. apply IH. cbn [length] in Hl. lia.
Qed.

Lemma group_bytes_value (g : Z) :
  0 <= g < 2 ^ 24 ->
  g / 2 ^ 16 mod 256 * 2 ^ 16 + g / 2 ^ 8 mod 256 * 2 ^ 8 + g mod 256 = g.
Proof.
  change (2 ^ 24) with 16777216. change (2 ^ 16) with 65536.
  change (2 ^ 8) with 256. intros Hg.
  Z.div_mod_to_equations. lia.
Qed.

Lemma pending_bound (c : DspMemChunk.t) :
  0 <= DspMemChunk._cachebits c ->
  0 <= pending c < 2 ^ DspMemChunk._cachebits c.
Proof.
  intros H. unfold pending. apply Z.mod_pos_bound.
  apply Z.pow_pos_nonneg; lia.
Qed.

(** What one [write] does to the stream, the cursor and the array. *)
Lemma write_stream (nbits val : Z) (c : DspMemChunk.t) (k : nat) :
  0 <= DspMemChunk._cachebits c < 24 ->
  0 < nbits <= 24 ->
  0 <= val < 2 ^ nbits ->
  DspMemChunk._current c = (4 * k)%nat ->
  (DspMemChunk._current c + 4 <= length (DspMemChunk.head c))%nat ->
  DspMemChunk.isEnd c = false ->
  let c' := DspMemChunk.write_ nbits val c in
  bit_stream c' = bit_stream c * 2 ^ nbits + val
  /\ stream_length c' = stream_length c + nbits
  /\ 0 <= DspMemChunk._cachebits c' < 24
  /\ (exists k' : nat, DspMemChunk._current c' = (4 * k')%nat)
  /\ length (DspMemChunk.head c') = length (DspMemChunk.head c)
  /\ DspMemChunk.bytes c' - Z.of_nat (DspMemChunk._current c')
     = DspMemChunk.bytes c - Z.of_nat (DspMemChunk._current c).
Proof.
  intros Hk Hn Hv Hcur Hroom Hend. cbv zeta.
  unfold bit_stream, stream_length.
  pose proof (pending_bound c ltac:(lia)) as Hp.
  destruct (Z.lt_ge_cases (DspMemChunk._cachebits c + nbits) 24)
    as [Hlt | Hge].
  - destruct (ChunkBits.write_bits_partial nbits val c)
      as (_ & Hh & Hc & Hby & Hb & Hpd); try lia.
    unfold written. rewrite Hh, Hc, Hb, Hpd, Hby.
    rewrite Z.pow_add_r by lia.
    split; [ring |]. split; [lia |]. split; [lia |].
    split; [exists k; exact Hcur |]. split; reflexivity.
  - destruct (ChunkBits.write_bits_group nbits val c Hk Hn Hge Hv Hend)
      as (_ & Hh & Hc & Hby & Hb & Hpd).
    set (over := DspMemChunk._cachebits c + nbits - 24) in *.
    set (g := pending c * 2 ^ (24 - DspMemChunk._cachebits c)
              + val / 2 ^ over) in *.
    assert (Hover : 0 <= over < nbits) by (unfold over; lia).
    assert (Hsplit : val = 2 ^ over * (val / 2 ^ over) + val mod 2 ^ over)
      by (apply Z.div_mod; apply Z.pow_nonzero; lia).
    assert (Hhi : 0 <= val / 2 ^ over
                  < 2 ^ (24 - DspMemChunk._cachebits c)).
    { split; [apply Z.div_pos; [lia | apply Z.pow_pos_nonneg; lia] |].
      apply Z.div_lt_upper_bound; [apply Z.pow_pos_nonneg; lia |].
      rewrite <- Z.pow_add_r by lia.
      replace (over + (24 - DspMemChunk._cachebits c)) with nbits
        by (unfold over; lia).
      lia. }
    assert (Hg : 0 <= g < 2 ^ 24).
    { unfold g.
      replace (2 ^ 24)
        with (2 ^ DspMemChunk._cachebits c
              * 2 ^ (24 - DspMemChunk._cachebits c))
        by (rewrite <- Z.pow_add_r by lia; f_equal; lia).
      nia. }
    unfold written. rewrite Hh, Hc, Hb, Hpd, Hby.
    replace (4 + DspMemChunk._current c)%nat
      with (DspMemChunk._current c + length (group_bytes g))%nat
      by (cbn [length group_bytes]; lia).
    rewrite take_store by (cbn [length group_bytes]; lia).
    unfold group_bytes at 1.
    rewrite (groups_value_app k)
      by (rewrite length_take; lia).
    rewrite group_bytes_value by exact Hg.
    split;
      [| split; [cbn [length group_bytes]; unfold over; lia |];
         split; [lia |];
         split; [exists (S k); cbn [length group_bytes]; lia |];
         split; [apply length_store | cbn [length group_bytes]; lia]].
    unfold g.
    replace (2 ^ nbits)
      with (2 ^ (24 - DspMemChunk._cachebits c) * 2 ^ over)
      by (rewrite <- Z.pow_add_r by lia; f_equal; unfold over; lia).
    replace (2 ^ 24)
      with (2 ^ DspMemChunk._cachebits c
            * 2 ^ (24 - DspMemChunk._cachebits c))
      by (rewrite <- Z.pow_add_r by lia; f_equal; lia).
    set (q := val / 2 ^ over) in *. set (r := val mod 2 ^ over) in *.
    rewrite Hsplit. ring.
Qed.


(** X23.  A write of up to 24 bits, with room for a group of four
    bytes at the cursor, appends exactly these bits to the stream of
    the chunk, high bit first: the stream read as a number is shifted
    by the width and takes the value in, whether the bits stay in the
    accumulator or complete a group that goes to the buffer, and no bit
    written before changes. *)
Theorem write_appends_bits (nbits val : Z) (c : DspMemChunk.t) (k : nat) :
  0 <= DspMemChunk._cachebits c < 24 ->
  0 < nbits <= 24 ->
  0 <= val < 2 ^ nbits ->
  DspMemChunk._current c = (4 * k)%nat ->
  (DspMemChunk._current c + 4 <= length (DspMemChunk.head c))%nat ->
  DspMemChunk.isEnd c = false ->
  let c' := DspMemChunk.write_ nbits val c in
  bit_stream c' = bit_stream c * 2 ^ nbits + val
  /\ stream_length c' = stream_length c + nbits
  /\ 0 <= DspMemChunk._cachebits c' < 24.
Proof.
  intros Hk Hn Hv Hcur Hroom Hend. cbv zeta.
  destruct (write_stream nbits val c k Hk Hn Hv Hcur Hroom Hend)
    as (Hs & Hl & Hb & _).
  repeat split; solve [exact Hs | exact Hl | apply Hb].
Qed.

Lemma write_appends_bits_witness :
  bit_stream (DspMemChunk.write_ 12 0xABC
                (DspMemChunk.new WAVEFORM_COMPOSE 8))
  = bit_stream (DspMemChunk.new WAVEFORM_COMPOSE 8) * 2 ^ 12 + 0xABC.
Proof.
  set (c := DspMemChunk.new WAVEFORM_COMPOSE 8).
  assert (H1 : DspMemChunk._cachebits c = 0) by reflexivity.
  assert (H2 : DspMemChunk._current c = 4%nat) by reflexivity.
  assert (H3 : length (DspMemChunk.head c) = 8%nat) by reflexivity.
  assert (H4 : DspMemChunk.isEnd c = false) by reflexivity.
  refine (proj1 (write_appends_bits 12 0xABC c 1 _ _ _ _ _ H4));
    rewrite ?H1, ?H2, ?H3; lia.
Defined.

(** ** The double click *)

Lemma getCompoundDetails_double_click (v : Vibrator)
    (strength : EffectStrength.t) (outTimeMs : Z) (outCh : DspMemChunk.t) :
  In strength
    [EffectStrength.LIGHT; EffectStrength.MEDIUM; EffectStrength.STRONG] ->
  DspMemChunk.waveformType outCh = WAVEFORM_COMPOSE ->
  ChunkSpec.wf outCh ->
  match getCompoundDetails v Effect.DOUBLE_CLICK strength outTimeMs outCh with
  | Some (status, time, ch, v') =>
      status = EX_NONE /\ time = 137
      /\ DspMemChunk.waveformType ch = WAVEFORM_COMPOSE
      /\ log v' = log v /\ mActiveId v' = mActiveId v
  | None => True
  end.
Proof.
  intros Hs Ht Hwf. unfold getCompoundDetails. cbv zeta.
  pose proof (getSimpleDetails_index v Effect.CLICK strength) as H1.
  pose proof (getSimpleDetails_index v Effect.HEAVY_CLICK strength) as H2.
  assert (Hno : forall n, strength <> EffectStrength.other n).
  { intros n ->. cbn [In] in Hs. intuition discriminate. }
  destruct (getSimpleDetails v Effect.CLICK strength)
    as [[st1 | [[i1 t1] l1]] |]; [| | exact I].
  { destruct H1 as (_ & [[n Hn] | [Hn | [n Hn]]]);
      [destruct (Hno n Hn) | discriminate Hn | discriminate Hn]. }
  destruct (getSimpleDetails v Effect.HEAVY_CLICK strength)
    as [[st2 | [[i2 t2] l2]] |]; [| | exact I].
  { destruct H2 as (_ & [[n Hn] | [Hn | [n Hn]]]);
      [destruct (Hno n Hn) | discriminate Hn | discriminate Hn]. }
  destruct H1 as (_ & -> & -> & _). destruct H2 as (_ & -> & -> & _).
  set (c1 := snd (DspMemChunk.constructComposeSegment l1 _ 0 0 _ outCh)).
  set (c2 := snd (DspMemChunk.constructComposeSegment l2 _ 0 0 0 c1)).
  set (c3 := snd (DspMemChunk.flush c2)).
  pose proof (ChunkFacts.constructComposeSegment_keeps l1 WAVEFORM_CLICK_INDEX
                0 0 WAVEFORM_DOUBLE_CLICK_SILENCE_MS outCh) as K1.
  pose proof (ChunkFacts.constructComposeSegment_keeps l2 WAVEFORM_CLICK_INDEX
                0 0 0 c1) as K2.
  fold c1 in K1. fold c2 in K2.
  assert (W2 : ChunkSpec.wf c2)
    by (apply (ChunkSpec.keeps_wf _ _ K2), (ChunkSpec.keeps_wf _ _ K1), Hwf).
  pose proof (ChunkFacts.flush_keeps c2 W2) as K3. fold c3 in K3.
  assert (T3 : DspMemChunk.waveformType c3 = WAVEFORM_COMPOSE).
  { rewrite (ChunkSpec.keeps_type _ _ K3), (ChunkSpec.keeps_type _ _ K2),
      (ChunkSpec.keeps_type _ _ K1). exact Ht. }
  unfold DspMemChunk.updateNSection. cbv zeta. rewrite T3.
  change (WAVEFORM_COMPOSE =? WAVEFORM_COMPOSE) with true. cbv iota.
  change (2 >? COMPOSE_SIZE_MAX + 1) with false. cbv iota.
  change (0 <? 0) with false. cbv iota.
  split; [reflexivity |]. split; [vm_compute; reflexivity |].
  split; [exact T3 |].
  destruct (mIsDual _); split; reflexivity.
Qed.

Lemma on_blob_ignores_index (hw : Oracle) (timeoutMs i j : Z)
    (ch : DspMemChunk.t) (callback : option nat) (v : Vibrator) :
  i < FF_MAX_EFFECTS -> j < FF_MAX_EFFECTS ->
  on hw timeoutMs i (Some ch) callback v
  = on hw timeoutMs j (Some ch) callback v.
Proof.
  intros Hi Hj. unfold on. run.
  destruct (Z.geb_spec i FF_MAX_EFFECTS); [lia |].
  destruct (Z.geb_spec j FF_MAX_EFFECTS); [lia |].
  reflexivity.
Qed.

(** X20.  For [DOUBLE_CLICK], [perform] hands to [on] an effect index
    that it never sets.  Asked with one of the three strengths, the
    call does not depend on that value as long as it is below
    [FF_MAX_EFFECTS]; for any value from there on the effect is not
    played: the gain is written, the call is answered with
    [EX_ILLEGAL_ARGUMENT], still reporting the 137 ms of the two
    clicks, and nothing is uploaded or started. *)
Theorem perform_double_click (hw : Oracle) (strength : EffectStrength.t)
    (callback : option nat) (v : Vibrator) :
  In strength
    [EffectStrength.LIGHT; EffectStrength.MEDIUM; EffectStrength.STRONG] ->
  (forall i j, i < FF_MAX_EFFECTS -> j < FF_MAX_EFFECTS ->
     perform hw i Effect.DOUBLE_CLICK strength callback v
     = perform hw j Effect.DOUBLE_CLICK strength callback v)
  /\ (forall i, FF_MAX_EFFECTS <= i ->
        match perform hw i Effect.DOUBLE_CLICK strength callback v with
        | Done (s, t) v' =>
            let evs := new_events (log v) (log v') in
            s = EX_ILLEGAL_ARGUMENT /\ t = 137
            /\ mActiveId v' = mActiveId v
            /\ existsb is_upload evs = false
            /\ existsb is_async evs = false
            /\ In (setFFGain Base VOLTAGE_SCALE_MAX) evs
        | Return _ _ => False
        | Undefined => True
        end).
Proof.
  intros Hs. unfold perform, performEffect_effect. cbv zeta.
  set (new := DspMemChunk.new WAVEFORM_COMPOSE
                (Z.to_nat FF_CUSTOM_DATA_LEN_MAX_COMP)).
  pose proof (getCompoundDetails_double_click v strength 0 new Hs
                (ChunkFacts.new_type _ _) (ChunkFacts.new_wf _ _)) as Hd.
  destruct (getCompoundDetails v Effect.DOUBLE_CLICK strength 0 new)
    as [[[[st t] ch] v2] |]; [| split; intros; [reflexivity | exact I]].
  destruct Hd as (-> & -> & Hty & Hlog & Hid).
  change (EX_NONE =? EX_NONE) with true. cbv iota.
  split.
  - intros i j Hi Hj. unfold performEffect. run.
    destruct (setEffectAmplitude hw _ _ v2) as [s1 v1 | s1 v1 |];
      try reflexivity;
      rewrite (on_blob_ignores_index hw MAX_TIME_MS i j ch callback v1 Hi Hj);
      reflexivity.
  - intros i Hi. unfold performEffect, setEffectAmplitude.
    rewrite full_scale. unfold on. run.
    destruct (Z.geb_spec i FF_MAX_EFFECTS) as [_ | ?]; [| lia].
    repeat step.
    all: cbv zeta; rewrite <- Hlog, <- Hid.
    all: added_events new_events_app new_events_same v2.
    all: repeat split; try reflexivity; cbn [In]; auto.
Qed.

Lemma perform_double_click_witness :
  perform hw_ok 0 Effect.DOUBLE_CLICK EffectStrength.MEDIUM None
    (sample_vibrator false false)
  = perform hw_ok 5 Effect.DOUBLE_CLICK EffectStrength.MEDIUM None
      (sample_vibrator false false)
  /\ exists v',
       perform hw_ok FF_MAX_EFFECTS Effect.DOUBLE_CLICK EffectStrength.MEDIUM
         None (sample_vibrator false false)
       = Done (EX_ILLEGAL_ARGUMENT, 137) v'.
Proof.
  split.
  - refine (proj1 (perform_double_click hw_ok EffectStrength.MEDIUM None
                     (sample_vibrator false false) _) 0 5 _ _).
    + cbn [In]. tauto.
    + reflexivity.
    + reflexivity.
  - eexists. vm_compute. reflexivity.
Defined.

(** ** The supported primitives *)

Lemma primitive_bit (p : CompositePrimitive) (bits : Z) :
  (Z.land (u32 (Z.shiftl 1 (CompositePrimitive_underlying p))) bits =? 0)
  = (Z.land bits (Z.shiftl 1 (u32 (CompositePrimitive_underlying p))) =? 0).
Proof. rewrite Z.land_comm. destruct p; reflexivity. Qed.

Lemma all_primitives (p : CompositePrimitive) :
  In p defaultSupportedPrimitives.
Proof. destruct p; cbn; tauto. Qed.

(** X21.  The list that the constructor leaves for
    [getSupportedPrimitives] and the bits that [getPrimitiveDetails]
    tests agree, whatever the calibration says: a primitive other than
    [NOOP] is in the list exactly when [getPrimitiveDuration] answers
    with a duration, and is answered with [EX_UNSUPPORTED_OPERATION]
    otherwise.  [NOOP] has the duration 0 whether it is listed or not.
    A calibration without any bit means every primitive. *)
Theorem supported_primitives_agree (calibrated : Z) (v : Vibrator)
    (p : CompositePrimitive) :
  mSupportedPrimitivesBits v = fst (init_supported_primitives calibrated) ->
  let supported := snd (init_supported_primitives calibrated) in
  (p <> NOOP ->
   (In p supported ->
    exists i, getPrimitiveDetails v p = inr i
              /\ getPrimitiveDuration v p
                 = inr (mEffectDurations !!! Z.to_nat i))
   /\ (~ In p supported ->
       getPrimitiveDuration v p = inl EX_UNSUPPORTED_OPERATION))
  /\ getPrimitiveDuration v NOOP = inr 0
  /\ (u32 calibrated = 0 -> supported = defaultSupportedPrimitives).
Proof.
  intros Hbits. cbv zeta. split; [| split].
  - intros Hp.
    assert (Hin : In p (snd (init_supported_primitives calibrated))
                  <-> (Z.land (u32 (Z.shiftl 1 (CompositePrimitive_underlying p)))
                         (mSupportedPrimitivesBits v) =? 0) = false).
    { rewrite Hbits. unfold init_supported_primitives. cbv zeta.
      destruct (Z.gtb_spec (u32 calibrated) 0) as [Hpos | Hzero];
        cbn [fst snd].
      - rewrite filter_In, primitive_bit.
        destruct (Z.land _ _ =? 0); cbn [negb];
          intuition (try discriminate; auto using all_primitives).
      - assert (H0 : u32 calibrated = 0)
          by (unfold u32 in *;
              pose proof (Z.mod_pos_bound calibrated (2 ^ 32) eq_refl); lia).
        rewrite H0. split; [| intros _; apply all_primitives].
        intros _. destruct p; reflexivity. }
    assert (Hdur : getPrimitiveDuration v p
                   = match getPrimitiveDetails v p with
                     | inl status => inl status
                     | inr i => inr (mEffectDurations !!! Z.to_nat i)
                     end).
    { unfold getPrimitiveDuration.
      destruct p; try reflexivity. contradiction. }
    rewrite Hdur. unfold getPrimitiveDetails. cbv zeta.
    destruct (Z.land _ _ =? 0).
    + split; [intros H; apply Hin in H; discriminate H | reflexivity].
    + split; [| intros H; exfalso; apply H, Hin; reflexivity].
      intros _. destruct p; try contradiction; eexists; split; reflexivity.
  - reflexivity.
  - intros H0. unfold init_supported_primitives. cbv zeta. rewrite H0.
    reflexivity.
Qed.

Lemma supported_primitives_agree_witness :
  getPrimitiveDuration (sample_vibrator false false) CLICK = inr 12.
Proof.
  destruct (supported_primitives_agree 0 (sample_vibrator false false) CLICK
              eq_refl) as (H & _).
  destruct (proj1 (H ltac:(discriminate)) ltac:(vm_compute; tauto))
    as (i & Hi & Hd).
  rewrite Hd. vm_compute in Hi. injection Hi as <-. reflexivity.
Defined.

(** ** The getters behind a capability *)

(** X22.  The getters of the frequency resolution, the minimum
    frequency, the longest PWLE primitive and the largest PWLE
    composition answer alike: asked in the same state, all four give
    their constant, or all four answer [EX_UNSUPPORTED_OPERATION]; they
    give it exactly when the hardware has room for waveforms and chirp
    is enabled, and do no more than [getCapabilities] does. *)
Theorem capability_getters_agree (hw : Oracle) (v : Vibrator) :
  let able := has_owt hw v && mIsChirpEnabled v in
  let answer {A} (x : A) : Z + A :=
    if able then inr x else inl EX_UNSUPPORTED_OPERATION in
  let v' := capabilities_state hw v in
  getFrequencyResolution hw v = Done (answer PWLE_FREQUENCY_RESOLUTION_HZ) v'
  /\ getFrequencyMinimum hw v = Done (answer PWLE_FREQUENCY_MIN_HZ) v'
  /\ getPwlePrimitiveDurationMax hw v
     = Done (answer COMPOSE_PWLE_PRIMITIVE_DURATION_MAX_MS) v'
  /\ getPwleCompositionSizeMax hw v
     = Done (answer COMPOSE_PWLE_SIZE_MAX_DEFAULT) v'
  /\ forallb is_probe (new_events (log v) (log v')) = true.
Proof.
  cbv zeta.
  unfold getFrequencyResolution, getFrequencyMinimum,
    getPwlePrimitiveDurationMax, getPwleCompositionSizeMax.
  run. rewrite getCapabilities_run.
  destruct (capabilities_state_frame hw v) as (_ & _ & evs & Hlog & Hp).
  rewrite Hlog, new_events_app.
  destruct (mHasHapticAlsaDevice (alsa_state hw v)), (has_owt hw v),
    (mIsChirpEnabled v); repeat split; try reflexivity; exact Hp.
Qed.

(** ** The size of a PWLE blob *)

Lemma pwle_sections_length (composite : list PrimitivePwle) :
  forall prev,
    (length composite <= length (pwle_sections prev composite)
     <= 2 * length composite)%nat.
Proof.
  induction composite as [| [a | b] rest IH]; intros prev;
    cbn [pwle_sections length]; [lia | |].
  - rewrite length_app. cbn [length].
    specialize (IH (device_level (endAmplitude a), endFrequency a)).
    destruct (same_point _ _); cbn [length]; lia.
  - specialize (IH reset_point). lia.
Qed.

Lemma composePwle_loop_count clab (composite : list PrimitivePwle) :
  forall st st',
    composePwle_loop clab composite st = Some (inr st') ->
    segmentIdx st <= COMPOSE_PWLE_SIZE_MAX_DEFAULT ->
    segmentIdx st' <= COMPOSE_PWLE_SIZE_MAX_DEFAULT.
Proof.
  induction composite as [| e rest IH]; intros st st';
    cbn [composePwle_loop].
  - intros [= <-] H. exact H.
  - destruct (composePwle_case clab e st) as [[r | st1] |]; try discriminate.
    destruct (Z.gtb_spec (segmentIdx st1) COMPOSE_PWLE_SIZE_MAX_DEFAULT);
      [discriminate |].
    intros Hl _. exact (IH _ _ Hl ltac:(assumption)).
Qed.

(** X24.  An accepted PWLE has between one and two sections for each
    of its elements, 127 at most, and its blob is eight bytes for each
    section after a header of eight and before a last group of four
    that takes the four bits left over: 12 + 8 n bytes for n sections,
    so 1028 at most of the 2302 that are reserved. *)
Theorem composePwle_blob_size (clab : bool)
    (composite : list PrimitivePwle) (ch : DspMemChunk.t) :
  composePwle_encode clab composite = Enc_ok ch ->
  let n := Z.of_nat (length (pwle_sections reset_point composite)) in
  DspMemChunk.size ch = 12 + 8 * n
  /\ Z.of_nat (length composite) <= n <= 2 * Z.of_nat (length composite)
  /\ 1 <= n <= COMPOSE_PWLE_SIZE_MAX_DEFAULT.
Proof.
  intros H. cbv zeta.
  pose proof (composePwle_encode_ops clab composite) as Hops.
  rewrite H in Hops. cbn [exit_chunk] in Hops.
  destruct Hops as (k & flushed & Hk & Hops).
  destruct (pwle_ops_inv _ _ _ Hops Hk) as (Hwf & _).
  unfold DspMemChunk.size. rewrite (ChunkSpec.wf_bytes _ Hwf).
  revert H. unfold composePwle_encode.
  destruct (length composite =? 0)%nat eqn:Hlen; [discriminate |].
  apply Nat.eqb_neq in Hlen. cbn [orb].
  destruct (_ >? _); [discriminate |].
  cbn [resetPreviousEndAmplitudeEndFrequency]. cbv zeta.
  set (new := DspMemChunk.new WAVEFORM_PWLE
                (Z.to_nat FF_CUSTOM_DATA_LEN_MAX_PWLE)).
  destruct (composePwle_loop clab composite _) as [[[s c] | st] |] eqn:Hloop;
    try discriminate.
  pose proof (composePwle_loop_count _ _ _ _ Hloop) as Hmax.
  cbn [segmentIdx] in Hmax. specialize (Hmax ltac:(discriminate)).
  apply composePwle_loop_sections_from in Hloop as (Hw & Hidx & _).
  fold reset_point in Hw, Hidx.
  pose proof (pwle_sections_length composite reset_point) as Hlen2.
  set (secs := pwle_sections reset_point composite) in *.
  unfold COMPOSE_PWLE_SIZE_MAX_DEFAULT in *.
  destruct new_pwle_start as [Hb0 Hc0]. fold new in Hb0, Hc0.
  pose proof (ChunkFacts.new_max WAVEFORM_PWLE
                (Z.to_nat FF_CUSTOM_DATA_LEN_MAX_PWLE)) as Hm0.
  fold new in Hm0.
  destruct (write_sections_exact secs new (pl_ch st) Hw Hb0)
    as (Hb1 & Hc1 & Hm1).
  { rewrite Hc0, Hm0. unfold FF_CUSTOM_DATA_LEN_MAX_PWLE. lia. }
  assert (Hflush :
    DspMemChunk._current (snd (DspMemChunk.flush (pl_ch st)))
    = (4 + DspMemChunk._current (pl_ch st))%nat).
  { unfold DspMemChunk.flush. rewrite Hb1.
    change (4 =? 0) with false. cbv iota.
    assert (Hend : DspMemChunk.isEnd (pl_ch st) = false).
    { apply isEnd_room. rewrite Hm1, Hc1, Hc0, Hm0.
      unfold FF_CUSTOM_DATA_LEN_MAX_PWLE. lia. }
    destruct (ChunkBits.write_bits_group (24 - 4) 0 (pl_ch st))
      as (_ & _ & Hc & _);
      [rewrite Hb1; lia | lia | rewrite Hb1; lia
       | split; [lia | reflexivity] | exact Hend | exact Hc]. }
  destruct (_ >? 524287); [discriminate |].
  match goal with
  | |- context [DspMemChunk.updateWLength ?d ?c] =>
      pose proof (updateWLength_current d c) as Hcw;
      destruct (DspMemChunk.updateWLength d c) as [r1 c1]
  end. cbn [snd] in Hcw.
  destruct (r1 <? 0); [discriminate |].
  match goal with
  | |- context [DspMemChunk.updateNSection ?d ?c] =>
      pose proof (updateNSection_current d c) as Hcn;
      destruct (DspMemChunk.updateNSection d c) as [r2 c2]
  end. cbn [snd] in Hcn.
  destruct (r2 <? 0); [discriminate |].
  intros [= <-]. rewrite Hcn, Hcw, Hflush, Hc1, Hc0.
  split; [lia |]. split; lia.
Qed.

Lemma composePwle_blob_size_witness :
  exists ch,
    composePwle_encode false [ramp_up; hold; brake] = Enc_ok ch
    /\ DspMemChunk.size ch = 52.
Proof.
  destruct (composePwle_encode false [ramp_up; hold; brake])
    as [ch | |] eqn:H;
    [| vm_compute in H; discriminate H | vm_compute in H; discriminate H].
  exists ch. split; [reflexivity |].
  rewrite (proj1 (composePwle_blob_size false _ ch H)).
  vm_compute. reflexivity.
Defined.

(** * The fields of a PWLE section fit their bits

    ** An upper bound on a rounded product *)

Lemma valid_finite (s : bool) (m : positive) (e : Z) :
  binary32 (S754_finite s m e) -> Z.pos m < 2 ^ 24 /\ -149 <= e.
Proof.
  unfold binary32, valid_binary, bounded, canonical_mantissa, fexp, emin,
    F32.prec, F32.emax.
  intros H. apply andb_prop in H as [H _]. apply Z.eqb_eq in H.
  pose proof (digits2_pos_bound m) as Hd.
  split; [| lia].
  eapply Z.lt_le_trans; [exact Hd |]. apply Z.pow_le_mono_r; lia.
Qed.

Lemma Zdigits2_upper (M k : Z) : 0 < M -> M < 2 ^ k -> Zdigits2 M <= k.
Proof.
  intros HM Hk.
  assert (Hk0 : 0 <= k).
  { destruct (Z.lt_ge_cases k 0) as [Hn | Hn]; [| exact Hn].
    rewrite Z.pow_neg_r in Hk by exact Hn. lia. }
  pose proof (Zdigits2_lower M HM) as Hlo.
  destruct (Z.le_gt_cases (Zdigits2 M) k) as [Hle | Hgt]; [exact Hle |].
  assert (2 ^ k <= 2 ^ (Zdigits2 M - 1)) by (apply Z.pow_le_mono_r; lia).
  lia.
Qed.

Lemma shr_fexp_value (M E : Z) (l : location) :
  0 <= M ->
  let r := shr_fexp F32.prec F32.emax M E l in
  let sh := Z.max 0 (fexp F32.prec F32.emax (Zdigits2 M + E) - E) in
  snd r = E + sh /\ shr_m (fst r) = M / 2 ^ sh.
Proof.
  intros HM. cbv zeta. unfold shr_fexp, shr.
  destruct (fexp F32.prec F32.emax (Zdigits2 M + E) - E) as [| p | p];
    cbn [fst snd].
  - rewrite shr_m_of_loc. change (Z.max 0 0) with 0.
    rewrite Z.add_0_r, Z.div_1_r. split; reflexivity.
  - rewrite Z.max_r by lia. split; [reflexivity |].
    pose proof (iter_pos_shr_1_abs p (shr_record_of_loc M l)) as Habs.
    pose proof (iter_pos_shr_1_nonneg p (shr_record_of_loc M l)) as Hnn.
    rewrite shr_m_of_loc in Habs, Hnn.
    rewrite Z.abs_eq in Habs by (apply Hnn; exact HM).
    rewrite Habs, Z.abs_eq by exact HM. reflexivity.
  - rewrite shr_m_of_loc, Z.max_l by lia.
    rewrite Z.add_0_r, Z.div_1_r. split; reflexivity.
Qed.

Lemma round_nearest_even_le (m : Z) (l : location) :
  round_nearest_even m l <= m + 1.
Proof.
  destruct l as [| []]; cbn [round_nearest_even]; try lia.
  destruct (Z.even m); lia.
Qed.

(** The mantissa of a rounded number, at the exponent it was given with,
    is above the one given by one unit of the first shift at most. *)
Lemma binary_round_aux_upper (sx : bool) (M E : Z) s (mr : positive) er :
  0 < M ->
  binary_round_aux F32.prec F32.emax sx M E loc_Exact = S754_finite s mr er ->
  let sh := Z.max 0 (fexp F32.prec F32.emax (Zdigits2 M + E) - E) in
  E <= er /\ Z.pos mr * 2 ^ (er - E) <= M + 2 ^ sh.
Proof.
  intros HM. cbv zeta. unfold binary_round_aux.
  destruct (shr_fexp_value M E loc_Exact ltac:(lia)) as [He1 Hm1].
  destruct (shr_fexp F32.prec F32.emax M E loc_Exact) as [mrs1 e1].
  cbn [fst snd] in He1, Hm1.
  set (sh := Z.max 0 (fexp F32.prec F32.emax (Zdigits2 M + E) - E)) in *.
  assert (Hsh : 0 <= sh) by (unfold sh; lia).
  assert (Hp : 0 < 2 ^ sh) by (apply Z.pow_pos_nonneg; lia).
  set (m2 := round_nearest_even (shr_m mrs1) (loc_of_shr_record mrs1)).
  assert (Hm2 : 0 <= m2 <= M / 2 ^ sh + 1).
  { unfold m2. rewrite <- Hm1. split.
    - apply round_nearest_even_nonneg. rewrite Hm1.
      apply Z.div_pos; lia.
    - apply round_nearest_even_le. }
  destruct (shr_fexp_value m2 e1 loc_Exact ltac:(lia)) as [He2 Hm3].
  destruct (shr_fexp F32.prec F32.emax m2 e1 loc_Exact) as [mrs2 e2].
  cbn [fst snd] in He2, Hm3.
  set (sh2 := Z.max 0 (fexp F32.prec F32.emax (Zdigits2 m2 + e1) - e1)) in *.
  assert (Hsh2 : 0 <= sh2) by (unfold sh2; lia).
  assert (Hp2 : 0 < 2 ^ sh2) by (apply Z.pow_pos_nonneg; lia).
  destruct (shr_m mrs2) as [| p | p] eqn:Hr; try discriminate.
  destruct (e2 <=? F32.emax - F32.prec); [| discriminate].
  intros [= _ <- <-]. split; [lia |].
  replace (e2 - E) with (sh2 + sh) by lia.
  rewrite Z.pow_add_r by lia.
  pose proof (Z.mul_div_le m2 (2 ^ sh2) Hp2) as H1.
  pose proof (Z.mul_div_le M (2 ^ sh) Hp) as H2.
  rewrite <- Hm3 in H1.
  nia.
Qed.

(** The integer nearest to a rounded number. *)
Lemma round_upper (sx : bool) (M E N n : Z) :
  0 < M -> E < 0 ->
  Z.max 0 (fexp F32.prec F32.emax (Zdigits2 M + E) - E) <= 23 ->
  2 * (M + 2 ^ 23) < (2 * N + 1) * 2 ^ (- E) ->
  F32.round (binary_round_aux F32.prec F32.emax sx M E loc_Exact) = Some n ->
  n <= N.
Proof.
  intros HM HE Hsh Hbound.
  assert (HP : 0 < 2 ^ (- E)) by (apply Z.pow_pos_nonneg; lia).
  assert (HN : 0 <= N) by nia.
  destruct (binary_round_aux F32.prec F32.emax sx M E loc_Exact)
    as [s | s | | s mr er] eqn:Hr; cbn [F32.round]; try discriminate.
  - intros [= <-]. exact HN.
  - destruct (binary_round_aux_upper sx M E s mr er HM Hr) as [Her Hup].
    set (sh := Z.max 0 (fexp F32.prec F32.emax (Zdigits2 M + E) - E)) in *.
    assert (H23 : 2 ^ sh <= 2 ^ 23) by (apply Z.pow_le_mono_r; lia).
    assert (HQ : 0 < 2 ^ (er - E)) by (apply Z.pow_pos_nonneg; lia).
    assert (Hneg : forall k, 0 <= k -> - k <= N) by (intros; lia).
    destruct (Z.leb_spec 0 er) as [Hpos | Hlt].
    + assert (Hk : 0 <= Z.pos mr * 2 ^ er)
        by (apply Z.mul_nonneg_nonneg; [lia | apply Z.pow_nonneg; lia]).
      intros [= <-]. destruct s; [apply Hneg; exact Hk |].
      replace (er - E) with (er + - E) in * by lia.
      rewrite Z.pow_add_r in Hup by lia.
      assert (0 < 2 ^ er) by (apply Z.pow_pos_nonneg; lia).
      nia.
    + assert (Hh : 0 < 2 ^ (- er - 1)) by (apply Z.pow_pos_nonneg; lia).
      assert (H2h : 2 ^ (- er) = 2 * 2 ^ (- er - 1)).
      { rewrite <- Z.pow_succ_r by lia. f_equal. lia. }
      assert (HPQ : 2 ^ (- E) = 2 ^ (- er) * 2 ^ (er - E)).
      { rewrite <- Z.pow_add_r by lia. f_equal. lia. }
      assert (Hk : 0 <= (Z.pos mr + 2 ^ (- er - 1)) / 2 ^ (- er))
        by (apply Z.div_pos; lia).
      intros [= <-]. destruct s; [apply Hneg; exact Hk |].
      apply Z.lt_succ_r, Z.div_lt_upper_bound; [lia |].
      nia.
Qed.

(** ** The product by a power of two of a number that is not above a
    bound *)
Lemma scaled_upper (m mh : positive) (e eh ey N n : Z) :
  Z.pos m < 2 ^ 24 -> -149 <= e ->
  F32.gtb (S754_finite false m e) (S754_finite false mh eh) = false ->
  -23 <= ey -> eh + ey < 0 ->
  2 * (Z.pos mh * 2 ^ 23 + 2 ^ 23) < (2 * N + 1) * 2 ^ (- (eh + ey)) ->
  2 * (2 ^ 47 + 2 ^ 23) < (2 * N + 1) * 2 ^ (- (eh + ey) + 1) ->
  F32.round (F32.mul (S754_finite false m e) (S754_finite false 8388608 ey))
  = Some n ->
  n <= N.
Proof.
  intros Hm He Hgt Hey Heh Heq Hlt.
  unfold F32.mul, SFmul. cbn [xorb].
  assert (HM : 0 < Z.pos (m * 8388608)) by lia.
  assert (HM47 : Z.pos (m * 8388608) < 2 ^ 47).
  { rewrite Pos2Z.inj_mul. change (2 ^ 47) with (2 ^ 24 * 8388608). lia. }
  pose proof (Zdigits2_upper _ 47 HM HM47) as Hd.
  apply round_upper.
  - exact HM.
  - unfold F32.gtb, SFltb, SFcompare in Hgt.
    destruct (Z.compare_spec eh e); try discriminate; lia.
  - unfold fexp, emin, F32.prec, F32.emax. lia.
  - unfold F32.gtb, SFltb, SFcompare in Hgt.
    destruct (Z.compare_spec eh e) as [Heq' | Hlt' | Hgt']; try discriminate.
    + subst e.
      assert (Hle : Z.pos m <= Z.pos mh).
      { destruct (Pos.compare_cont Eq mh m) eqn:Hc; try discriminate.
        - apply Pos.compare_eq in Hc. subst m. lia.
        - change (Pos.compare_cont Eq mh m) with (mh ?= m)%positive in Hc.
          apply Pos.compare_gt_iff in Hc. lia. }
      rewrite Pos2Z.inj_mul. change (Z.pos 8388608) with (2 ^ 23). nia.
    + assert (Hp : 2 ^ (- (eh + ey) + 1) <= 2 ^ (- (e + ey)))
        by (apply Z.pow_le_mono_r; lia).
      assert (0 < 2 * N + 1).
      { assert (0 < 2 ^ (- (eh + ey) + 1))
          by (apply Z.pow_pos_nonneg; lia).
        change (2 ^ 47) with 140737488355328 in Hlt.
        change (2 ^ 23) with 8388608 in Hlt. nia. }
      nia.
Qed.

Lemma round_negative (m : positive) (e n : Z) :
  F32.round (S754_finite true m e) = Some n -> n <= 0.
Proof.
  cbn [F32.round]. intros [= <-].
  destruct (Z.leb_spec 0 e).
  - assert (0 <= Z.pos m * 2 ^ e)
      by (apply Z.mul_nonneg_nonneg; [lia | apply Z.pow_nonneg; lia]).
    lia.
  - assert (0 <= (Z.pos m + 2 ^ (- e - 1)) / 2 ^ (- e)); [| lia].
    apply Z.div_pos; [| apply Z.pow_pos_nonneg; lia].
    assert (0 <= 2 ^ (- e - 1)) by (apply Z.pow_nonneg; lia). lia.
Qed.

(** What [fToU16] accepts with the scale [2 ^ k] and leaves in a
    [uint16_t] is not above the bound when the input is not. *)
Lemma converted_upper (x lo : F32.float) (mh : positive) (eh ey N v : Z) :
  binary32 x ->
  -23 <= ey -> eh + ey < 0 ->
  2 * (Z.pos mh * 2 ^ 23 + 2 ^ 23) < (2 * N + 1) * 2 ^ (- (eh + ey)) ->
  2 * (2 ^ 47 + 2 ^ 23) < (2 * N + 1) * 2 ^ (- (eh + ey) + 1) ->
  converted x (S754_finite false 8388608 ey) lo (S754_finite false mh eh)
  = Some v ->
  0 <= v <= N.
Proof.
  intros Hx Hey Heh Heq Hlt. unfold converted, DspMemChunk.fToU16.
  destruct (F32.ltb x lo); cbn [orb]; [discriminate |].
  destruct (F32.gtb x (S754_finite false mh eh)) eqn:Hgt; [discriminate |].
  destruct (F32.to_unsigned 16 _) as [v' |] eqn:Hv; [| discriminate].
  intros [= <-]. apply to_unsigned_Some in Hv as [Hr Hv].
  split; [lia |].
  assert (HN : 0 <= N).
  { assert (0 < 2 ^ (- (eh + ey))) by (apply Z.pow_pos_nonneg; lia).
    change (2 ^ 23) with 8388608 in Heq. nia. }
  destruct x as [s | s | | s m e].
  - cbn in Hr. injection Hr as <-. exact HN.
  - destruct s; discriminate Hr.
  - discriminate Hr.
  - destruct (valid_finite _ _ _ Hx) as [Hm He].
    destruct s.
    + unfold F32.mul, SFmul in Hr. cbn [xorb] in Hr.
      pose proof (binary_round_aux_sign F32.prec F32.emax true
                    (Z.pos (m * 8388608)) (e + ey) loc_Exact ltac:(lia))
        as Hs.
      destruct (binary_round_aux _ _ _ _ _ _) as [s | s | | s mr er];
        try discriminate Hr.
      * injection Hr as <-. exact HN.
      * subst s. apply round_negative in Hr. lia.
    + eapply scaled_upper; eauto.
Qed.

Lemma amplitude_fits (x : F32.float) (v : Z) :
  binary32 x ->
  converted x (F32.of_Z 2048) CS40L26_PWLE_LEVEL_MIN CS40L26_PWLE_LEVEL_MAX
  = Some v ->
  0 <= v < 2 ^ 12.
Proof.
  intros Hx Hv.
  change (F32.of_Z 2048) with (S754_finite false 8388608 (-12)) in Hv.
  change CS40L26_PWLE_LEVEL_MAX with (S754_finite false 16769025 (-24)) in Hv.
  assert (0 <= v <= 2047); [| change (2 ^ 12) with 4096; lia].
  eapply converted_upper; [exact Hx | | | | | exact Hv];
    [lia | lia | reflexivity | reflexivity].
Qed.

Lemma frequency_fits (x : F32.float) (v : Z) :
  binary32 x ->
  converted x (F32.of_Z 4) PWLE_FREQUENCY_MIN_HZ PWLE_FREQUENCY_MAX_HZ
  = Some v ->
  0 <= v < 2 ^ 12.
Proof.
  intros Hx Hv.
  change (F32.of_Z 4) with (S754_finite false 8388608 (-21)) in Hv.
  change PWLE_FREQUENCY_MAX_HZ with (S754_finite false 16384000 (-14)) in Hv.
  assert (0 <= v <= 4000); [| change (2 ^ 12) with 4096; lia].
  eapply converted_upper; [exact Hx | | | | | exact Hv];
    [lia | lia | reflexivity | reflexivity].
Qed.

Lemma delay_fits (x lo hi scale : F32.float) (v : Z) :
  converted x scale lo hi = Some v -> 0 <= v < 2 ^ 16.
Proof.
  unfold converted, DspMemChunk.fToU16.
  destruct (_ || _); [discriminate |].
  destruct (F32.to_unsigned 16 _) as [v' |] eqn:Hv; [| discriminate].
  intros [= <-]. apply to_unsigned_Some in Hv as [_ Hv]. exact Hv.
Qed.
(** ** The sections of a PWLE as bits of the blob *)

Lemma write_streaming (nbits val : Z) (c : DspMemChunk.t) (len value : Z) :
  streaming c len value ->
  0 < nbits <= 24 ->
  0 <= val < 2 ^ nbits ->
  len + 24 <= 6 * Z.of_nat (DspMemChunk._max c) ->
  streaming (DspMemChunk.write_ nbits val c) (len + nbits)
    (value * 2 ^ nbits + val)
  /\ DspMemChunk._max (DspMemChunk.write_ nbits val c) = DspMemChunk._max c
  /\ DspMemChunk.waveformType (DspMemChunk.write_ nbits val c)
     = DspMemChunk.waveformType c.
Proof.
  intros (Hs & Hl & Hb & [k Hk] & Hh & Hby) Hn Hv Hroom.
  unfold stream_length in Hl.
  destruct (write_max nbits val c) as [Hm Ht].
  destruct (write_stream nbits val c k Hb Hn Hv Hk)
    as (Hs' & Hl' & Hb' & Hk' & Hh' & Hby').
  - lia.
  - apply isEnd_room. lia.
  - cbv zeta in *. split; [| split; assumption].
    unfold streaming. rewrite Hs', Hl', Hh', Hm.
    unfold stream_length. repeat split; try lia; try assumption.
Qed.

Lemma constructPwleSegment_streaming (delay amplitude frequency flags : Z)
    (c : DspMemChunk.t) (len value : Z) :
  streaming c len value ->
  0 <= delay < 2 ^ 16 -> 0 <= amplitude < 2 ^ 12 ->
  0 <= frequency < 2 ^ 12 ->
  flags = 0 \/ flags = PWLE_CHIRP_BIT \/ flags = PWLE_BRAKE_BIT ->
  len + 72 <= 6 * Z.of_nat (DspMemChunk._max c) ->
  let c' := DspMemChunk.constructPwleSegment delay amplitude frequency
              flags 0 c in
  streaming c' (len + 48)
    (value * 2 ^ 48 + section_word (delay, amplitude, frequency, flags))
  /\ 0 <= section_word (delay, amplitude, frequency, flags) < 2 ^ 48
  /\ DspMemChunk._max c' = DspMemChunk._max c
  /\ DspMemChunk.waveformType c' = DspMemChunk.waveformType c.
Proof.
  intros Hs Hd Ha Hf Hfl Hroom. cbv zeta.
  unfold DspMemChunk.constructPwleSegment.
  assert (Hu16 : forall x w, 0 <= x < 2 ^ w -> w <= 16 -> 0 <= w ->
                             u16 x = x).
  { intros x w Hx Hw Hw0. unfold u16. apply Z.mod_small.
    split; [lia |]. apply Z.lt_le_trans with (2 ^ w); [lia |].
    apply Z.pow_le_mono_r; lia. }
  rewrite (Hu16 delay 16 Hd), (Hu16 amplitude 12 Ha),
    (Hu16 frequency 12 Hf) by lia.
  assert (Hfb : u8 flags = flags
                /\ Z.land flags PWLE_AMP_REG_BIT = 0
                /\ 0 <= Z.shiftl (Z.lor flags 1) 4 < 2 ^ 8).
  { destruct Hfl as [-> | [-> | ->]]; vm_compute; repeat split;
      discriminate. }
  destruct Hfb as (Hu8 & Hreg & Hbyte). rewrite Hu8, Hreg.
  change (negb (0 =? 0)) with false. cbv iota.
  destruct (write_streaming 16 delay c len value Hs) as (H1 & M1 & T1);
    [lia | exact Hd | lia |].
  destruct (write_streaming 12 amplitude _ _ _ H1) as (H2 & M2 & T2);
    [lia | exact Ha | lia |].
  destruct (write_streaming 12 frequency _ _ _ H2) as (H3 & M3 & T3);
    [lia | exact Hf | lia |].
  destruct (write_streaming 8 (Z.shiftl (Z.lor flags 1) 4) _ _ _ H3)
    as (H4 & M4 & T4); [lia | exact Hbyte | lia |].
  split; [| split; [| split; congruence]].
  - replace (len + 48) with (len + 16 + 12 + 12 + 8) by lia.
    replace (value * 2 ^ 48
             + section_word (delay, amplitude, frequency, flags))
      with ((((value * 2 ^ 16 + delay) * 2 ^ 12 + amplitude) * 2 ^ 12
             + frequency) * 2 ^ 8 + Z.shiftl (Z.lor flags 1) 4);
      [exact H4 |].
    unfold section_word. change (2 ^ 48) with (2 ^ 16 * 2 ^ 12 * 2 ^ 12 * 2 ^ 8).
    ring.
  - unfold section_word.
    change (2 ^ 48) with 281474976710656. change (2 ^ 16) with 65536 in *.
    change (2 ^ 12) with 4096 in *. change (2 ^ 8) with 256 in *.
    nia.
Qed.

Lemma converted_inr (x scale lo hi : F32.float) (v : Z) :
  DspMemChunk.fToU16 x scale lo hi = Some (inr v) ->
  converted x scale lo hi = Some v.
Proof. intros H. unfold converted. rewrite H. reflexivity. Qed.

Lemma constructActiveSegment_streaming (duration : Z)
    (amplitude frequency : F32.float) (chirp : bool)
    (c c' : DspMemChunk.t) (r len value : Z) :
  binary32 amplitude -> binary32 frequency ->
  DspMemChunk.constructActiveSegment duration amplitude frequency chirp c
  = Some (r, c') ->
  (r <? 0) = false ->
  streaming c len value ->
  len + 72 <= 6 * Z.of_nat (DspMemChunk._max c) ->
  exists w,
    (match active_fields duration amplitude frequency chirp with
     | Some fields => Some (section_word fields)
     | None => None
     end) = Some w
    /\ 0 <= w < 2 ^ 48
    /\ streaming c' (len + 48) (value * 2 ^ 48 + w)
    /\ DspMemChunk._max c' = DspMemChunk._max c
    /\ DspMemChunk.waveformType c' = DspMemChunk.waveformType c.
Proof.
  intros Ba Bf Hc Hr Hs Hroom.
  unfold DspMemChunk.constructActiveSegment in Hc.
  destruct (negb (DspMemChunk.waveformType c =? WAVEFORM_PWLE));
    [injection Hc as <- <-; discriminate Hr |].
  destruct (DspMemChunk.fToU16 (F32.of_Z duration) _ _ _)
    as [[e1 | delay] |] eqn:H1;
    [injection Hc as <- <-; discriminate Hr | | discriminate Hc].
  destruct (DspMemChunk.fToU16 amplitude _ _ _)
    as [[e2 | amp] |] eqn:H2;
    [injection Hc as <- <-; discriminate Hr | | discriminate Hc].
  destruct (DspMemChunk.fToU16 frequency _ _ _)
    as [[e3 | freq] |] eqn:H3;
    [injection Hc as <- <-; discriminate Hr | | discriminate Hc].
  apply converted_inr in H1, H2, H3.
  unfold active_fields. rewrite H1, H2, H3.
  cbv zeta in Hc. injection Hc as <- <-.
  pose proof (delay_fits _ _ _ _ _ H1) as Hd.
  pose proof (amplitude_fits _ _ Ba H2) as Ha.
  pose proof (frequency_fits _ _ Bf H3) as Hf.
  replace (if chirp then Z.lor 0 PWLE_CHIRP_BIT else 0)
    with (if chirp then PWLE_CHIRP_BIT else 0) by (destruct chirp; reflexivity).
  eexists. split; [reflexivity |].
  destruct (constructPwleSegment_streaming delay amp freq
              (if chirp then PWLE_CHIRP_BIT else 0) c len value Hs Hd Ha Hf)
    as (Hs' & Hw & Hm & Ht);
    [destruct chirp; auto | exact Hroom |].
  cbv zeta in *. auto.
Qed.

Lemma constructBrakingSegment_streaming (duration : Z) (kind : Braking)
    (c c' : DspMemChunk.t) (r len value : Z) :
  DspMemChunk.constructBrakingSegment duration kind c = Some (r, c') ->
  (r <? 0) = false ->
  streaming c len value ->
  len + 72 <= 6 * Z.of_nat (DspMemChunk._max c) ->
  exists w,
    (match braking_fields duration kind with
     | Some fields => Some (section_word fields)
     | None => None
     end) = Some w
    /\ 0 <= w < 2 ^ 48
    /\ streaming c' (len + 48) (value * 2 ^ 48 + w)
    /\ DspMemChunk._max c' = DspMemChunk._max c
    /\ DspMemChunk.waveformType c' = DspMemChunk.waveformType c.
Proof.
  intros Hc Hr Hs Hroom.
  unfold DspMemChunk.constructBrakingSegment in Hc.
  destruct (negb (DspMemChunk.waveformType c =? WAVEFORM_PWLE));
    [injection Hc as <- <-; discriminate Hr |].
  destruct (DspMemChunk.fToU16 (F32.of_Z duration) _ _ _)
    as [[e1 | delay] |] eqn:H1;
    [injection Hc as <- <-; discriminate Hr | | discriminate Hc].
  apply converted_inr in H1.
  unfold braking_fields. rewrite H1.
  change (DspMemChunk.fToU16 PWLE_FREQUENCY_MIN_HZ (F32.of_Z 4)
            PWLE_FREQUENCY_MIN_HZ PWLE_FREQUENCY_MAX_HZ)
    with (Some (@inr Z Z 4)) in Hc.
  change (converted PWLE_FREQUENCY_MIN_HZ (F32.of_Z 4)
            PWLE_FREQUENCY_MIN_HZ PWLE_FREQUENCY_MAX_HZ)
    with (Some 4).
  cbv zeta in Hc. injection Hc as <- <-.
  pose proof (delay_fits _ _ _ _ _ H1) as Hd.
  replace (if negb (Braking_underlying kind =? 0)
           then Z.lor 0 PWLE_BRAKE_BIT else 0)
    with (if negb (Braking_underlying kind =? 0) then PWLE_BRAKE_BIT else 0)
    by (destruct (negb _); reflexivity).
  eexists. split; [reflexivity |].
  destruct (constructPwleSegment_streaming delay 0 4
              (if negb (Braking_underlying kind =? 0)
               then PWLE_BRAKE_BIT else 0) c len value Hs Hd)
    as (Hs' & Hw & Hm & Ht);
    [vm_compute; split; [discriminate | reflexivity]
    | vm_compute; split; [discriminate | reflexivity]
    | destruct (negb _); auto | exact Hroom |].
  cbv zeta in *. auto.
Qed.

Lemma write_section_streaming (s : PwleSection) (c c' : DspMemChunk.t)
    (r len value : Z) :
  binary32_section s ->
  write_section s c = Some (r, c') ->
  (r <? 0) = false ->
  streaming c len value ->
  len + 72 <= 6 * Z.of_nat (DspMemChunk._max c) ->
  exists w,
    section_bits s = Some w
    /\ 0 <= w < 2 ^ 48
    /\ streaming c' (len + 48) (value * 2 ^ 48 + w)
    /\ DspMemChunk._max c' = DspMemChunk._max c
    /\ DspMemChunk.waveformType c' = DspMemChunk.waveformType c.
Proof.
  unfold section_bits.
  destruct s as [a f | d a f chirp | k | d k]; cbn [binary32_section
    write_section section_fields]; intros B Hc Hr Hs Hroom.
  - destruct B. eapply constructActiveSegment_streaming; eassumption.
  - destruct B. eapply constructActiveSegment_streaming; eassumption.
  - eapply constructBrakingSegment_streaming; eassumption.
  - eapply constructBrakingSegment_streaming; eassumption.
Qed.

Lemma write_sections_streaming (l : list PwleSection) :
  forall (c c' : DspMemChunk.t) (len value : Z),
  Forall binary32_section l ->
  write_sections l c = Some c' ->
  streaming c len value ->
  len + 48 * Z.of_nat (length l) + 24 <= 6 * Z.of_nat (DspMemChunk._max c) ->
  exists words,
    Forall2 (fun s w => section_bits s = Some w) l words
    /\ Forall (fun w => 0 <= w < 2 ^ 48) words
    /\ streaming c' (len + 48 * Z.of_nat (length l))
         (fold_left (fun acc w => acc * 2 ^ 48 + w) words value)
    /\ DspMemChunk._max c' = DspMemChunk._max c
    /\ DspMemChunk.waveformType c' = DspMemChunk.waveformType c.
Proof.
  induction l as [| s l IH]; intros c c' len value HB Hw Hs Hroom.
  - injection Hw as <-. exists []. cbn [length fold_left].
    rewrite Z.mul_0_r, Z.add_0_r.
    split; [constructor |]. split; [constructor |].
    split; [exact Hs |]. split; reflexivity.
  - cbn [write_sections] in Hw.
    destruct (write_section s c) as [[r c1] |] eqn:H1; [| discriminate Hw].
    destruct (r <? 0) eqn:Hr; [discriminate Hw |].
    inversion HB as [| ? ? Bs Bl]; subst.
    cbn [length] in Hroom.
    destruct (write_section_streaming s c c1 r len value Bs H1 Hr Hs)
      as (w & Hbits & Hrange & Hs1 & Hm1 & Ht1); [lia |].
    destruct (IH c1 c' _ _ Bl Hw Hs1) as (ws & HF & HR & Hs' & Hm' & Ht');
      [rewrite Hm1; lia |].
    exists (w :: ws). cbn [fold_left length].
    split; [constructor; assumption |].
    split; [constructor; assumption |].
    split; [| split; congruence].
    replace (len + 48 * Z.of_nat (S (length l)))
      with (len + 48 + 48 * Z.of_nat (length l)) by lia.
    exact Hs'.
Qed.

Lemma words_value_bound (ws : list Z) :
  Forall (fun w => 0 <= w < 2 ^ 48) ws ->
  0 <= words_value ws < 2 ^ (48 * Z.of_nat (length ws)).
Proof.
  unfold words_value.
  assert (G : forall ws acc n,
             Forall (fun w => 0 <= w < 2 ^ 48) ws ->
             0 <= n -> 0 <= acc < 2 ^ n ->
             0 <= fold_left (fun acc w => acc * 2 ^ 48 + w) ws acc
             < 2 ^ (n + 48 * Z.of_nat (length ws))).
  { clear ws. induction ws as [| w ws IH]; intros acc n HF Hn Hacc.
    - cbn [fold_left length]. rewrite Z.mul_0_r, Z.add_0_r. exact Hacc.
    - inversion HF as [| ? ? Hw HFs]; subst. cbn [fold_left length].
      replace (n + 48 * Z.of_nat (S (length ws)))
        with ((n + 48) + 48 * Z.of_nat (length ws)) by lia.
      apply IH; [exact HFs | lia |].
      rewrite Z.pow_add_r by lia. nia. }
  intros HF. apply (G ws 0 0 HF); [lia | cbn; lia].
Qed.

Lemma pwle_sections_binary32 (composite : list PrimitivePwle) :
  Forall binary32_pwle composite ->
  forall prev, Forall binary32_section (pwle_sections prev composite).
Proof.
  assert (Hlevel : forall x, binary32 x -> binary32 (device_level x)).
  { intros x Hx. unfold device_level.
    destruct (F32.gtb x CS40L26_PWLE_LEVEL_MAX); [reflexivity | exact Hx]. }
  induction 1 as [| e rest He _ IH]; intros prev; [constructor |].
  destruct e as [a | b]; cbn [pwle_sections].
  - destruct He as (H1 & H2 & H3 & H4). cbv zeta. cbn [fst snd].
    destruct (same_point _ prev); cbn [app];
      repeat (constructor; [cbn [binary32_section]; auto |]); apply IH.
  - repeat (constructor; [exact I |]). apply IH.
Qed.
(** ** The blob of a PWLE as a stream *)

Lemma groups_value_acc (g : nat) : forall l acc,
  length l = (4 * g)%nat ->
  groups_value acc l = acc * 2 ^ (24 * Z.of_nat g) + groups_value 0 l.
Proof.
  induction g as [| g IH]; intros l acc Hl.
  - destruct l; [cbn; lia | discriminate Hl].
  - destruct l as [| x0 [| x1 [| x2 [| x3 l]]]];
      try (cbn [length] in Hl; lia).
    cbn [groups_value].
    rewrite (IH l (acc * 2 ^ 24 + _)), (IH l (0 * 2 ^ 24 + _))
      by (cbn [length] in Hl; lia).
    replace (24 * Z.of_nat (S g)) with (24 + 24 * Z.of_nat g) by lia.
    rewrite Z.pow_add_r by lia. ring.
Qed.

Lemma low_nibble_kept (b x : Z) :
  exists q, u8 (Z.lor b (Z.shiftl x 4)) = b + 16 * q.
Proof.
  assert (H : u8 (Z.lor b (Z.shiftl x 4)) mod 2 ^ 4 = b mod 2 ^ 4).
  { unfold u8. change 256 with (2 ^ 8). Z.bitblast.
    subst l. rewrite (Z.testbit_neg_r x) by lia.
    rewrite orb_false_r. reflexivity. }
  change (2 ^ 4) with 16 in H.
  exists (u8 (Z.lor b (Z.shiftl x 4)) / 16 - b / 16).
  pose proof (Z.div_mod (u8 (Z.lor b (Z.shiftl x 4))) 16 ltac:(lia)).
  pose proof (Z.div_mod b 16 ltac:(lia)). lia.
Qed.

(** The header is in the first twelve bytes: what [updateWLength] and
    [updateNSection] store leaves the last bits of the stream as they
    are, from the low half of the byte at 9 on. *)
Lemma updateWLength_stream (h : list Z) (g : nat) (x0 x1 x2 x3 : Z) :
  (4 * (3 + g) <= length h)%nat ->
  exists t,
    groups_value 0
      (take (4 * (3 + g))
         (<[3%nat := x3]> (<[2%nat := x2]> (<[1%nat := x1]>
            (<[0%nat := x0]> h)))))
    = groups_value 0 (take (4 * (3 + g)) h)
      + t * 2 ^ (24 * Z.of_nat g + 20).
Proof.
  intros Hl.
  destruct h as [| a0 [| a1 [| a2 [| a3 [| a4 [| a5 [| a6 [| a7 [| a8
    [| a9 [| a10 [| a11 h]]]]]]]]]]]]; try (cbn [length] in Hl; lia).
  replace (4 * (3 + g))%nat with (12 + 4 * g)%nat by lia.
  cbn [insert list_insert firstn Nat.add groups_value].
  cbn [length] in Hl.
  rewrite (groups_value_acc g (take (4 * g) h) (_ + (a9 * _ + _ + _))),
    (groups_value_acc g (take (4 * g) h) (_ + (a9 * _ + _ + _)))
    by (rewrite length_take; lia).
  rewrite Z.pow_add_r by lia.
  exists ((x1 - a1) * 2 ^ 44 + (x2 - a2) * 2 ^ 36 + (x3 - a3) * 2 ^ 28).
  ring.
Qed.

Lemma updateNSection_stream (h : list Z) (g : nat) (n7 n9 : Z) :
  (4 * (3 + g) <= length h)%nat ->
  exists t,
    groups_value 0
      (take (4 * (3 + g))
         (<[9%nat := u8 (Z.lor (<[7%nat := u8 (Z.lor (h !!! 7%nat) n7)]> h
                                !!! 9%nat) (Z.shiftl n9 4))]>
            (<[7%nat := u8 (Z.lor (h !!! 7%nat) n7)]> h)))
    = groups_value 0 (take (4 * (3 + g)) h)
      + t * 2 ^ (24 * Z.of_nat g + 20).
Proof.
  intros Hl.
  destruct h as [| a0 [| a1 [| a2 [| a3 [| a4 [| a5 [| a6 [| a7 [| a8
    [| a9 [| a10 [| a11 h]]]]]]]]]]]]; try (cbn [length] in Hl; lia).
  replace (4 * (3 + g))%nat with (12 + 4 * g)%nat by lia.
  cbn [insert list_insert lookup_total list_lookup_total
       firstn Nat.add groups_value].
  cbn [length] in Hl.
  destruct (low_nibble_kept a9 n9) as [q ->].
  set (b7 := u8 (Z.lor a7 n7)).
  rewrite (groups_value_acc g (take (4 * g) h) (_ + (_ * _ + _ + _))),
    (groups_value_acc g (take (4 * g) h) (_ + (a9 * _ + _ + _)))
    by (rewrite length_take; lia).
  rewrite Z.pow_add_r by lia.
  exists ((b7 - a7) * 2 ^ 4 + q).
  ring.
Qed.
(** ** The set points in the blob of a PWLE *)

Lemma new_pwle_streaming :
  streaming
    (DspMemChunk.new WAVEFORM_PWLE (Z.to_nat FF_CUSTOM_DATA_LEN_MAX_PWLE))
    52 0.
Proof.
  unfold streaming.
  split; [vm_compute; reflexivity |]. split; [vm_compute; reflexivity |].
  split; [vm_compute; split; [discriminate | reflexivity] |].
  split; [exists 2%nat; vm_compute; reflexivity |].
  split; vm_compute; reflexivity.
Qed.

Lemma updateWLength_bits (d : Z) (c : DspMemChunk.t) (g : nat) :
  DspMemChunk._current c = (4 * (3 + g))%nat ->
  (DspMemChunk._current c <= length (DspMemChunk.head c))%nat ->
  let c' := snd (DspMemChunk.updateWLength d c) in
  DspMemChunk.bytes c' = DspMemChunk.bytes c
  /\ DspMemChunk.waveformType c' = DspMemChunk.waveformType c
  /\ DspMemChunk._current c' = DspMemChunk._current c
  /\ DspMemChunk._cachebits c' = DspMemChunk._cachebits c
  /\ DspMemChunk._cache c' = DspMemChunk._cache c
  /\ length (DspMemChunk.head c') = length (DspMemChunk.head c)
  /\ exists t,
       groups_value 0 (written c')
       = groups_value 0 (written c) + t * 2 ^ (24 * Z.of_nat g + 20).
Proof.
  intros Hcur Hlen. cbv zeta. unfold DspMemChunk.updateWLength.
  cbv zeta.
  destruct (negb _);
    [cbn [snd]; repeat (split; [reflexivity |]); exists 0; lia |].
  destruct (_ >? _);
    [cbn [snd]; repeat (split; [reflexivity |]); exists 0; lia |].
  cbn [snd]. unfold written, DspMemChunk.set_head, DspMemChunk.front.
  cbn [DspMemChunk.head DspMemChunk.bytes DspMemChunk.waveformType
       DspMemChunk._current DspMemChunk._cachebits DspMemChunk._cache].
  repeat (split; [reflexivity |]).
  split; [rewrite !length_insert; reflexivity |].
  rewrite Hcur. apply updateWLength_stream. lia.
Qed.

Lemma updateNSection_bits (n : Z) (c : DspMemChunk.t) (g : nat) :
  DspMemChunk.waveformType c = WAVEFORM_PWLE ->
  DspMemChunk._current c = (4 * (3 + g))%nat ->
  (DspMemChunk._current c <= length (DspMemChunk.head c))%nat ->
  let c' := snd (DspMemChunk.updateNSection n c) in
  DspMemChunk.bytes c' = DspMemChunk.bytes c
  /\ DspMemChunk._current c' = DspMemChunk._current c
  /\ DspMemChunk._cachebits c' = DspMemChunk._cachebits c
  /\ DspMemChunk._cache c' = DspMemChunk._cache c
  /\ exists t,
       groups_value 0 (written c')
       = groups_value 0 (written c) + t * 2 ^ (24 * Z.of_nat g + 20).
Proof.
  intros Ht Hcur Hlen. cbv zeta. unfold DspMemChunk.updateNSection.
  cbv zeta. rewrite Ht.
  change (WAVEFORM_PWLE =? WAVEFORM_COMPOSE) with false.
  change (WAVEFORM_PWLE =? WAVEFORM_PWLE) with true. cbv iota.
  destruct (_ >? _);
    [cbn [snd]; repeat (split; [reflexivity |]); exists 0; lia |].
  cbn [snd]. unfold written, DspMemChunk.set_head, DspMemChunk.front.
  cbn [DspMemChunk.head DspMemChunk.bytes DspMemChunk.waveformType
       DspMemChunk._current DspMemChunk._cachebits DspMemChunk._cache].
  repeat (split; [reflexivity |]).
  rewrite Hcur. apply updateNSection_stream. lia.
Qed.

(** The blob once flushed and patched: the bits of the sections are the
    last ones of its stream, before the twenty that the flush adds. *)
Lemma pwle_blob_stream (c : DspMemChunk.t) (n : nat) (value d idx : Z) :
  streaming c (52 + 48 * Z.of_nat n) value ->
  0 <= value < 2 ^ (48 * Z.of_nat n) ->
  DspMemChunk.waveformType c = WAVEFORM_PWLE ->
  52 + 48 * Z.of_nat n + 24 <= 6 * Z.of_nat (DspMemChunk._max c) ->
  let ch := snd (DspMemChunk.updateNSection idx
                   (snd (DspMemChunk.updateWLength d
                           (snd (DspMemChunk.flush c))))) in
  DspMemChunk.size ch = 12 + 8 * Z.of_nat n
  /\ stream_length ch = 52 + 48 * Z.of_nat n + 20
  /\ bit_stream ch mod 2 ^ (48 * Z.of_nat n + 20) = value * 2 ^ 20.
Proof.
  intros Hs Hv Ht Hroom. cbv zeta.
  assert (Hcb : DspMemChunk._cachebits c = 4).
  { destruct Hs as (_ & Hl & Hb & [k Hk] & _). unfold stream_length in Hl.
    lia. }
  assert (Hflush : snd (DspMemChunk.flush c) = DspMemChunk.write_ 20 0 c).
  { unfold DspMemChunk.flush. rewrite Hcb. reflexivity. }
  rewrite Hflush.
  destruct (write_streaming 20 0 c _ _ Hs) as (Hs2 & Hm2 & Ht2);
    [lia | split; [lia | reflexivity] | exact Hroom |].
  set (c2 := DspMemChunk.write_ 20 0 c) in *.
  destruct Hs2 as (Hbits & Hl & Hb & [k Hk] & Hh & Hby).
  unfold stream_length in Hl.
  assert (Hcb2 : DspMemChunk._cachebits c2 = 0) by lia.
  assert (Hcur : DspMemChunk._current c2 = (4 * (3 + 2 * n))%nat) by lia.
  assert (Hlen : (DspMemChunk._current c2 <= length (DspMemChunk.head c2))%nat)
    by lia.
  destruct (updateWLength_bits d c2 (2 * n) Hcur Hlen)
    as (By3 & Ty3 & Cu3 & Kb3 & Ca3 & Ln3 & [t3 Gv3]).
  cbv zeta in *.
  set (c3 := snd (DspMemChunk.updateWLength d c2)) in *.
  destruct (updateNSection_bits idx c3 (2 * n))
    as (By4 & Cu4 & Kb4 & Ca4 & [t4 Gv4]); [congruence | congruence | lia |].
  cbv zeta in *.
  set (c4 := snd (DspMemChunk.updateNSection idx c3)) in *.
  unfold DspMemChunk.size, stream_length, bit_stream, pending in *.
  rewrite By4, By3, Cu4, Cu3, Kb4, Kb3, Hcb2, Gv4, Gv3.
  rewrite Hcb2 in Hbits.
  change (2 ^ 0) with 1 in *. rewrite Z.mod_1_r, Z.mul_1_r, Z.add_0_r in *.
  rewrite Z.add_0_r in Hbits.
  split; [lia |]. split; [lia |].
  rewrite Hbits.
  replace (24 * Z.of_nat (2 * n) + 20) with (48 * Z.of_nat n + 20) by lia.
  replace (value * 2 ^ 20 + t3 * 2 ^ (48 * Z.of_nat n + 20)
           + t4 * 2 ^ (48 * Z.of_nat n + 20) + 0)
    with (value * 2 ^ 20 + (t3 + t4) * 2 ^ (48 * Z.of_nat n + 20)) by ring.
  rewrite Z.mod_add by (apply Z.pow_nonzero; lia).
  apply Z.mod_small. rewrite Z.pow_add_r by lia.
  change (2 ^ 20) with 1048576. nia.
Qed.

Lemma set_point_word (a f : F32.float) (w : Z) :
  binary32 a -> binary32 f ->
  section_bits (SetPoint a f) = Some w -> word_delay w = 0.
Proof.
  intros Ba Bf. unfold section_bits, section_fields, active_fields.
  change (converted (F32.of_Z 0) (F32.of_Z 4) (F32.of_Z 0)
            (F32.of_Z COMPOSE_PWLE_PRIMITIVE_DURATION_MAX_MS))
    with (Some 0).
  destruct (converted a _ _ _) as [amp |] eqn:Ha; [| discriminate].
  destruct (converted f _ _ _) as [freq |] eqn:Hf; [| discriminate].
  intros [= <-].
  pose proof (amplitude_fits _ _ Ba Ha).
  pose proof (frequency_fits _ _ Bf Hf).
  unfold word_delay, section_word. apply Z.div_small.
  change (Z.shiftl (Z.lor 0 1) 4) with 16.
  change (2 ^ 32) with 4294967296. change (2 ^ 12) with 4096 in *.
  change (2 ^ 8) with 256. lia.
Qed.

(** The blob of an accepted PWLE is what writing the sections of
    [pwle_sections] gives, flushed and patched with the total duration
    and the number of sections, which is 127 at most. *)
Lemma composePwle_encode_written (clab : bool)
    (composite : list PrimitivePwle) (ch : DspMemChunk.t) :
  composePwle_encode clab composite = Enc_ok ch ->
  let sections := pwle_sections reset_point composite in
  exists c d,
    write_sections sections
      (DspMemChunk.new WAVEFORM_PWLE (Z.to_nat FF_CUSTOM_DATA_LEN_MAX_PWLE))
    = Some c
    /\ ch = snd (DspMemChunk.updateNSection (Z.of_nat (length sections))
                   (snd (DspMemChunk.updateWLength d
                           (snd (DspMemChunk.flush c)))))
    /\ (length sections <= 2 * 127)%nat.
Proof.
  unfold composePwle_encode.
  destruct (Nat.eqb (length composite) 0) eqn:Hz; [discriminate |].
  cbn [orb].
  destruct (Z.gtb_spec (Z.of_nat (length composite))
              COMPOSE_PWLE_SIZE_MAX_DEFAULT) as [| Hmax]; [discriminate |].
  cbv zeta. unfold resetPreviousEndAmplitudeEndFrequency, reset_point.
  cbv zeta. cbv iota. cbv beta.
  destruct (composePwle_loop clab composite _) as [[[s c] | st1] |] eqn:Hloop;
    try discriminate.
  apply composePwle_loop_sections_from in Hloop as (Hw & Hi & Hd).
  destruct (_ >? 0x7FFFF); [discriminate |].
  rewrite Hi, Z.add_0_l.
  destruct (DspMemChunk.updateWLength _ _) as [r1 c1] eqn:H1.
  destruct (r1 <? 0); [discriminate |].
  destruct (DspMemChunk.updateNSection _ c1) as [r2 c2] eqn:H2.
  destruct (r2 <? 0); [discriminate |].
  intros [= <-]. exists (pl_ch st1). eexists. split; [exact Hw |].
  split; [rewrite H1; cbn [snd]; rewrite H2; reflexivity |].
  pose proof (pwle_sections_length composite (F32.of_Z (-1), F32.of_Z (-1))).
  unfold COMPOSE_PWLE_SIZE_MAX_DEFAULT in Hmax. lia.
Qed.

Lemma pwle_sections_app (before rest : list PrimitivePwle) :
  forall prev,
    pwle_sections prev (before ++ rest)
    = pwle_sections prev before
      ++ pwle_sections (point_kept prev before) rest.
Proof.
  induction before as [| [a | b] before IH]; intros prev;
    cbn [app pwle_sections point_kept fold_left next_point];
    [reflexivity | |].
  - cbv zeta. cbn [fst snd]. rewrite IH. unfold point_kept.
    rewrite <- app_assoc. reflexivity.
  - rewrite IH. reflexivity.
Qed.

Lemma point_kept_last (prev : F32.float * F32.float)
    (before : list PrimitivePwle) (e : PrimitivePwle) :
  point_kept prev (before ++ [e]) = next_point e.
Proof. unfold point_kept. rewrite fold_left_app. reflexivity. Qed.

(** C2, as amended.  The blob of an accepted PWLE carries the sections
    of [pwle_sections] and nothing else after its header: 48 bits for
    each section, in order (16 of delay, 12 of amplitude, 12 of
    frequency, 8 of flags), then the 20 bits of the flush; so it is of
    12 + 8 n bytes for n sections.  For an active segment anywhere in
    the composition, these sections are those of the elements before
    it, then one set point when its start point (amplitude as clamped
    to the ceiling of the device, and frequency) differs from the end
    point kept and none when both are equal, then its ramp, then the
    sections of the elements after it.  The end point kept is that of
    the element just before (for an active segment its end amplitude as
    clamped and its end frequency), and the reset value at the start
    and after a braking segment, which no valid amplitude equals, so a
    set point is written there.  The word of a set point has a delay of
    zero. *)
Theorem composePwle_set_points :
  (forall isClabSupported composite ch,
     Forall binary32_pwle composite ->
     composePwle_encode isClabSupported composite = Enc_ok ch ->
     let sections := pwle_sections reset_point composite in
     let n := Z.of_nat (length sections) in
     exists words,
       Forall2 (fun s w => section_bits s = Some w) sections words
       /\ DspMemChunk.size ch = 12 + 8 * n
       /\ stream_length ch = 52 + 48 * n + 20
       /\ bit_stream ch mod 2 ^ (48 * n + 20) = words_value words * 2 ^ 20)
  /\ (forall before a rest,
        pwle_sections reset_point (before ++ active a :: rest)
        = pwle_sections reset_point before
          ++ (if same_point
                   (device_level (startAmplitude a), startFrequency a)
                   (point_kept reset_point before)
              then []
              else [SetPoint (device_level (startAmplitude a))
                             (startFrequency a)])
          ++ Ramp (active_duration a) (device_level (endAmplitude a))
                  (endFrequency a)
                  (F32.neb (startFrequency a) (endFrequency a))
             :: pwle_sections (device_level (endAmplitude a), endFrequency a)
                  rest)
  /\ (point_kept reset_point [] = reset_point
      /\ (forall before b,
            point_kept reset_point (before ++ [braking b]) = reset_point)
      /\ (forall before a,
            point_kept reset_point (before ++ [active a])
            = (device_level (endAmplitude a), endFrequency a)))
  /\ (forall a f,
        F32.ltb a PWLE_LEVEL_MIN = false ->
        same_point (device_level a, f) reset_point = false)
  /\ (forall a f w,
        binary32 a -> binary32 f ->
        section_bits (SetPoint a f) = Some w -> word_delay w = 0).
Proof.
  split; [| split; [| split; [| split]]].
  2: { intros before a rest. rewrite pwle_sections_app.
       cbn [pwle_sections]. cbv zeta. cbn [fst snd]. reflexivity. }
  2: { split; [reflexivity |].
       split; intros; apply point_kept_last. }
  2: { apply valid_level_differs_from_reset. }
  2: { apply set_point_word. }
  intros clab composite ch HB Henc. cbv zeta.
  destruct (composePwle_encode_written clab composite ch Henc)
    as (c & d & Hw & -> & Hn).
  pose proof (pwle_sections_binary32 composite HB reset_point) as HBs.
  set (sections := pwle_sections reset_point composite) in *.
  pose proof (ChunkFacts.new_max WAVEFORM_PWLE
                (Z.to_nat FF_CUSTOM_DATA_LEN_MAX_PWLE)) as Hm0.
  pose proof (ChunkFacts.new_type WAVEFORM_PWLE
                (Z.to_nat FF_CUSTOM_DATA_LEN_MAX_PWLE)) as Ht0.
  destruct (write_sections_streaming sections _ c 52 0 HBs Hw
              new_pwle_streaming)
    as (words & HF & HR & Hs & Hm & Ht).
  { rewrite Hm0. unfold FF_CUSTOM_DATA_LEN_MAX_PWLE. lia. }
  exists words. split; [exact HF |].
  pose proof (words_value_bound words HR) as Hbound.
  assert (Hlen : length words = length sections)
    by (symmetry; exact (Forall2_length _ _ _ HF)).
  rewrite Hlen in Hbound.
  apply pwle_blob_stream.
  - exact Hs.
  - exact Hbound.
  - congruence.
  - rewrite Hm, Hm0. unfold FF_CUSTOM_DATA_LEN_MAX_PWLE. lia.
Qed.

Lemma composePwle_set_points_witness :
  exists ch words,
    composePwle_encode false [ramp_up; hold; brake] = Enc_ok ch
    /\ Forall2 (fun s w => section_bits s = Some w)
         (pwle_sections reset_point [ramp_up; hold; brake]) words
    /\ DspMemChunk.size ch = 52
    /\ bit_stream ch mod 2 ^ 260 = words_value words * 2 ^ 20.
Proof.
  destruct (composePwle_encode false [ramp_up; hold; brake]) as [ch | |] eqn:H;
    [| vm_compute in H; discriminate H | vm_compute in H; discriminate H].
  assert (HB : Forall binary32_pwle [ramp_up; hold; brake]).
  { repeat constructor. }
  destruct (proj1 composePwle_set_points false _ ch HB H)
    as (words & HF & Hsize & _ & Hbits).
  exists ch, words. split; [reflexivity |]. split; [exact HF |].
  split; [exact Hsize | exact Hbits].
Defined.

(** C2, counterexample.  A start amplitude over the ceiling of the
    device is compared as clamped, not as given.  A ramp from 0 to 1.0
    and then one from 0.9996 to 0.5, both at 50 Hz, are accepted; the
    second starts at an amplitude that is neither the end amplitude of
    the first nor the ceiling kept for it, yet the blob has the three
    sections of a set point and two ramps (count 3 in the high half of
    the byte at 9, 36 bytes), and no set point before the second ramp:
    both amplitudes are the ceiling once clamped. *)
Lemma composePwle_compares_clamped_amplitudes :
  exists ch,
    composePwle_encode false [full_ramp; ramp_down] = Enc_ok ch
    /\ F32.eqb (F32.of_ratio 9996 10000) (F32.of_Z 1) = false
    /\ F32.eqb (F32.of_ratio 9996 10000) CS40L26_PWLE_LEVEL_MAX = false
    /\ DspMemChunk.size ch = 36
    /\ written ch
       = [0; 128; 6; 112; 0; 0; 0; 0; 0; 48; 0; 0;
          0; 0; 12; 129; 0; 0; 25; 7; 0; 255; 12; 129;
          0; 0; 25; 4; 0; 0; 12; 129; 0; 0; 0; 0]
    /\ pwle_sections reset_point [full_ramp; ramp_down]
       = [SetPoint (F32.of_Z 0) (F32.of_Z 50);
          Ramp 100 CS40L26_PWLE_LEVEL_MAX (F32.of_Z 50) false;
          Ramp 100 (F32.of_ratio 1 2) (F32.of_Z 50) false].
Proof.
  destruct (composePwle_encode false [full_ramp; ramp_down])
    as [ch | |] eqn:H;
    [| vm_compute in H; discriminate H | vm_compute in H; discriminate H].
  exists ch. split; [reflexivity |].
  vm_compute in H. injection H as <-.
  repeat split; vm_compute; reflexivity.
Qed.
